(** * tiedot: the memory-mapped data file and the chained hash table

    A shallow embedding of [file/file.go] (the append-growing mapped file)
    and [file/hash.go] (the static-bucket chained hash table of uint64
    key-value pairs), followed by the properties of the two.

    Conventions of the embedding.
    - A Go [uint64] is a [Z] in [0, 2^64); every arithmetic expression of the
      source is wrapped with [wrap], shifts with [shl].
    - The mapped byte window [Buf] is a [list Z] of bytes.  The mapping is
      shared with the file and always covers the whole file, so the same
      list stands for the contents of the file on disk.
    - A Go run-time panic (index or slice bounds out of range, division by
      zero) is the outcome [Panic]; an error value returned to the caller is
      [Err]; loops that the source writes as [for { ... }] or as recursion
      consume fuel and yield [OutOfFuel] when it is exhausted.
    - Runs are sequential, so the state of the locks is not part of the
      model; the only thing kept of [regionRWMutex] is its length, because
      indexing that slice can panic.
    - Operating-system calls (open, seek, write, fsync, mmap) are taken to
      succeed. *)

From Stdlib Require Import ZArith Lia Bool List.
From stdpp Require Import base tactics option list.

Open Scope Z_scope.

(** ** Machine integers *)

Definition wrap (x : Z) : Z := x mod 18446744073709551616.

(** [x << s] on uint64: bits shifted past bit 63 are lost, and a shift count
    of 64 or more gives 0. *)
Definition shl (x s : Z) : Z := wrap (Z.shiftl x s).

(** ** Outcomes *)

Inductive outcome (A : Type) : Type :=
| Ok (a : A)
| Err
| Panic
| OutOfFuel.
Arguments Ok {A} a.
Arguments Err {A}.
Arguments Panic {A}.
Arguments OutOfFuel {A}.

Definition bind {A B : Type} (m : outcome A) (k : A -> outcome B) : outcome B :=
  match m with
  | Ok a => k a
  | Err => Err
  | Panic => Panic
  | OutOfFuel => OutOfFuel
  end.

Declare Scope outcome_scope.
Delimit Scope outcome_scope with outcome.
Notation "x <- m ;; k" := (bind m (fun x => k))
  (at level 100, m at next level, right associativity) : outcome_scope.
Open Scope outcome_scope.

(** ** Byte slices *)

(** [buf[i]] *)
Definition index (buf : list Z) (i : Z) : outcome Z :=
  match buf !! Z.to_nat i with
  | Some b => Ok b
  | None => Panic
  end.

(** [buf[i] = b] *)
Definition store (buf : list Z) (i b : Z) : outcome (list Z) :=
  if i <? Z.of_nat (length buf) then Ok (<[Z.to_nat i := b]> buf) else Panic.

(** [buf[lo:hi]], the bytes of the window. *)
Definition slice (buf : list Z) (lo hi : Z) : outcome (list Z) :=
  if (lo <=? hi) && (hi <=? Z.of_nat (length buf))
  then Ok (take (Z.to_nat (hi - lo)) (drop (Z.to_nat lo) buf))
  else Panic.

(** A Go slice aliases its backing array: running [f] on [buf[lo:hi]] and
    putting the window back is what a callee writing through the slice
    does to [buf]. *)
Definition through_slice (buf : list Z) (lo hi : Z)
    (f : list Z -> outcome (list Z)) : outcome (list Z) :=
  s <- slice buf lo hi ;;
  s' <- f s ;;
  Ok (take (Z.to_nat lo) buf ++ s' ++ drop (Z.to_nat hi) buf).

(** ** encoding/binary: unsigned varints (Go standard library) *)

(** [binary.Uvarint]: value and number of bytes read; [(0, 0)] when the
    buffer ends inside a varint, [(0, -(i+1))] on 64-bit overflow. *)
Fixpoint Uvarint_loop (buf : list Z) (i x s : Z) : Z * Z :=
  match buf with
  | [] => (0, 0)
  | b :: rest =>
      if i =? 10 then (0, - (i + 1))
      else if b <? 128 then
        if (i =? 9) && (1 <? b) then (0, - (i + 1))
        else (Z.lor x (shl b s), i + 1)
      else Uvarint_loop rest (i + 1) (Z.lor x (shl (Z.land b 127) s)) (s + 7)
  end.

Definition Uvarint (buf : list Z) : Z * Z := Uvarint_loop buf 0 0 0.

(** [binary.PutUvarint]: only the bytes of the encoding are written, the
    rest of the slice keeps its contents. *)
Fixpoint PutUvarint_loop (fuel : nat) (buf : list Z) (i x : Z) : outcome (list Z) :=
  match fuel with
  | O => OutOfFuel
  | S fuel' =>
      if 128 <=? x then
        buf' <- store buf i (Z.lor (x mod 256) 128) ;;
        PutUvarint_loop fuel' buf' (i + 1) (Z.shiftr x 7)
      else store buf i (x mod 256)
  end.

(** A uint64 has at most ten base-128 digits. *)
Definition PutUvarint (buf : list Z) (x : Z) : outcome (list Z) :=
  PutUvarint_loop 10 buf 0 x.

(** ** file.go *)

Definition FILE_GROWTH_INCREMENTAL : Z := 1048576.

Record File : Type := mkFile {
  UsedSize : Z;
  Size : Z;
  Growth : Z;
  Buf : list Z
}.

Definition set_UsedSize (f : File) (u : Z) : File :=
  mkFile u (Size f) (Growth f) (Buf f).
Definition set_Buf (f : File) (b : list Z) : File :=
  mkFile (UsedSize f) (Size f) (Growth f) b.

(** [func (file *File) CheckSize(more uint64) bool] *)
Definition CheckSize (file : File) (more : Z) : bool :=
  wrap (UsedSize file + more) <=? Size file.

(** The loop of [CheckSizeAndEnsure] that appends zero bytes to the file:
<<
  for i := uint64(0); i < file.Growth; i += FILE_GROWTH_INCREMENTAL {
    if i+FILE_GROWTH_INCREMENTAL > file.Growth {
      slice = zeroBuf[0 : i+FILE_GROWTH_INCREMENTAL-file.Growth]
    } else { slice = zeroBuf }
    file.Fh.Write(slice)
  }
>> *)
Fixpoint writeZeros (fuel : nat) (growth i : Z) (disk : list Z) : outcome (list Z) :=
  match fuel with
  | O => OutOfFuel
  | S fuel' =>
      if i <? growth then
        let n :=
          if growth <? wrap (i + FILE_GROWTH_INCREMENTAL)
          then wrap (i + FILE_GROWTH_INCREMENTAL - growth)
          else FILE_GROWTH_INCREMENTAL in
        if n <=? FILE_GROWTH_INCREMENTAL then
          writeZeros fuel' growth (wrap (i + FILE_GROWTH_INCREMENTAL))
                     (disk ++ replicate (Z.to_nat n) 0)
        else Panic
      else Ok disk
  end.

(** [func (file *File) CheckSizeAndEnsure(more uint64)] *)
Fixpoint CheckSizeAndEnsure (fuel : nat) (file : File) (more : Z) : outcome File :=
  match fuel with
  | O => OutOfFuel
  | S fuel' =>
      if wrap (UsedSize file + more) <=? Size file then Ok file
      else
        disk <- writeZeros fuel (Growth file) 0 (Buf file) ;;
        CheckSizeAndEnsure fuel'
          (mkFile (UsedSize file) (wrap (Size file + Growth file)) (Growth file) disk)
          more
  end.

(** The search for the used size in [Open]:
<<
  for low, mid, high := uint64(0), file.Size/2, file.Size; ; {
    switch {
    case high-mid == 1:
      if file.Buf[mid] == 0 {
        if file.Buf[mid-1] == 0 { file.UsedSize = mid - 1 } else { file.UsedSize = mid }
        return
      }
      file.UsedSize = high
      return
    case file.Buf[mid] == 0:
      high = mid
      mid = low + (mid-low)/2
    default:
      low = mid
      mid = mid + (high-mid)/2
    }
  }
>> *)
Fixpoint findUsedSize (fuel : nat) (buf : list Z) (low mid high : Z) : outcome Z :=
  match fuel with
  | O => OutOfFuel
  | S fuel' =>
      if wrap (high - mid) =? 1 then
        bm <- index buf mid ;;
        if bm =? 0 then
          bm1 <- index buf (wrap (mid - 1)) ;;
          if bm1 =? 0 then Ok (wrap (mid - 1)) else Ok mid
        else Ok high
      else
        bm <- index buf mid ;;
        if bm =? 0 then
          findUsedSize fuel' buf low (wrap (low + wrap (mid - low) / 2)) mid
        else
          findUsedSize fuel' buf mid (wrap (mid + wrap (high - mid) / 2)) high
  end.

(** [func Open(name string, growth uint64) (file *File, err error)].

    [disk] is the contents of the file called [name] ([[]] when it does not
    exist yet: it is created empty).  The error that the source assigns
    when [growth < 1] is overwritten by the result of [os.OpenFile] on the
    next statement, so it never reaches the caller. *)
Definition Open (fuel : nat) (disk : list Z) (growth : Z) : outcome File :=
  let file := mkFile 0 (Z.of_nat (length disk)) growth disk in
  if Size file =? 0 then CheckSizeAndEnsure fuel file (Growth file)
  else
    used <- findUsedSize fuel (Buf file) 0 (Size file / 2) (Size file) ;;
    Ok (set_UsedSize file used).

(** ** hash.go *)

Definition HASH_TABLE_GROWTH : Z := 1048576.
Definition ENTRY_VALID : Z := 1.
Definition ENTRY_INVALID : Z := 0.
Definition ENTRY_SIZE : Z := 1 + 10 + 10.
Definition BUCKET_HEADER_SIZE : Z := 10.
Definition HASH_TABLE_REGION_SIZE : Z := 1024 * 16.

(** [regionRWMutex] is the length of the slice of region locks. *)
Record HashTable : Type := mkHashTable {
  HFile : File;
  BucketSize : Z;
  HashBits : Z;
  PerBucket : Z;
  NumBuckets : Z;
  InitialBuckets : Z;
  regionRWMutex : Z
}.

Definition with_File (ht : HashTable) (f : File) : HashTable :=
  mkHashTable f (BucketSize ht) (HashBits ht) (PerBucket ht)
              (NumBuckets ht) (InitialBuckets ht) (regionRWMutex ht).
Definition with_Buf (ht : HashTable) (b : list Z) : HashTable :=
  with_File ht (set_Buf (HFile ht) b).

(** [uint64(math.Pow(2, float64(hashBits)))].  Powers of two below 2^64 are
    exact in float64 and convert exactly.  From 2^64 on the conversion is
    out of range and its result depends on the implementation; the value
    taken here is not used by any property below. *)
Definition pow2_uint64 (hashBits : Z) : Z :=
  if hashBits <? 64 then 2 ^ hashBits else 9223372036854775808.

(** [mutex := ht.regionRWMutex[bucket / HASH_TABLE_REGION_SIZE]] *)
Definition regionMutex (ht : HashTable) (bucket : Z) : outcome unit :=
  if bucket / HASH_TABLE_REGION_SIZE <? regionRWMutex ht then Ok tt else Panic.

(** [func (ht *HashTable) nextBucket(bucket uint64) uint64] *)
Definition nextBucket (ht : HashTable) (bucket : Z) : outcome Z :=
  if NumBuckets ht <=? bucket then Ok 0
  else
    let bucketAddr := wrap (bucket * BucketSize ht) in
    hdr <- slice (Buf (HFile ht)) bucketAddr (wrap (bucketAddr + BUCKET_HEADER_SIZE)) ;;
    let next := fst (Uvarint hdr) in
    if next =? 0 then Ok 0
    else if next <=? bucket then Ok 0
    else if (NumBuckets ht <=? next) || (next <? InitialBuckets ht) then Ok 0
    else Ok next.

(** [func (ht *HashTable) lastBucket(bucket uint64) uint64] *)
Fixpoint lastBucket (fuel : nat) (ht : HashTable) (curr : Z) : outcome Z :=
  match fuel with
  | O => OutOfFuel
  | S fuel' =>
      next <- nextBucket ht curr ;;
      if next =? 0 then Ok curr else lastBucket fuel' ht next
  end.

(** [func (ht *HashTable) grow(bucket uint64)] *)
Definition grow (fuel : nat) (ht : HashTable) (bucket : Z) : outcome HashTable :=
  ht1 <-
    (if negb (CheckSize (HFile ht) (BucketSize ht)) then
       file <- CheckSizeAndEnsure fuel (HFile ht) (BucketSize ht) ;;
       Ok (mkHashTable file (BucketSize ht) (HashBits ht) (PerBucket ht)
             (NumBuckets ht) (InitialBuckets ht)
             (regionRWMutex ht + (HASH_TABLE_GROWTH / HASH_TABLE_REGION_SIZE + 1)))
     else Ok ht) ;;
  last <- lastBucket fuel ht1 bucket ;;
  let lastBucketAddr := wrap (last * BucketSize ht1) in
  buf <- through_slice (Buf (HFile ht1)) lastBucketAddr (wrap (lastBucketAddr + 10))
           (fun s => PutUvarint s (NumBuckets ht1)) ;;
  Ok (mkHashTable
        (mkFile (wrap (UsedSize (HFile ht1) + BucketSize ht1)) (Size (HFile ht1))
                (Growth (HFile ht1)) buf)
        (BucketSize ht1) (HashBits ht1) (PerBucket ht1)
        (wrap (NumBuckets ht1 + 1)) (InitialBuckets ht1) (regionRWMutex ht1)).

(** [func (ht *HashTable) hashKey(key uint64) uint64] *)
Definition hashKey (ht : HashTable) (key : Z) : Z :=
  Z.land key (wrap (shl 1 (HashBits ht) - 1)).

Definition entryAddrOf (ht : HashTable) (bucket entry : Z) : Z :=
  wrap (bucket * BucketSize ht + BUCKET_HEADER_SIZE + entry * ENTRY_SIZE).

(** The loop of [Put], entered at [(bucket, entry)] with the lock of the
    bucket's region held.  The branch that grows the chain is followed by
    the recursive call [ht.Put(key, val)], which starts over from the head
    bucket. *)
Fixpoint Put_loop (fuel : nat) (ht : HashTable) (key val bucket entry : Z)
  : outcome HashTable :=
  match fuel with
  | O => OutOfFuel
  | S fuel' =>
      let entryAddr := entryAddrOf ht bucket entry in
      flag <- index (Buf (HFile ht)) entryAddr ;;
      if negb (flag =? ENTRY_VALID) then
        buf1 <- store (Buf (HFile ht)) entryAddr ENTRY_VALID ;;
        buf2 <- through_slice buf1 (wrap (entryAddr + 1)) (wrap (entryAddr + 11))
                  (fun s => PutUvarint s key) ;;
        buf3 <- through_slice buf2 (wrap (entryAddr + 11)) (wrap (entryAddr + 21))
                  (fun s => PutUvarint s val) ;;
        Ok (with_Buf ht buf3)
      else
        let entry := wrap (entry + 1) in
        if entry =? PerBucket ht then
          bucket <- nextBucket ht bucket ;;
          if bucket =? 0 then
            ht' <- grow fuel' ht (hashKey ht key) ;;
            _ <- regionMutex ht' (hashKey ht' key) ;;
            Put_loop fuel' ht' key val (hashKey ht' key) 0
          else
            _ <- regionMutex ht bucket ;;
            Put_loop fuel' ht key val bucket 0
        else Put_loop fuel' ht key val bucket entry
  end.

(** [func (ht *HashTable) Put(key, val uint64)] *)
Definition Put (fuel : nat) (ht : HashTable) (key val : Z) : outcome HashTable :=
  _ <- regionMutex ht (hashKey ht key) ;;
  Put_loop fuel ht key val (hashKey ht key) 0.

(** The loop of [Get]. *)
Fixpoint Get_loop (fuel : nat) (ht : HashTable) (key limit : Z)
    (filter : Z -> Z -> bool) (count entry bucket : Z) (keys vals : list Z)
  : outcome (list Z * list Z) :=
  match fuel with
  | O => OutOfFuel
  | S fuel' =>
      let step (count : Z) (keys vals : list Z) :=
        let entry := wrap (entry + 1) in
        if entry =? PerBucket ht then
          bucket <- nextBucket ht bucket ;;
          if bucket =? 0 then Ok (keys, vals)
          else
            _ <- regionMutex ht bucket ;;
            Get_loop fuel' ht key limit filter count 0 bucket keys vals
        else Get_loop fuel' ht key limit filter count entry bucket keys vals in
      let entryAddr := entryAddrOf ht bucket entry in
      ks <- slice (Buf (HFile ht)) (wrap (entryAddr + 1)) (wrap (entryAddr + 11)) ;;
      vs <- slice (Buf (HFile ht)) (wrap (entryAddr + 11)) (wrap (entryAddr + 21)) ;;
      let entryKey := fst (Uvarint ks) in
      let entryVal := fst (Uvarint vs) in
      flag <- index (Buf (HFile ht)) entryAddr ;;
      if flag =? ENTRY_VALID then
        if (entryKey =? key) && filter entryKey entryVal then
          let keys := keys ++ [entryKey] in
          let vals := vals ++ [entryVal] in
          let count := wrap (count + 1) in
          if count =? limit then Ok (keys, vals) else step count keys vals
        else step count keys vals
      else if (entryKey =? 0) && (entryVal =? 0) then Ok (keys, vals)
      else step count keys vals
  end.

(** [make([]uint64, 0, cap)].  The Go runtime refuses a capacity whose
    bytes, 8 for every element, exceed the heap it can address and panics
    with "makeslice: cap out of range"; the bound taken here is the one of
    the 64-bit runtimes with 48 bits of heap address, [2^48] bytes, that
    is [2^45] elements.  Memory that the system cannot provide for a
    capacity below the bound is outside the model, as it is for [append]. *)
Definition MAX_SLICE_CAP : Z := 35184372088832.

Definition makeslice (cap : Z) : outcome unit :=
  if cap <=? MAX_SLICE_CAP then Ok tt else Panic.

(** [func (ht *HashTable) Get(key, limit uint64, filter func(uint64, uint64) bool)
    (keys, vals []uint64)].  The two result slices are made with capacity
    10 when [limit] is 0 and with capacity [limit] otherwise. *)
Definition Get (fuel : nat) (ht : HashTable) (key limit : Z)
    (filter : Z -> Z -> bool) : outcome (list Z * list Z) :=
  _ <- makeslice (if limit =? 0 then 10 else limit) ;;
  _ <- makeslice (if limit =? 0 then 10 else limit) ;;
  _ <- regionMutex ht (hashKey ht key) ;;
  Get_loop fuel ht key limit filter 0 0 (hashKey ht key) [] [].

(** The loop of [Remove]. *)
Fixpoint Remove_loop (fuel : nat) (ht : HashTable) (key val entry bucket : Z)
  : outcome HashTable :=
  match fuel with
  | O => OutOfFuel
  | S fuel' =>
      let step :=
        let entry := wrap (entry + 1) in
        if entry =? PerBucket ht then
          bucket <- nextBucket ht bucket ;;
          if bucket =? 0 then Ok ht
          else
            _ <- regionMutex ht bucket ;;
            Remove_loop fuel' ht key val 0 bucket
        else Remove_loop fuel' ht key val entry bucket in
      let entryAddr := entryAddrOf ht bucket entry in
      ks <- slice (Buf (HFile ht)) (wrap (entryAddr + 1)) (wrap (entryAddr + 11)) ;;
      vs <- slice (Buf (HFile ht)) (wrap (entryAddr + 11)) (wrap (entryAddr + 21)) ;;
      let entryKey := fst (Uvarint ks) in
      let entryVal := fst (Uvarint vs) in
      flag <- index (Buf (HFile ht)) entryAddr ;;
      if flag =? ENTRY_VALID then
        if (entryKey =? key) && (entryVal =? val) then
          buf <- store (Buf (HFile ht)) entryAddr ENTRY_INVALID ;;
          Ok (with_Buf ht buf)
        else step
      else if (entryKey =? 0) && (entryVal =? 0) then Ok ht
      else step
  end.

(** [func (ht *HashTable) Remove(key, val uint64)] *)
Definition Remove (fuel : nat) (ht : HashTable) (key val : Z) : outcome HashTable :=
  _ <- regionMutex ht (hashKey ht key) ;;
  Remove_loop fuel ht key val 0 (hashKey ht key).

(** The walk over the heads in [OpenHash]:
<<
  for i := uint64(0); i < ht.InitialBuckets; i++ {
    lastBucket := ht.lastBucket(i)
    if lastBucket+1 > longestBucketChain && lastBucket+1 <= ht.NumBuckets {
      longestBucketChain = lastBucket + 1
    }
  }
>>
    [n] counts the heads still to visit. *)
Fixpoint longestChain (fuel : nat) (ht : HashTable) (n : nat) (i longest : Z)
  : outcome Z :=
  match n with
  | O => Ok longest
  | S n' =>
      last <- lastBucket fuel ht i ;;
      let longest :=
        if (longest <? wrap (last + 1)) && (wrap (last + 1) <=? NumBuckets ht)
        then wrap (last + 1) else longest in
      longestChain fuel ht n' (wrap (i + 1)) longest
  end.

(** [func OpenHash(name string, hashBits, perBucket uint64) (ht *HashTable, err error)];
    [disk] is the contents of the file called [name], as for [Open]. *)
Definition OpenHash (fuel : nat) (disk : list Z) (hashBits perBucket : Z)
  : outcome HashTable :=
  if (hashBits <? 2) || (perBucket <? 2) then Err
  else
    file <- Open fuel disk HASH_TABLE_GROWTH ;;
    let rwMutexes := Size file / HASH_TABLE_REGION_SIZE + 1 in
    let bucketSize := wrap (BUCKET_HEADER_SIZE + ENTRY_SIZE * perBucket) in
    let file := set_UsedSize file (Size file) in
    if bucketSize =? 0 then Panic
    else
      let initialBuckets := pow2_uint64 hashBits in
      let ht := mkHashTable file bucketSize hashBits perBucket
                  (Size file / bucketSize) initialBuckets rwMutexes in
      longestBucketChain <-
        longestChain fuel ht (Z.to_nat initialBuckets) 0 initialBuckets ;;
      let usedSize := wrap (longestBucketChain * bucketSize) in
      file <-
        (if Size file <? usedSize then
           CheckSizeAndEnsure fuel (set_UsedSize file (Size file))
             (wrap (wrap (wrap (usedSize - Size file) / bucketSize + 1) * bucketSize))
         else Ok file) ;;
      Ok (mkHashTable (set_UsedSize file usedSize) bucketSize hashBits perBucket
            longestBucketChain initialBuckets rwMutexes).

(** [func (ht *HashTable) GetAll(limit uint64) (keys, vals []uint64)].

    The inner loop leaves with [break] (next head) when it meets a
    never-written entry, and with [return] (end of [GetAll]) when the limit
    is reached or when a chain ends; the boolean of the result tells which:
    [true] is [return]. *)
Fixpoint GetAll_loop (fuel : nat) (ht : HashTable) (limit counter entry bucket : Z)
    (keys vals : list Z) : outcome (bool * Z * list Z * list Z) :=
  match fuel with
  | O => OutOfFuel
  | S fuel' =>
      let step (counter : Z) (keys vals : list Z) :=
        let entry := wrap (entry + 1) in
        if entry =? PerBucket ht then
          bucket <- nextBucket ht bucket ;;
          if bucket =? 0 then Ok (true, counter, keys, vals)
          else
            _ <- regionMutex ht bucket ;;
            GetAll_loop fuel' ht limit counter 0 bucket keys vals
        else GetAll_loop fuel' ht limit counter entry bucket keys vals in
      let entryAddr := entryAddrOf ht bucket entry in
      ks <- slice (Buf (HFile ht)) (wrap (entryAddr + 1)) (wrap (entryAddr + 11)) ;;
      vs <- slice (Buf (HFile ht)) (wrap (entryAddr + 11)) (wrap (entryAddr + 21)) ;;
      let entryKey := fst (Uvarint ks) in
      let entryVal := fst (Uvarint vs) in
      flag <- index (Buf (HFile ht)) entryAddr ;;
      if flag =? ENTRY_VALID then
        let counter := wrap (counter + 1) in
        let keys := keys ++ [entryKey] in
        let vals := vals ++ [entryVal] in
        if counter =? limit then Ok (true, counter, keys, vals)
        else step counter keys vals
      else if (entryKey =? 0) && (entryVal =? 0) then Ok (false, counter, keys, vals)
      else step counter keys vals
  end.

Fixpoint GetAll_heads (fuel : nat) (ht : HashTable) (limit : Z) (n : nat)
    (head counter : Z) (keys vals : list Z) : outcome (list Z * list Z) :=
  match n with
  | O => Ok (keys, vals)
  | S n' =>
      _ <- regionMutex ht head ;;
      r <- GetAll_loop fuel ht limit counter 0 head keys vals ;;
      match r with
      | (true, _, keys, vals) => Ok (keys, vals)
      | (false, counter, keys, vals) =>
          GetAll_heads fuel ht limit n' (wrap (head + 1)) counter keys vals
      end
  end.

Definition GetAll (fuel : nat) (ht : HashTable) (limit : Z) : outcome (list Z * list Z) :=
  GetAll_heads fuel ht limit (Z.to_nat (pow2_uint64 (HashBits ht))) 0 0 [] [].

(** * Definitions used by the statements *)

(** ** The search for the used size *)

(** What holds of [low], [mid] and [high] at the head of the loop of
    [findUsedSize] over a buffer of [size] bytes. *)
Definition search_inv (size low mid high : Z) : Prop :=
  0 <= low <= mid /\ mid < high <= size /\ (mid = low -> high - mid = 1).

(** [used] is the end of a run of data in [buf]: the byte before it is not
    zero, and the byte at it, when there is one, is zero. *)
Definition data_end (buf : list Z) (used : Z) : Prop :=
  1 <= used <= Z.of_nat (length buf) /\
  (exists b, buf !! Z.to_nat (used - 1) = Some b /\ b <> 0) /\
  (used = Z.of_nat (length buf) \/ buf !! Z.to_nat used = Some 0).

(** ** Growing the file *)

(** The number of bytes that the write loop appends from position [i] on.
    A last chunk that is not whole has [i + 1 MiB - growth] bytes. *)
Definition appended_from (growth i : Z) : Z :=
  if growth <=? i then 0
  else (growth - i) / FILE_GROWTH_INCREMENTAL * FILE_GROWTH_INCREMENTAL +
       (if (growth - i) mod FILE_GROWTH_INCREMENTAL =? 0 then 0
        else FILE_GROWTH_INCREMENTAL - (growth - i) mod FILE_GROWTH_INCREMENTAL).

(** ** Outcomes *)

(** [approx o1 o2]: [o1] is the result of a run with less fuel than the
    run that gave [o2]: either it ran out of fuel, or it is the same. *)
Definition approx {A} (o1 o2 : outcome A) : Prop := o1 = OutOfFuel \/ o1 = o2.

(** ** The hash table *)

(** The header of bucket [b] as [nextBucket] reads it: the varint in the
    ten bytes at [b * BucketSize]. *)
Definition header_of (ht : HashTable) (b : Z) : Z :=
  fst (Uvarint (take 10 (drop (Z.to_nat (b * BucketSize ht)) (Buf (HFile ht))))).

(** [numBuckets × bucketSize == usedSize], the invariant of the
    specification: an equality of numbers. *)
Definition buckets_fill_used (ht : HashTable) : Prop :=
  NumBuckets ht * BucketSize ht = UsedSize (HFile ht).

(** The same as the Go expression [numBuckets*bucketSize == usedSize]
    evaluates, in uint64. *)
Definition buckets_fill_used_uint64 (ht : HashTable) : Prop :=
  wrap (NumBuckets ht * BucketSize ht) = UsedSize (HFile ht).

(** A table of three buckets of two entries each with two heads; the header
    of bucket 0 points to bucket 2. *)
Definition small_table : HashTable :=
  mkHashTable (mkFile 156 156 HASH_TABLE_GROWTH (2 :: replicate 155 0)) 52 1 2 3 2 1.

(** The operations that change a table, and a run of them in order.  [Get]
    and [GetAll] are queries: they return lists and leave the table as it
    is. *)
Inductive op : Type :=
| OpPut (key val : Z)
| OpRemove (key val : Z)
| OpGrow (bucket : Z).

Definition apply_op (fuel : nat) (ht : HashTable) (o : op) : outcome HashTable :=
  match o with
  | OpPut key val => Put fuel ht key val
  | OpRemove key val => Remove fuel ht key val
  | OpGrow bucket => grow fuel ht bucket
  end.

Fixpoint run (fuel : nat) (ops : list op) (ht : HashTable) : outcome HashTable :=
  match ops with
  | [] => Ok ht
  | o :: ops' => ht' <- apply_op fuel ht o ;; run fuel ops' ht'
  end.

(** The calls that the invariant is followed through: [Put] and [Remove]
    of any pair, and [grow] of any head bucket. *)
Definition table_op (hashBits : Z) (o : op) : Prop :=
  match o with
  | OpPut key val | OpRemove key val =>
      0 <= key < 18446744073709551616 /\ 0 <= val < 18446744073709551616
  | OpGrow bucket => 0 <= bucket < 2 ^ hashBits
  end.

(** ** A table opened on a new file *)

(** The size of the file after [OpenHash] on a new file: one growth step
    of [Open], and as many more as the head buckets need. *)
Definition fresh_Size (hashBits perBucket : Z) : Z :=
  let bucketSize := 10 + 21 * perBucket in
  let used := 2 ^ hashBits * bucketSize in
  if used <=? 1048576 then 1048576
  else
    let more := ((used - 1048576) / bucketSize + 1) * bucketSize in
    1048576 + (more + 1048575) / 1048576 * 1048576.

(** The table that [OpenHash] makes on a new file: every byte is zero. *)
Definition fresh_table (hashBits perBucket : Z) : HashTable :=
  mkHashTable
    (mkFile (2 ^ hashBits * (10 + 21 * perBucket)) (fresh_Size hashBits perBucket)
            HASH_TABLE_GROWTH
            (replicate (Z.to_nat (fresh_Size hashBits perBucket)) 0))
    (10 + 21 * perBucket) hashBits perBucket (2 ^ hashBits) (2 ^ hashBits) 65.

(** The parameters for which the head buckets fit the address space. *)
Definition params_fit (hashBits perBucket : Z) : Prop :=
  2 <= hashBits < 64 /\ 2 <= perBucket /\
  2 ^ hashBits * (10 + 21 * perBucket) + (10 + 21 * perBucket) + 4194304
    < 18446744073709551616.

(** ** Tables over a longer buffer *)

(** The table [ht] with [suf] appended to its buffer.  An operation that
    succeeds on [ht] without growing the file does the same on [pad suf ht]
    and leaves [suf] alone, so a run on a file with a long tail of zeros can
    be followed on the bytes in front of the tail. *)
Definition pad (suf : list Z) (ht : HashTable) : HashTable :=
  with_Buf ht (Buf (HFile ht) ++ suf).

(** ** Reading the table *)

(** The filter that accepts every pair. *)
Definition always_true (key val : Z) : bool := true.

(** Entry [entry] of bucket [bucket] as [Get] and [Remove] read it: the
    flag byte and the two varints. *)
Definition entry_at (ht : HashTable) (bucket entry : Z) : outcome (Z * Z * Z) :=
  let entryAddr := entryAddrOf ht bucket entry in
  ks <- slice (Buf (HFile ht)) (wrap (entryAddr + 1)) (wrap (entryAddr + 11)) ;;
  vs <- slice (Buf (HFile ht)) (wrap (entryAddr + 11)) (wrap (entryAddr + 21)) ;;
  flag <- index (Buf (HFile ht)) entryAddr ;;
  Ok (flag, fst (Uvarint ks), fst (Uvarint vs)).

(** ** The scenario of the specification: three keys of head 0 *)

(** [OpenHash] on a new file with [hashBits = 4] and [perBucket = 2], then
    [Put(0, 100)] and [Put(16, 200)] ... *)
Definition two_puts (fuel : nat) : outcome HashTable :=
  ht <- OpenHash fuel [] 4 2 ;;
  ht <- Put fuel ht 0 100 ;;
  Put fuel ht 16 200.

(** ... and [Put(32, 300)]. *)
Definition scenario2 (fuel : nat) : outcome HashTable :=
  ht <- two_puts fuel ;;
  Put fuel ht 32 300.

(** The file closed after the scenario and opened again with the same
    parameters. *)
Definition reopened (fuel : nat) : outcome HashTable :=
  ht <- scenario2 fuel ;;
  OpenHash fuel (Buf (HFile ht)) 4 2.

(** Bucket 0 after the first two [Put]s: no next bucket, entries
    [(0, 100)] and [(16, 200)]; 200 is the two-byte varint [200; 1]. *)
Definition head0_full : list Z :=
  replicate 10 0 ++
  [1] ++ (0 :: replicate 9 0) ++ (100 :: replicate 9 0) ++
  [1] ++ (16 :: replicate 9 0) ++ ([200; 1] ++ replicate 8 0).

(** The 884 bytes in use after the scenario: bucket 0 with its header
    pointing to bucket 16, buckets 1 to 15 untouched, and bucket 16 holding
    [(32, 300)] in its first entry; 300 is the varint [172; 2]. *)
Definition scenario2_bytes : list Z :=
  (16 :: replicate 9 0) ++
  [1] ++ (0 :: replicate 9 0) ++ (100 :: replicate 9 0) ++
  [1] ++ (16 :: replicate 9 0) ++ ([200; 1] ++ replicate 8 0) ++
  replicate (15 * 52) 0 ++
  replicate 10 0 ++
  [1] ++ (32 :: replicate 9 0) ++ ([172; 2] ++ replicate 8 0) ++
  replicate 21 0.

(** The tables of the scenario over the first 1024 bytes of the file. *)
Definition small_file (used : Z) (bytes : list Z) : File :=
  mkFile used 1048576 HASH_TABLE_GROWTH (bytes ++ replicate (1024 - length bytes) 0).

Definition small_opened : HashTable :=
  mkHashTable (small_file 832 []) 52 4 2 16 16 65.
Definition small_two_puts : HashTable :=
  mkHashTable (small_file 832 head0_full) 52 4 2 16 16 65.
Definition small_grown : HashTable :=
  mkHashTable (small_file 884 (16 :: drop 1 head0_full)) 52 4 2 17 16 65.
Definition small_scenario2 : HashTable :=
  mkHashTable (small_file 884 scenario2_bytes) 52 4 2 17 16 65.

(** The rest of the 1 MiB file: zeros. *)
Definition zero_tail : list Z := replicate (Z.to_nat (1048576 - 1024)) 0.

(** The table that [OpenHash] assumes on the reopened file before it walks
    the chains: the whole file taken as buckets. *)
Definition small_assumed : HashTable :=
  mkHashTable (small_file 1048576 scenario2_bytes) 52 4 2 20164 16 65.

(** ** A small file of four buckets *)

(** 208 bytes: four buckets of two entries; entry 0 of bucket 0 holds the
    key 16388 (the varint [132; 128; 1]) with the value 0. *)
Definition tiny_disk : list Z :=
  replicate 10 0 ++ [1; 132; 128; 1] ++ replicate 194 0.

(** ** Varints and writes *)

(** The bytes of the varint of [x]: seven bits a byte, low bits first, the
    high bit set on every byte but the last. *)
Fixpoint uvarint_bytes (fuel : nat) (x : Z) : list Z :=
  match fuel with
  | O => []
  | S fuel' =>
      if 128 <=? x then Z.lor (x mod 256) 128 :: uvarint_bytes fuel' (Z.shiftr x 7)
      else [x mod 256]
  end.

(** [buf] with [bytes] written from position [lo] on. *)
Definition write_bytes (buf : list Z) (lo : Z) (bytes : list Z) : list Z :=
  take (Z.to_nat lo) buf ++ bytes ++ drop (Z.to_nat lo + length bytes) buf.

(** The [n] bytes of [buf] from position [a] on. *)
Definition window (buf : list Z) (a : Z) (n : nat) : list Z :=
  take n (drop (Z.to_nat a) buf).

(** ** Well-formed tables and the entries of a chain *)

(** The buckets of the table lie inside the mapped buffer, entries have
    their size, the heads are the [2^HashBits] first buckets, and every
    bucket has its region lock. *)
Record wf_table (ht : HashTable) : Prop := {
  wf_PerBucket : 1 <= PerBucket ht;
  wf_BucketSize : BucketSize ht = 10 + 21 * PerBucket ht;
  wf_HashBits : 0 <= HashBits ht < 64;
  wf_InitialBuckets : InitialBuckets ht = 2 ^ HashBits ht;
  wf_NumBuckets : InitialBuckets ht <= NumBuckets ht;
  wf_Buf : NumBuckets ht * BucketSize ht <= Z.of_nat (length (Buf (HFile ht)));
  wf_uint64 : Z.of_nat (length (Buf (HFile ht))) < 18446744073709551616;
  wf_locks : NumBuckets ht <= HASH_TABLE_REGION_SIZE * regionRWMutex ht
}.

(** The fields of the entry at address [a]. *)
Definition flag_at (buf : list Z) (a : Z) : Z := default 0 (buf !! Z.to_nat a).
Definition key_at (buf : list Z) (a : Z) : Z := fst (Uvarint (window buf (a + 1) 10)).
Definition val_at (buf : list Z) (a : Z) : Z := fst (Uvarint (window buf (a + 11) 10)).

(** An entry that was never written, as the scans take it: not valid, key
    0 and value 0. *)
Definition is_sentinel (buf : list Z) (a : Z) : bool :=
  negb (flag_at buf a =? ENTRY_VALID) && (key_at buf a =? 0) && (val_at buf a =? 0).

(** The addresses of the entries that a scan visits from entry [entry] of
    bucket [bucket] on: the rest of the bucket, then the buckets that
    [nextBucket] gives, each from its entry 0, up to the end of the chain. *)
Fixpoint slots_from (fuel : nat) (ht : HashTable) (bucket entry : Z) : list Z :=
  match fuel with
  | O => []
  | S fuel' =>
      entryAddrOf ht bucket entry ::
      (if wrap (entry + 1) =? PerBucket ht then
         match nextBucket ht bucket with
         | Ok next => if next =? 0 then [] else slots_from fuel' ht next 0
         | _ => []
         end
       else slots_from fuel' ht bucket (wrap (entry + 1)))
  end.

(** The entries of the chain of [key], in the order of the scans. *)
Definition slots_of (ht : HashTable) (key : Z) : list Z :=
  slots_from (Z.to_nat (NumBuckets ht * PerBucket ht)) ht (hashKey ht key) 0.

(** [Remove], in the words of the specification: the first valid entry
    with the key and the value is the one to flip; a never-written entry
    before it stops the scan. *)
Fixpoint remove_scan (buf : list Z) (key val : Z) (slots : list Z) : option Z :=
  match slots with
  | [] => None
  | a :: rest =>
      if flag_at buf a =? ENTRY_VALID then
        if (key_at buf a =? key) && (val_at buf a =? val) then Some a
        else remove_scan buf key val rest
      else if is_sentinel buf a then None
      else remove_scan buf key val rest
  end.

Definition Remove_spec (ht : HashTable) (key val : Z) : HashTable :=
  match remove_scan (Buf (HFile ht)) key val (slots_of ht key) with
  | Some a => with_Buf ht (<[Z.to_nat a := ENTRY_INVALID]> (Buf (HFile ht)))
  | None => ht
  end.

(** [Get] without a limit: the valid entries with the key that the filter
    accepts, up to the first never-written entry. *)
Fixpoint get_scan (buf : list Z) (key : Z) (filter : Z -> Z -> bool) (slots : list Z)
  : list (Z * Z) :=
  match slots with
  | [] => []
  | a :: rest =>
      if flag_at buf a =? ENTRY_VALID then
        if (key_at buf a =? key) && filter (key_at buf a) (val_at buf a)
        then (key_at buf a, val_at buf a) :: get_scan buf key filter rest
        else get_scan buf key filter rest
      else if is_sentinel buf a then []
      else get_scan buf key filter rest
  end.

(** The entry at [a] after [Put] has claimed it. *)
Definition write_entry (buf : list Z) (a key val : Z) : list Z :=
  write_bytes
    (write_bytes (write_bytes buf a [ENTRY_VALID]) (a + 1) (uvarint_bytes 10 key))
    (a + 11) (uvarint_bytes 10 val).

(** The entry at [a] is valid and holds the pair [(key, val)]. *)
Definition matches (buf : list Z) (key val a : Z) : bool :=
  (flag_at buf a =? ENTRY_VALID) && (key_at buf a =? key) && (val_at buf a =? val).

(** The table that [OpenHash] makes of [tiny_disk]. *)
Definition tiny_opened : HashTable :=
  mkHashTable (mkFile 208 208 HASH_TABLE_GROWTH tiny_disk) 52 2 2 4 4 1.

(** [tiny_opened] after [Put(4, 7)], which takes the second and last entry
    of head bucket 0, and [Put(1, 9)], which takes the first entry of head
    bucket 1. *)
Definition tiny_two_heads : HashTable :=
  mkHashTable
    (mkFile 208 208 HASH_TABLE_GROWTH
       (replicate 10 0 ++ [1; 132; 128; 1] ++ replicate 17 0 ++
        [1; 4] ++ replicate 9 0 ++ [7] ++ replicate 9 0 ++
        replicate 10 0 ++ [1; 1] ++ replicate 9 0 ++ [9] ++ replicate 9 0 ++
        replicate 21 0 ++ replicate 104 0))
    52 2 2 4 4 1.

(** ** The pairs of a chain *)

(** The entries of the chain of head bucket [h], in the order of the scans. *)
Definition chain_of (ht : HashTable) (h : Z) : list Z :=
  slots_from (Z.to_nat (NumBuckets ht * PerBucket ht)) ht h 0.

(** The entries of bucket [b]. *)
Definition bucket_slots (ht : HashTable) (b : Z) : list Z :=
  map (fun e => b * BucketSize ht + 10 + e * 21) (seqZ 0 (PerBucket ht)).

Definition pair_at (buf : list Z) (a : Z) : Z * Z := (key_at buf a, val_at buf a).

(** A chain in the state that [Put] alone leaves it in: valid entries
    [used], which hold [pairs], then never-written entries [free]. *)
Definition chain_split (ht : HashTable) (h : Z) (used free : list Z)
    (pairs : list (Z * Z)) : Prop :=
  chain_of ht h = used ++ free /\
  Forall (fun a => flag_at (Buf (HFile ht)) a = ENTRY_VALID) used /\
  Forall (fun a => is_sentinel (Buf (HFile ht)) a = true) free /\
  map (pair_at (Buf (HFile ht))) used = pairs.

(** The layout of a table that only [OpenHash] on a new file, [Put] and
    [grow] have touched.  [owner b] is the head of the chain that bucket [b]
    was appended to. *)
Record Rep_base (ht : HashTable) (owner : Z -> Z) : Prop := {
  rep_wf : wf_table ht;
  rep_used : UsedSize (HFile ht) = NumBuckets ht * BucketSize ht;
  rep_size : Size (HFile ht) = Z.of_nat (length (Buf (HFile ht)));
  rep_growth : Growth (HFile ht) = HASH_TABLE_GROWTH;
  rep_locks :
    Size (HFile ht) <= BucketSize ht * HASH_TABLE_REGION_SIZE * regionRWMutex ht;
  rep_tail :
    forall i, NumBuckets ht * BucketSize ht <= i -> flag_at (Buf (HFile ht)) i = 0;
  rep_headers :
    forall b, 0 <= b < NumBuckets ht ->
      header_of ht b = 0 \/
      (b < header_of ht b < NumBuckets ht /\ InitialBuckets ht <= header_of ht b);
  rep_heads : forall h, 0 <= h < InitialBuckets ht -> owner h = h;
  rep_next :
    forall b, 0 <= b < NumBuckets ht -> header_of ht b <> 0 ->
      owner (header_of ht b) = owner b
}.

(** [Rep ht owner c]: the table [ht] stores, in the chain of every head
    [h], the pairs [c h] in this order. *)
Definition Rep (ht : HashTable) (owner : Z -> Z) (c : Z -> list (Z * Z)) : Prop :=
  Rep_base ht owner /\
  forall h, 0 <= h < InitialBuckets ht ->
    exists used free, chain_split ht h used free (c h).

(** The pairs of [pairs] with the key [key], as two lists. *)
Definition pairs_of_key (key : Z) (pairs : list (Z * Z)) : list Z * list Z :=
  (map fst (filter (fun p => fst p = key) pairs),
   map snd (filter (fun p => fst p = key) pairs)).

(** [Put] of every pair of [pairs], from left to right. *)
Definition puts (pairs : list (Z * Z)) : list op :=
  map (fun p => OpPut (fst p) (snd p)) pairs.

(** Entries that read the same in two buffers. *)
Definition same_entry (buf buf' : list Z) (x : Z) : Prop :=
  flag_at buf' x = flag_at buf x /\ key_at buf' x = key_at buf x /\
  val_at buf' x = val_at buf x.

(** [ends_at ht b l]: following the headers from bucket [b] ends at
    bucket [l], whose header is 0. *)
Inductive ends_at (ht : HashTable) : Z -> Z -> Prop :=
| ends_here b : header_of ht b = 0 -> ends_at ht b b
| ends_next b l :
    header_of ht b <> 0 -> ends_at ht (header_of ht b) l -> ends_at ht b l.

(** The table after [grow] has linked a new bucket behind bucket [l]. *)
Definition linked (ht : HashTable) (l : Z) : HashTable :=
  mkHashTable
    (mkFile (UsedSize (HFile ht) + BucketSize ht) (Size (HFile ht)) (Growth (HFile ht))
       (write_bytes (Buf (HFile ht)) (l * BucketSize ht)
          (uvarint_bytes 10 (NumBuckets ht))))
    (BucketSize ht) (HashBits ht) (PerBucket ht) (NumBuckets ht + 1)
    (InitialBuckets ht) (regionRWMutex ht).

(** ** The table as a multimap *)

(** What the scans make of an entry that [Put] or [Remove] wrote last:
    [Some (key, val)] is a valid entry with the pair, [None] an entry that
    is not valid and still holds a key or a value that is not 0. *)
Definition cell_at (buf : list Z) (a : Z) (c : option (Z * Z)) : Prop :=
  match c with
  | Some p => flag_at buf a = ENTRY_VALID /\ key_at buf a = fst p /\ val_at buf a = snd p
  | None => flag_at buf a <> ENTRY_VALID /\ is_sentinel buf a = false
  end.

(** [Put] on a list of cells: the pair takes the first cell that is not
    valid, or comes behind the last. *)
Fixpoint fill (cs : list (option (Z * Z))) (p : Z * Z) : list (option (Z * Z)) :=
  match cs with
  | [] => [Some p]
  | None :: rest => Some p :: rest
  | Some q :: rest => Some q :: fill rest p
  end.

(** [Remove] on a list of cells: the first cell with the pair is made
    not valid. *)
Fixpoint drop_pair (cs : list (option (Z * Z))) (p : Z * Z) : list (option (Z * Z)) :=
  match cs with
  | [] => []
  | None :: rest => None :: drop_pair rest p
  | Some q :: rest => if decide (q = p) then None :: rest else Some q :: drop_pair rest p
  end.

(** The pairs of the valid cells, in order. *)
Fixpoint pairs_in (cs : list (option (Z * Z))) : list (Z * Z) :=
  match cs with
  | [] => []
  | None :: rest => pairs_in rest
  | Some p :: rest => p :: pairs_in rest
  end.

(** The cells of every chain after an operation, [hash] giving the head
    bucket of a key. *)
Definition model_op (hash : Z -> Z) (m : Z -> list (option (Z * Z))) (o : op)
  : Z -> list (option (Z * Z)) :=
  match o with
  | OpPut key val => fun h => if decide (h = hash key) then fill (m h) (key, val) else m h
  | OpRemove key val =>
      fun h => if decide (h = hash key) then drop_pair (m h) (key, val) else m h
  | OpGrow _ => m
  end.

Definition model_run (hash : Z -> Z) (ops : list op) : Z -> list (option (Z * Z)) :=
  fold_left (model_op hash) ops (fun _ => []).

(** The calls that the properties of sequences are about: [Put] of any
    pair, and [Remove] of any pair but [(0, 0)]. *)
Definition user_op (o : op) : Prop :=
  match o with
  | OpPut key val =>
      0 <= key < 18446744073709551616 /\ 0 <= val < 18446744073709551616
  | OpRemove key val =>
      0 <= key < 18446744073709551616 /\ 0 <= val < 18446744073709551616 /\
      (key <> 0 \/ val <> 0)
  | OpGrow _ => False
  end.

(** A chain of [perBucket]-entry buckets with these cells has no entry
    left. *)
Definition chain_is_full (perBucket : Z) (cs : list (option (Z * Z))) : bool :=
  (0 <? Z.of_nat (length cs)) && (Z.of_nat (length cs) mod perBucket =? 0).

(** What [GetAll] collects from the chains of the heads, in order: the
    pairs of a chain, and those of the next heads unless the chain is
    full. *)
Fixpoint collect (perBucket : Z) (chains : list (list (option (Z * Z)))) : list (Z * Z) :=
  match chains with
  | [] => []
  | cs :: rest =>
      pairs_in cs ++ (if chain_is_full perBucket cs then [] else collect perBucket rest)
  end.

(** A chain whose entries [used] are the cells [cs], followed by
    never-written entries [free], fewer than a bucket has unless nothing
    of the chain is used. *)
Definition chain_cells (ht : HashTable) (h : Z) (used free : list Z)
    (cs : list (option (Z * Z))) : Prop :=
  chain_of ht h = used ++ free /\
  Forall2 (cell_at (Buf (HFile ht))) used cs /\
  Forall (fun a => is_sentinel (Buf (HFile ht)) a = true) free /\
  Z.of_nat (length free) <= PerBucket ht /\
  (used <> [] -> Z.of_nat (length free) < PerBucket ht).

(** [Rep2 ht owner m]: the layout of [Rep_base], the chains hold the
    cells [m], and the last bucket of the table is the last of a chain. *)
Definition Rep2 (ht : HashTable) (owner : Z -> Z) (m : Z -> list (option (Z * Z)))
  : Prop :=
  Rep_base ht owner /\
  (NumBuckets ht = InitialBuckets ht \/
   exists h, 0 <= h < InitialBuckets ht /\ ends_at ht h (NumBuckets ht - 1)) /\
  forall h, 0 <= h < InitialBuckets ht ->
    exists used free, chain_cells ht h used free (m h).

(** The inner loop of [GetAll] over the entries of a chain: the pairs of
    the valid entries up to the first never-written one; the boolean tells
    that the end of the chain was reached, which ends [GetAll]. *)
Fixpoint getall_scan (buf : list Z) (slots : list Z) : bool * list (Z * Z) :=
  match slots with
  | [] => (true, [])
  | a :: rest =>
      if flag_at buf a =? ENTRY_VALID then
        (fst (getall_scan buf rest), (key_at buf a, val_at buf a) :: snd (getall_scan buf rest))
      else if is_sentinel buf a then (false, [])
      else getall_scan buf rest
  end.

(** The pairs in the table as a caller counts them: [Put] adds its pair,
    [Remove] takes away one occurrence of its pair when there is one. *)
Fixpoint remove_first (p : Z * Z) (l : list (Z * Z)) : list (Z * Z) :=
  match l with
  | [] => []
  | q :: rest => if decide (q = p) then rest else q :: remove_first p rest
  end.

Definition bag_op (bag : list (Z * Z)) (o : op) : list (Z * Z) :=
  match o with
  | OpPut key val => bag ++ [(key, val)]
  | OpRemove key val => remove_first (key, val) bag
  | OpGrow _ => bag
  end.

Definition bag_run (ops : list op) : list (Z * Z) := fold_left bag_op ops [].

(** The table with the number of region locks that [OpenHash] computes
    from the size of the file. *)
Definition relocked (ht : HashTable) : HashTable :=
  mkHashTable (HFile ht) (BucketSize ht) (HashBits ht) (PerBucket ht)
    (NumBuckets ht) (InitialBuckets ht) (Size (HFile ht) / HASH_TABLE_REGION_SIZE + 1).

(** The number of [Put] calls of [ops] whose key belongs to head [h]. *)
Fixpoint puts_into (hash : Z -> Z) (h : Z) (ops : list op) : Z :=
  match ops with
  | [] => 0
  | OpPut key _ :: rest =>
      (if decide (hash key = h) then 1 else 0) + puts_into hash h rest
  | _ :: rest => puts_into hash h rest
  end.

(** What [GetAll] without a limit collects from the chains of the heads:
    the scan of a chain, and those of the next heads unless the scan
    reached the end of the chain. *)
Fixpoint getall_heads (buf : list Z) (chains : list (list Z)) : list (Z * Z) :=
  match chains with
  | [] => []
  | c :: rest =>
      snd (getall_scan buf c) ++
      (if fst (getall_scan buf c) then [] else getall_heads buf rest)
  end.

(** * Properties *)

(** ** Machine integers *)

Lemma wrap_range x : 0 <= wrap x < 18446744073709551616.
Proof. unfold wrap. apply Z.mod_pos_bound. lia. Qed.

Lemma wrap_small x : 0 <= x < 18446744073709551616 -> wrap x = x.
Proof. intros H. unfold wrap. apply Z.mod_small. exact H. Qed.

Lemma wrap_wrap x : wrap (wrap x) = wrap x.
Proof. apply wrap_small, wrap_range. Qed.

Lemma wrap_add_l x y : wrap (wrap x + y) = wrap (x + y).
Proof. unfold wrap. apply Zplus_mod_idemp_l. Qed.

Lemma wrap_mul_l x y : wrap (wrap x * y) = wrap (x * y).
Proof. unfold wrap. apply Zmult_mod_idemp_l. Qed.

(** ** Outcomes *)

Lemma bind_Ok {A B} (m : outcome A) (k : A -> outcome B) (b : B) :
  bind m k = Ok b -> exists a, m = Ok a /\ k a = Ok b.
Proof. destruct m; simpl; intros H; try discriminate. eauto. Qed.

Lemma approx_refl {A} (o : outcome A) : approx o o.
Proof. right. reflexivity. Qed.

Lemma approx_out {A} (o : outcome A) : approx OutOfFuel o.
Proof. left. reflexivity. Qed.

Lemma approx_bind {A B} (m m' : outcome A) (k k' : A -> outcome B) :
  approx m m' -> (forall a, approx (k a) (k' a)) -> approx (bind m k) (bind m' k').
Proof.
  intros [-> | ->] Hk; [left; reflexivity|].
  destruct m'; simpl; auto using approx_refl.
Qed.

Lemma approx_Ok {A} (o1 o2 : outcome A) (a : A) : approx o1 o2 -> o1 = Ok a -> o2 = Ok a.
Proof. intros [-> | ->]; [discriminate | auto]. Qed.

Lemma approx_done {A} (o1 o2 : outcome A) : approx o1 o2 -> o1 <> OutOfFuel -> o2 = o1.
Proof. intros [-> | ->]; [congruence | auto]. Qed.

Ltac approx_step :=
  match goal with
  | |- approx ?o ?o => apply approx_refl
  | |- approx OutOfFuel _ => apply approx_out
  | |- approx (bind _ _) (bind _ _) => apply approx_bind; [|intros ?]
  | |- approx (if ?b then _ else _) (if ?b then _ else _) => destruct b
  | |- approx (match ?x with _ => _ end) (match ?x with _ => _ end) => destruct x
  end.

Create HintDb fuel.
#[local] Hint Extern 1 (_ <= _)%nat => lia : fuel.

Ltac approx_solve := repeat approx_step; try solve [eauto with fuel].

(** More fuel never changes a result that was reached. *)
Lemma writeZeros_fuel n m growth i disk :
  (n <= m)%nat -> approx (writeZeros n growth i disk) (writeZeros m growth i disk).
Proof.
  revert m i disk; induction n as [|n IH]; intros m i disk Hle; [apply approx_out|].
  destruct m as [|m]; [lia|]. simpl. approx_solve.
Qed.
#[local] Hint Resolve writeZeros_fuel : fuel.

Lemma CheckSizeAndEnsure_fuel n m file more :
  (n <= m)%nat -> approx (CheckSizeAndEnsure n file more) (CheckSizeAndEnsure m file more).
Proof.
  revert m file; induction n as [|n IH]; intros m file Hle; [apply approx_out|].
  destruct m as [|m]; [lia|].
  cbn [CheckSizeAndEnsure]. approx_solve.
Qed.
#[local] Hint Resolve CheckSizeAndEnsure_fuel : fuel.

Lemma findUsedSize_fuel n m buf low mid high :
  (n <= m)%nat -> approx (findUsedSize n buf low mid high) (findUsedSize m buf low mid high).
Proof.
  revert m low mid high; induction n as [|n IH]; intros m low mid high Hle;
    [apply approx_out|].
  destruct m as [|m]; [lia|]. simpl. approx_solve.
Qed.
#[local] Hint Resolve findUsedSize_fuel : fuel.

Lemma Open_fuel n m disk growth :
  (n <= m)%nat -> approx (Open n disk growth) (Open m disk growth).
Proof. intros Hle. unfold Open. approx_solve. Qed.
#[local] Hint Resolve Open_fuel : fuel.

Lemma lastBucket_fuel n m ht b :
  (n <= m)%nat -> approx (lastBucket n ht b) (lastBucket m ht b).
Proof.
  revert m b; induction n as [|n IH]; intros m b Hle; [apply approx_out|].
  destruct m as [|m]; [lia|]. simpl. approx_solve.
Qed.
#[local] Hint Resolve lastBucket_fuel : fuel.

Lemma grow_fuel n m ht b :
  (n <= m)%nat -> approx (grow n ht b) (grow m ht b).
Proof. intros Hle. unfold grow. approx_solve. Qed.
#[local] Hint Resolve grow_fuel : fuel.

Lemma Put_loop_fuel n m ht key val bucket entry :
  (n <= m)%nat ->
  approx (Put_loop n ht key val bucket entry) (Put_loop m ht key val bucket entry).
Proof.
  revert m ht bucket entry; induction n as [|n IH]; intros m ht bucket entry Hle;
    [apply approx_out|].
  destruct m as [|m]; [lia|]. cbn [Put_loop]. approx_solve.
Qed.
#[local] Hint Resolve Put_loop_fuel : fuel.

Lemma Put_fuel n m ht key val :
  (n <= m)%nat -> approx (Put n ht key val) (Put m ht key val).
Proof. intros Hle. unfold Put. approx_solve. Qed.
#[local] Hint Resolve Put_fuel : fuel.

Lemma Get_loop_fuel n m ht key limit filter count entry bucket keys vals :
  (n <= m)%nat ->
  approx (Get_loop n ht key limit filter count entry bucket keys vals)
         (Get_loop m ht key limit filter count entry bucket keys vals).
Proof.
  revert m count entry bucket keys vals; induction n as [|n IH];
    intros m count entry bucket keys vals Hle; [apply approx_out|].
  destruct m as [|m]; [lia|]. cbn [Get_loop]. approx_solve.
Qed.
#[local] Hint Resolve Get_loop_fuel : fuel.

(** Without a limit the result slices are made with capacity 10. *)
Lemma Get_unlimited fuel ht key filter :
  Get fuel ht key 0 filter =
  (_ <- regionMutex ht (hashKey ht key) ;;
   Get_loop fuel ht key 0 filter 0 0 (hashKey ht key) [] []).
Proof. reflexivity. Qed.

Lemma Get_fuel n m ht key limit filter :
  (n <= m)%nat -> approx (Get n ht key limit filter) (Get m ht key limit filter).
Proof. intros Hle. unfold Get. approx_solve. Qed.
#[local] Hint Resolve Get_fuel : fuel.

Lemma Remove_loop_fuel n m ht key val entry bucket :
  (n <= m)%nat ->
  approx (Remove_loop n ht key val entry bucket) (Remove_loop m ht key val entry bucket).
Proof.
  revert m entry bucket; induction n as [|n IH]; intros m entry bucket Hle;
    [apply approx_out|].
  destruct m as [|m]; [lia|]. cbn [Remove_loop]. approx_solve.
Qed.
#[local] Hint Resolve Remove_loop_fuel : fuel.

Lemma Remove_fuel n m ht key val :
  (n <= m)%nat -> approx (Remove n ht key val) (Remove m ht key val).
Proof. intros Hle. unfold Remove. approx_solve. Qed.
#[local] Hint Resolve Remove_fuel : fuel.

Lemma longestChain_fuel n m ht k i longest :
  (n <= m)%nat -> approx (longestChain n ht k i longest) (longestChain m ht k i longest).
Proof.
  intros Hle. revert i longest; induction k as [|k IH]; intros i longest; simpl;
    approx_solve.
Qed.
#[local] Hint Resolve longestChain_fuel : fuel.

Lemma OpenHash_fuel n m disk hashBits perBucket :
  (n <= m)%nat ->
  approx (OpenHash n disk hashBits perBucket) (OpenHash m disk hashBits perBucket).
Proof. intros Hle. unfold OpenHash. approx_solve. Qed.
#[local] Hint Resolve OpenHash_fuel : fuel.

(** ** Byte slices *)

Lemma index_lookup (buf : list Z) i b :
  buf !! Z.to_nat i = Some b -> index buf i = Ok b.
Proof. unfold index. intros ->. reflexivity. Qed.

Lemma index_in_range (buf : list Z) i :
  0 <= i < Z.of_nat (length buf) -> exists b, index buf i = Ok b.
Proof.
  intros H. destruct (lookup_lt_is_Some_2 buf (Z.to_nat i)) as [b Hb]; [lia|].
  exists b. apply index_lookup, Hb.
Qed.

Lemma index_out_of_range (buf : list Z) i :
  Z.of_nat (length buf) <= i -> index buf i = Panic.
Proof.
  intros H. unfold index. rewrite lookup_ge_None_2; [reflexivity | lia].
Qed.

(** ** The search for the used size in [Open] *)

Section UsedSizeSearch.
Variable buf : list Z.
Hypothesis size_uint64 : Z.of_nat (length buf) < 18446744073709551616.

Lemma search_inv_init :
  1 <= Z.of_nat (length buf) ->
  search_inv (Z.of_nat (length buf)) 0 (Z.of_nat (length buf) / 2) (Z.of_nat (length buf)).
Proof. unfold search_inv. intros H. Z.div_mod_to_equations. lia. Qed.

(** The loop ends within [high - low] rounds; it ends with a value unless
    it reads [buf[mid-1]] with [mid = 0]. *)
Lemma findUsedSize_ends fuel low mid high :
  search_inv (Z.of_nat (length buf)) low mid high ->
  (Z.to_nat (high - low) <= fuel)%nat ->
  (exists used, findUsedSize fuel buf low mid high = Ok used /\
                0 <= used <= Z.of_nat (length buf)) \/
  (findUsedSize fuel buf low mid high = Panic /\ buf !! 0%nat = Some 0).
Proof.
  revert low mid high. induction fuel as [|fuel IH]; intros low mid high Hinv Hfuel.
  { unfold search_inv in Hinv. lia. }
  destruct Hinv as (Hlow & Hhigh & Hmid). cbn [findUsedSize].
  rewrite (wrap_small (high - mid)) by lia.
  destruct (index_in_range buf mid) as [bm Hbm]; [lia|].
  rewrite Hbm. cbn [bind].
  destruct (Z.eqb_spec (high - mid) 1) as [Hone | Hmore].
  - destruct (Z.eqb_spec bm 0) as [-> | Hbm0]; [|left; exists high; split; [reflexivity | lia]].
    destruct (Z.eq_dec mid 0) as [-> | Hpos].
    + right. split; [|unfold index in Hbm; change (Z.to_nat 0) with 0%nat in Hbm;
                      destruct (buf !! 0%nat); congruence].
      rewrite index_out_of_range; [reflexivity|].
      change (wrap (0 - 1)) with 18446744073709551615. lia.
    + rewrite (wrap_small (mid - 1)) by lia.
      destruct (index_in_range buf (mid - 1)) as [bm1 Hbm1]; [lia|].
      rewrite Hbm1. cbn [bind].
      left. destruct (bm1 =? 0); eexists; (split; [reflexivity | lia]).
  - rewrite (wrap_small (mid - low)) by lia.
    assert (0 <= (mid - low) / 2 /\ 0 <= (high - mid) / 2) as [? ?]
      by (split; apply Z.div_pos; lia).
    assert ((mid - low) / 2 < mid - low \/ mid = low) as Hhalf
      by (Z.div_mod_to_equations; lia).
    assert ((high - mid) / 2 < high - mid /\ 1 <= (high - mid) / 2) as [? ?]
      by (Z.div_mod_to_equations; lia).
    rewrite (wrap_small (low + (mid - low) / 2)) by lia.
    rewrite (wrap_small (mid + (high - mid) / 2)) by lia.
    destruct (bm =? 0); apply IH; try lia; unfold search_inv;
      Z.div_mod_to_equations; lia.
Qed.

(** In particular the search never runs forever ... *)
Lemma findUsedSize_terminates fuel :
  1 <= Z.of_nat (length buf) -> (length buf <= fuel)%nat ->
  findUsedSize fuel buf 0 (Z.of_nat (length buf) / 2) (Z.of_nat (length buf)) <> OutOfFuel.
Proof.
  intros Hsize Hfuel.
  destruct (findUsedSize_ends fuel 0 (Z.of_nat (length buf) / 2) (Z.of_nat (length buf)))
    as [(u & -> & _) | [-> _]];
    [apply search_inv_init, Hsize | lia | discriminate..].
Qed.

(** ... and it yields a used size whenever the first byte of the file is
    not zero. *)
Lemma findUsedSize_first_byte_set fuel :
  1 <= Z.of_nat (length buf) -> (length buf <= fuel)%nat -> buf !! 0%nat <> Some 0 ->
  exists used,
    findUsedSize fuel buf 0 (Z.of_nat (length buf) / 2) (Z.of_nat (length buf)) = Ok used /\
    0 <= used <= Z.of_nat (length buf).
Proof.
  intros Hsize Hfuel Hfirst.
  destruct (findUsedSize_ends fuel 0 (Z.of_nat (length buf) / 2) (Z.of_nat (length buf)))
    as [Hok | [_ Hz]];
    [apply search_inv_init, Hsize | lia | exact Hok | contradiction].
Qed.
End UsedSizeSearch.

(** C9, at the failing input.  On a file that holds the single byte 0 the
    search starts with [mid = 0] and [high = 1]; [buf[mid]] is 0, so the
    source reads [buf[mid-1]], whose index wraps around to 2^64-1: the read
    is out of range and [Open] panics instead of setting a used size. *)
Theorem Open_one_zero_byte_panics (fuel : nat) (growth : Z) :
  Open (S fuel) [0] growth = Panic.
Proof. reflexivity. Qed.

(** The same happens on a file of three zero bytes, after one round. *)
Lemma Open_three_zero_bytes_panics (fuel : nat) (growth : Z) :
  Open (S (S fuel)) [0; 0; 0] growth = Panic.
Proof. reflexivity. Qed.

(** ** Growing the file *)

Lemma replicate_zeros_app (a b : Z) :
  0 <= a -> 0 <= b ->
  replicate (Z.to_nat a) 0 ++ replicate (Z.to_nat b) 0 = replicate (Z.to_nat (a + b)) 0.
Proof. intros Ha Hb. rewrite Z2Nat.inj_add by lia. symmetry. apply replicate_add. Qed.

Lemma appended_from_nonneg growth i : 0 <= appended_from growth i.
Proof.
  unfold appended_from, FILE_GROWTH_INCREMENTAL.
  destruct (growth <=? i) eqn:E; [lia|]. apply Z.leb_gt in E.
  destruct (_ =? 0); Z.div_mod_to_equations; lia.
Qed.

Lemma appended_from_step growth i :
  i < growth ->
  appended_from growth i =
  (if growth <? i + FILE_GROWTH_INCREMENTAL
   then i + FILE_GROWTH_INCREMENTAL - growth else FILE_GROWTH_INCREMENTAL) +
  appended_from growth (i + FILE_GROWTH_INCREMENTAL).
Proof.
  intros Hlt. unfold appended_from. unfold FILE_GROWTH_INCREMENTAL.
  destruct (Z.leb_spec growth i); [lia|].
  destruct (Z.ltb_spec growth (i + 1048576)); destruct (Z.leb_spec growth (i + 1048576));
    repeat match goal with |- context [?a =? 0] => destruct (Z.eqb_spec a 0) end;
    Z.div_mod_to_equations; lia.
Qed.

Lemma writeZeros_spec fuel growth i disk :
  0 <= i -> growth + FILE_GROWTH_INCREMENTAL < 18446744073709551616 ->
  (Z.to_nat ((growth - i + 1048575) / FILE_GROWTH_INCREMENTAL) + 1 <= fuel)%nat ->
  writeZeros fuel growth i disk =
  Ok (disk ++ replicate (Z.to_nat (appended_from growth i)) 0).
Proof.
  revert i disk. induction fuel as [|fuel IH]; intros i disk Hi Hg Hfuel; [lia|].
  cbn [writeZeros].
  destruct (Z.ltb_spec i growth) as [Hlt | Hge].
  2:{ unfold appended_from. destruct (Z.leb_spec growth i); [|lia].
      change (Z.to_nat 0) with 0%nat. cbn [replicate]. rewrite app_nil_r. reflexivity. }
  rewrite (appended_from_step growth i Hlt).
  pose proof (appended_from_nonneg growth (i + FILE_GROWTH_INCREMENTAL)) as Hnn.
  unfold FILE_GROWTH_INCREMENTAL in *.
  assert ((Z.to_nat ((growth - (i + 1048576) + 1048575) / 1048576) + 1 <= fuel)%nat)
    as Hfuel' by (Z.div_mod_to_equations; lia).
  rewrite (wrap_small (i + 1048576)) by lia.
  destruct (Z.ltb_spec growth (i + 1048576)) as [Hpart | Hfull].
  - (* the last chunk, not whole *)
    rewrite (wrap_small (i + 1048576 - growth)) by lia.
    destruct (Z.leb_spec (i + 1048576 - growth) 1048576); [|lia].
    rewrite IH by lia.
    rewrite <- app_assoc, replicate_zeros_app by lia. reflexivity.
  - (* a whole chunk *)
    destruct (Z.leb_spec 1048576 1048576); [|lia].
    rewrite IH by lia.
    rewrite <- app_assoc, replicate_zeros_app by lia. reflexivity.
Qed.

(** A growth that is a whole number of MiB is appended exactly. *)
Lemma appended_from_whole growth :
  0 <= growth -> growth mod FILE_GROWTH_INCREMENTAL = 0 -> appended_from growth 0 = growth.
Proof.
  unfold appended_from, FILE_GROWTH_INCREMENTAL. intros Hg Hmod.
  destruct (Z.leb_spec growth 0); [lia|].
  rewrite Z.sub_0_r, Hmod. change (0 =? 0) with true. cbv iota.
  Z.div_mod_to_equations. lia.
Qed.

(** [CheckSizeAndEnsure] takes the least number [k] of growth steps that
    makes room; each step adds [growth] to [Size] and appends the bytes of
    the write loop to the file. *)
Lemma CheckSizeAndEnsure_spec (k : nat) fuel file more :
  0 <= UsedSize file -> 0 <= more -> 0 <= Size file -> 0 < Growth file ->
  UsedSize file + more < 18446744073709551616 ->
  Size file + Z.of_nat k * Growth file < 18446744073709551616 ->
  Growth file + FILE_GROWTH_INCREMENTAL < 18446744073709551616 ->
  UsedSize file + more <= Size file + Z.of_nat k * Growth file ->
  (k <> O -> Size file + (Z.of_nat k - 1) * Growth file < UsedSize file + more) ->
  (k + (Z.to_nat (Growth file / FILE_GROWTH_INCREMENTAL) + 3) <= fuel)%nat ->
  CheckSizeAndEnsure fuel file more =
  Ok (mkFile (UsedSize file) (Size file + Z.of_nat k * Growth file) (Growth file)
        (Buf file ++ replicate (Z.to_nat (Z.of_nat k * appended_from (Growth file) 0)) 0)).
Proof.
  revert fuel file. induction k as [|k IH]; intros fuel file HU Hm HS HG Hov HovS HovG Hfit Hmin Hfuel.
  - destruct fuel as [|fuel]; [lia|]. cbn [CheckSizeAndEnsure].
    rewrite wrap_small by lia.
    destruct (Z.leb_spec (UsedSize file + more) (Size file)); [|lia].
    change (Z.of_nat 0 * appended_from (Growth file) 0) with 0.
    change (Z.to_nat 0) with 0%nat. cbn [replicate]. rewrite app_nil_r.
    destruct file; cbn [UsedSize Size Growth Buf]. do 2 f_equal. lia.
  - destruct fuel as [|fuel]; [lia|]. cbn [CheckSizeAndEnsure].
    rewrite wrap_small by lia.
    destruct (Z.leb_spec (UsedSize file + more) (Size file)); [nia|].
    rewrite writeZeros_spec;
      [|lia|lia|unfold FILE_GROWTH_INCREMENTAL in *; Z.div_mod_to_equations; lia].
    cbn [bind].
    rewrite (wrap_small (Size file + Growth file)) by nia.
    rewrite IH; cbn [UsedSize Size Growth Buf]; try lia; try nia.
    pose proof (appended_from_nonneg (Growth file) 0).
    rewrite <- app_assoc, replicate_zeros_app by nia.
    do 2 f_equal; [lia | do 3 f_equal; lia].
Qed.

(** C4, at the failing input: an empty file with [growth = 1] that is asked
    for one more byte.  The write loop runs once, with [i = 0]: since
    [i + 1 MiB > growth] it writes [zeroBuf[0 : i + 1 MiB - growth]], which
    is 1048575 bytes and not the single byte of the growth step, while
    [Size] goes up by 1. *)
Theorem CheckSizeAndEnsure_growth_1 (fuel : nat) :
  CheckSizeAndEnsure (4 + fuel) (mkFile 0 0 1 []) 1 =
  Ok (mkFile 0 1 1 (replicate (Z.to_nat 1048575) 0)).
Proof.
  rewrite (CheckSizeAndEnsure_spec 1); cbn [UsedSize Size Growth Buf]; try lia.
  - reflexivity.
  - unfold FILE_GROWTH_INCREMENTAL. lia.
  - unfold FILE_GROWTH_INCREMENTAL.
    change (1 / 1048576) with 0. simpl Z.to_nat. lia.
Qed.

(** ** Slices *)

Lemma slice_in_range (buf : list Z) lo hi :
  0 <= lo <= hi -> hi <= Z.of_nat (length buf) ->
  slice buf lo hi = Ok (take (Z.to_nat (hi - lo)) (drop (Z.to_nat lo) buf)).
Proof.
  intros H1 H2. unfold slice.
  destruct (Z.leb_spec lo hi); [|lia]. destruct (Z.leb_spec hi (Z.of_nat (length buf))); [|lia].
  reflexivity.
Qed.

(** ** Chains of buckets *)

(** Inside the table, [nextBucket] is a function of the header. *)
Lemma nextBucket_header (ht : HashTable) (b : Z) :
  0 <= b < NumBuckets ht -> 10 <= BucketSize ht ->
  NumBuckets ht * BucketSize ht <= Z.of_nat (length (Buf (HFile ht))) ->
  Z.of_nat (length (Buf (HFile ht))) < 18446744073709551616 ->
  nextBucket ht b =
  Ok (if header_of ht b =? 0 then 0
      else if header_of ht b <=? b then 0
      else if (NumBuckets ht <=? header_of ht b) || (header_of ht b <? InitialBuckets ht)
      then 0 else header_of ht b).
Proof.
  intros Hb HBS Hfit Hlen. unfold nextBucket.
  destruct (Z.leb_spec (NumBuckets ht) b) as [Hout | Hin]; [lia|].
  assert (b * BucketSize ht + BucketSize ht <= NumBuckets ht * BucketSize ht) by nia.
  assert (0 <= b * BucketSize ht) by nia.
  rewrite (wrap_small (b * BucketSize ht)) by lia.
  unfold BUCKET_HEADER_SIZE. rewrite (wrap_small (b * BucketSize ht + 10)) by lia.
  rewrite slice_in_range by lia. cbn [bind].
  replace (b * BucketSize ht + 10 - b * BucketSize ht) with 10 by lia.
  change (Z.to_nat 10) with 10%nat. fold (header_of ht b).
  destruct (header_of ht b =? 0); [reflexivity|].
  destruct (header_of ht b <=? b); [reflexivity|].
  destruct ((NumBuckets ht <=? header_of ht b) || (header_of ht b <? InitialBuckets ht));
    reflexivity.
Qed.

(** C6.  [nextBucket b] is decided by the header of bucket [b] alone: it
    is 0 when the header is 0, when it does not point forward, and when it
    points outside the overflow buckets; otherwise it is the header.  It is
    always a value, never an error, as long as the buckets of the table lie
    inside the mapped buffer. *)
Theorem nextBucket_validates (ht : HashTable) (b : Z) :
  0 <= b -> 10 <= BucketSize ht ->
  NumBuckets ht * BucketSize ht <= Z.of_nat (length (Buf (HFile ht))) ->
  Z.of_nat (length (Buf (HFile ht))) < 18446744073709551616 ->
  exists r, nextBucket ht b = Ok r /\
    (header_of ht b = 0 -> r = 0) /\
    (header_of ht b <= b -> r = 0) /\
    (NumBuckets ht <= header_of ht b \/ header_of ht b < InitialBuckets ht -> r = 0) /\
    (header_of ht b <> 0 -> b < header_of ht b -> header_of ht b < NumBuckets ht ->
     InitialBuckets ht <= header_of ht b -> r = header_of ht b).
Proof.
  intros Hb HBS Hfit Hlen. unfold nextBucket.
  destruct (Z.leb_spec (NumBuckets ht) b) as [Hout | Hin].
  { exists 0. repeat split; auto; intros; lia. }
  assert (b * BucketSize ht + BucketSize ht <= NumBuckets ht * BucketSize ht) by nia.
  assert (0 <= b * BucketSize ht) by nia.
  rewrite (wrap_small (b * BucketSize ht)) by lia.
  unfold BUCKET_HEADER_SIZE. rewrite (wrap_small (b * BucketSize ht + 10)) by lia.
  rewrite slice_in_range by lia. cbn [bind].
  replace (b * BucketSize ht + 10 - b * BucketSize ht) with 10 by lia.
  change (Z.to_nat 10) with 10%nat. fold (header_of ht b).
  destruct (Z.eqb_spec (header_of ht b) 0) as [Hz | Hnz].
  { exists 0. repeat split; auto; intros; lia. }
  destruct (Z.leb_spec (header_of ht b) b) as [Hback | Hfwd].
  { exists 0. repeat split; auto; intros; lia. }
  destruct (Z.leb_spec (NumBuckets ht) (header_of ht b)) as [Hbig | Hsmall].
  { exists 0. repeat split; auto; intros; lia. }
  destruct (Z.ltb_spec (header_of ht b) (InitialBuckets ht)) as [Hhead | Hover].
  { exists 0. repeat split; auto; intros; lia. }
  exists (header_of ht b). cbn [orb]. repeat split; auto; intros; lia.
Qed.

Lemma nextBucket_validates_witness :
  exists r, nextBucket small_table 0 = Ok r /\
    (header_of small_table 0 = 0 -> r = 0) /\
    (header_of small_table 0 <= 0 -> r = 0) /\
    (NumBuckets small_table <= header_of small_table 0 \/
     header_of small_table 0 < InitialBuckets small_table -> r = 0) /\
    (header_of small_table 0 <> 0 -> 0 < header_of small_table 0 ->
     header_of small_table 0 < NumBuckets small_table ->
     InitialBuckets small_table <= header_of small_table 0 -> r = header_of small_table 0).
Proof.
  apply (nextBucket_validates small_table 0); vm_compute; congruence.
Defined.

(** What [nextBucket] returns is 0 or a bucket further on in the table. *)
Lemma nextBucket_range ht b r :
  nextBucket ht b = Ok r -> r = 0 \/ (b < r < NumBuckets ht /\ InitialBuckets ht <= r).
Proof.
  unfold nextBucket. destruct (Z.leb_spec (NumBuckets ht) b) as [Hout | Hin];
    [intros [= <-]; auto|].
  intros Hnext. apply bind_Ok in Hnext as (hdr & _ & H).
  destruct (Z.eqb_spec (fst (Uvarint hdr)) 0); [injection H as <-; auto|].
  destruct (Z.leb_spec (fst (Uvarint hdr)) b); [injection H as <-; auto|].
  destruct (Z.leb_spec (NumBuckets ht) (fst (Uvarint hdr))); [injection H as <-; auto|].
  destruct (Z.ltb_spec (fst (Uvarint hdr)) (InitialBuckets ht)); injection H as <-; auto.
Qed.

(** ** The used size and the number of buckets *)

Ltac bind_inv :=
  repeat match goal with
  | H : bind ?m _ = Ok _ |- _ =>
      let a := fresh "a" in let E := fresh "E" in apply bind_Ok in H as (a & E & H)
  | H : (if ?b then _ else _) = Ok _ |- _ => destruct b eqn:?
  | H : @Panic _ = Ok _ |- _ => discriminate H
  | H : @Err _ = Ok _ |- _ => discriminate H
  | H : @OutOfFuel _ = Ok _ |- _ => discriminate H
  end.

Lemma CheckSizeAndEnsure_fields fuel file more file' :
  CheckSizeAndEnsure fuel file more = Ok file' ->
  UsedSize file' = UsedSize file /\ Growth file' = Growth file.
Proof.
  revert file. induction fuel as [|fuel IH]; intros file H; [discriminate|].
  cbn [CheckSizeAndEnsure] in H. bind_inv.
  - injection H as <-. auto.
  - apply IH in H. cbn [UsedSize Growth] in H. exact H.
Qed.

Lemma grow_fields fuel ht bucket ht' :
  grow fuel ht bucket = Ok ht' ->
  NumBuckets ht' = wrap (NumBuckets ht + 1) /\
  UsedSize (HFile ht') = wrap (UsedSize (HFile ht) + BucketSize ht) /\
  BucketSize ht' = BucketSize ht /\ HashBits ht' = HashBits ht /\
  PerBucket ht' = PerBucket ht /\ InitialBuckets ht' = InitialBuckets ht.
Proof.
  unfold grow. intros H. apply bind_Ok in H as (ht1 & E1 & H).
  assert (NumBuckets ht1 = NumBuckets ht /\ BucketSize ht1 = BucketSize ht /\
          HashBits ht1 = HashBits ht /\ PerBucket ht1 = PerBucket ht /\
          InitialBuckets ht1 = InitialBuckets ht /\
          UsedSize (HFile ht1) = UsedSize (HFile ht)) as (HN & HB & HH & HP & HI & HU).
  { destruct (negb (CheckSize (HFile ht) (BucketSize ht))).
    - apply bind_Ok in E1 as (file & E & E1). injection E1 as <-. cbn.
      apply CheckSizeAndEnsure_fields in E as [-> _]. repeat split; reflexivity.
    - injection E1 as <-. repeat split; reflexivity. }
  clear E1. bind_inv. injection H as <-. cbn. rewrite HN, HB, HH, HP, HI, HU.
  repeat split; reflexivity.
Qed.

Lemma grow_keeps_invariant fuel ht bucket ht' :
  grow fuel ht bucket = Ok ht' -> buckets_fill_used_uint64 ht -> buckets_fill_used_uint64 ht'.
Proof.
  intros H Hinv. apply grow_fields in H as (HN & HU & HB & _).
  unfold buckets_fill_used_uint64 in *. rewrite HN, HU, HB, <- Hinv.
  rewrite wrap_mul_l, wrap_add_l. f_equal. lia.
Qed.

Lemma Put_loop_keeps_invariant fuel ht key val bucket entry ht' :
  Put_loop fuel ht key val bucket entry = Ok ht' ->
  buckets_fill_used_uint64 ht -> buckets_fill_used_uint64 ht'.
Proof.
  revert ht bucket entry. induction fuel as [|fuel IH]; intros ht bucket entry H Hinv;
    [discriminate|].
  cbn [Put_loop] in H. bind_inv; eauto using grow_keeps_invariant.
  injection H as <-. exact Hinv.
Qed.

Lemma Put_loop_fields fuel ht key val bucket entry ht' :
  Put_loop fuel ht key val bucket entry = Ok ht' ->
  BucketSize ht' = BucketSize ht /\ HashBits ht' = HashBits ht /\
  PerBucket ht' = PerBucket ht /\ InitialBuckets ht' = InitialBuckets ht.
Proof.
  revert ht bucket entry. induction fuel as [|fuel IH]; intros ht bucket entry H;
    [discriminate|].
  cbn [Put_loop] in H. bind_inv; eauto.
  - injection H as <-. repeat split; reflexivity.
  - apply IH in H as (-> & -> & -> & ->). apply grow_fields in E1. tauto.
Qed.

Lemma Remove_loop_fields fuel ht key val entry bucket ht' :
  Remove_loop fuel ht key val entry bucket = Ok ht' ->
  exists buf, ht' = with_Buf ht buf.
Proof.
  revert entry bucket. induction fuel as [|fuel IH]; intros entry bucket H; [discriminate|].
  cbn [Remove_loop] in H. bind_inv; eauto;
    try (injection H as <-; eauto);
    exists (Buf (HFile ht)); destruct ht as [[] ?]; reflexivity.
Qed.

Lemma run_keeps_invariant fuel ops ht ht' :
  run fuel ops ht = Ok ht' -> buckets_fill_used_uint64 ht -> buckets_fill_used_uint64 ht'.
Proof.
  revert ht. induction ops as [|o ops IH]; intros ht H Hinv; cbn [run] in H.
  - injection H as <-. exact Hinv.
  - bind_inv. apply (IH _ H). destruct o; cbn [apply_op] in E.
    + unfold Put in E. bind_inv. eauto using Put_loop_keeps_invariant.
    + unfold Remove in E. bind_inv.
      apply Remove_loop_fields in E as [buf ->]. exact Hinv.
    + eauto using grow_keeps_invariant.
Qed.

Lemma OpenHash_invariant fuel disk hashBits perBucket ht :
  OpenHash fuel disk hashBits perBucket = Ok ht -> buckets_fill_used_uint64 ht.
Proof.
  unfold OpenHash. intros H. bind_inv; injection H as <-; reflexivity.
Qed.



(** ** Opening a new file *)

Lemma Uvarint_zeros (n : nat) : (0 < n)%nat -> Uvarint (replicate n 0) = (0, 1).
Proof. destruct n; [lia|]. reflexivity. Qed.

Lemma take_drop_zeros (n m k : nat) :
  (m + n <= k)%nat -> take n (drop m (replicate k 0)) = replicate n 0.
Proof.
  intros H. rewrite drop_replicate, take_replicate. f_equal. lia.
Qed.

(** Over a buffer of zeros every chain ends at its first bucket. *)
Lemma nextBucket_zeros ht b :
  0 <= b -> 10 <= BucketSize ht ->
  NumBuckets ht * BucketSize ht <= Size (HFile ht) ->
  Size (HFile ht) < 18446744073709551616 ->
  Buf (HFile ht) = replicate (Z.to_nat (Size (HFile ht))) 0 ->
  nextBucket ht b = Ok 0.
Proof.
  intros Hb HBS Hfit Hlen Hbuf. unfold nextBucket.
  destruct (Z.leb_spec (NumBuckets ht) b) as [Hout | Hin]; [reflexivity|].
  assert (b * BucketSize ht + BucketSize ht <= NumBuckets ht * BucketSize ht) by nia.
  assert (0 <= b * BucketSize ht) by nia.
  rewrite (wrap_small (b * BucketSize ht)) by lia.
  unfold BUCKET_HEADER_SIZE. rewrite (wrap_small (b * BucketSize ht + 10)) by lia.
  rewrite slice_in_range; [|lia|rewrite Hbuf, length_replicate; lia]. cbn [bind].
  rewrite Hbuf, take_drop_zeros by lia.
  replace (b * BucketSize ht + 10 - b * BucketSize ht) with 10 by lia.
  reflexivity.
Qed.

Lemma lastBucket_zeros fuel ht b :
  0 <= b -> 10 <= BucketSize ht ->
  NumBuckets ht * BucketSize ht <= Size (HFile ht) ->
  Size (HFile ht) < 18446744073709551616 ->
  Buf (HFile ht) = replicate (Z.to_nat (Size (HFile ht))) 0 ->
  lastBucket (S fuel) ht b = Ok b.
Proof.
  intros. cbn [lastBucket]. rewrite nextBucket_zeros by assumption. reflexivity.
Qed.

Lemma longestChain_zeros fuel ht (n : nat) i longest :
  0 <= i -> i + Z.of_nat n <= longest -> longest < 18446744073709551616 ->
  10 <= BucketSize ht ->
  NumBuckets ht * BucketSize ht <= Size (HFile ht) ->
  Size (HFile ht) < 18446744073709551616 ->
  Buf (HFile ht) = replicate (Z.to_nat (Size (HFile ht))) 0 ->
  longestChain (S fuel) ht n i longest = Ok longest.
Proof.
  revert i. induction n as [|n IH]; intros i Hi Hn Hl HBS Hfit Hlen Hbuf; [reflexivity|].
  cbn [longestChain]. rewrite lastBucket_zeros by assumption. cbn [bind].
  rewrite (wrap_small (i + 1)) by lia.
  destruct (Z.ltb_spec longest (i + 1)); [lia|]. cbn [andb].
  apply IH; try assumption; lia.
Qed.

Lemma more_bounds used bs :
  0 < bs -> 1048576 < used ->
  used - 1048576 < ((used - 1048576) / bs + 1) * bs <= used - 1048576 + bs /\
  0 <= (used - 1048576) / bs <= used - 1048576.
Proof.
  intros Hbs Hused.
  pose proof (Z.div_mod (used - 1048576) bs ltac:(lia)) as Hdm.
  pose proof (Z.mod_pos_bound (used - 1048576) bs Hbs) as Hr.
  assert (0 <= (used - 1048576) / bs) by (apply Z.div_pos; lia).
  assert ((used - 1048576) / bs <= used - 1048576)
    by (apply Z.div_le_upper_bound; [lia | nia]).
  replace (((used - 1048576) / bs + 1) * bs) with (bs * ((used - 1048576) / bs) + bs) by ring.
  lia.
Qed.

Lemma fresh_Size_bounds hashBits perBucket :
  params_fit hashBits perBucket ->
  1048576 <= fresh_Size hashBits perBucket /\
  2 ^ hashBits * (10 + 21 * perBucket) <= fresh_Size hashBits perBucket /\
  fresh_Size hashBits perBucket <
    2 ^ hashBits * (10 + 21 * perBucket) + (10 + 21 * perBucket) + 2097152 /\
  fresh_Size hashBits perBucket mod 1048576 = 0.
Proof.
  intros (Hhb & Hpb & Hfit). unfold fresh_Size. cbv zeta.
  assert (0 < 2 ^ hashBits) by (apply Z.pow_pos_nonneg; lia).
  remember (10 + 21 * perBucket) as bs eqn:Ebs.
  assert (0 < bs) by lia.
  assert (0 < 2 ^ hashBits * bs) by (apply Z.mul_pos_pos; lia).
  remember (2 ^ hashBits * bs) as used eqn:Eused.
  destruct (Z.leb_spec used 1048576) as [Hsmall | Hbig]; [repeat split; try lia|].
  destruct (more_bounds used bs) as [Hmore _]; [lia..|].
  remember (((used - 1048576) / bs + 1) * bs) as more eqn:Emore.
  clear Emore Eused Ebs.
  repeat split; Z.div_mod_to_equations; lia.
Qed.

(** [Open] on a new file: one growth step, all zeros, nothing used. *)
Lemma Open_new_file fuel growth :
  0 < growth -> growth + FILE_GROWTH_INCREMENTAL < 18446744073709551616 ->
  (Z.to_nat (growth / FILE_GROWTH_INCREMENTAL) + 4 <= fuel)%nat ->
  Open fuel [] growth =
  Ok (mkFile 0 growth growth (replicate (Z.to_nat (appended_from growth 0)) 0)).
Proof.
  intros Hg Hov Hfuel. unfold Open. cbn [Size Growth].
  change (Z.of_nat (length (@nil Z))) with 0. change (0 =? 0) with true. cbv iota.
  unfold FILE_GROWTH_INCREMENTAL in *.
  rewrite (CheckSizeAndEnsure_spec 1); cbn [UsedSize Size Growth Buf];
    unfold FILE_GROWTH_INCREMENTAL; try lia.
  do 2 f_equal; [lia|]. cbn [app]. do 2 f_equal. lia.
Qed.

(** [OpenHash] on a new file. *)
Lemma OpenHash_new_file fuel hashBits perBucket :
  params_fit hashBits perBucket ->
  (Z.to_nat (fresh_Size hashBits perBucket / 1048576) + 5 <= fuel)%nat ->
  OpenHash fuel [] hashBits perBucket = Ok (fresh_table hashBits perBucket).
Proof.
  intros Hfit Hfuel. pose proof (fresh_Size_bounds _ _ Hfit) as (HS1 & HS2 & HS3 & HS4).
  destruct Hfit as (Hhb & Hpb & Hfit).
  assert (0 < 2 ^ hashBits) as Hib by (apply Z.pow_pos_nonneg; lia).
  destruct fuel as [|fuel]; [lia|].
  unfold OpenHash.
  destruct (Z.ltb_spec hashBits 2); [lia|]. destruct (Z.ltb_spec perBucket 2); [lia|].
  cbn [orb]. unfold HASH_TABLE_GROWTH.
  rewrite Open_new_file; [|lia|unfold FILE_GROWTH_INCREMENTAL; lia|
    unfold FILE_GROWTH_INCREMENTAL; change (1048576 / 1048576) with 1; lia].
  cbn [bind]. rewrite (appended_from_whole 1048576) by (try lia; reflexivity).
  unfold set_UsedSize. cbn [Size UsedSize Growth Buf].
  unfold BUCKET_HEADER_SIZE, ENTRY_SIZE, HASH_TABLE_REGION_SIZE.
  change (1 + 10 + 10) with 21. change (1048576 / (1024 * 16) + 1) with 65.
  unfold pow2_uint64. destruct (Z.ltb_spec hashBits 64); [|lia].
  unfold fresh_table, fresh_Size in *. cbv zeta in *.
  remember (10 + 21 * perBucket) as bs eqn:Ebs in *.
  assert (0 < bs) as Hbs by lia.
  assert (0 < 2 ^ hashBits * bs) as Hused by (apply Z.mul_pos_pos; lia).
  remember (2 ^ hashBits) as ib eqn:Eib in *.
  rewrite (wrap_small bs) by lia.
  destruct (Z.eqb_spec bs 0); [lia|].
  assert (0 <= 1048576 / bs) by (apply Z.div_pos; lia).
  assert (1048576 / bs * bs <= 1048576)
    by (rewrite Z.mul_comm; apply Z.mul_div_le; lia).
  rewrite longestChain_zeros; cbn [BucketSize NumBuckets HFile Size Buf]; try lia;
    [|reflexivity].
  cbn [bind]. clear H2 H3.
  assert (bs <= ib * bs) as Hle by nia.
  remember (ib * bs) as used eqn:Eused in *.
  rewrite (wrap_small used) by lia.
  destruct (Z.ltb_spec 1048576 used) as [Hbig | Hsmall];
    destruct (Z.leb_spec used 1048576) as [Hsmall' | Hbig']; try lia.
  2:{ cbn [bind UsedSize Size Growth Buf]. reflexivity. }
  destruct (more_bounds used bs) as [Hmore Hdiv]; [lia..|].
  rewrite (wrap_small (used - 1048576)) by lia.
  remember ((used - 1048576) / bs) as d eqn:Ed in *. clear Ed.
  rewrite (wrap_small (d + 1)) by lia.
  remember ((d + 1) * bs) as more eqn:Emore in *.
  rewrite (wrap_small more) by lia.
  clear Emore Hdiv Eused Eib Ebs.
  assert (0 <= (more + 1048575) / 1048576) by (apply Z.div_pos; lia).
  rewrite (CheckSizeAndEnsure_spec (Z.to_nat ((more + 1048575) / 1048576)));
    cbn [UsedSize Size Growth Buf]; rewrite ?Z2Nat.id by lia;
    unfold FILE_GROWTH_INCREMENTAL; try lia;
    try (Z.div_mod_to_equations; lia).
  cbn [bind UsedSize Size Growth Buf].
  rewrite (appended_from_whole 1048576) by (try lia; reflexivity).
  rewrite replicate_zeros_app by lia.
  reflexivity.
Qed.

(** ** Operations over a longer buffer *)

Lemma index_app (buf suf : list Z) i b :
  index buf i = Ok b -> index (buf ++ suf) i = Ok b.
Proof.
  unfold index. destruct (buf !! Z.to_nat i) as [x|] eqn:E; [|discriminate].
  intros [= <-]. rewrite lookup_app_l; [rewrite E; reflexivity|].
  apply lookup_lt_Some in E. exact E.
Qed.

Lemma store_app (buf suf : list Z) i v buf' :
  0 <= i -> store buf i v = Ok buf' -> store (buf ++ suf) i v = Ok (buf' ++ suf).
Proof.
  unfold store. intros Hi. destruct (Z.ltb_spec i (Z.of_nat (length buf))) as [Hlt|]; [|discriminate].
  intros [= <-]. rewrite length_app.
  destruct (Z.ltb_spec i (Z.of_nat (length buf + length suf))); [|lia].
  rewrite insert_app_l by lia. reflexivity.
Qed.

Lemma slice_app (buf suf : list Z) lo hi s :
  0 <= lo -> slice buf lo hi = Ok s -> slice (buf ++ suf) lo hi = Ok s.
Proof.
  unfold slice. intros Hlo.
  destruct (Z.leb_spec lo hi); [|discriminate].
  destruct (Z.leb_spec hi (Z.of_nat (length buf))); [|discriminate].
  cbn [andb]. intros [= <-]. rewrite length_app.
  destruct (Z.leb_spec hi (Z.of_nat (length buf + length suf))); [|lia].
  rewrite drop_app_le by lia. rewrite take_app_le; [reflexivity|].
  rewrite length_drop. lia.
Qed.

Lemma through_slice_app (buf suf : list Z) lo hi f buf' :
  0 <= lo -> through_slice buf lo hi f = Ok buf' ->
  through_slice (buf ++ suf) lo hi f = Ok (buf' ++ suf).
Proof.
  unfold through_slice. intros Hlo H.
  apply bind_Ok in H as (s & Es & H). apply bind_Ok in H as (s' & Es' & H).
  injection H as <-. rewrite (slice_app _ _ _ _ _ Hlo Es). cbn [bind]. rewrite Es'. cbn [bind].
  unfold slice in Es. destruct (Z.leb_spec lo hi); [|discriminate].
  destruct (Z.leb_spec hi (Z.of_nat (length buf))); [|discriminate].
  rewrite take_app_le by lia. rewrite drop_app_le by lia.
  rewrite <- !app_assoc. reflexivity.
Qed.

Lemma nextBucket_pad suf ht b r :
  nextBucket ht b = Ok r -> nextBucket (pad suf ht) b = Ok r.
Proof.
  unfold nextBucket. cbn [pad with_Buf with_File set_Buf NumBuckets BucketSize HFile Buf
                           InitialBuckets].
  destruct (NumBuckets ht <=? b); [auto|].
  intros H. apply bind_Ok in H as (hdr & E & H).
  rewrite (slice_app _ _ _ _ _ (proj1 (wrap_range _)) E). exact H.
Qed.

Lemma regionMutex_pad suf ht b : regionMutex (pad suf ht) b = regionMutex ht b.
Proof. reflexivity. Qed.

Lemma hashKey_pad suf ht key : hashKey (pad suf ht) key = hashKey ht key.
Proof. reflexivity. Qed.

Lemma entryAddrOf_pad suf ht b e : entryAddrOf (pad suf ht) b e = entryAddrOf ht b e.
Proof. reflexivity. Qed.

Lemma entryAddrOf_nonneg ht b e : 0 <= entryAddrOf ht b e.
Proof. apply wrap_range. Qed.

Lemma lastBucket_pad suf fuel ht b r :
  lastBucket fuel ht b = Ok r -> lastBucket fuel (pad suf ht) b = Ok r.
Proof.
  revert b. induction fuel as [|fuel IH]; intros b H; [discriminate|].
  cbn [lastBucket] in *. apply bind_Ok in H as (next & E & H).
  rewrite (nextBucket_pad _ _ _ _ E). cbn [bind].
  destruct (next =? 0); auto.
Qed.

Lemma longestChain_pad suf fuel ht n i longest r :
  longestChain fuel ht n i longest = Ok r ->
  longestChain fuel (pad suf ht) n i longest = Ok r.
Proof.
  revert i longest. induction n as [|n IH]; intros i longest H; [exact H|].
  cbn [longestChain] in *. apply bind_Ok in H as (last & E & H).
  rewrite (lastBucket_pad _ _ _ _ _ E). cbn [bind]. apply IH. exact H.
Qed.

Lemma findUsedSize_app suf fuel buf low mid high r :
  findUsedSize fuel buf low mid high = Ok r ->
  findUsedSize fuel (buf ++ suf) low mid high = Ok r.
Proof.
  revert low mid high. induction fuel as [|fuel IH]; intros low mid high H; [discriminate|].
  cbn [findUsedSize] in *. destruct (wrap (high - mid) =? 1).
  - apply bind_Ok in H as (bm & E & H). rewrite (index_app _ _ _ _ E). cbn [bind].
    destruct (bm =? 0); [|exact H].
    apply bind_Ok in H as (bm1 & E1 & H). rewrite (index_app _ _ _ _ E1). exact H.
  - apply bind_Ok in H as (bm & E & H). rewrite (index_app _ _ _ _ E). cbn [bind].
    destruct (bm =? 0); apply IH, H.
Qed.

(** [grow] when the file has room for one more bucket. *)
Lemma grow_pad suf fuel ht b ht' :
  CheckSize (HFile ht) (BucketSize ht) = true ->
  grow fuel ht b = Ok ht' -> grow fuel (pad suf ht) b = Ok (pad suf ht').
Proof.
  unfold grow. intros Hc H.
  change (CheckSize (HFile (pad suf ht)) (BucketSize (pad suf ht)))
    with (CheckSize (HFile ht) (BucketSize ht)).
  rewrite Hc in *. cbn [negb bind] in *.
  apply bind_Ok in H as (last & E & H). apply bind_Ok in H as (buf & Eb & H).
  injection H as <-.
  rewrite (lastBucket_pad _ _ _ _ _ E). cbn [bind].
  change (Buf (HFile (pad suf ht))) with (Buf (HFile ht) ++ suf).
  change (BucketSize (pad suf ht)) with (BucketSize ht).
  change (NumBuckets (pad suf ht)) with (NumBuckets ht).
  rewrite (through_slice_app _ _ _ _ _ _ (proj1 (wrap_range _)) Eb). reflexivity.
Qed.

Lemma grow_Size fuel ht b ht' :
  CheckSize (HFile ht) (BucketSize ht) = true ->
  grow fuel ht b = Ok ht' -> Size (HFile ht') = Size (HFile ht).
Proof.
  unfold grow. intros -> H. cbn [negb bind] in H. bind_inv. injection H as <-. reflexivity.
Qed.

Ltac pad_fields :=
  repeat first
    [ progress change (Buf (HFile (pad ?suf ?ht))) with (Buf (HFile ht) ++ suf)
    | progress change (PerBucket (pad ?suf ?ht)) with (PerBucket ht)
    | progress change (BucketSize (pad ?suf ?ht)) with (BucketSize ht)
    | progress change (entryAddrOf (pad ?suf ?ht)) with (entryAddrOf ht)
    | progress change (hashKey (pad ?suf ?ht)) with (hashKey ht)
    | progress change (regionMutex (pad ?suf ?ht)) with (regionMutex ht) ].

Ltac pad_step :=
  match goal with
  | E : index ?buf ?i = Ok _ |- context [index (?buf ++ ?suf) ?i] =>
      rewrite (index_app buf suf i _ E)
  | E : slice ?buf ?lo ?hi = Ok _ |- context [slice (?buf ++ ?suf) ?lo ?hi] =>
      rewrite (slice_app buf suf lo hi _ (proj1 (wrap_range _)) E)
  | E : store ?buf ?i ?v = Ok _ |- context [store (?buf ++ ?suf) ?i ?v] =>
      rewrite (store_app buf suf i v _ (proj1 (wrap_range _)) E)
  | E : through_slice ?buf ?lo ?hi ?f = Ok _
    |- context [through_slice (?buf ++ ?suf) ?lo ?hi ?f] =>
      rewrite (through_slice_app buf suf lo hi f _ (proj1 (wrap_range _)) E)
  | E : nextBucket ?ht ?b = Ok _ |- context [nextBucket (pad ?suf ?ht) ?b] =>
      rewrite (nextBucket_pad suf ht b _ E)
  | E : regionMutex ?ht ?b = Ok _ |- context [regionMutex ?ht ?b] => rewrite E
  | E : ?c = true |- context [if ?c then _ else _] => rewrite E
  | E : ?c = false |- context [if ?c then _ else _] => rewrite E
  end; cbn [bind].

Lemma Put_loop_pad suf fuel ht key val bucket entry ht' :
  0 <= UsedSize (HFile ht) -> 0 <= BucketSize ht ->
  UsedSize (HFile ht) + Z.of_nat fuel * BucketSize ht <= Size (HFile ht) ->
  Size (HFile ht) < 18446744073709551616 ->
  Put_loop fuel ht key val bucket entry = Ok ht' ->
  Put_loop fuel (pad suf ht) key val bucket entry = Ok (pad suf ht').
Proof.
  revert ht bucket entry. induction fuel as [|fuel IH];
    intros ht bucket entry HU HB Hroom HS H; [discriminate|].
  cbn [Put_loop] in *. pad_fields.
  unfold entryAddrOf in *. bind_inv; repeat pad_step.
  - injection H as <-. reflexivity.
  - assert (CheckSize (HFile ht) (BucketSize ht) = true) as Hc.
    { unfold CheckSize. rewrite wrap_small by nia. apply Z.leb_le. nia. }
    rewrite (grow_pad suf _ _ _ _ Hc E1). cbn [bind]. pad_fields.
    pose proof (grow_Size _ _ _ _ Hc E1) as HSz.
    apply grow_fields in E1 as (_ & HU1 & HB1 & HH1 & _).
    rewrite wrap_small in HU1 by nia.
    assert (hashKey a1 key = hashKey ht key) as Hk by (unfold hashKey; rewrite HH1; reflexivity).
    rewrite Hk in *. pad_step.
    apply IH; rewrite ?HU1, ?HB1, ?HSz; try lia; try nia. exact H.
  - apply IH; try lia; try nia. exact H.
  - apply IH; try lia; try nia. exact H.
Qed.

Lemma Put_pad suf fuel ht key val ht' :
  0 <= UsedSize (HFile ht) -> 0 <= BucketSize ht ->
  UsedSize (HFile ht) + Z.of_nat fuel * BucketSize ht <= Size (HFile ht) ->
  Size (HFile ht) < 18446744073709551616 ->
  Put fuel ht key val = Ok ht' -> Put fuel (pad suf ht) key val = Ok (pad suf ht').
Proof.
  unfold Put. intros HU HB Hroom HS H. pad_fields. bind_inv. pad_step.
  apply Put_loop_pad; assumption.
Qed.

Lemma Get_loop_pad suf fuel ht key limit filter count entry bucket keys vals r :
  Get_loop fuel ht key limit filter count entry bucket keys vals = Ok r ->
  Get_loop fuel (pad suf ht) key limit filter count entry bucket keys vals = Ok r.
Proof.
  revert count entry bucket keys vals. induction fuel as [|fuel IH];
    intros count entry bucket keys vals H; [discriminate|].
  cbn [Get_loop] in *. pad_fields.
  unfold entryAddrOf in *. bind_inv; repeat pad_step; auto.
Qed.

Lemma Get_pad suf fuel ht key limit filter r :
  Get fuel ht key limit filter = Ok r -> Get fuel (pad suf ht) key limit filter = Ok r.
Proof.
  unfold Get. intros H. pad_fields. bind_inv. rewrite E. cbn [bind].
  pad_step. apply Get_loop_pad, H.
Qed.

Lemma Remove_loop_pad suf fuel ht key val entry bucket ht' :
  Remove_loop fuel ht key val entry bucket = Ok ht' ->
  Remove_loop fuel (pad suf ht) key val entry bucket = Ok (pad suf ht').
Proof.
  revert entry bucket. induction fuel as [|fuel IH]; intros entry bucket H; [discriminate|].
  cbn [Remove_loop] in *. pad_fields.
  unfold entryAddrOf in *. bind_inv; repeat pad_step; auto;
    injection H as <-; reflexivity.
Qed.

Lemma Remove_pad suf fuel ht key val ht' :
  Remove fuel ht key val = Ok ht' -> Remove fuel (pad suf ht) key val = Ok (pad suf ht').
Proof.
  unfold Remove. intros H. pad_fields. bind_inv. pad_step. apply Remove_loop_pad, H.
Qed.

(** ** The scenario: three keys of head 0 *)

Lemma more_fuel {A} (f : nat -> outcome A) :
  (forall n m, (n <= m)%nat -> approx (f n) (f m)) ->
  forall n k r, f n = Ok r -> f (n + k)%nat = Ok r.
Proof. intros Hf n k r H. apply (approx_Ok (f n)); [apply Hf; lia | exact H]. Qed.

Lemma entry_at_pad suf ht b e r :
  entry_at ht b e = Ok r -> entry_at (pad suf ht) b e = Ok r.
Proof.
  unfold entry_at. intros H. pad_fields. bind_inv. repeat pad_step. exact H.
Qed.

Lemma header_of_pad suf ht b :
  0 <= b -> 0 <= BucketSize ht ->
  b * BucketSize ht + 10 <= Z.of_nat (length (Buf (HFile ht))) ->
  header_of (pad suf ht) b = header_of ht b.
Proof.
  intros Hb HBS Hlen. unfold header_of. pad_fields.
  rewrite drop_app_le by nia. rewrite take_app_le; [reflexivity|].
  rewrite length_drop. nia.
Qed.

Lemma fresh_table_4_2 : fresh_table 4 2 = pad zero_tail small_opened.
Proof.
  unfold fresh_table, pad, small_opened, small_file, with_Buf, with_File, set_Buf, zero_tail.
  cbn [HFile Buf UsedSize Size Growth BucketSize HashBits PerBucket NumBuckets
       InitialBuckets regionRWMutex app length].
  change (fresh_Size 4 2) with 1048576.
  change (1024 - 0)%nat with 1024%nat.
  rewrite <- replicate_add.
  replace (1024 + Z.to_nat (1048576 - 1024))%nat with (Z.to_nat 1048576) by lia.
  reflexivity.
Qed.

Lemma params_fit_4_2 : params_fit 4 2.
Proof. unfold params_fit. cbn. lia. Qed.

(** The runs over the first 1024 bytes. *)
Lemma small_Put_0_100_16_200 :
  (ht <- Put 20 small_opened 0 100 ;; Put 20 ht 16 200) = Ok small_two_puts.
Proof. vm_compute. reflexivity. Qed.

Lemma small_grow : grow 20 small_two_puts 0 = Ok small_grown.
Proof. vm_compute. reflexivity. Qed.

Lemma small_Put_32_300 : Put 20 small_two_puts 32 300 = Ok small_scenario2.
Proof. vm_compute. reflexivity. Qed.

Lemma small_Put_32_300_grown : Put 20 small_grown 32 300 = Ok small_scenario2.
Proof. vm_compute. reflexivity. Qed.

(** C7.  [OpenHash] on a new file with [hashBits = 4], [perBucket = 2]: the
    file is 1 MiB of zeros (one growth step), there are the 16 head buckets
    and no other, since every chain ends at its head, and 16 * 52 = 832
    bytes are in use. *)
Theorem OpenHash_new_file_4_2 (fuel : nat) :
  exists ht,
    OpenHash (6 + fuel) [] 4 2 = Ok ht /\
    Z.of_nat (length (Buf (HFile ht))) = 1048576 /\
    Buf (HFile ht) = replicate (Z.to_nat 1048576) 0 /\
    Size (HFile ht) = 1048576 /\
    BucketSize ht = 52 /\ InitialBuckets ht = 16 /\
    (forall i, 0 <= i < 16 -> lastBucket (1 + fuel) ht i = Ok i) /\
    NumBuckets ht = 16 /\ UsedSize (HFile ht) = 832.
Proof.
  exists (fresh_table 4 2). split.
  { apply OpenHash_new_file; [apply params_fit_4_2|].
    change (fresh_Size 4 2 / 1048576) with 1. lia. }
  unfold fresh_table. cbn [HFile Buf Size BucketSize InitialBuckets NumBuckets UsedSize].
  change (fresh_Size 4 2) with 1048576.
  split; [rewrite length_replicate; lia|].
  split; [reflexivity|]. split; [reflexivity|]. split; [reflexivity|].
  split; [reflexivity|].
  split; [|split; reflexivity].
  intros i Hi. apply lastBucket_zeros; cbn [HFile Buf Size BucketSize NumBuckets];
    try lia; reflexivity.
Qed.

Lemma two_puts_fuel n m : (n <= m)%nat -> approx (two_puts n) (two_puts m).
Proof.
  intros Hle. unfold two_puts. approx_solve.
Qed.
#[local] Hint Resolve two_puts_fuel : fuel.

Lemma scenario2_fuel n m : (n <= m)%nat -> approx (scenario2 n) (scenario2 m).
Proof.
  intros Hle. unfold scenario2. approx_solve.
Qed.
#[local] Hint Resolve scenario2_fuel : fuel.

Lemma reopened_fuel n m : (n <= m)%nat -> approx (reopened n) (reopened m).
Proof.
  intros Hle. unfold reopened. approx_solve.
Qed.

Lemma small_room (ht : HashTable) :
  HFile ht = small_file 832 [] \/ HFile ht = small_file 832 head0_full \/
  HFile ht = small_file 884 (16 :: drop 1 head0_full) ->
  BucketSize ht = 52 ->
  0 <= UsedSize (HFile ht) /\ 0 <= BucketSize ht /\
  UsedSize (HFile ht) + Z.of_nat 20 * BucketSize ht <= Size (HFile ht) /\
  Size (HFile ht) < 18446744073709551616.
Proof.
  intros [-> | [-> | ->]] ->; cbn [small_file UsedSize Size]; lia.
Qed.

Lemma two_puts_20 : two_puts 20 = Ok (pad zero_tail small_two_puts).
Proof.
  unfold two_puts.
  rewrite OpenHash_new_file;
    [|apply params_fit_4_2|change (fresh_Size 4 2 / 1048576) with 1; lia].
  cbn [bind]. rewrite fresh_table_4_2.
  pose proof small_Put_0_100_16_200 as H. apply bind_Ok in H as (ht1 & E1 & E2).
  destruct (small_room small_opened) as (? & ? & ? & ?); [auto | reflexivity|].
  rewrite (Put_pad zero_tail 20 small_opened 0 100 ht1) by assumption. cbn [bind].
  assert (HFile ht1 = small_file 832 (replicate 10 0 ++ [1] ++ (0 :: replicate 9 0) ++
                                       (100 :: replicate 9 0)) /\ BucketSize ht1 = 52)
    as [Hf1 Hb1].
  { revert E1. vm_compute. intros [= <-]. split; reflexivity. }
  apply Put_pad; try exact E2; rewrite ?Hf1, ?Hb1; cbn [small_file UsedSize Size]; lia.
Qed.

Lemma scenario2_20 : scenario2 20 = Ok (pad zero_tail small_scenario2).
Proof.
  unfold scenario2. rewrite two_puts_20. cbn [bind].
  destruct (small_room small_two_puts) as (? & ? & ? & ?); [auto | reflexivity|].
  apply Put_pad; try assumption. apply small_Put_32_300.
Qed.

Lemma scenario2_file :
  Buf (HFile (pad zero_tail small_scenario2)) =
  scenario2_bytes ++ replicate (Z.to_nat (1048576 - 884)) 0.
Proof.
  unfold pad, small_scenario2, small_file, zero_tail.
  cbn [with_Buf with_File set_Buf HFile Buf].
  rewrite <- app_assoc.
  change (1024 - length scenario2_bytes)%nat with 140%nat.
  rewrite <- replicate_add.
  replace (140 + Z.to_nat (1048576 - 1024))%nat with (Z.to_nat (1048576 - 884)) by lia.
  reflexivity.
Qed.

(** C3.  After [Put(0, 100)] and [Put(16, 200)] the two entries of head
    bucket 0 hold the two pairs and there are still 16 buckets.  The third
    [Put] finds the bucket full and its chain at its end: [grow(0)] makes
    bucket 16 and writes 16 into the header of bucket 0, and the retried
    [Put] stores [(32, 300)] in entry 0 of bucket 16.  Afterwards there are
    17 buckets; the whole file is [scenario2_bytes] followed by zeros. *)
Theorem scenario2_grows_head_0 (fuel : nat) :
  exists ht2 htg ht3,
    two_puts (20 + fuel) = Ok ht2 /\
    NumBuckets ht2 = 16 /\ header_of ht2 0 = 0 /\
    entry_at ht2 0 0 = Ok (ENTRY_VALID, 0, 100) /\
    entry_at ht2 0 1 = Ok (ENTRY_VALID, 16, 200) /\
    hashKey ht2 0 = 0 /\ hashKey ht2 16 = 0 /\ hashKey ht2 32 = 0 /\
    grow (20 + fuel) ht2 0 = Ok htg /\
    NumBuckets htg = 17 /\ header_of htg 0 = 16 /\
    Put (20 + fuel) htg 32 300 = Ok ht3 /\
    Put (20 + fuel) ht2 32 300 = Ok ht3 /\
    scenario2 (20 + fuel) = Ok ht3 /\
    NumBuckets ht3 = 17 /\ UsedSize (HFile ht3) = 884 /\ header_of ht3 0 = 16 /\
    entry_at ht3 0 0 = Ok (ENTRY_VALID, 0, 100) /\
    entry_at ht3 0 1 = Ok (ENTRY_VALID, 16, 200) /\
    entry_at ht3 16 0 = Ok (ENTRY_VALID, 32, 300) /\
    Buf (HFile ht3) = scenario2_bytes ++ replicate (Z.to_nat (1048576 - 884)) 0.
Proof.
  exists (pad zero_tail small_two_puts), (pad zero_tail small_grown),
         (pad zero_tail small_scenario2).
  destruct (small_room small_two_puts) as (? & ? & ? & ?); [auto | reflexivity|].
  destruct (small_room small_grown) as (? & ? & ? & ?); [auto | reflexivity|].
  assert (forall ht b, In ht [small_two_puts; small_grown; small_scenario2] ->
            header_of (pad zero_tail ht) b = header_of ht b \/ ~ 0 <= b <= 16) as Hhdr.
  { intros ht b Hin. destruct (Z_le_dec 0 b); [|right; lia].
    destruct (Z_le_dec b 16); [|right; lia]. left.
    assert (BucketSize ht = 52 /\ length (Buf (HFile ht)) = 1024%nat) as [Hb Hl]
      by (cbn [In] in Hin; intuition (subst; split; reflexivity)).
    apply header_of_pad; rewrite ?Hb, ?Hl; lia. }
  assert (forall ht, In ht [small_two_puts; small_grown; small_scenario2] ->
            header_of (pad zero_tail ht) 0 = header_of ht 0) as Hhdr0.
  { intros ht Hin. destruct (Hhdr ht 0 Hin) as [-> | ?]; [reflexivity | lia]. }
  split; [apply (more_fuel two_puts two_puts_fuel), two_puts_20|].
  split; [reflexivity|].
  split; [rewrite Hhdr0 by (cbn; auto); vm_compute; reflexivity|].
  split; [apply entry_at_pad; vm_compute; reflexivity|].
  split; [apply entry_at_pad; vm_compute; reflexivity|].
  split; [reflexivity|]. split; [reflexivity|]. split; [reflexivity|].
  split.
  { apply (more_fuel (fun n => grow n _ 0) (fun n m => grow_fuel n m _ 0)).
    apply grow_pad; [reflexivity | apply small_grow]. }
  split; [reflexivity|].
  split; [rewrite Hhdr0 by (cbn; auto); vm_compute; reflexivity|].
  split.
  { apply (more_fuel (fun n => Put n _ 32 300) (fun n m => Put_fuel n m _ 32 300)).
    apply Put_pad; try assumption. apply small_Put_32_300_grown. }
  split.
  { apply (more_fuel (fun n => Put n _ 32 300) (fun n m => Put_fuel n m _ 32 300)).
    apply Put_pad; try assumption. apply small_Put_32_300. }
  split; [apply (more_fuel scenario2 scenario2_fuel), scenario2_20|].
  split; [reflexivity|]. split; [reflexivity|].
  split; [rewrite Hhdr0 by (cbn; auto); vm_compute; reflexivity|].
  split; [apply entry_at_pad; vm_compute; reflexivity|].
  split; [apply entry_at_pad; vm_compute; reflexivity|].
  split; [apply entry_at_pad; vm_compute; reflexivity|].
  apply scenario2_file.
Qed.

(** *** Opening the file of the scenario again *)

Lemma findUsedSize_zero_step fuel buf low mid high :
  (wrap (high - mid) =? 1) = false -> index buf mid = Ok 0 ->
  findUsedSize (S fuel) buf low mid high =
  findUsedSize fuel buf low (wrap (low + wrap (mid - low) / 2)) mid.
Proof. intros H1 H2. cbn [findUsedSize]. rewrite H1, H2. reflexivity. Qed.

Ltac eval_mid :=
  match goal with
  | |- context [findUsedSize _ _ _ ?m _] =>
      let v := eval vm_compute in m in change m with v
  end.

(** Over a file whose bytes from 1024 on are zero the search goes down to
    the first 1024 bytes in ten rounds. *)
Lemma findUsedSize_skip_zeros fuel (disk : list Z) :
  (forall i, 1024 <= i < 1048576 -> index disk i = Ok 0) ->
  findUsedSize (10 + fuel) disk 0 524288 1048576 = findUsedSize fuel disk 0 512 1024.
Proof.
  intros Hz. cbn [Nat.add].
  do 10 (rewrite findUsedSize_zero_step by (try reflexivity; apply Hz; lia); eval_mid).
  reflexivity.
Qed.

Lemma index_zero_tail (pre : list Z) (n : nat) i :
  Z.of_nat (length pre) <= i < Z.of_nat (length pre + n) ->
  index (pre ++ replicate n 0) i = Ok 0.
Proof.
  intros Hi. apply index_lookup. rewrite lookup_app_r by lia.
  apply lookup_replicate_2. lia.
Qed.

Lemma pad_mk suf u sz g b bs hb pb nb ib rw :
  pad suf (mkHashTable (mkFile u sz g b) bs hb pb nb ib rw) =
  mkHashTable (mkFile u sz g (b ++ suf)) bs hb pb nb ib rw.
Proof. reflexivity. Qed.

(** Opening a 1 MiB file of buckets of 52 bytes whose bytes from 1024 on
    are zero: the used size that [Open] finds is replaced by the one that
    the walk over the 16 chains gives. *)
Lemma OpenHash_zero_tail (pre tail : list Z) (used n : Z) :
  length pre = 1024%nat -> length tail = Z.to_nat (1048576 - 1024) ->
  (forall i, 1024 <= i < 1048576 -> index (pre ++ tail) i = Ok 0) ->
  findUsedSize 20 pre 0 512 1024 = Ok used ->
  longestChain 30 (mkHashTable (mkFile 1048576 1048576 HASH_TABLE_GROWTH pre)
                     52 4 2 20164 16 65) 16 0 16 = Ok n ->
  0 <= n <= 20164 ->
  OpenHash 30 (pre ++ tail) 4 2 =
  Ok (mkHashTable (mkFile (n * 52) 1048576 HASH_TABLE_GROWTH (pre ++ tail))
        52 4 2 n 16 65).
Proof.
  intros Hpre Htail Hz Hused Hchain Hn.
  unfold OpenHash. change ((4 <? 2) || (2 <? 2)) with false. cbv iota.
  unfold Open. cbn [Size Growth UsedSize Buf set_UsedSize].
  replace (Z.of_nat (length (pre ++ tail))) with 1048576
    by (rewrite length_app, Hpre, Htail; lia).
  change (1048576 =? 0) with false. cbv iota.
  change (1048576 / 2) with 524288. change 30%nat with (10 + 20)%nat at 1.
  rewrite (findUsedSize_skip_zeros 20 (pre ++ tail) Hz).
  rewrite (findUsedSize_app _ _ _ _ _ _ _ Hused).
  cbn [bind set_UsedSize Size UsedSize Growth Buf].
  unfold HASH_TABLE_REGION_SIZE, BUCKET_HEADER_SIZE, ENTRY_SIZE.
  change (wrap (10 + (1 + 10 + 10) * 2)) with 52.
  change (52 =? 0) with false. cbv iota.
  change (pow2_uint64 4) with 16. change (Z.to_nat 16) with 16%nat.
  change (1048576 / 52) with 20164. change (1048576 / (1024 * 16) + 1) with 65.
  rewrite <- (pad_mk tail 1048576 1048576 HASH_TABLE_GROWTH pre).
  rewrite (longestChain_pad _ _ _ _ _ _ _ Hchain). cbn [bind].
  rewrite (wrap_small (n * 52)) by lia.
  destruct (Z.ltb_spec 1048576 (n * 52)); [lia|].
  cbn [bind pad with_Buf with_File set_Buf HFile set_UsedSize Size UsedSize Growth Buf].
  reflexivity.
Qed.

Lemma small_findUsedSize :
  findUsedSize 20 (scenario2_bytes ++ replicate (1024 - length scenario2_bytes) 0)
    0 512 1024 = Ok 33.
Proof. vm_compute. reflexivity. Qed.

Lemma small_longestChain : longestChain 30 small_assumed 16 0 16 = Ok 17.
Proof. vm_compute. reflexivity. Qed.

Lemma scenario2_table :
  pad zero_tail small_scenario2 =
  mkHashTable
    (mkFile 884 1048576 HASH_TABLE_GROWTH
       ((scenario2_bytes ++ replicate (1024 - length scenario2_bytes) 0) ++ zero_tail))
    52 4 2 17 16 65.
Proof. unfold small_scenario2, small_file. apply pad_mk. Qed.

Lemma reopen_scenario2 :
  OpenHash 30 (Buf (HFile (pad zero_tail small_scenario2))) 4 2 =
  Ok (pad zero_tail small_scenario2).
Proof.
  rewrite scenario2_table. cbn [HFile Buf].
  rewrite (OpenHash_zero_tail _ zero_tail 33 17).
  - reflexivity.
  - reflexivity.
  - unfold zero_tail. apply length_replicate.
  - intros i Hi. unfold zero_tail. apply index_zero_tail.
    change (length (scenario2_bytes ++ replicate (1024 - length scenario2_bytes) 0))
      with 1024%nat. lia.
  - apply small_findUsedSize.
  - apply small_longestChain.
  - lia.
Qed.

Lemma reopened_30 : reopened 30 = Ok (pad zero_tail small_scenario2).
Proof.
  unfold reopened. change 30%nat with (20 + 10)%nat at 1.
  rewrite (more_fuel scenario2 scenario2_fuel 20 10 _ scenario2_20). cbn [bind].
  apply reopen_scenario2.
Qed.

Lemma small_Get (key : Z) :
  In key [0; 16; 32] ->
  Get 30 small_scenario2 key 0 always_true =
  Ok ([key], [if key =? 0 then 100 else if key =? 16 then 200 else 300]).
Proof.
  cbn [In]. intros [<- | [<- | [<- | []]]]; vm_compute; reflexivity.
Qed.

(** C2, as amended.  Opening the file of the scenario again recovers 17
    buckets and 884 used bytes from the walk over the chains -- the table
    is the one that was closed -- and the three pairs are all stored; but
    [Get(0, ...)] compares the stored key with the key asked for, so it
    yields [(0, 100)] alone, and [(16, 200)] and [(32, 300)] come with
    [Get(16, ...)] and [Get(32, ...)]. *)
Theorem reopened_recovers_scenario2 (fuel : nat) :
  exists ht,
    reopened (30 + fuel) = Ok ht /\
    scenario2 (30 + fuel) = Ok ht /\
    NumBuckets ht = 17 /\
    UsedSize (HFile ht) = 884 /\ UsedSize (HFile ht) = 17 * BucketSize ht /\
    Get (30 + fuel) ht 0 0 always_true = Ok ([0], [100]) /\
    Get (30 + fuel) ht 16 0 always_true = Ok ([16], [200]) /\
    Get (30 + fuel) ht 32 0 always_true = Ok ([32], [300]).
Proof.
  exists (pad zero_tail small_scenario2).
  split; [apply (more_fuel reopened reopened_fuel), reopened_30|].
  split.
  { change (30 + fuel)%nat with (20 + (10 + fuel))%nat.
    apply (more_fuel scenario2 scenario2_fuel), scenario2_20. }
  split; [reflexivity|]. split; [reflexivity|]. split; [reflexivity|].
  assert (forall key, In key [0; 16; 32] ->
            Get (30 + fuel) (pad zero_tail small_scenario2) key 0 always_true =
            Ok ([key], [if key =? 0 then 100 else if key =? 16 then 200 else 300]))
    as HGet.
  { intros key Hkey.
    apply (more_fuel (fun n => Get n _ key 0 always_true)
             (fun n m => Get_fuel n m _ key 0 always_true)).
    apply Get_pad, small_Get, Hkey. }
  split; [|split]; apply HGet; cbn [In]; auto.
Qed.

(** C2, as stated, fails: on the reopened table [Get(0, 0, always-true)]
    is [(0, 100)], not the three pairs. *)
Lemma reopened_Get_0_is_one_pair :
  exists ht,
    reopened 30 = Ok ht /\
    Get 30 ht 0 0 always_true = Ok ([0], [100]) /\
    Get 30 ht 0 0 always_true <> Ok ([0; 16; 32], [100; 200; 300]).
Proof.
  exists (pad zero_tail small_scenario2).
  assert (Get 30 (pad zero_tail small_scenario2) 0 0 always_true = Ok ([0], [100])) as HGet
    by (apply Get_pad; apply (small_Get 0); cbn; auto).
  split; [apply reopened_30|]. split; [exact HGet|].
  rewrite HGet. discriminate.
Qed.

(** ** The region locks of a new table *)

Lemma params_fit_21_2 : params_fit 21 2.
Proof. unfold params_fit. cbn. lia. Qed.

(** C1, at the failing input.  [OpenHash] sizes the slice of region locks
    from the size of the file before it grows the file to hold the head
    buckets: on a new file that is 1 MiB, hence 65 locks, whatever
    [hashBits] is.  With [hashBits = 21] the key 2097151 belongs to head
    bucket 2097151, whose region is 2097151 / 16384 = 127: the first [Put]
    of that key indexes the slice out of range and panics, so no [Get]
    can follow. *)
Theorem Put_panics_on_new_table_21_2 (fuel fuel' : nat) (val : Z) :
  exists ht,
    OpenHash (110 + fuel) [] 21 2 = Ok ht /\
    regionRWMutex ht = 65 /\
    hashKey ht 2097151 = 2097151 /\
    Put fuel' ht 2097151 val = Panic.
Proof.
  exists (fresh_table 21 2). split.
  { apply OpenHash_new_file; [apply params_fit_21_2|].
    change (fresh_Size 21 2 / 1048576) with 105. lia. }
  split; [reflexivity|]. split; [reflexivity|].
  unfold Put, regionMutex, hashKey.
  cbn [fresh_table HashBits regionRWMutex]. reflexivity.
Qed.

(** C8, at the failing input.  The table that [OpenHash] returns on a new
    file with [hashBits = 21] holds no entry: its buffer is all zeros.
    [Remove(2097151, val)] has nothing to remove there, and yet it does not
    return: the key belongs to head bucket 2097151, whose region is 127,
    and the table has 65 region locks, so taking the lock indexes the
    slice out of range and panics before the chain is read. *)
Theorem Remove_panics_on_new_table_21_2 (fuel fuel' : nat) (val : Z) :
  exists ht,
    OpenHash (110 + fuel) [] 21 2 = Ok ht /\
    Buf (HFile ht) = replicate (Z.to_nat (Size (HFile ht))) 0 /\
    regionRWMutex ht = 65 /\
    hashKey ht 2097151 / HASH_TABLE_REGION_SIZE = 127 /\
    Remove fuel' ht 2097151 val = Panic.
Proof.
  exists (fresh_table 21 2). split.
  { apply OpenHash_new_file; [apply params_fit_21_2|].
    change (fresh_Size 21 2 / 1048576) with 105. lia. }
  split; [reflexivity|]. split; [reflexivity|]. split; [reflexivity|].
  unfold Remove, regionMutex, hashKey.
  cbn [fresh_table HashBits regionRWMutex]. reflexivity.
Qed.

(** ** Varints *)

Lemma lor_disjoint a c s :
  0 <= s -> 0 <= a < 2 ^ s -> 0 <= c -> Z.lor a (c * 2 ^ s) = a + c * 2 ^ s.
Proof.
  intros Hs Ha Hc.
  assert (Z.land a (c * 2 ^ s) = 0) as Hland.
  { apply Z.bits_inj'. intros n Hn. rewrite Z.land_spec, Z.bits_0.
    destruct (Z.lt_ge_cases n s) as [Hlt | Hge].
    - rewrite <- Z.shiftl_mul_pow2 by lia. rewrite Z.shiftl_spec_low by lia.
      apply andb_false_r.
    - destruct (Z.eq_dec a 0) as [-> | Hnz]; [rewrite Z.bits_0; reflexivity|].
      rewrite (Z.bits_above_log2 a n); [reflexivity | lia|].
      apply Z.log2_lt_pow2; [lia|]. apply Z.lt_le_trans with (2 ^ s); [lia|].
      apply Z.pow_le_mono_r; lia. }
  rewrite <- Z.lxor_lor by exact Hland. symmetry. apply Z.add_nocarry_lxor, Hland.
Qed.

Lemma lor_128 a : 0 <= a < 128 -> Z.lor a 128 = a + 128.
Proof. intros Ha. apply (lor_disjoint a 1 7); lia. Qed.

(** A byte with the continuation bit: its low seven bits are those of [x]. *)
Lemma continuation_byte x :
  0 <= x ->
  128 <= Z.lor (x mod 256) 128 < 256 /\ Z.land (Z.lor (x mod 256) 128) 127 = x mod 128.
Proof.
  intros Hx.
  assert (0 <= x mod 128 < 128) as Hr by (apply Z.mod_pos_bound; lia).
  assert (Z.lor (x mod 256) 128 = x mod 128 + 128) as ->.
  { assert (x mod 256 = x mod 128 \/ x mod 256 = x mod 128 + 128) as [-> | ->]
      by (Z.div_mod_to_equations; lia).
    - apply lor_128, Hr.
    - rewrite <- (lor_128 (x mod 128) Hr) at 1.
      rewrite <- Z.lor_assoc, Z.lor_diag. apply lor_128, Hr. }
  split; [lia|].
  change 127 with (Z.ones 7). rewrite Z.land_ones by lia.
  change (2 ^ 7) with 128. Z.div_mod_to_equations. lia.
Qed.

Lemma length_uvarint_bytes fuel x : (length (uvarint_bytes fuel x) <= fuel)%nat.
Proof.
  revert x. induction fuel as [|fuel IH]; intros x; cbn [uvarint_bytes length]; [lia|].
  destruct (128 <=? x); cbn [length]; [specialize (IH (Z.shiftr x 7))|]; lia.
Qed.

Lemma uvarint_bytes_nonempty fuel x : (0 < fuel)%nat -> (0 < length (uvarint_bytes fuel x))%nat.
Proof.
  destruct fuel; [lia|]. intros _. cbn [uvarint_bytes]. destruct (128 <=? x); cbn [length]; lia.
Qed.

(** Decoding what was encoded, from the digit [i] on: [acc] holds the
    digits read so far. *)
Lemma Uvarint_loop_bytes fuel x rest i acc :
  0 <= i <= 9 -> 0 <= acc < 2 ^ (7 * i) -> 0 <= x < 2 ^ (64 - 7 * i) ->
  x < 2 ^ (7 * Z.of_nat fuel) -> (0 < fuel)%nat ->
  Uvarint_loop (uvarint_bytes fuel x ++ rest) i acc (7 * i) =
  (acc + x * 2 ^ (7 * i), i + Z.of_nat (length (uvarint_bytes fuel x))).
Proof.
  revert x i acc. induction fuel as [|fuel IH]; intros x i acc Hi Hacc Hx Hfuel Hpos; [lia|].
  cbn [uvarint_bytes].
  assert (0 < 2 ^ (7 * i)) by (apply Z.pow_pos_nonneg; lia).
  destruct (Z.leb_spec 128 x) as [Hbig | Hsmall].
  - (* a continuation byte *)
    destruct (continuation_byte x) as [Hb Hlow]; [lia|].
    assert (i <= 8) as Hi8.
    { destruct (Z.eq_dec i 9) as [-> | ]; [|lia]. change (2 ^ (64 - 7 * 9)) with 2 in Hx. lia. }
    cbn [app Uvarint_loop length].
    destruct (Z.eqb_spec i 10); [lia|].
    destruct (Z.ltb_spec (Z.lor (x mod 256) 128) 128); [lia|].
    rewrite Hlow. unfold shl. rewrite Z.shiftl_mul_pow2 by lia.
    assert (2 ^ (7 * i + 7) = 2 ^ (7 * i) * 128) as Hpow
      by (rewrite Z.pow_add_r by lia; reflexivity).
    assert (2 ^ (7 * i + 7) <= 2 ^ 64) as Hle by (apply Z.pow_le_mono_r; lia).
    assert (0 <= x mod 128 < 128) by (apply Z.mod_pos_bound; lia).
    rewrite wrap_small by (change 18446744073709551616 with (2 ^ 64); nia).
    rewrite lor_disjoint by lia.
    rewrite Z.shiftr_div_pow2 by lia. change (2 ^ 7) with 128.
    assert (0 <= x / 128) by (apply Z.div_pos; lia).
    assert (2 ^ (64 - 7 * i) = 2 ^ (64 - 7 * (i + 1)) * 128) as Hpow'
      by (replace (64 - 7 * i) with (64 - 7 * (i + 1) + 7) by lia;
          rewrite Z.pow_add_r by lia; reflexivity).
    assert (2 ^ (7 * Z.of_nat (S fuel)) = 2 ^ (7 * Z.of_nat fuel) * 128) as Hpow''
      by (replace (7 * Z.of_nat (S fuel)) with (7 * Z.of_nat fuel + 7) by lia;
          rewrite Z.pow_add_r by lia; reflexivity).
    assert (x / 128 < 2 ^ (64 - 7 * (i + 1))) by (apply Z.div_lt_upper_bound; lia).
    assert (x / 128 < 2 ^ (7 * Z.of_nat fuel)) by (apply Z.div_lt_upper_bound; lia).
    assert (1 <= x / 128) by (apply Z.div_le_lower_bound; lia).
    assert (0 < fuel)%nat.
    { destruct fuel; [|lia]. change (2 ^ (7 * Z.of_nat 0)) with 1 in *. lia. }
    replace (7 * i + 7) with (7 * (i + 1)) in * by lia.
    rewrite IH; try lia; [|rewrite Hpow; nia].
    f_equal; [|lia].
    rewrite Hpow. pose proof (Z.div_mod x 128 ltac:(lia)). nia.
  - (* the last byte *)
    cbn [app Uvarint_loop length].
    destruct (Z.eqb_spec i 10); [lia|].
    rewrite (Z.mod_small x 256) by lia.
    destruct (Z.ltb_spec x 128); [|lia].
    assert ((i =? 9) && (1 <? x) = false) as ->.
    { destruct (Z.eqb_spec i 9) as [-> | ]; [|reflexivity].
      change (2 ^ (64 - 7 * 9)) with 2 in Hx. destruct (Z.ltb_spec 1 x); [lia | reflexivity]. }
    unfold shl. rewrite Z.shiftl_mul_pow2 by lia.
    assert (2 ^ (64 - 7 * i) * 2 ^ (7 * i) = 2 ^ 64) as Hpow
      by (rewrite <- Z.pow_add_r by lia; f_equal; lia).
    rewrite wrap_small by (change 18446744073709551616 with (2 ^ 64); nia).
    rewrite lor_disjoint by lia. f_equal.
Qed.

(** The round trip: decoding the bytes of [x], whatever follows them. *)
Lemma Uvarint_bytes x rest :
  0 <= x < 18446744073709551616 ->
  fst (Uvarint (uvarint_bytes 10 x ++ rest)) = x.
Proof.
  intros Hx. unfold Uvarint.
  change 0 with (7 * 0) at 3.
  rewrite Uvarint_loop_bytes; cbn [fst]; lia.
Qed.

(** ** Writes into the buffer *)

Lemma length_write_bytes buf lo bytes :
  0 <= lo -> lo + Z.of_nat (length bytes) <= Z.of_nat (length buf) ->
  length (write_bytes buf lo bytes) = length buf.
Proof.
  intros Hlo Hfit. unfold write_bytes.
  rewrite !length_app, length_take, length_drop. lia.
Qed.

Lemma lookup_write_bytes buf lo bytes (i : nat) :
  0 <= lo -> lo + Z.of_nat (length bytes) <= Z.of_nat (length buf) ->
  write_bytes buf lo bytes !! i =
  if decide (Z.to_nat lo <= i < Z.to_nat lo + length bytes)%nat
  then bytes !! (i - Z.to_nat lo)%nat else buf !! i.
Proof.
  intros Hlo Hfit. unfold write_bytes.
  assert (length (take (Z.to_nat lo) buf) = Z.to_nat lo) as Hlen
    by (rewrite length_take; lia).
  destruct (decide (i < Z.to_nat lo)%nat) as [Hlt | Hge].
  - rewrite lookup_app_l by lia. rewrite lookup_take_lt by lia.
    destruct (decide _); [lia | reflexivity].
  - rewrite lookup_app_r by lia. rewrite Hlen.
    destruct (decide (i - Z.to_nat lo < length bytes)%nat) as [Hin | Hout].
    + rewrite lookup_app_l by lia. destruct (decide _); [reflexivity | lia].
    + rewrite lookup_app_r by lia. rewrite lookup_drop.
      destruct (decide _); [lia|]. f_equal. lia.
Qed.

Lemma write_bytes_app buf lo a b :
  0 <= lo ->
  lo + Z.of_nat (length a) + Z.of_nat (length b) <= Z.of_nat (length buf) ->
  write_bytes (write_bytes buf lo a) (lo + Z.of_nat (length a)) b =
  write_bytes buf lo (a ++ b).
Proof.
  intros Hlo Hfit. apply list_eq. intros i.
  rewrite !lookup_write_bytes; rewrite ?length_write_bytes, ?length_app; try lia.
  repeat destruct (decide _); try lia.
  - rewrite lookup_app_r by lia. f_equal. lia.
  - rewrite lookup_app_l by lia. reflexivity.
  - reflexivity.
Qed.

Lemma store_write buf i v :
  0 <= i < Z.of_nat (length buf) -> store buf i v = Ok (write_bytes buf i [v]).
Proof.
  intros Hi. unfold store. destruct (Z.ltb_spec i (Z.of_nat (length buf))); [|lia].
  f_equal. unfold write_bytes. cbn [length app].
  rewrite insert_take_drop by lia. do 2 f_equal. f_equal. lia.
Qed.

Lemma PutUvarint_loop_spec fuel buf i x :
  0 <= i -> 0 <= x < 2 ^ (7 * Z.of_nat fuel) -> (0 < fuel)%nat ->
  i + Z.of_nat fuel <= Z.of_nat (length buf) ->
  PutUvarint_loop fuel buf i x = Ok (write_bytes buf i (uvarint_bytes fuel x)).
Proof.
  revert buf i x. induction fuel as [|fuel IH]; intros buf i x Hi Hx Hpos Hfit; [lia|].
  cbn [PutUvarint_loop uvarint_bytes].
  destruct (Z.leb_spec 128 x) as [Hbig | Hsmall].
  - rewrite store_write by lia. cbn [bind].
    assert (2 ^ (7 * Z.of_nat (S fuel)) = 2 ^ (7 * Z.of_nat fuel) * 128) as Hpow
      by (replace (7 * Z.of_nat (S fuel)) with (7 * Z.of_nat fuel + 7) by lia;
          rewrite Z.pow_add_r by lia; reflexivity).
    rewrite Z.shiftr_div_pow2 by lia. change (2 ^ 7) with 128.
    assert (0 <= x / 128) by (apply Z.div_pos; lia).
    assert (x / 128 < 2 ^ (7 * Z.of_nat fuel)) by (apply Z.div_lt_upper_bound; lia).
    assert (1 <= x / 128) by (apply Z.div_le_lower_bound; lia).
    assert (0 < fuel)%nat.
    { destruct fuel; [|lia]. change (2 ^ (7 * Z.of_nat 0)) with 1 in *. lia. }
    rewrite IH; try lia; [|rewrite length_write_bytes; cbn [length]; lia].
    f_equal. pose proof (length_uvarint_bytes fuel (x / 128)).
    apply (write_bytes_app buf i [_]); cbn [length]; lia.
  - apply store_write. lia.
Qed.

(** [PutUvarint] through a window of ten bytes writes the bytes of the
    varint and nothing else. *)
Lemma PutUvarint_through_slice buf lo x :
  0 <= lo -> lo + 10 <= Z.of_nat (length buf) -> 0 <= x < 18446744073709551616 ->
  through_slice buf lo (lo + 10) (fun s => PutUvarint s x) =
  Ok (write_bytes buf lo (uvarint_bytes 10 x)).
Proof.
  intros Hlo Hfit Hx. unfold through_slice, PutUvarint.
  rewrite slice_in_range by lia. cbn [bind].
  replace (lo + 10 - lo) with 10 by lia. change (Z.to_nat 10) with 10%nat.
  pose proof (length_uvarint_bytes 10 x) as Hlen.
  rewrite PutUvarint_loop_spec; try lia.
  2:{ rewrite length_take, length_drop. lia. }
  cbn [bind]. f_equal. apply list_eq. intros i.
  rewrite lookup_write_bytes by lia.
  destruct (decide (i < Z.to_nat lo)%nat) as [Hlt | Hge].
  { rewrite lookup_app_l by (rewrite length_take; lia).
    rewrite lookup_take_lt by lia. destruct (decide _); [lia | reflexivity]. }
  rewrite lookup_app_r by (rewrite length_take; lia). rewrite length_take.
  replace (i - Z.to_nat lo `min` length buf)%nat with (i - Z.to_nat lo)%nat by lia.
  assert (length (write_bytes (take 10 (drop (Z.to_nat lo) buf)) 0 (uvarint_bytes 10 x)) = 10%nat)
    as Hwl by (rewrite length_write_bytes; rewrite ?length_take, ?length_drop; lia).
  destruct (decide (i - Z.to_nat lo < 10)%nat) as [Hin | Hout].
  - rewrite lookup_app_l by lia.
    rewrite lookup_write_bytes by (rewrite ?length_take, ?length_drop; lia).
    change (Z.to_nat 0) with 0%nat.
    destruct (decide (0 <= i - Z.to_nat lo < 0 + length (uvarint_bytes 10 x))%nat);
      destruct (decide (Z.to_nat lo <= i < Z.to_nat lo + length (uvarint_bytes 10 x))%nat);
      try lia.
    + f_equal. lia.
    + rewrite lookup_take_lt by lia. rewrite lookup_drop. f_equal. lia.
  - rewrite lookup_app_r by lia. rewrite Hwl, lookup_drop.
    destruct (decide _); [lia|]. f_equal. lia.
Qed.

(** Windows of the buffer after a write. *)
Lemma slice_window buf a (n : nat) :
  0 <= a -> a + Z.of_nat n <= Z.of_nat (length buf) ->
  slice buf a (a + Z.of_nat n) = Ok (window buf a n).
Proof.
  intros Ha Hfit. rewrite slice_in_range by lia. unfold window. do 3 f_equal. lia.
Qed.

Lemma window_write_out buf lo bytes a n :
  0 <= lo -> lo + Z.of_nat (length bytes) <= Z.of_nat (length buf) -> 0 <= a ->
  a + Z.of_nat n <= lo \/ lo + Z.of_nat (length bytes) <= a ->
  window (write_bytes buf lo bytes) a n = window buf a n.
Proof.
  intros Hlo Hfit Ha Hout. unfold window. apply list_eq. intros i.
  destruct (decide (i < n)%nat) as [Hlt | Hge].
  - rewrite !lookup_take_lt by lia. rewrite !lookup_drop.
    rewrite lookup_write_bytes by lia. destruct (decide _); [lia | reflexivity].
  - rewrite !lookup_take_ge by lia. reflexivity.
Qed.

Lemma window_write_in buf lo bytes n :
  0 <= lo -> lo + Z.of_nat (length bytes) <= Z.of_nat (length buf) ->
  (length bytes <= n)%nat ->
  window (write_bytes buf lo bytes) lo n =
  bytes ++ take (n - length bytes) (drop (Z.to_nat lo + length bytes) buf).
Proof.
  intros Hlo Hfit Hn. unfold window, write_bytes.
  rewrite drop_app_length' by (rewrite length_take; lia).
  rewrite take_app. rewrite take_ge by lia. reflexivity.
Qed.

Lemma index_write_out buf lo bytes i :
  0 <= lo -> lo + Z.of_nat (length bytes) <= Z.of_nat (length buf) -> 0 <= i ->
  i < lo \/ lo + Z.of_nat (length bytes) <= i ->
  index (write_bytes buf lo bytes) i = index buf i.
Proof.
  intros Hlo Hfit Hi Hout. unfold index.
  rewrite lookup_write_bytes by lia. destruct (decide _); [lia | reflexivity].
Qed.

Lemma index_write_in buf lo b :
  0 <= lo < Z.of_nat (length buf) -> index (write_bytes buf lo [b]) lo = Ok b.
Proof.
  intros Hlo. unfold index. rewrite lookup_write_bytes by (cbn [length]; lia).
  cbn [length]. destruct (decide _); [|lia]. rewrite Nat.sub_diag. reflexivity.
Qed.

(** ** Scans over the entries of a chain *)

Section Scans.
Variable ht : HashTable.
Hypothesis wf : wf_table ht.

Lemma wf_positive : 0 < BucketSize ht /\ 0 < InitialBuckets ht /\ 0 < NumBuckets ht.
Proof.
  destruct wf. rewrite wf_BucketSize0.
  assert (0 < 2 ^ HashBits ht) by (apply Z.pow_pos_nonneg; lia). lia.
Qed.

Lemma wf_bounds :
  BucketSize ht <= Z.of_nat (length (Buf (HFile ht))) /\
  PerBucket ht < BucketSize ht /\
  NumBuckets ht <= Z.of_nat (length (Buf (HFile ht))) /\
  PerBucket ht + 1 < 18446744073709551616.
Proof.
  pose proof wf_positive as (HBS & HIB & HNB). destruct wf.
  assert (BucketSize ht <= NumBuckets ht * BucketSize ht) by nia.
  assert (NumBuckets ht <= NumBuckets ht * BucketSize ht) by nia.
  lia.
Qed.

Lemma entry_in_range bucket entry :
  0 <= bucket < NumBuckets ht -> 0 <= entry < PerBucket ht ->
  entryAddrOf ht bucket entry = bucket * BucketSize ht + 10 + entry * 21 /\
  0 <= bucket * BucketSize ht /\
  bucket * BucketSize ht + 10 + entry * 21 + 21 <= (bucket + 1) * BucketSize ht /\
  (bucket + 1) * BucketSize ht <= Z.of_nat (length (Buf (HFile ht))).
Proof.
  intros Hb He. destruct wf. pose proof wf_positive as (HBS & _).
  assert (0 <= bucket * BucketSize ht) by nia.
  assert ((bucket + 1) * BucketSize ht <= NumBuckets ht * BucketSize ht) by nia.
  assert (bucket * BucketSize ht + 10 + entry * 21 + 21 <= (bucket + 1) * BucketSize ht)
    by (rewrite wf_BucketSize0; nia).
  unfold entryAddrOf, BUCKET_HEADER_SIZE, ENTRY_SIZE. change (1 + 10 + 10) with 21.
  rewrite wrap_small by lia. lia.
Qed.

Lemma read_entry (buf : list Z) a :
  0 <= a -> a + 21 <= Z.of_nat (length buf) -> Z.of_nat (length buf) < 18446744073709551616 ->
  index buf a = Ok (flag_at buf a) /\
  slice buf (wrap (a + 1)) (wrap (a + 11)) = Ok (window buf (a + 1) 10) /\
  slice buf (wrap (a + 11)) (wrap (a + 21)) = Ok (window buf (a + 11) 10).
Proof.
  intros Ha Hfit Hlen. rewrite !wrap_small by lia. split; [|split].
  - unfold index, flag_at.
    destruct (lookup_lt_is_Some_2 buf (Z.to_nat a)) as [b ->]; [lia | reflexivity].
  - replace (a + 11) with (a + 1 + Z.of_nat 10) by lia. apply slice_window; lia.
  - replace (a + 21) with (a + 11 + Z.of_nat 10) by lia. apply slice_window; lia.
Qed.

Lemma regionMutex_ok bucket : 0 <= bucket < NumBuckets ht -> regionMutex ht bucket = Ok tt.
Proof.
  intros Hb. destruct wf. unfold regionMutex, HASH_TABLE_REGION_SIZE in *.
  destruct (Z.ltb_spec (bucket / (1024 * 16)) (regionRWMutex ht)); [reflexivity|].
  Z.div_mod_to_equations. lia.
Qed.

Lemma hashKey_mod key : 0 <= key -> hashKey ht key = key mod 2 ^ HashBits ht.
Proof.
  intros Hk. destruct wf. unfold hashKey, shl.
  rewrite Z.shiftl_mul_pow2, Z.mul_1_l by lia.
  assert (0 < 2 ^ HashBits ht < 18446744073709551616).
  { split; [apply Z.pow_pos_nonneg; lia|].
    change 18446744073709551616 with (2 ^ 64). apply Z.pow_lt_mono_r; lia. }
  rewrite (wrap_small (2 ^ HashBits ht)) by lia.
  rewrite wrap_small by lia.
  replace (2 ^ HashBits ht - 1) with (Z.ones (HashBits ht)) by (rewrite Z.ones_equiv; lia).
  apply Z.land_ones. lia.
Qed.

Lemma hashKey_range key : 0 <= key -> 0 <= hashKey ht key < InitialBuckets ht.
Proof.
  intros Hk. rewrite hashKey_mod by exact Hk. destruct wf.
  rewrite wf_InitialBuckets0. apply Z.mod_pos_bound. apply Z.pow_pos_nonneg; lia.
Qed.

Lemma nextBucket_ok bucket :
  0 <= bucket ->
  exists next, nextBucket ht bucket = Ok next /\
               (next = 0 \/ (bucket < next < NumBuckets ht /\ InitialBuckets ht <= next)).
Proof.
  intros Hb. destruct wf. pose proof wf_positive as (HBS & _).
  destruct (Z.leb_spec (NumBuckets ht) bucket) as [Hout | Hin].
  { exists 0. split; [|auto]. unfold nextBucket.
    destruct (Z.leb_spec (NumBuckets ht) bucket); [reflexivity | lia]. }
  eexists. split; [apply nextBucket_header; lia|].
  eapply nextBucket_range. apply nextBucket_header; lia.
Qed.

(** With fuel for every entry of the table, the list of the entries of a
    chain is the same whatever the fuel. *)
Lemma slots_from_stable fuel fuel' bucket entry :
  0 <= bucket < NumBuckets ht -> 0 <= entry < PerBucket ht ->
  (NumBuckets ht - bucket) * PerBucket ht - entry <= Z.of_nat fuel ->
  (fuel <= fuel')%nat ->
  slots_from fuel' ht bucket entry = slots_from fuel ht bucket entry.
Proof.
  revert fuel' bucket entry. induction fuel as [|fuel IH];
    intros fuel' bucket entry Hb He Hfuel Hle; [nia|].
  destruct fuel' as [|fuel']; [lia|]. cbn [slots_from]. f_equal.
  rewrite (wrap_small (entry + 1)) by (pose proof wf_bounds; lia).
  destruct (Z.eqb_spec (entry + 1) (PerBucket ht)) as [Hlast | Hmore].
  - destruct (nextBucket_ok bucket) as (next & -> & Hnext); [lia|].
    destruct (Z.eqb_spec next 0); [reflexivity|].
    apply IH; try lia; nia.
  - apply IH; try lia; nia.
Qed.

(** [Remove] is the scan of the specification. *)
Lemma Remove_loop_scan fuel key val entry bucket :
  0 <= bucket < NumBuckets ht -> 0 <= entry < PerBucket ht ->
  (NumBuckets ht - bucket) * PerBucket ht - entry <= Z.of_nat fuel ->
  Remove_loop fuel ht key val entry bucket =
  Ok (match remove_scan (Buf (HFile ht)) key val (slots_from fuel ht bucket entry) with
      | Some a => with_Buf ht (<[Z.to_nat a := ENTRY_INVALID]> (Buf (HFile ht)))
      | None => ht
      end).
Proof.
  revert bucket entry. induction fuel as [|fuel IH]; intros bucket entry Hb He Hfuel; [nia|].
  cbn [Remove_loop slots_from remove_scan].
  destruct (entry_in_range bucket entry Hb He) as (Ha & Ha0 & Ha1 & Ha2).
  destruct (read_entry (Buf (HFile ht)) (entryAddrOf ht bucket entry))
    as (Hflag & Hkey & Hval); try (rewrite ?Ha; destruct wf; lia).
  rewrite Hkey, Hval, Hflag. cbn [bind].
  fold (key_at (Buf (HFile ht)) (entryAddrOf ht bucket entry)).
  fold (val_at (Buf (HFile ht)) (entryAddrOf ht bucket entry)).
  rewrite (wrap_small (entry + 1)) by (pose proof wf_bounds; lia).
  assert ((if entry + 1 =? PerBucket ht
           then bucket0 <- nextBucket ht bucket;;
                (if bucket0 =? 0 then Ok ht
                 else _ <- regionMutex ht bucket0;; Remove_loop fuel ht key val 0 bucket0)
           else Remove_loop fuel ht key val (entry + 1) bucket) =
          Ok (match remove_scan (Buf (HFile ht)) key val
                      (if entry + 1 =? PerBucket ht
                       then match nextBucket ht bucket with
                            | Ok next => if next =? 0 then [] else slots_from fuel ht next 0
                            | _ => []
                            end
                       else slots_from fuel ht bucket (entry + 1)) with
              | Some a => with_Buf ht (<[Z.to_nat a := ENTRY_INVALID]> (Buf (HFile ht)))
              | None => ht
              end)) as Hstep.
  { destruct (Z.eqb_spec (entry + 1) (PerBucket ht)) as [Hlast | Hmore].
    - destruct (nextBucket_ok bucket) as (next & -> & Hnext); [lia|]. cbn [bind].
      destruct (Z.eqb_spec next 0); [reflexivity|].
      rewrite regionMutex_ok by lia. cbn [bind]. apply IH; try lia; nia.
    - apply IH; try lia; nia. }
  destruct (flag_at (Buf (HFile ht)) (entryAddrOf ht bucket entry) =? ENTRY_VALID) eqn:Hvalid.
  - destruct ((key_at _ _ =? key) && (val_at _ _ =? val)); [|exact Hstep].
    unfold store. rewrite Ha.
    destruct (Z.ltb_spec (bucket * BucketSize ht + 10 + entry * 21)
                (Z.of_nat (length (Buf (HFile ht))))); [reflexivity | lia].
  - unfold is_sentinel. rewrite Hvalid. cbn [negb andb].
    destruct ((key_at _ _ =? 0) && (val_at _ _ =? 0)); [reflexivity | exact Hstep].
Qed.

(** [Get] without a limit is the scan of the specification.  [count] never
    comes back to 0, the limit, because the table has fewer than 2^64
    entries. *)
Lemma Get_loop_scan fuel key filter count entry bucket keys vals :
  0 <= bucket < NumBuckets ht -> 0 <= entry < PerBucket ht ->
  (NumBuckets ht - bucket) * PerBucket ht - entry <= Z.of_nat fuel ->
  0 <= count ->
  count + ((NumBuckets ht - bucket) * PerBucket ht - entry) < 18446744073709551616 ->
  Get_loop fuel ht key 0 filter count entry bucket keys vals =
  Ok (keys ++ map fst (get_scan (Buf (HFile ht)) key filter (slots_from fuel ht bucket entry)),
      vals ++ map snd (get_scan (Buf (HFile ht)) key filter (slots_from fuel ht bucket entry))).
Proof.
  revert bucket entry count keys vals. induction fuel as [|fuel IH];
    intros bucket entry count keys vals Hb He Hfuel Hc Hcount; [nia|].
  cbn [Get_loop slots_from get_scan].
  destruct (entry_in_range bucket entry Hb He) as (Ha & Ha0 & Ha1 & Ha2).
  destruct (read_entry (Buf (HFile ht)) (entryAddrOf ht bucket entry))
    as (Hflag & Hkey & Hval); try (rewrite ?Ha; destruct wf; lia).
  rewrite Hkey, Hval, Hflag. cbn [bind].
  fold (key_at (Buf (HFile ht)) (entryAddrOf ht bucket entry)).
  fold (val_at (Buf (HFile ht)) (entryAddrOf ht bucket entry)).
  rewrite (wrap_small (entry + 1)) by (pose proof wf_bounds; lia).
  assert (forall count keys vals,
            0 <= count ->
            count + ((NumBuckets ht - bucket) * PerBucket ht - entry - 1)
              < 18446744073709551616 ->
            (if entry + 1 =? PerBucket ht
             then bucket0 <- nextBucket ht bucket;;
                  (if bucket0 =? 0 then Ok (keys, vals)
                   else _ <- regionMutex ht bucket0;;
                        Get_loop fuel ht key 0 filter count 0 bucket0 keys vals)
             else Get_loop fuel ht key 0 filter count (entry + 1) bucket keys vals) =
            Ok (keys ++ map fst (get_scan (Buf (HFile ht)) key filter
                          (if entry + 1 =? PerBucket ht
                           then match nextBucket ht bucket with
                                | Ok next => if next =? 0 then [] else slots_from fuel ht next 0
                                | _ => []
                                end
                           else slots_from fuel ht bucket (entry + 1))),
                vals ++ map snd (get_scan (Buf (HFile ht)) key filter
                          (if entry + 1 =? PerBucket ht
                           then match nextBucket ht bucket with
                                | Ok next => if next =? 0 then [] else slots_from fuel ht next 0
                                | _ => []
                                end
                           else slots_from fuel ht bucket (entry + 1))))) as Hstep.
  { intros count' keys' vals' Hc' Hcount'.
    destruct (Z.eqb_spec (entry + 1) (PerBucket ht)) as [Hlast | Hmore].
    - destruct (nextBucket_ok bucket) as (next & -> & Hnext); [lia|]. cbn [bind].
      destruct (Z.eqb_spec next 0); [cbn [get_scan map]; rewrite !app_nil_r; reflexivity|].
      rewrite regionMutex_ok by lia. cbn [bind]. apply IH; try lia; nia.
    - apply IH; try lia; nia. }
  assert (1 <= (NumBuckets ht - bucket) * PerBucket ht - entry) by nia.
  destruct (flag_at (Buf (HFile ht)) (entryAddrOf ht bucket entry) =? ENTRY_VALID) eqn:Hvalid.
  - destruct ((key_at _ _ =? key) && filter _ _).
    + rewrite wrap_small by lia. destruct (Z.eqb_spec (count + 1) 0); [lia|].
      rewrite Hstep by lia. cbn [map fst snd]. rewrite <- !app_assoc. reflexivity.
    + apply Hstep; lia.
  - unfold is_sentinel. rewrite Hvalid. cbn [negb andb].
    destruct ((key_at _ _ =? 0) && (val_at _ _ =? 0));
      [cbn [map]; rewrite !app_nil_r; reflexivity | apply Hstep; lia].
Qed.

(** [Put] claims the first entry of the chain that is not valid. *)
Lemma Put_loop_claims fuel key val bucket entry pre a post :
  0 <= bucket < NumBuckets ht -> 0 <= entry < PerBucket ht ->
  0 <= key < 18446744073709551616 -> 0 <= val < 18446744073709551616 ->
  slots_from fuel ht bucket entry = pre ++ a :: post ->
  (forall b, In b pre -> flag_at (Buf (HFile ht)) b = ENTRY_VALID) ->
  flag_at (Buf (HFile ht)) a <> ENTRY_VALID ->
  Put_loop fuel ht key val bucket entry =
  Ok (with_Buf ht (write_entry (Buf (HFile ht)) a key val)).
Proof.
  revert bucket entry pre. induction fuel as [|fuel IH];
    intros bucket entry pre Hb He Hkey Hval Hslots Hpre Ha;
    [destruct pre; discriminate|].
  cbn [Put_loop slots_from] in *.
  destruct (entry_in_range bucket entry Hb He) as (Hea & Ha0 & Ha1 & Ha2).
  destruct (read_entry (Buf (HFile ht)) (entryAddrOf ht bucket entry))
    as (Hflag & _ & _); try (rewrite ?Hea; destruct wf; lia).
  rewrite Hflag. cbn [bind].
  pose proof wf_uint64 ht wf as Hlen.
  destruct pre as [|b pre]; cbn [app] in Hslots; injection Hslots as Hhead Hrest.
  - (* this entry is the one *)
    subst a. destruct (Z.eqb_spec (flag_at (Buf (HFile ht)) (entryAddrOf ht bucket entry))
                         ENTRY_VALID); [contradiction|]. cbn [negb].
    rewrite Hea in *. set (a := bucket * BucketSize ht + 10 + entry * 21) in *.
    rewrite store_write by lia. cbn [bind].
    rewrite !wrap_small by lia.
    replace (a + 11) with (a + 1 + 10) at 1 by lia.
    rewrite PutUvarint_through_slice;
      rewrite ?length_write_bytes; cbn [length]; try lia.
    cbn [bind]. pose proof (length_uvarint_bytes 10 key).
    replace (a + 21) with (a + 11 + 10) by lia.
    rewrite PutUvarint_through_slice;
      rewrite ?length_write_bytes; rewrite ?length_write_bytes; cbn [length]; try lia.
    reflexivity.
  - (* a valid entry: go on *)
    subst b. rewrite (Hpre _ (or_introl eq_refl)). change (ENTRY_VALID =? ENTRY_VALID) with true.
    cbn [negb]. rewrite (wrap_small (entry + 1)) in * by (pose proof wf_bounds; lia).
    assert (forall b, In b pre -> flag_at (Buf (HFile ht)) b = ENTRY_VALID) as Hpre'
      by (intros b Hb'; apply Hpre; right; exact Hb').
    destruct (Z.eqb_spec (entry + 1) (PerBucket ht)) as [Hlast | Hmore].
    + destruct (nextBucket_ok bucket) as (next & Hn & Hnext); [lia|].
      rewrite Hn in *. cbn [bind].
      destruct (Z.eqb_spec next 0); [destruct pre; discriminate|].
      rewrite regionMutex_ok by lia. cbn [bind].
      apply (IH next 0 pre); try assumption; try lia.
    + apply (IH bucket (entry + 1) pre); try assumption; lia.
Qed.

End Scans.

(** ** Remove *)

Lemma remove_scan_Some buf key val slots a :
  remove_scan buf key val slots = Some a ->
  exists pre post,
    slots = pre ++ a :: post /\
    (forall b, In b pre -> matches buf key val b = false /\ is_sentinel buf b = false) /\
    matches buf key val a = true.
Proof.
  induction slots as [|s slots IH]; cbn [remove_scan]; [discriminate|].
  unfold matches, is_sentinel in *.
  destruct (flag_at buf s =? ENTRY_VALID) eqn:Hv; cbn [negb andb].
  - destruct ((key_at buf s =? key) && (val_at buf s =? val)) eqn:Hm.
    + intros [= <-]. exists [], slots. split; [reflexivity|]. split; [intros b []|].
      rewrite Hv. exact Hm.
    + intros H. destruct (IH H) as (pre & post & -> & Hpre & Ha).
      exists (s :: pre), post. split; [reflexivity|]. split; [|exact Ha].
      intros b [<- | Hb]; [|apply Hpre, Hb]. rewrite Hv. cbn [negb andb]. auto.
  - destruct ((key_at buf s =? 0) && (val_at buf s =? 0)) eqn:Hs; [discriminate|].
    intros H. destruct (IH H) as (pre & post & -> & Hpre & Ha).
    exists (s :: pre), post. split; [reflexivity|]. split; [|exact Ha].
    intros b [<- | Hb]; [|apply Hpre, Hb]. rewrite Hv. cbn [negb andb]. auto.
Qed.

Lemma remove_scan_None buf key val slots :
  remove_scan buf key val slots = None ->
  exists pre,
    (slots = pre \/ exists s post, slots = pre ++ s :: post /\ is_sentinel buf s = true) /\
    (forall b, In b pre -> matches buf key val b = false /\ is_sentinel buf b = false).
Proof.
  induction slots as [|s slots IH]; cbn [remove_scan].
  { intros _. exists []. split; [auto | intros b []]. }
  unfold matches, is_sentinel in *.
  destruct (flag_at buf s =? ENTRY_VALID) eqn:Hv; cbn [negb andb].
  - destruct ((key_at buf s =? key) && (val_at buf s =? val)) eqn:Hm; [discriminate|].
    intros H. destruct (IH H) as (pre & Hend & Hpre).
    exists (s :: pre). split.
    + destruct Hend as [-> | (t & post & -> & Ht)]; [auto | right; exists t, post; auto].
    + intros b [<- | Hb]; [|apply Hpre, Hb]. rewrite Hv. cbn [negb andb]. auto.
  - destruct ((key_at buf s =? 0) && (val_at buf s =? 0)) eqn:Hs.
    + intros _. exists []. split; [|intros b []]. right. exists s, slots.
      split; [reflexivity|]. rewrite Hv. exact Hs.
    + intros H. destruct (IH H) as (pre & Hend & Hpre).
      exists (s :: pre). split.
      * destruct Hend as [-> | (t & post & -> & Ht)]; [auto | right; exists t, post; auto].
      * intros b [<- | Hb]; [|apply Hpre, Hb]. rewrite Hv. cbn [negb andb]. auto.
Qed.

Lemma slots_from_in_range ht fuel bucket entry a :
  wf_table ht -> 0 <= bucket < NumBuckets ht -> 0 <= entry < PerBucket ht ->
  In a (slots_from fuel ht bucket entry) ->
  0 <= a /\ a + 21 <= Z.of_nat (length (Buf (HFile ht))).
Proof.
  intros wf. revert bucket entry. induction fuel as [|fuel IH];
    intros bucket entry Hb He; cbn [slots_from]; [intros []|].
  destruct (entry_in_range ht wf bucket entry Hb He) as (Ha & Ha0 & Ha1 & Ha2).
  rewrite (wrap_small (entry + 1)) by (pose proof (wf_bounds ht wf); lia).
  intros [<- | Hin]; [lia|].
  destruct (Z.eqb_spec (entry + 1) (PerBucket ht)).
  - destruct (nextBucket_ok ht wf bucket) as (next & Hn & Hnext); [lia|].
    rewrite Hn in Hin. destruct (Z.eqb_spec next 0); [destruct Hin|].
    apply (IH next 0); try lia; try exact Hin; destruct wf; lia.
  - apply (IH bucket (entry + 1)); try lia. exact Hin.
Qed.

Lemma Remove_is_Remove_spec ht key val fuel :
  wf_table ht -> 0 <= key ->
  (Z.to_nat (NumBuckets ht * PerBucket ht) <= fuel)%nat ->
  Remove fuel ht key val = Ok (Remove_spec ht key val).
Proof.
  intros wf Hkey Hfuel. unfold Remove, Remove_spec, slots_of.
  pose proof (hashKey_range ht wf key Hkey) as Hh.
  pose proof (wf_NumBuckets ht wf) as HN. pose proof (wf_PerBucket ht wf) as HP.
  rewrite regionMutex_ok by (try exact wf; lia). cbn [bind].
  rewrite Remove_loop_scan; try exact wf; try lia; try nia.
  rewrite (slots_from_stable ht wf (Z.to_nat (NumBuckets ht * PerBucket ht)) fuel);
    try lia; try nia.
  reflexivity.
Qed.

(** X23.  On a well-formed table [Remove(key, val)] returns, and does one
    of two things.  Either some entry [a] of the chain of [key] is valid
    and holds [(key, val)], and no entry before it in the chain does or is
    a never-written entry: then the flag byte of [a] becomes invalid and
    no other byte, and no other field, of the table changes.  Or the
    entries of the chain up to its end, or up to its first never-written
    entry, do not hold the pair: then the table is unchanged. *)
Theorem Remove_flips_first_match ht key val fuel :
  wf_table ht -> 0 <= key ->
  (Z.to_nat (NumBuckets ht * PerBucket ht) <= fuel)%nat ->
  exists ht',
    Remove fuel ht key val = Ok ht' /\
    ((exists pre a post,
        slots_of ht key = pre ++ a :: post /\
        (forall b, In b pre -> matches (Buf (HFile ht)) key val b = false /\
                               is_sentinel (Buf (HFile ht)) b = false) /\
        matches (Buf (HFile ht)) key val a = true /\
        ht' = with_Buf ht (<[Z.to_nat a := ENTRY_INVALID]> (Buf (HFile ht))) /\
        flag_at (Buf (HFile ht')) a = ENTRY_INVALID /\
        length (Buf (HFile ht')) = length (Buf (HFile ht)) /\
        (forall i : nat, i <> Z.to_nat a -> Buf (HFile ht') !! i = Buf (HFile ht) !! i))
     \/
     (exists pre,
        (slots_of ht key = pre \/
         exists s post, slots_of ht key = pre ++ s :: post /\
                        is_sentinel (Buf (HFile ht)) s = true) /\
        (forall b, In b pre -> matches (Buf (HFile ht)) key val b = false /\
                               is_sentinel (Buf (HFile ht)) b = false) /\
        ht' = ht)).
Proof.
  intros wf Hkey Hfuel. exists (Remove_spec ht key val).
  split; [apply Remove_is_Remove_spec; assumption|].
  unfold Remove_spec.
  destruct (remove_scan (Buf (HFile ht)) key val (slots_of ht key)) as [a|] eqn:Hscan.
  - left. apply remove_scan_Some in Hscan as (pre & post & Hslots & Hpre & Ha).
    exists pre, a, post. repeat (split; [assumption|]).
    assert (0 <= a /\ a + 21 <= Z.of_nat (length (Buf (HFile ht)))) as [Ha0 Ha1].
    { unfold slots_of in Hslots.
      apply (slots_from_in_range ht (Z.to_nat (NumBuckets ht * PerBucket ht))
               (hashKey ht key) 0); try exact wf.
      - pose proof (hashKey_range ht wf key Hkey). destruct wf. lia.
      - destruct wf. lia.
      - rewrite Hslots. apply in_or_app. right. left. reflexivity. }
    split; [reflexivity|]. cbn [with_Buf with_File set_Buf HFile Buf].
    split; [|split].
    + unfold flag_at. rewrite list_lookup_insert_eq by lia. reflexivity.
    + apply length_insert.
    + intros i Hi. apply list_lookup_insert_ne. lia.
  - right. apply remove_scan_None in Hscan as (pre & Hend & Hpre).
    exists pre. auto.
Qed.

Lemma wf_tiny_opened : wf_table tiny_opened.
Proof. constructor; vm_compute; repeat split; congruence. Qed.

Lemma Remove_flips_first_match_witness :
  exists ht',
    Remove 8 tiny_opened 16388 0 = Ok ht' /\
    ((exists pre a post,
        slots_of tiny_opened 16388 = pre ++ a :: post /\
        (forall b, In b pre -> matches (Buf (HFile tiny_opened)) 16388 0 b = false /\
                               is_sentinel (Buf (HFile tiny_opened)) b = false) /\
        matches (Buf (HFile tiny_opened)) 16388 0 a = true /\
        ht' = with_Buf tiny_opened
                (<[Z.to_nat a := ENTRY_INVALID]> (Buf (HFile tiny_opened))) /\
        flag_at (Buf (HFile ht')) a = ENTRY_INVALID /\
        length (Buf (HFile ht')) = length (Buf (HFile tiny_opened)) /\
        (forall i : nat, i <> Z.to_nat a ->
                         Buf (HFile ht') !! i = Buf (HFile tiny_opened) !! i))
     \/
     (exists pre,
        (slots_of tiny_opened 16388 = pre \/
         exists s post, slots_of tiny_opened 16388 = pre ++ s :: post /\
                        is_sentinel (Buf (HFile tiny_opened)) s = true) /\
        (forall b, In b pre -> matches (Buf (HFile tiny_opened)) 16388 0 b = false /\
                               is_sentinel (Buf (HFile tiny_opened)) b = false) /\
        ht' = tiny_opened)).
Proof.
  apply (Remove_flips_first_match tiny_opened 16388 0 8).
  - apply wf_tiny_opened.
  - lia.
  - vm_compute. lia.
Defined.

(** ** One entry at a time *)

Lemma flag_at_write_out buf lo bytes a :
  0 <= lo -> lo + Z.of_nat (length bytes) <= Z.of_nat (length buf) -> 0 <= a ->
  a < lo \/ lo + Z.of_nat (length bytes) <= a ->
  flag_at (write_bytes buf lo bytes) a = flag_at buf a.
Proof.
  intros Hlo Hfit Ha Hout. unfold flag_at. rewrite lookup_write_bytes by lia.
  destruct (decide _); [lia | reflexivity].
Qed.

Lemma flag_at_write_in buf a b :
  0 <= a < Z.of_nat (length buf) -> flag_at (write_bytes buf a [b]) a = b.
Proof.
  intros Ha. unfold flag_at. rewrite lookup_write_bytes by (cbn [length]; lia).
  cbn [length]. destruct (decide _); [|lia]. rewrite Nat.sub_diag. reflexivity.
Qed.

Lemma insert_write (buf : list Z) a b :
  0 <= a < Z.of_nat (length buf) -> <[Z.to_nat a := b]> buf = write_bytes buf a [b].
Proof.
  intros Ha. pose proof (store_write buf a b Ha) as H. unfold store in H.
  destruct (Z.ltb_spec a (Z.of_nat (length buf))); [|lia]. congruence.
Qed.

Lemma length_write_entry buf a key val :
  0 <= a -> a + 21 <= Z.of_nat (length buf) ->
  length (write_entry buf a key val) = length buf.
Proof.
  intros Ha Hfit. unfold write_entry.
  pose proof (length_uvarint_bytes 10 key). pose proof (length_uvarint_bytes 10 val).
  assert (length (write_bytes buf a [ENTRY_VALID]) = length buf) as L1
    by (apply length_write_bytes; cbn [length]; lia).
  assert (length (write_bytes (write_bytes buf a [ENTRY_VALID]) (a + 1)
                    (uvarint_bytes 10 key)) = length buf) as L2
    by (rewrite length_write_bytes; lia).
  rewrite length_write_bytes; lia.
Qed.

(** What [Put] wrote is what the scans read. *)
Lemma write_entry_read buf a key val :
  0 <= a -> a + 21 <= Z.of_nat (length buf) ->
  0 <= key < 18446744073709551616 -> 0 <= val < 18446744073709551616 ->
  matches (write_entry buf a key val) key val a = true.
Proof.
  intros Ha Hfit Hkey Hval. unfold matches, write_entry.
  pose proof (length_uvarint_bytes 10 key). pose proof (length_uvarint_bytes 10 val).
  assert (length (write_bytes buf a [ENTRY_VALID]) = length buf) as L1
    by (apply length_write_bytes; cbn [length]; lia).
  assert (length (write_bytes (write_bytes buf a [ENTRY_VALID]) (a + 1)
                    (uvarint_bytes 10 key)) = length buf) as L2
    by (rewrite length_write_bytes; lia).
  rewrite !flag_at_write_out by lia.
  rewrite flag_at_write_in by lia.
  unfold key_at, val_at.
  rewrite (window_write_out _ (a + 11)) by lia.
  rewrite !window_write_in by lia.
  rewrite !Uvarint_bytes by lia.
  rewrite !Z.eqb_refl. reflexivity.
Qed.

(** [Put] leaves the other entries as they were. *)
Lemma write_entry_frame buf a key val b :
  0 <= a -> a + 21 <= Z.of_nat (length buf) ->
  0 <= b -> b + 21 <= a \/ a + 21 <= b ->
  flag_at (write_entry buf a key val) b = flag_at buf b /\
  key_at (write_entry buf a key val) b = key_at buf b /\
  val_at (write_entry buf a key val) b = val_at buf b.
Proof.
  intros Ha Hfit Hb Hout. unfold write_entry.
  pose proof (length_uvarint_bytes 10 key). pose proof (length_uvarint_bytes 10 val).
  assert (length (write_bytes buf a [ENTRY_VALID]) = length buf) as L1
    by (apply length_write_bytes; cbn [length]; lia).
  assert (length (write_bytes (write_bytes buf a [ENTRY_VALID]) (a + 1)
                    (uvarint_bytes 10 key)) = length buf) as L2
    by (rewrite length_write_bytes; lia).
  split; [|split].
  - rewrite !flag_at_write_out; cbn [length]; lia.
  - unfold key_at. rewrite !window_write_out; cbn [length]; lia.
  - unfold val_at. rewrite !window_write_out; cbn [length]; lia.
Qed.

(** [Remove] changes the flag of an entry and nothing else. *)
Lemma clear_flag_frame buf a b :
  0 <= a < Z.of_nat (length buf) -> 0 <= b ->
  key_at (write_bytes buf a [ENTRY_INVALID]) a = key_at buf a /\
  val_at (write_bytes buf a [ENTRY_INVALID]) a = val_at buf a /\
  (b + 21 <= a \/ a + 21 <= b ->
   flag_at (write_bytes buf a [ENTRY_INVALID]) b = flag_at buf b /\
   key_at (write_bytes buf a [ENTRY_INVALID]) b = key_at buf b /\
   val_at (write_bytes buf a [ENTRY_INVALID]) b = val_at buf b).
Proof.
  intros Ha Hb. unfold key_at, val_at.
  rewrite !(window_write_out _ a) by (cbn [length]; lia).
  split; [reflexivity|]. split; [reflexivity|]. intros Hout.
  rewrite flag_at_write_out by (cbn [length]; lia).
  rewrite !window_write_out by (cbn [length]; lia). auto.
Qed.

Section OneEntry.
Variable ht : HashTable.
Variables bucket entry : Z.
Let buf := Buf (HFile ht).
Let a := entryAddrOf ht bucket entry.
Hypothesis a_nonneg : 0 <= a.
Hypothesis a_fits : a + 21 <= Z.of_nat (length buf).
Hypothesis buf_uint64 : Z.of_nat (length buf) < 18446744073709551616.

(** [Put] takes an entry that is not valid. *)
Lemma Put_loop_free fuel key val :
  0 <= key < 18446744073709551616 -> 0 <= val < 18446744073709551616 ->
  flag_at buf a <> ENTRY_VALID ->
  Put_loop (S fuel) ht key val bucket entry = Ok (with_Buf ht (write_entry buf a key val)).
Proof.
  intros Hkey Hval Hfree. cbn [Put_loop]. fold a. fold buf.
  destruct (read_entry buf a) as (Hflag & _ & _); try lia.
  rewrite Hflag. cbn [bind].
  destruct (Z.eqb_spec (flag_at buf a) ENTRY_VALID); [contradiction|]. cbn [negb].
  rewrite store_write by lia. cbn [bind].
  rewrite !wrap_small by lia.
  replace (a + 11) with (a + 1 + 10) at 1 by lia.
  rewrite PutUvarint_through_slice;
    rewrite ?length_write_bytes; cbn [length]; try lia.
  cbn [bind]. pose proof (length_uvarint_bytes 10 key).
  replace (a + 21) with (a + 11 + 10) by lia.
  rewrite PutUvarint_through_slice;
    rewrite ?length_write_bytes; rewrite ?length_write_bytes; cbn [length]; try lia.
  reflexivity.
Qed.

(** [Put] passes a valid entry. *)
Lemma Put_loop_valid fuel key val :
  flag_at buf a = ENTRY_VALID -> wrap (entry + 1) <> PerBucket ht ->
  Put_loop (S fuel) ht key val bucket entry =
  Put_loop fuel ht key val bucket (wrap (entry + 1)).
Proof.
  intros Hvalid Hmore. cbn [Put_loop]. fold a. fold buf.
  destruct (read_entry buf a) as (Hflag & _ & _); try lia.
  rewrite Hflag, Hvalid. cbn [bind]. change (ENTRY_VALID =? ENTRY_VALID) with true.
  cbn [negb]. destruct (Z.eqb_spec (wrap (entry + 1)) (PerBucket ht)); [contradiction|].
  reflexivity.
Qed.

(** [Remove] stops at an entry that holds the pair. *)
Lemma Remove_loop_match fuel key val :
  matches buf key val a = true ->
  Remove_loop (S fuel) ht key val entry bucket =
  Ok (with_Buf ht (write_bytes buf a [ENTRY_INVALID])).
Proof.
  intros Hm. cbn [Remove_loop]. fold a. fold buf.
  destruct (read_entry buf a) as (Hflag & Hk & Hv); try lia.
  rewrite Hk, Hv, Hflag. cbn [bind]. fold (key_at buf a). fold (val_at buf a).
  unfold matches in Hm. apply andb_prop in Hm as [Hm Hmv]. apply andb_prop in Hm as [Hmf Hmk].
  rewrite Hmf, Hmk, Hmv. cbn [andb].
  rewrite store_write by lia. reflexivity.
Qed.

(** [Get] stops at an entry that looks never written. *)
Lemma Get_loop_sentinel fuel key limit filter count keys vals :
  is_sentinel buf a = true ->
  Get_loop (S fuel) ht key limit filter count entry bucket keys vals = Ok (keys, vals).
Proof.
  intros Hs. cbn [Get_loop]. fold a. fold buf.
  destruct (read_entry buf a) as (Hflag & Hk & Hv); try lia.
  rewrite Hk, Hv, Hflag. cbn [bind]. fold (key_at buf a). fold (val_at buf a).
  unfold is_sentinel in Hs. apply andb_prop in Hs as [Hs Hsv]. apply andb_prop in Hs as [Hsf Hsk].
  apply negb_true_iff in Hsf. rewrite Hsf, Hsk, Hsv. reflexivity.
Qed.

End OneEntry.

(** ** A removed pair (0, 0) *)

Lemma hashKey_0 ht : hashKey ht 0 = 0.
Proof. unfold hashKey. apply Z.land_0_l. Qed.

Lemma regionMutex_0 ht : 0 < regionRWMutex ht -> regionMutex ht 0 = Ok tt.
Proof.
  intros H. unfold regionMutex. change (0 / HASH_TABLE_REGION_SIZE) with 0.
  destruct (Z.ltb_spec 0 (regionRWMutex ht)); [reflexivity | lia].
Qed.

Lemma entryAddrOf_0 ht entry :
  0 <= entry < 1000000 -> entryAddrOf ht 0 entry = 10 + 21 * entry.
Proof.
  intros He. unfold entryAddrOf, BUCKET_HEADER_SIZE, ENTRY_SIZE.
  change (1 + 10 + 10) with 21. rewrite Z.mul_0_l, wrap_small by lia. lia.
Qed.

Section HiddenEntry.
Variable ht : HashTable.
Variable v : Z.
Hypothesis v_range : 0 < v < 18446744073709551616.
Hypothesis two_entries : 2 <= PerBucket ht.
Hypothesis bucket_0_fits : 52 <= Z.of_nat (length (Buf (HFile ht))).
Hypothesis buf_uint64 : Z.of_nat (length (Buf (HFile ht))) < 18446744073709551616.
Hypothesis lock_0 : 0 < regionRWMutex ht.
Hypothesis free_0 : flag_at (Buf (HFile ht)) 10 <> ENTRY_VALID.
Hypothesis free_1 : flag_at (Buf (HFile ht)) 31 <> ENTRY_VALID.

Let buf1 := write_entry (Buf (HFile ht)) 10 0 0.
Let buf2 := write_entry buf1 31 0 v.
Let buf3 := write_bytes buf2 10 [ENTRY_INVALID].

Lemma hidden_lengths :
  length buf1 = length (Buf (HFile ht)) /\ length buf2 = length (Buf (HFile ht)) /\
  length buf3 = length (Buf (HFile ht)).
Proof.
  assert (length buf1 = length (Buf (HFile ht))) as L1
    by (apply length_write_entry; lia).
  assert (length buf2 = length (Buf (HFile ht))) as L2
    by (unfold buf2; rewrite length_write_entry; lia).
  split; [exact L1|]. split; [exact L2|].
  unfold buf3. rewrite length_write_bytes; cbn [length]; lia.
Qed.

Lemma hidden_Put_0_0 fuel : Put (S fuel) ht 0 0 = Ok (with_Buf ht buf1).
Proof.
  unfold Put. rewrite hashKey_0, regionMutex_0 by exact lock_0. cbn [bind].
  rewrite Put_loop_free; rewrite ?entryAddrOf_0; try lia; [reflexivity | exact free_0].
Qed.

Lemma hidden_buf1 :
  matches buf1 0 0 10 = true /\ flag_at buf1 31 <> ENTRY_VALID.
Proof.
  split; [apply write_entry_read; lia|].
  unfold buf1. destruct (write_entry_frame (Buf (HFile ht)) 10 0 0 31) as (Hf & _);
    [lia.. |]. rewrite Hf. exact free_1.
Qed.

Lemma hidden_Put_0_v fuel :
  Put (S (S fuel)) (with_Buf ht buf1) 0 v = Ok (with_Buf ht buf2).
Proof.
  destruct hidden_lengths as (L1 & _). destruct hidden_buf1 as (Hm & Hfree).
  unfold Put. rewrite hashKey_0, regionMutex_0 by exact lock_0. cbn [bind].
  apply andb_prop in Hm as [Hm _]. apply andb_prop in Hm as [Hm _].
  apply Z.eqb_eq in Hm.
  rewrite Put_loop_valid; rewrite ?entryAddrOf_0; try lia;
    cbn [with_Buf with_File set_Buf HFile Buf PerBucket]; rewrite ?L1; try lia;
    [|exact Hm | rewrite wrap_small; lia].
  rewrite wrap_small by lia. change (0 + 1) with 1.
  rewrite Put_loop_free; rewrite ?entryAddrOf_0; try lia;
    cbn [with_Buf with_File set_Buf HFile Buf PerBucket]; rewrite ?L1; try lia;
    [reflexivity | exact Hfree].
Qed.

Lemma hidden_buf2 : matches buf2 0 0 10 = true /\ matches buf2 0 v 31 = true.
Proof.
  destruct hidden_lengths as (L1 & _). destruct hidden_buf1 as (Hm & _).
  split; [|apply write_entry_read; lia].
  unfold matches, buf2.
  destruct (write_entry_frame buf1 31 0 v 10) as (-> & -> & ->); try lia. exact Hm.
Qed.

Lemma hidden_Remove_0_0 fuel :
  Remove (S fuel) (with_Buf ht buf2) 0 0 = Ok (with_Buf ht buf3).
Proof.
  destruct hidden_lengths as (_ & L2 & _). destruct hidden_buf2 as (Hm & _).
  unfold Remove. rewrite hashKey_0, regionMutex_0 by exact lock_0. cbn [bind].
  rewrite Remove_loop_match; rewrite ?entryAddrOf_0; try lia;
    cbn [with_Buf with_File set_Buf HFile Buf PerBucket]; rewrite ?L2; try lia;
    [reflexivity | exact Hm].
Qed.

Lemma hidden_buf3 :
  flag_at buf3 10 = ENTRY_INVALID /\ is_sentinel buf3 10 = true /\
  matches buf3 0 v 31 = true.
Proof.
  destruct hidden_lengths as (_ & L2 & _). destruct hidden_buf2 as (Hm0 & Hmv).
  destruct (clear_flag_frame buf2 10 31) as (Hk & Hv & Hother); try lia.
  destruct Hother as (Hf31 & Hk31 & Hv31); [lia|].
  assert (flag_at buf3 10 = ENTRY_INVALID) as Hflag
    by (apply flag_at_write_in; lia).
  split; [exact Hflag|]. split.
  - unfold is_sentinel. fold buf3 in Hk, Hv. rewrite Hflag, Hk, Hv.
    apply andb_prop in Hm0 as [Hm0 Hmv0]. apply andb_prop in Hm0 as [_ Hmk0].
    rewrite Hmk0, Hmv0. reflexivity.
  - unfold matches. fold buf3 in Hf31, Hk31, Hv31. rewrite Hf31, Hk31, Hv31. exact Hmv.
Qed.

Lemma hidden_Get_0 fuel :
  Get (S fuel) (with_Buf ht buf3) 0 0 always_true = Ok ([], []).
Proof.
  destruct hidden_lengths as (_ & _ & L3). destruct hidden_buf3 as (_ & Hs & _).
  rewrite Get_unlimited, hashKey_0, regionMutex_0 by exact lock_0. cbn [bind].
  rewrite Get_loop_sentinel; rewrite ?entryAddrOf_0; try lia;
    cbn [with_Buf with_File set_Buf HFile Buf PerBucket]; rewrite ?L3; try lia;
    [reflexivity | exact Hs].
Qed.

(** The bytes of entry 0 that were zero before the run are zero after it. *)
Lemma hidden_zero_bytes i :
  11 <= i < 31 -> index (Buf (HFile ht)) i = Ok 0 -> index buf3 i = Ok 0.
Proof.
  intros Hi Hzero. destruct hidden_lengths as (L1 & L2 & _).
  unfold buf3. rewrite index_write_out by (cbn [length]; lia).
  unfold buf2, write_entry.
  pose proof (length_uvarint_bytes 10 0). pose proof (length_uvarint_bytes 10 v).
  assert (length (write_bytes buf1 31 [ENTRY_VALID]) = length buf1) as M1
    by (apply length_write_bytes; cbn [length]; lia).
  assert (length (write_bytes (write_bytes buf1 31 [ENTRY_VALID]) (31 + 1)
                    (uvarint_bytes 10 0)) = length buf1) as M2
    by (rewrite length_write_bytes; lia).
  rewrite !index_write_out by (cbn [length]; lia).
  unfold buf1, write_entry. change (uvarint_bytes 10 0) with [0].
  assert (length (write_bytes (Buf (HFile ht)) 10 [ENTRY_VALID]) = length (Buf (HFile ht)))
    as N1 by (apply length_write_bytes; cbn [length]; lia).
  assert (length (write_bytes (write_bytes (Buf (HFile ht)) 10 [ENTRY_VALID]) (10 + 1) [0])
          = length (Buf (HFile ht))) as N2
    by (rewrite length_write_bytes; cbn [length]; lia).
  destruct (Z.eq_dec i 21) as [-> | H21].
  { apply index_write_in. lia. }
  rewrite index_write_out by (cbn [length]; lia).
  destruct (Z.eq_dec i 11) as [-> | H11].
  { apply index_write_in. lia. }
  rewrite !index_write_out by (cbn [length]; lia). exact Hzero.
Qed.

End HiddenEntry.

Lemma fresh_table_zeros hb pb :
  params_fit hb pb ->
  1048576 <= Z.of_nat (length (Buf (HFile (fresh_table hb pb)))) < 18446744073709551616 /\
  (forall a, flag_at (Buf (HFile (fresh_table hb pb))) a = 0) /\
  (forall i, 0 <= i < 1048576 -> index (Buf (HFile (fresh_table hb pb))) i = Ok 0).
Proof.
  intros Hfit. pose proof (fresh_Size_bounds hb pb Hfit) as (Hmin & _ & Hmax & _).
  destruct Hfit as (_ & _ & Hfit).
  cbn [fresh_table HFile Buf]. rewrite length_replicate, Z2Nat.id by lia.
  split; [lia|]. split.
  - intros a. unfold flag_at.
    destruct (replicate _ 0 !! Z.to_nat a) as [b|] eqn:Hb; [|reflexivity].
    apply lookup_replicate_1 in Hb as [-> _]. reflexivity.
  - intros i Hi. unfold index. rewrite lookup_replicate_2 by lia. reflexivity.
Qed.

(** C10.  On the table that [OpenHash] makes on a new file, [Put(0, 0)]
    and then [Put(0, v)] with [v] not 0 take entries 0 and 1 of head bucket
    0, at the addresses 10 and 31.  [Remove(0, 0)] then leaves entry 0 with
    an invalid flag and with key and value bytes that are all zero, and
    [Get(0, 0, always-true)] returns no pair, although entry 1 is still
    valid and still holds [(0, v)]. *)
Theorem Remove_0_0_hides_later_entry hb pb v fuel :
  params_fit hb pb -> 0 < v < 18446744073709551616 ->
  exists ht1 ht2 ht3,
    Put (S fuel) (fresh_table hb pb) 0 0 = Ok ht1 /\
    Put (S (S fuel)) ht1 0 v = Ok ht2 /\
    entryAddrOf ht2 (hashKey ht2 0) 0 = 10 /\
    entryAddrOf ht2 (hashKey ht2 0) 1 = 31 /\
    matches (Buf (HFile ht2)) 0 0 10 = true /\
    matches (Buf (HFile ht2)) 0 v 31 = true /\
    Remove (S fuel) ht2 0 0 = Ok ht3 /\
    flag_at (Buf (HFile ht3)) 10 = ENTRY_INVALID /\
    (forall i, 11 <= i < 31 -> index (Buf (HFile ht3)) i = Ok 0) /\
    matches (Buf (HFile ht3)) 0 v 31 = true /\
    Get (S fuel) ht3 0 0 always_true = Ok ([], []).
Proof.
  intros Hfit Hv.
  pose proof (fresh_table_zeros hb pb Hfit) as (Hlen & Hflags & Hzeros).
  assert (2 <= PerBucket (fresh_table hb pb)) as Hpb by (destruct Hfit; cbn; lia).
  assert (0 < regionRWMutex (fresh_table hb pb)) as Hlock by (cbn; lia).
  remember (fresh_table hb pb) as ht eqn:Eht. clear Eht.
  assert (flag_at (Buf (HFile ht)) 10 <> ENTRY_VALID) as Hfree0
    by (rewrite Hflags; discriminate).
  assert (flag_at (Buf (HFile ht)) 31 <> ENTRY_VALID) as Hfree1
    by (rewrite Hflags; discriminate).
  assert (52 <= Z.of_nat (length (Buf (HFile ht)))) as H52 by lia.
  destruct Hlen as [_ Hlen].
  destruct (hidden_buf2 ht v) as (Hm0 & Hmv); [assumption.. |].
  destruct (hidden_buf3 ht v) as (Hf3 & _ & Hmv3); [assumption.. |].
  do 3 eexists.
  split; [apply hidden_Put_0_0; assumption|].
  split; [apply hidden_Put_0_v; assumption|].
  rewrite hashKey_0, !entryAddrOf_0 by lia.
  split; [reflexivity|]. split; [reflexivity|].
  split; [exact Hm0|]. split; [exact Hmv|].
  split; [apply hidden_Remove_0_0; assumption|].
  split; [exact Hf3|].
  split; [intros i Hi; apply hidden_zero_bytes; try assumption; apply Hzeros; lia|].
  split; [exact Hmv3|].
  apply hidden_Get_0; assumption.
Qed.

Lemma Remove_0_0_hides_later_entry_witness :
  exists ht1 ht2 ht3,
    Put 1 (fresh_table 4 2) 0 0 = Ok ht1 /\
    Put 2 ht1 0 7 = Ok ht2 /\
    entryAddrOf ht2 (hashKey ht2 0) 0 = 10 /\
    entryAddrOf ht2 (hashKey ht2 0) 1 = 31 /\
    matches (Buf (HFile ht2)) 0 0 10 = true /\
    matches (Buf (HFile ht2)) 0 7 31 = true /\
    Remove 1 ht2 0 0 = Ok ht3 /\
    flag_at (Buf (HFile ht3)) 10 = ENTRY_INVALID /\
    (forall i, 11 <= i < 31 -> index (Buf (HFile ht3)) i = Ok 0) /\
    matches (Buf (HFile ht3)) 0 7 31 = true /\
    Get 1 ht3 0 0 always_true = Ok ([], []).
Proof.
  apply (Remove_0_0_hides_later_entry 4 2 7 0).
  - unfold params_fit. lia.
  - lia.
Defined.

(** ** The layout of the chains *)

Lemma Uvarint_head_0 rest : fst (Uvarint (0 :: rest)) = 0.
Proof. reflexivity. Qed.

Lemma flag_at_lookup (buf : list Z) a :
  0 <= a < Z.of_nat (length buf) -> buf !! Z.to_nat a = Some (flag_at buf a).
Proof.
  intros Ha. unfold flag_at.
  destruct (lookup_lt_is_Some_2 buf (Z.to_nat a)) as [b ->]; [lia | reflexivity].
Qed.

(** A varint that starts with the byte 0 is 0. *)
Lemma window_head_0 (buf : list Z) a (n : nat) :
  0 <= a < Z.of_nat (length buf) -> (0 < n)%nat -> flag_at buf a = 0 ->
  fst (Uvarint (window buf a n)) = 0.
Proof.
  intros Ha Hn Hz. unfold window.
  rewrite (drop_S buf 0 (Z.to_nat a)) by (rewrite flag_at_lookup, Hz by lia; reflexivity).
  destruct n; [lia|]. apply Uvarint_head_0.
Qed.

Lemma header_of_window ht b :
  header_of ht b = fst (Uvarint (window (Buf (HFile ht)) (b * BucketSize ht) 10)).
Proof. reflexivity. Qed.

Section Layout.
Variable ht : HashTable.
Variable owner : Z -> Z.
Hypothesis base : Rep_base ht owner.

Let wf : wf_table ht := rep_wf ht owner base.

Lemma Rep_nextBucket b :
  0 <= b < NumBuckets ht -> nextBucket ht b = Ok (header_of ht b).
Proof.
  intros Hb. destruct (wf_positive ht wf) as (HBS & _).
  rewrite nextBucket_header; try (destruct wf; lia).
  destruct (rep_headers ht owner base b Hb) as [-> | (Hfwd & Hover)]; [reflexivity|].
  destruct (Z.eqb_spec (header_of ht b) 0); [lia|].
  destruct (Z.leb_spec (header_of ht b) b); [lia|].
  destruct (Z.leb_spec (NumBuckets ht) (header_of ht b)); [lia|].
  destruct (Z.ltb_spec (header_of ht b) (InitialBuckets ht)); [lia | reflexivity].
Qed.

(** Two entries of the table are the same entry or do not overlap. *)
Lemma slots_apart b e b' e' :
  0 <= b -> 0 <= e < PerBucket ht -> 0 <= b' -> 0 <= e' < PerBucket ht ->
  b * BucketSize ht + 10 + e * 21 <> b' * BucketSize ht + 10 + e' * 21 ->
  b * BucketSize ht + 10 + e * 21 + 21 <= b' * BucketSize ht + 10 + e' * 21 \/
  b' * BucketSize ht + 10 + e' * 21 + 21 <= b * BucketSize ht + 10 + e * 21.
Proof.
  intros Hb He Hb' He' Hne. pose proof (wf_BucketSize ht wf) as HBS.
  destruct (Z.lt_trichotomy b b') as [Hlt | [-> | Hgt]].
  - left. assert ((b + 1) * BucketSize ht <= b' * BucketSize ht) by nia. nia.
  - lia.
  - right. assert ((b' + 1) * BucketSize ht <= b * BucketSize ht) by nia. nia.
Qed.

(** An entry does not overlap the header of a bucket. *)
Lemma slot_header_apart b e b' :
  0 <= b -> 0 <= e < PerBucket ht -> 0 <= b' ->
  b' * BucketSize ht + 10 <= b * BucketSize ht + 10 + e * 21 \/
  b * BucketSize ht + 10 + e * 21 + 21 <= b' * BucketSize ht.
Proof.
  intros Hb He Hb'. pose proof (wf_BucketSize ht wf) as HBS.
  destruct (Z.le_gt_cases b' b) as [Hle | Hgt].
  - left. nia.
  - right. assert ((b + 1) * BucketSize ht <= b' * BucketSize ht) by nia. nia.
Qed.

(** The entries that a scan visits lie in the buckets of one owner, and
    come in increasing order of address. *)
Lemma slots_from_owned fuel b e x :
  0 <= b < NumBuckets ht -> 0 <= e < PerBucket ht ->
  x ∈ slots_from fuel ht b e ->
  exists b' e', 0 <= b' < NumBuckets ht /\ 0 <= e' < PerBucket ht /\
                owner b' = owner b /\ x = b' * BucketSize ht + 10 + e' * 21 /\
                b * BucketSize ht + 10 + e * 21 <= x.
Proof.
  revert b e. induction fuel as [|fuel IH]; intros b e Hb He; cbn [slots_from];
    [intros H; inversion H|].
  destruct (entry_in_range ht wf b e Hb He) as (Ha & Ha0 & Ha1 & Ha2).
  rewrite (wrap_small (e + 1)) by (pose proof (wf_bounds ht wf); lia).
  rewrite Ha, Rep_nextBucket by exact Hb.
  intros Hx. apply elem_of_cons in Hx as [-> | Hx].
  { exists b, e. repeat split; try lia. }
  pose proof (wf_BucketSize ht wf) as HBS.
  destruct (Z.eqb_spec (e + 1) (PerBucket ht)).
  - destruct (Z.eqb_spec (header_of ht b) 0) as [|Hnz]; [inversion Hx|].
    destruct (rep_headers ht owner base b Hb) as [? | (Hfwd & Hover)]; [lia|].
    apply IH in Hx as (b' & e' & Hb' & He' & Ho & -> & Hge); try lia.
    exists b', e'. rewrite Ho, (rep_next ht owner base b Hb Hnz).
    repeat split; try lia.
    assert ((b + 1) * BucketSize ht <= header_of ht b * BucketSize ht) by nia. nia.
  - apply IH in Hx as (b' & e' & Hb' & He' & Ho & -> & Hge); try lia.
    exists b', e'. repeat split; try lia.
Qed.

Lemma slots_from_NoDup fuel b e :
  0 <= b < NumBuckets ht -> 0 <= e < PerBucket ht -> NoDup (slots_from fuel ht b e).
Proof.
  revert b e. induction fuel as [|fuel IH]; intros b e Hb He; cbn [slots_from];
    [constructor|].
  destruct (entry_in_range ht wf b e Hb He) as (Ha & Ha0 & Ha1 & Ha2).
  rewrite (wrap_small (e + 1)) by (pose proof (wf_bounds ht wf); lia).
  rewrite Ha, Rep_nextBucket by exact Hb.
  pose proof (wf_BucketSize ht wf) as HBS.
  destruct (Z.eqb_spec (e + 1) (PerBucket ht)).
  - destruct (Z.eqb_spec (header_of ht b) 0) as [|Hnz];
      [apply NoDup_singleton|].
    destruct (rep_headers ht owner base b Hb) as [? | (Hfwd & Hover)]; [lia|].
    constructor; [|apply IH; lia].
    intros Hx. apply slots_from_owned in Hx as (b' & e' & _ & _ & _ & _ & Hge); try lia.
    assert ((b + 1) * BucketSize ht <= header_of ht b * BucketSize ht) by nia. nia.
  - constructor; [|apply IH; lia].
    intros Hx. apply slots_from_owned in Hx as (b' & e' & _ & _ & _ & _ & Hge); lia.
Qed.

Lemma hashKey_head key : 0 <= key -> 0 <= hashKey ht key < NumBuckets ht.
Proof.
  intros Hk. pose proof (hashKey_range ht wf key Hk). pose proof (wf_NumBuckets ht wf). lia.
Qed.

(** The entries of a chain belong to the buckets that its head owns. *)
Lemma chain_of_owned h x :
  0 <= h < InitialBuckets ht -> x ∈ chain_of ht h ->
  exists b e, 0 <= b < NumBuckets ht /\ 0 <= e < PerBucket ht /\
              owner b = h /\ x = b * BucketSize ht + 10 + e * 21.
Proof.
  intros Hh Hx. pose proof (wf_NumBuckets ht wf). pose proof (wf_PerBucket ht wf).
  apply slots_from_owned in Hx as (b & e & Hb & He & Ho & -> & _); try lia.
  exists b, e. rewrite (rep_heads ht owner base h Hh) in Ho. auto.
Qed.

Lemma chain_of_NoDup h : 0 <= h < InitialBuckets ht -> NoDup (chain_of ht h).
Proof.
  intros Hh. pose proof (wf_NumBuckets ht wf). pose proof (wf_PerBucket ht wf).
  apply slots_from_NoDup; lia.
Qed.

(** With fuel for every entry, a scan from the head visits the chain. *)
Lemma slots_from_chain fuel h :
  0 <= h < InitialBuckets ht ->
  NumBuckets ht * PerBucket ht <= Z.of_nat fuel ->
  slots_from fuel ht h 0 = chain_of ht h.
Proof.
  intros Hh Hfuel. pose proof (wf_NumBuckets ht wf). pose proof (wf_PerBucket ht wf).
  apply slots_from_stable; try exact wf; try lia; nia.
Qed.

Lemma chain_of_in_table h a :
  0 <= h < InitialBuckets ht -> a ∈ chain_of ht h ->
  0 <= a /\ a + 21 <= NumBuckets ht * BucketSize ht /\
  NumBuckets ht * BucketSize ht <= Z.of_nat (length (Buf (HFile ht))).
Proof.
  intros Hh Ha. apply chain_of_owned in Ha as (b & e & Hb & He & _ & ->); [|exact Hh].
  destruct (entry_in_range ht wf b e Hb He) as (_ & H0 & H1 & H2).
  pose proof (wf_Buf ht wf).
  assert ((b + 1) * BucketSize ht <= NumBuckets ht * BucketSize ht)
    by (destruct (wf_positive ht wf); nia).
  lia.
Qed.

(** Two entries of the chains are the same entry or do not overlap. *)
Lemma chain_frame h a h0 x :
  0 <= h < InitialBuckets ht -> a ∈ chain_of ht h ->
  0 <= h0 < InitialBuckets ht -> x ∈ chain_of ht h0 ->
  x <> a -> x + 21 <= a \/ a + 21 <= x.
Proof.
  intros Hh Ha Hh0 Hx Hne.
  apply chain_of_owned in Ha as (b & e & Hb & He & _ & ->); [|exact Hh].
  apply chain_of_owned in Hx as (b' & e' & Hb' & He' & _ & ->); [|exact Hh0].
  apply slots_apart; lia.
Qed.

(** The chains of two heads share no entry. *)
Lemma chain_disjoint h a h0 x :
  0 <= h < InitialBuckets ht -> a ∈ chain_of ht h ->
  0 <= h0 < InitialBuckets ht -> x ∈ chain_of ht h0 ->
  h0 <> h -> x <> a.
Proof.
  intros Hh Ha Hh0 Hx Hne.
  apply chain_of_owned in Ha as (b & e & Hb & He & Ho & ->); [|exact Hh].
  apply chain_of_owned in Hx as (b' & e' & Hb' & He' & Ho' & ->); [|exact Hh0].
  intros Heq. assert (b' <> b) as Hb_ne by congruence.
  pose proof (wf_BucketSize ht wf) as HBS.
  destruct (Z.lt_trichotomy b b') as [Hlt | [-> | Hgt]]; [|congruence|].
  - assert ((b + 1) * BucketSize ht <= b' * BucketSize ht) by nia. nia.
  - assert ((b' + 1) * BucketSize ht <= b * BucketSize ht) by nia. nia.
Qed.

(** An entry of a chain does not overlap the header of a bucket. *)
Lemma chain_header_apart h a b :
  0 <= h < InitialBuckets ht -> a ∈ chain_of ht h -> 0 <= b ->
  b * BucketSize ht + 10 <= a \/ a + 21 <= b * BucketSize ht.
Proof.
  intros Hh Ha Hb.
  apply chain_of_owned in Ha as (b' & e' & Hb' & He' & _ & ->); [|exact Hh].
  apply slot_header_apart; lia.
Qed.

End Layout.

(** ** Tables that only [Put] has written to *)

Lemma window_write_entry_out buf a key val p n :
  0 <= a -> a + 21 <= Z.of_nat (length buf) -> 0 <= p ->
  p + Z.of_nat n <= a \/ a + 21 <= p ->
  window (write_entry buf a key val) p n = window buf p n.
Proof.
  intros Ha Hfit Hp Hout. unfold write_entry.
  pose proof (length_uvarint_bytes 10 key). pose proof (length_uvarint_bytes 10 val).
  assert (length (write_bytes buf a [ENTRY_VALID]) = length buf) as L1
    by (apply length_write_bytes; cbn [length]; lia).
  assert (length (write_bytes (write_bytes buf a [ENTRY_VALID]) (a + 1)
                    (uvarint_bytes 10 key)) = length buf) as L2
    by (rewrite length_write_bytes; lia).
  rewrite !window_write_out; cbn [length]; [reflexivity | lia..].
Qed.

Lemma flag_at_write_entry_out buf a key val i :
  0 <= a -> a + 21 <= Z.of_nat (length buf) -> 0 <= i ->
  i < a \/ a + 21 <= i ->
  flag_at (write_entry buf a key val) i = flag_at buf i.
Proof.
  intros Ha Hfit Hi Hout. unfold write_entry.
  pose proof (length_uvarint_bytes 10 key). pose proof (length_uvarint_bytes 10 val).
  assert (length (write_bytes buf a [ENTRY_VALID]) = length buf) as L1
    by (apply length_write_bytes; cbn [length]; lia).
  assert (length (write_bytes (write_bytes buf a [ENTRY_VALID]) (a + 1)
                    (uvarint_bytes 10 key)) = length buf) as L2
    by (rewrite length_write_bytes; lia).
  rewrite !flag_at_write_out; cbn [length]; [reflexivity | lia..].
Qed.

(** The scan of [Get] over a chain of valid entries followed by
    never-written ones. *)
Lemma get_scan_split buf key used free :
  Forall (fun a => flag_at buf a = ENTRY_VALID) used ->
  Forall (fun a => is_sentinel buf a = true) free ->
  get_scan buf key always_true (used ++ free) =
  filter (fun p => fst p = key) (map (pair_at buf) used).
Proof.
  intros Hused Hfree. induction Hused as [|a used Ha _ IH]; cbn [app map].
  - destruct Hfree as [|s free Hs _]; [reflexivity|]. cbn [get_scan].
    rewrite Hs. unfold is_sentinel in Hs.
    destruct (flag_at buf s =? ENTRY_VALID); [discriminate | reflexivity].
  - cbn [get_scan]. rewrite Ha. change (ENTRY_VALID =? ENTRY_VALID) with true.
    change (always_true (key_at buf a) (val_at buf a)) with true.
    rewrite andb_true_r, filter_cons. cbn [pair_at fst].
    destruct (Z.eqb_spec (key_at buf a) key); destruct (decide (key_at buf a = key));
      try contradiction; rewrite IH; reflexivity.
Qed.

(** A table with another buffer of the same length is as well formed. *)
Lemma wf_with_Buf ht (buf' : list Z) :
  wf_table ht -> length buf' = length (Buf (HFile ht)) -> wf_table (with_Buf ht buf').
Proof.
  intros [] Hlen. constructor; cbn [with_Buf with_File set_Buf HFile Buf BucketSize HashBits
    PerBucket NumBuckets InitialBuckets regionRWMutex]; rewrite ?Hlen; assumption.
Qed.

(** A table with the same buckets, the same headers and zeros behind the
    buckets has the same layout. *)
Lemma Rep_base_same ht ht' owner :
  Rep_base ht owner ->
  BucketSize ht' = BucketSize ht -> HashBits ht' = HashBits ht ->
  PerBucket ht' = PerBucket ht -> NumBuckets ht' = NumBuckets ht ->
  InitialBuckets ht' = InitialBuckets ht ->
  UsedSize (HFile ht') = UsedSize (HFile ht) -> Growth (HFile ht') = Growth (HFile ht) ->
  Size (HFile ht') = Z.of_nat (length (Buf (HFile ht'))) ->
  (length (Buf (HFile ht)) <= length (Buf (HFile ht')))%nat ->
  Z.of_nat (length (Buf (HFile ht'))) < 18446744073709551616 ->
  Size (HFile ht') <= BucketSize ht * HASH_TABLE_REGION_SIZE * regionRWMutex ht' ->
  regionRWMutex ht <= regionRWMutex ht' ->
  (forall b, 0 <= b < NumBuckets ht ->
     window (Buf (HFile ht')) (b * BucketSize ht) 10 =
     window (Buf (HFile ht)) (b * BucketSize ht) 10) ->
  (forall i, NumBuckets ht * BucketSize ht <= i -> flag_at (Buf (HFile ht')) i = 0) ->
  Rep_base ht' owner /\
  (forall b, 0 <= b < NumBuckets ht -> header_of ht' b = header_of ht b).
Proof.
  intros base HBS Hhb HPB HNB HIB HU HG HSize Hlen Hlen64 Hcover Hlocks Hhdr Htail.
  assert (forall b, 0 <= b < NumBuckets ht -> header_of ht' b = header_of ht b) as Hsame.
  { intros b Hb. rewrite !header_of_window, HBS, Hhdr by exact Hb. reflexivity. }
  split; [|exact Hsame]. destruct base as [[] ? ? ? ? ? ? ? ?].
  constructor; [constructor|..]; unfold HASH_TABLE_REGION_SIZE in *;
    rewrite ?HBS, ?Hhb, ?HPB, ?HNB, ?HIB, ?HU, ?HG; try assumption; try lia.
  - intros b Hb. rewrite Hsame by exact Hb. auto.
  - intros b Hb. rewrite Hsame by exact Hb. auto.
Qed.

(** A buffer that differs only inside the entries of the table keeps the
    layout. *)
Lemma Rep_base_with_Buf ht owner (buf' : list Z) :
  Rep_base ht owner ->
  length buf' = length (Buf (HFile ht)) ->
  (forall b, 0 <= b < NumBuckets ht ->
     window buf' (b * BucketSize ht) 10 = window (Buf (HFile ht)) (b * BucketSize ht) 10) ->
  (forall i, NumBuckets ht * BucketSize ht <= i -> flag_at buf' i = flag_at (Buf (HFile ht)) i) ->
  Rep_base (with_Buf ht buf') owner /\
  (forall b, 0 <= b < NumBuckets ht -> header_of (with_Buf ht buf') b = header_of ht b).
Proof.
  intros base Hlen Hhdr Htail.
  apply Rep_base_same; try exact base; try reflexivity;
    cbn [with_Buf with_File set_Buf HFile Buf Size regionRWMutex]; rewrite ?Hlen.
  - apply (rep_size ht owner base).
  - lia.
  - apply (wf_uint64 ht (rep_wf ht owner base)).
  - apply (rep_locks ht owner base).
  - exact Hhdr.
  - intros i Hi. rewrite Htail by exact Hi. apply (rep_tail ht owner base). exact Hi.
Qed.

(** The scans visit the same entries when the headers are the same. *)
Lemma slots_from_same ht ht' owner owner' fuel b e :
  Rep_base ht owner -> Rep_base ht' owner' ->
  BucketSize ht' = BucketSize ht -> PerBucket ht' = PerBucket ht ->
  NumBuckets ht' = NumBuckets ht ->
  (forall b, 0 <= b < NumBuckets ht -> header_of ht' b = header_of ht b) ->
  0 <= b < NumBuckets ht -> 0 <= e < PerBucket ht ->
  slots_from fuel ht' b e = slots_from fuel ht b e.
Proof.
  intros base base' HBS HPB HNB Hsame. revert b e.
  induction fuel as [|fuel IH]; intros b e Hb He; [reflexivity|].
  cbn [slots_from]. unfold entryAddrOf. rewrite HBS, HPB. f_equal.
  rewrite (Rep_nextBucket _ owner' base'), (Rep_nextBucket _ owner base), Hsame by lia.
  pose proof (wf_bounds ht (rep_wf ht owner base)).
  rewrite (wrap_small (e + 1)) by lia.
  destruct (Z.eqb_spec (e + 1) (PerBucket ht)).
  - destruct (Z.eqb_spec (header_of ht b) 0) as [|Hnz]; [reflexivity|].
    destruct (rep_headers ht owner base b Hb) as [? | (Hfwd & Hover)]; [lia|].
    apply IH; lia.
  - apply IH; lia.
Qed.

Lemma chain_of_same ht ht' owner owner' h :
  Rep_base ht owner -> Rep_base ht' owner' ->
  BucketSize ht' = BucketSize ht -> PerBucket ht' = PerBucket ht ->
  NumBuckets ht' = NumBuckets ht ->
  (forall b, 0 <= b < NumBuckets ht -> header_of ht' b = header_of ht b) ->
  0 <= h < InitialBuckets ht ->
  chain_of ht' h = chain_of ht h.
Proof.
  intros base base' HBS HPB HNB Hsame Hh. pose proof (rep_wf ht owner base) as wf.
  pose proof (wf_NumBuckets ht wf). pose proof (wf_PerBucket ht wf).
  unfold chain_of. rewrite HNB, HPB.
  apply (slots_from_same ht ht' owner owner'); try assumption; lia.
Qed.

Lemma chain_of_with_Buf ht owner (buf' : list Z) h :
  Rep_base ht owner -> Rep_base (with_Buf ht buf') owner ->
  (forall b, 0 <= b < NumBuckets ht -> header_of (with_Buf ht buf') b = header_of ht b) ->
  0 <= h < InitialBuckets ht ->
  chain_of (with_Buf ht buf') h = chain_of ht h.
Proof.
  intros base base' Hsame Hh.
  apply (chain_of_same ht (with_Buf ht buf') owner owner); try assumption; reflexivity.
Qed.

(** [Get] returns the pairs of the chain that have the key. *)
Lemma Get_Rep ht owner c key fuel :
  Rep ht owner c -> 0 <= key ->
  NumBuckets ht * PerBucket ht <= Z.of_nat fuel ->
  Get fuel ht key 0 always_true = Ok (pairs_of_key key (c (hashKey ht key))).
Proof.
  intros [base chains] Hkey Hfuel. pose proof (rep_wf ht owner base) as wf.
  pose proof (hashKey_range ht wf key Hkey) as Hh.
  pose proof (wf_NumBuckets ht wf). pose proof (wf_PerBucket ht wf).
  pose proof (wf_bounds ht wf) as (_ & HPB & _). pose proof (wf_Buf ht wf).
  pose proof (wf_uint64 ht wf).
  assert (NumBuckets ht * PerBucket ht <= NumBuckets ht * BucketSize ht) by nia.
  destruct (chains _ Hh) as (used & free & Hchain & Hused & Hfree & Hpairs).
  rewrite Get_unlimited, regionMutex_ok by (try exact wf; lia). cbn [bind].
  rewrite Get_loop_scan; try exact wf; try lia; try nia.
  rewrite (slots_from_chain ht owner base) by lia.
  rewrite Hchain, get_scan_split, Hpairs by assumption. reflexivity.
Qed.

Lemma matches_true buf key val a :
  matches buf key val a = true ->
  flag_at buf a = ENTRY_VALID /\ key_at buf a = key /\ val_at buf a = val.
Proof.
  unfold matches. intros H. apply andb_prop in H as [H Hv]. apply andb_prop in H as [Hf Hk].
  apply Z.eqb_eq in Hf, Hk, Hv. auto.
Qed.

Lemma is_sentinel_not_valid buf a : is_sentinel buf a = true -> flag_at buf a <> ENTRY_VALID.
Proof.
  unfold is_sentinel. intros H Hv. rewrite Hv in H. discriminate.
Qed.

Lemma chain_split_same ht ht' h used free pairs :
  chain_of ht' h = chain_of ht h ->
  (forall x, x ∈ chain_of ht h -> same_entry (Buf (HFile ht)) (Buf (HFile ht')) x) ->
  chain_split ht h used free pairs -> chain_split ht' h used free pairs.
Proof.
  intros Hchain Hsame (Hc & Hused & Hfree & Hpairs).
  assert (forall x, x ∈ used ++ free -> same_entry (Buf (HFile ht)) (Buf (HFile ht')) x)
    as Hsame' by (intros x Hx; apply Hsame; rewrite Hc; exact Hx).
  split; [congruence|]. split; [|split].
  - rewrite Forall_forall in *. intros x Hx.
    destruct (Hsame' x) as (-> & _); [apply elem_of_app; auto | apply Hused, Hx].
  - rewrite Forall_forall in *. intros x Hx.
    destruct (Hsame' x) as (Hf & Hk & Hv); [apply elem_of_app; auto|].
    unfold is_sentinel. rewrite Hf, Hk, Hv. apply Hfree, Hx.
  - rewrite <- Hpairs. apply map_ext_in. intros x Hx.
    destruct (Hsame' x) as (_ & Hk & Hv);
      [apply elem_of_app; left; apply list_elem_of_In, Hx|].
    unfold pair_at. rewrite Hk, Hv. reflexivity.
Qed.

(** [Put] into a chain that has a never-written entry. *)
Lemma Put_free ht owner c key val fuel used a free :
  Rep ht owner c ->
  0 <= key < 18446744073709551616 -> 0 <= val < 18446744073709551616 ->
  NumBuckets ht * PerBucket ht <= Z.of_nat fuel ->
  chain_split ht (hashKey ht key) used (a :: free) (c (hashKey ht key)) ->
  Put fuel ht key val = Ok (with_Buf ht (write_entry (Buf (HFile ht)) a key val)) /\
  Rep (with_Buf ht (write_entry (Buf (HFile ht)) a key val)) owner
      (fun h => c h ++ if decide (h = hashKey ht key) then [(key, val)] else []).
Proof.
  intros [base chains] Hkey Hval Hfuel (Hchain & Hused & Hfree & Hpairs).
  pose proof (rep_wf ht owner base) as wf.
  assert (0 <= hashKey ht key < InitialBuckets ht) as Hh
    by (apply hashKey_range; [exact wf | lia]).
  pose proof (wf_NumBuckets ht wf). pose proof (wf_PerBucket ht wf).
  pose proof (wf_uint64 ht wf) as Hlen.
  assert (a ∈ chain_of ht (hashKey ht key)) as Ha
    by (rewrite Hchain; apply elem_of_app; right; left).
  destruct (chain_of_in_table ht owner base _ a Hh Ha) as (Ha0 & Ha1 & Ha2).
  apply Forall_cons in Hfree as [Hsent Hfree].
  pose proof (is_sentinel_not_valid _ _ Hsent) as Hfree_a.
  split.
  { unfold Put. rewrite regionMutex_ok by (try exact wf; lia). cbn [bind].
    apply (Put_loop_claims ht wf fuel key val _ 0 used a free); try lia.
    - rewrite (slots_from_chain ht owner base) by lia. exact Hchain.
    - intros b Hb. rewrite Forall_forall in Hused. apply Hused, list_elem_of_In, Hb. }
  set (buf' := write_entry (Buf (HFile ht)) a key val).
  assert (length buf' = length (Buf (HFile ht))) as Hlen'
    by (apply length_write_entry; lia).
  destruct (Rep_base_with_Buf ht owner buf' base Hlen') as [base' Hsame].
  { intros b Hb. apply window_write_entry_out; try lia.
    - destruct (wf_positive ht wf). nia.
    - apply (chain_header_apart ht owner base (hashKey ht key) a b Hh Ha). lia. }
  { intros i Hi. apply flag_at_write_entry_out; lia. }
  split; [exact base'|].
  intros h0 Hh0. change (InitialBuckets (with_Buf ht buf')) with (InitialBuckets ht) in Hh0.
  assert (chain_of (with_Buf ht buf') h0 = chain_of ht h0) as Hchain0
    by (apply (chain_of_with_Buf ht owner); assumption).
  assert (forall x, x ∈ chain_of ht h0 -> x <> a ->
                    same_entry (Buf (HFile ht)) (Buf (HFile (with_Buf ht buf'))) x) as Hframe.
  { intros x Hx Hne. destruct (chain_of_in_table ht owner base _ x Hh0 Hx) as (Hx0 & _).
    apply write_entry_frame; try lia.
    apply (chain_frame ht owner base (hashKey ht key) a h0 x); assumption. }
  destruct (decide (h0 = hashKey ht key)) as [-> | Hother].
  - exists (used ++ [a]), free.
    pose proof (chain_of_NoDup ht owner base _ Hh) as Hnodup.
    rewrite Hchain in Hnodup. apply NoDup_app in Hnodup as (_ & _ & Hnodup).
    apply NoDup_cons in Hnodup as [Hnotin _].
    destruct (matches_true _ _ _ _
                (write_entry_read (Buf (HFile ht)) a key val Ha0 ltac:(lia) Hkey Hval))
      as (Hf & Hk & Hv). fold buf' in Hf, Hk, Hv.
    split; [rewrite Hchain0, Hchain, <- app_assoc; reflexivity|].
    split; [|split].
    + apply Forall_app. split; [|constructor; [exact Hf | constructor]].
      rewrite Forall_forall in *. intros x Hx.
      destruct (Hframe x) as (-> & _); [rewrite Hchain; apply elem_of_app; auto | | auto].
      intros ->. apply Hfree_a, Hused, Hx.
    + rewrite Forall_forall in *. intros x Hx.
      destruct (Hframe x) as (Hf' & Hk' & Hv').
      * rewrite Hchain. apply elem_of_app. right. right. exact Hx.
      * intros ->. contradiction.
      * unfold is_sentinel. rewrite Hf', Hk', Hv'. apply Hfree, Hx.
    + rewrite map_app. cbn [map]. unfold pair_at at 2.
      cbn [with_Buf with_File set_Buf HFile Buf]. rewrite Hk, Hv. f_equal.
      rewrite <- Hpairs. apply map_ext_in. intros x Hx. apply list_elem_of_In in Hx.
      destruct (Hframe x) as (_ & Hk' & Hv');
        [rewrite Hchain; apply elem_of_app; auto | |].
      * intros ->. rewrite Forall_forall in Hused. apply Hfree_a, Hused, Hx.
      * unfold pair_at. cbn [with_Buf with_File set_Buf HFile Buf] in Hk', Hv'.
        rewrite Hk', Hv'. reflexivity.
  - destruct (chains h0 Hh0) as (used0 & free0 & Hsplit0).
    exists used0, free0. rewrite app_nil_r.
    apply (chain_split_same ht); [exact Hchain0 | | exact Hsplit0].
    intros x Hx. apply Hframe; [exact Hx|].
    apply (chain_disjoint ht owner base (hashKey ht key) a h0 x); assumption.
Qed.

(** ** Growing the file *)

Lemma flag_at_app_l (buf ext : list Z) i :
  0 <= i < Z.of_nat (length buf) -> flag_at (buf ++ ext) i = flag_at buf i.
Proof. intros Hi. unfold flag_at. rewrite lookup_app_l by lia. reflexivity. Qed.

Lemma flag_at_app_zeros (buf : list Z) n i :
  Z.of_nat (length buf) <= i -> flag_at (buf ++ replicate n 0) i = 0.
Proof.
  intros Hi. unfold flag_at. rewrite lookup_app_r by lia.
  destruct (replicate n 0 !! _) as [b|] eqn:Hb; [|reflexivity].
  apply lookup_replicate_1 in Hb as [-> _]. reflexivity.
Qed.

Lemma window_app_l (buf ext : list Z) p n :
  0 <= p -> p + Z.of_nat n <= Z.of_nat (length buf) ->
  window (buf ++ ext) p n = window buf p n.
Proof.
  intros Hp Hfit. unfold window. rewrite drop_app_le by lia.
  apply take_app_le. rewrite length_drop. lia.
Qed.

Lemma same_entry_app (buf ext : list Z) x :
  0 <= x -> x + 21 <= Z.of_nat (length buf) -> same_entry buf (buf ++ ext) x.
Proof.
  intros Hx Hfit. unfold same_entry, key_at, val_at.
  rewrite flag_at_app_l, !window_app_l by lia. auto.
Qed.

Lemma bucket_fits b n bs :
  0 <= b < n -> 0 < bs -> 0 <= b * bs /\ (b + 1) * bs <= n * bs.
Proof. intros Hb Hbs. nia. Qed.

Lemma buckets_ordered b b' bs : b < b' -> 0 < bs -> (b + 1) * bs <= b' * bs.
Proof. intros Hb Hbs. nia. Qed.

Lemma cover_locks n bs size locks :
  0 < bs -> n * bs <= size -> size <= bs * (1024 * 16) * locks -> n <= 1024 * 16 * locks.
Proof. intros Hbs Hn Hsize. nia. Qed.

(** The first step of [grow]: the file is made to hold one more bucket. *)
Lemma grow_file ht owner fuel :
  Rep_base ht owner ->
  Size (HFile ht) + BucketSize ht + 2097152 < 18446744073709551616 ->
  BucketSize ht / 1048576 + 6 <= Z.of_nat fuel ->
  exists ht1 ext,
    (if negb (CheckSize (HFile ht) (BucketSize ht)) then
       file <- CheckSizeAndEnsure fuel (HFile ht) (BucketSize ht) ;;
       Ok (mkHashTable file (BucketSize ht) (HashBits ht) (PerBucket ht)
             (NumBuckets ht) (InitialBuckets ht)
             (regionRWMutex ht + (HASH_TABLE_GROWTH / HASH_TABLE_REGION_SIZE + 1)))
     else Ok ht) = Ok ht1 /\
    Rep_base ht1 owner /\
    Buf (HFile ht1) = Buf (HFile ht) ++ ext /\
    BucketSize ht1 = BucketSize ht /\ HashBits ht1 = HashBits ht /\
    PerBucket ht1 = PerBucket ht /\ NumBuckets ht1 = NumBuckets ht /\
    InitialBuckets ht1 = InitialBuckets ht /\
    (forall b, 0 <= b < NumBuckets ht -> header_of ht1 b = header_of ht b) /\
    UsedSize (HFile ht1) + BucketSize ht1 <= Size (HFile ht1) /\
    Size (HFile ht1) <= Size (HFile ht) + BucketSize ht + 1048576.
Proof.
  intros base Hsize Hfuel. pose proof (rep_wf ht owner base) as wf.
  pose proof (wf_positive ht wf) as (HBS & _ & HNB).
  pose proof (wf_BucketSize ht wf) as HBS'. pose proof (wf_PerBucket ht wf) as HPB.
  pose proof (wf_Buf ht wf) as Hfit.
  pose proof (rep_used ht owner base) as HU. pose proof (rep_size ht owner base) as HS.
  pose proof (rep_growth ht owner base) as HG. pose proof (rep_locks ht owner base) as HL.
  unfold HASH_TABLE_GROWTH, HASH_TABLE_REGION_SIZE in *.
  assert (0 <= UsedSize (HFile ht)) by nia.
  unfold CheckSize. rewrite wrap_small by lia.
  destruct (Z.leb_spec (UsedSize (HFile ht) + BucketSize ht) (Size (HFile ht)))
    as [Hroom | Hfull]; cbn [negb].
  - exists ht, []. rewrite app_nil_r.
    repeat (split; [first [reflexivity | assumption | lia]|]). lia.
  - set (k := (UsedSize (HFile ht) + BucketSize ht - Size (HFile ht) + 1048575) / 1048576).
    assert (1 <= k /\ Size (HFile ht) + (k - 1) * 1048576
                      < UsedSize (HFile ht) + BucketSize ht
                      <= Size (HFile ht) + k * 1048576 /\ k <= BucketSize ht / 1048576 + 1)
      as (Hk1 & Hk & Hk2).
    { unfold k. Z.div_mod_to_equations. lia. }
    rewrite (CheckSizeAndEnsure_spec (Z.to_nat k)); rewrite ?HG, ?Z2Nat.id;
      unfold FILE_GROWTH_INCREMENTAL; try lia.
    2: { change (1048576 / 1048576) with 1. lia. }
    cbn [bind]. rewrite appended_from_whole by (unfold FILE_GROWTH_INCREMENTAL; lia || reflexivity).
    change (1048576 / (1024 * 16) + 1) with 65.
    eexists _, (replicate (Z.to_nat (k * 1048576)) 0).
    split; [reflexivity|].
    cbn [HFile Buf BucketSize HashBits PerBucket NumBuckets InitialBuckets UsedSize Size].
    assert (Rep_base
              (mkHashTable
                 (mkFile (UsedSize (HFile ht)) (Size (HFile ht) + k * 1048576) 1048576
                    (Buf (HFile ht) ++ replicate (Z.to_nat (k * 1048576)) 0))
                 (BucketSize ht) (HashBits ht) (PerBucket ht) (NumBuckets ht)
                 (InitialBuckets ht) (regionRWMutex ht + 65)) owner /\
            (forall b, 0 <= b < NumBuckets ht ->
               header_of
                 (mkHashTable
                    (mkFile (UsedSize (HFile ht)) (Size (HFile ht) + k * 1048576) 1048576
                       (Buf (HFile ht) ++ replicate (Z.to_nat (k * 1048576)) 0))
                    (BucketSize ht) (HashBits ht) (PerBucket ht) (NumBuckets ht)
                    (InitialBuckets ht) (regionRWMutex ht + 65)) b = header_of ht b))
      as [base1 Hsame].
    { apply Rep_base_same; try exact base; try reflexivity;
        cbn [HFile Buf BucketSize HashBits PerBucket NumBuckets InitialBuckets UsedSize Size
             Growth regionRWMutex];
        rewrite ?length_app, ?length_replicate; unfold HASH_TABLE_REGION_SIZE; try lia.
      - intros b Hb. destruct (bucket_fits b (NumBuckets ht) (BucketSize ht) Hb HBS).
        apply window_app_l; lia.
      - intros i Hi. destruct (Z.lt_ge_cases i (Z.of_nat (length (Buf (HFile ht))))).
        + rewrite flag_at_app_l by lia. apply (rep_tail ht owner base). exact Hi.
        + apply flag_at_app_zeros. lia. }
    repeat (split; [first [reflexivity | assumption | lia]|]). lia.
Qed.

(** ** The last bucket of a chain *)

Lemma ends_at_fun ht b l l' : ends_at ht b l -> ends_at ht b l' -> l = l'.
Proof.
  intros H. revert l'. induction H as [b Hz | b l Hnz _ IH]; intros l' H'.
  - inversion H' as [b' Hz' | b' l'' Hnz' _]; [reflexivity | contradiction].
  - inversion H' as [b' Hz' | b' l'' Hnz' Hrest]; [subst; contradiction|]. apply IH, Hrest.
Qed.

Lemma ends_at_header ht b l : ends_at ht b l -> header_of ht l = 0.
Proof. induction 1; assumption. Qed.

Lemma lastBucket_ends ht owner fuel b :
  Rep_base ht owner -> 0 <= b < NumBuckets ht ->
  NumBuckets ht - b <= Z.of_nat fuel ->
  exists l, lastBucket fuel ht b = Ok l /\ ends_at ht b l /\
            b <= l < NumBuckets ht /\ owner l = owner b.
Proof.
  intros base. revert b. induction fuel as [|fuel IH]; intros b Hb Hfuel; [lia|].
  cbn [lastBucket]. rewrite (Rep_nextBucket ht owner base) by exact Hb. cbn [bind].
  destruct (Z.eqb_spec (header_of ht b) 0) as [Hz | Hnz].
  - exists b. repeat split; try lia. apply ends_here, Hz.
  - destruct (rep_headers ht owner base b Hb) as [? | (Hfwd & Hover)]; [lia|].
    destruct (IH (header_of ht b)) as (l & Hl & Hends & Hrange & Ho); try lia.
    exists l. rewrite Hl, Ho, (rep_next ht owner base b Hb Hnz).
    repeat split; try lia. apply ends_next; assumption.
Qed.

(** ** Linking a new bucket *)

Section Link.
Variable ht : HashTable.
Variable owner : Z -> Z.
Variable l : Z.
Hypothesis base : Rep_base ht owner.
Hypothesis l_range : 0 <= l < NumBuckets ht.
Hypothesis l_last : header_of ht l = 0.
Hypothesis room : UsedSize (HFile ht) + BucketSize ht <= Size (HFile ht).

Let wf : wf_table ht := rep_wf ht owner base.
Let owner2 : Z -> Z := fun b => if b =? NumBuckets ht then owner l else owner b.

Lemma link_bounds :
  0 < BucketSize ht /\ BucketSize ht = 10 + 21 * PerBucket ht /\ 1 <= PerBucket ht /\
  0 <= l * BucketSize ht /\ (l + 1) * BucketSize ht <= NumBuckets ht * BucketSize ht /\
  (NumBuckets ht + 1) * BucketSize ht <= Z.of_nat (length (Buf (HFile ht))) /\
  Z.of_nat (length (Buf (HFile ht))) < 18446744073709551616 /\
  0 < NumBuckets ht < 18446744073709551616 /\
  (1 <= length (uvarint_bytes 10 (NumBuckets ht)) <= 10)%nat.
Proof.
  pose proof (wf_positive ht wf) as (HBS & _ & HNB).
  pose proof (wf_bounds ht wf) as (_ & _ & HNB' & _).
  pose proof (bucket_fits l _ _ l_range HBS) as (? & ?).
  pose proof (rep_used ht owner base). pose proof (rep_size ht owner base).
  pose proof (wf_uint64 ht wf).
  pose proof (length_uvarint_bytes 10 (NumBuckets ht)).
  pose proof (uvarint_bytes_nonempty 10 (NumBuckets ht) ltac:(lia)).
  repeat split; try lia; try apply (wf_BucketSize ht wf); try apply (wf_PerBucket ht wf).
Qed.

Lemma link_length :
  length (Buf (HFile (linked ht l))) = length (Buf (HFile ht)).
Proof.
  destruct link_bounds as (HBS & HBS' & HPB & Hl0 & Hl1 & Hfit & Hlen & HNB & Hbytes).
  cbn [linked HFile Buf]. apply length_write_bytes; lia.
Qed.

(** The bytes outside the header of [l] are not touched. *)
Lemma link_flag_at i :
  0 <= i -> i < l * BucketSize ht \/ l * BucketSize ht + 10 <= i ->
  flag_at (Buf (HFile (linked ht l))) i = flag_at (Buf (HFile ht)) i.
Proof.
  intros Hi Hout.
  destruct link_bounds as (HBS & HBS' & HPB & Hl0 & Hl1 & Hfit & Hlen & HNB & Hbytes).
  cbn [linked HFile Buf]. apply flag_at_write_out; lia.
Qed.

Lemma link_window p n :
  0 <= p -> p + Z.of_nat n <= l * BucketSize ht \/ l * BucketSize ht + 10 <= p ->
  window (Buf (HFile (linked ht l))) p n = window (Buf (HFile ht)) p n.
Proof.
  intros Hp Hout.
  destruct link_bounds as (HBS & HBS' & HPB & Hl0 & Hl1 & Hfit & Hlen & HNB & Hbytes).
  cbn [linked HFile Buf]. apply window_write_out; lia.
Qed.

Lemma link_same_entry b e :
  0 <= b -> 0 <= e < PerBucket ht ->
  same_entry (Buf (HFile ht)) (Buf (HFile (linked ht l)))
    (b * BucketSize ht + 10 + e * 21).
Proof.
  intros Hb He.
  destruct link_bounds as (HBS & HBS' & HPB & Hl0 & Hl1 & Hfit & Hlen & HNB & Hbytes).
  assert (0 <= b * BucketSize ht) by (apply Z.mul_nonneg_nonneg; lia).
  destruct (slot_header_apart ht owner base b e l) as [Hafter | Hbefore]; try lia;
    unfold same_entry, key_at, val_at;
    rewrite link_flag_at, !link_window by lia; auto.
Qed.

Lemma link_headers :
  header_of (linked ht l) l = NumBuckets ht /\
  header_of (linked ht l) (NumBuckets ht) = 0 /\
  (forall b, 0 <= b < NumBuckets ht -> b <> l ->
     header_of (linked ht l) b = header_of ht b).
Proof.
  destruct link_bounds as (HBS & HBS' & HPB & Hl0 & Hl1 & Hfit & Hlen & HNB & Hbytes).
  rewrite !header_of_window. change (BucketSize (linked ht l)) with (BucketSize ht).
  split; [|split].
  - cbn [linked HFile Buf]. rewrite window_write_in by lia. apply Uvarint_bytes. lia.
  - rewrite link_window by lia. apply window_head_0; try lia.
    apply (rep_tail ht owner base). lia.
  - intros b Hb Hne. rewrite !header_of_window.
    change (BucketSize (linked ht l)) with (BucketSize ht).
    destruct (bucket_fits b _ _ Hb HBS) as (Hb0 & Hb1).
    rewrite link_window; [reflexivity | lia |].
    destruct (Z.lt_trichotomy b l) as [Hlt | [-> | Hgt]]; [|contradiction|].
    + left. pose proof (buckets_ordered b l _ Hlt HBS). lia.
    + right. pose proof (buckets_ordered l b _ ltac:(lia) HBS). lia.
Qed.

Lemma link_Rep_base : Rep_base (linked ht l) owner2.
Proof.
  destruct link_bounds as (HBS & HBS' & HPB & Hl0 & Hl1 & Hfit & Hlen & HNB & Hbytes).
  destruct link_headers as (Hhl & Hhn & Hhb).
  pose proof link_length as Hlen2.
  pose proof (rep_used ht owner base) as HU. pose proof (rep_size ht owner base) as HS.
  pose proof (rep_locks ht owner base) as HL. unfold HASH_TABLE_REGION_SIZE in HL.
  pose proof (wf_NumBuckets ht wf) as HIB.
  constructor; [constructor|..];
    change (BucketSize (linked ht l)) with (BucketSize ht);
    change (PerBucket (linked ht l)) with (PerBucket ht);
    change (HashBits (linked ht l)) with (HashBits ht);
    change (InitialBuckets (linked ht l)) with (InitialBuckets ht);
    change (NumBuckets (linked ht l)) with (NumBuckets ht + 1);
    change (regionRWMutex (linked ht l)) with (regionRWMutex ht);
    change (UsedSize (HFile (linked ht l))) with (UsedSize (HFile ht) + BucketSize ht);
    change (Size (HFile (linked ht l))) with (Size (HFile ht));
    change (Growth (HFile (linked ht l))) with (Growth (HFile ht));
    rewrite ?Hlen2; unfold HASH_TABLE_REGION_SIZE;
    try (destruct wf; assumption); try apply (rep_growth ht owner base); try lia.
  - apply (cover_locks _ (BucketSize ht) (Size (HFile ht))); lia.
  - intros i Hi. rewrite link_flag_at by lia. apply (rep_tail ht owner base). lia.
  - intros b Hb. destruct (Z.eq_dec b l) as [-> | Hne]; [rewrite Hhl; lia|].
    destruct (Z.eq_dec b (NumBuckets ht)) as [-> | Hne']; [rewrite Hhn; auto|].
    rewrite Hhb by lia. destruct (rep_headers ht owner base b) as [? | ?]; [lia | auto | right; lia].
  - intros h Hh. unfold owner2. destruct (Z.eqb_spec h (NumBuckets ht)); [lia|].
    apply (rep_heads ht owner base). exact Hh.
  - intros b Hb. unfold owner2. destruct (Z.eq_dec b l) as [-> | Hne].
    { rewrite Hhl. intros _. rewrite Z.eqb_refl.
      destruct (Z.eqb_spec l (NumBuckets ht)); [lia | reflexivity]. }
    destruct (Z.eq_dec b (NumBuckets ht)) as [-> | Hne']; [rewrite Hhn; contradiction|].
    rewrite Hhb by lia. intros Hnz.
    destruct (rep_headers ht owner base b) as [? | ?]; [lia | contradiction|].
    destruct (Z.eqb_spec (header_of ht b) (NumBuckets ht)); [lia|].
    destruct (Z.eqb_spec b (NumBuckets ht)); [lia|].
    apply (rep_next ht owner base); [lia | exact Hnz].
Qed.

Lemma link_new_sentinel e :
  0 <= e < PerBucket ht ->
  is_sentinel (Buf (HFile (linked ht l))) (NumBuckets ht * BucketSize ht + 10 + e * 21) = true.
Proof.
  intros He.
  destruct link_bounds as (HBS & HBS' & HPB & Hl0 & Hl1 & Hfit & Hlen & HNB & Hbytes).
  assert (0 <= NumBuckets ht * BucketSize ht) by (apply Z.mul_nonneg_nonneg; lia).
  pose proof (rep_tail ht owner base) as Htail.
  unfold is_sentinel, key_at, val_at.
  rewrite link_flag_at, !link_window by lia.
  rewrite Htail, !window_head_0; try reflexivity; try lia; apply Htail; lia.
Qed.

(** The entries of the new bucket, as a scan visits them. *)
Lemma link_new_slots fuel e :
  0 <= e < PerBucket ht -> PerBucket ht - e <= Z.of_nat fuel ->
  slots_from fuel (linked ht l) (NumBuckets ht) e =
  map (fun e => NumBuckets ht * BucketSize ht + 10 + e * 21) (seqZ e (PerBucket ht - e)).
Proof.
  destruct link_bounds as (HBS & HBS' & HPB & Hl0 & Hl1 & Hfit & Hlen & HNB & Hbytes).
  destruct link_headers as (_ & Hhn & _).
  pose proof link_Rep_base as base2. pose proof (rep_wf _ _ base2) as wf2.
  revert e. induction fuel as [|fuel IH]; intros e He Hfuel; [lia|].
  cbn [slots_from]. rewrite seqZ_cons by lia. cbn [map].
  destruct (entry_in_range _ wf2 (NumBuckets ht) e) as (-> & _);
    [cbn [linked NumBuckets]; lia | exact He |].
  change (BucketSize (linked ht l)) with (BucketSize ht).
  change (PerBucket (linked ht l)) with (PerBucket ht). f_equal.
  rewrite (wrap_small (e + 1)) by lia.
  rewrite (Rep_nextBucket _ _ base2), Hhn by (cbn [linked NumBuckets]; lia).
  change (0 =? 0) with true. cbv iota.
  replace (Z.succ e) with (e + 1) by lia.
  replace (Z.pred (PerBucket ht - e)) with (PerBucket ht - (e + 1)) by lia.
  destruct (Z.eqb_spec (e + 1) (PerBucket ht)) as [Hlast | Hmore].
  - rewrite seqZ_nil by lia. reflexivity.
  - apply IH; lia.
Qed.

(** A scan of the linked table visits the entries that it visited before
    and, behind [l], the entries of the new bucket. *)
Lemma link_slots fuel b e l' :
  ends_at ht b l' -> 0 <= b < NumBuckets ht -> 0 <= e < PerBucket ht ->
  (NumBuckets ht - b) * PerBucket ht - e <= Z.of_nat fuel ->
  slots_from (fuel + Z.to_nat (PerBucket ht)) (linked ht l) b e =
  slots_from fuel ht b e ++
  (if decide (l' = l) then bucket_slots ht (NumBuckets ht) else []).
Proof.
  destruct link_bounds as (HBS & HBS' & HPB & Hl0 & Hl1 & Hfit & Hlen & HNB & Hbytes).
  destruct link_headers as (Hhl & Hhn & Hhb).
  pose proof link_Rep_base as base2.
  revert b e. induction fuel as [|fuel IH]; intros b e Hends Hb He Hfuel.
  { pose proof (buckets_ordered b (NumBuckets ht) (PerBucket ht) ltac:(lia) ltac:(lia)). lia. }
  change (S fuel + Z.to_nat (PerBucket ht))%nat with (S (fuel + Z.to_nat (PerBucket ht))).
  cbn [slots_from]. change (entryAddrOf (linked ht l) b e) with (entryAddrOf ht b e).
  change (PerBucket (linked ht l)) with (PerBucket ht).
  rewrite <- app_comm_cons. f_equal.
  rewrite (wrap_small (e + 1)) by lia.
  rewrite (Rep_nextBucket _ _ base2) by (cbn [linked NumBuckets]; lia).
  rewrite (Rep_nextBucket _ _ base) by lia.
  destruct (Z.eqb_spec (e + 1) (PerBucket ht)) as [Hlast | Hmore]; [|apply IH; try lia; assumption].
  destruct (Z.eqb_spec (header_of ht b) 0) as [Hz | Hnz].
  - assert (l' = b) as -> by (inversion Hends; subst; [reflexivity | congruence]).
    destruct (decide (b = l)) as [-> | Hne].
    + rewrite Hhl. destruct (Z.eqb_spec (NumBuckets ht) 0); [lia|].
      rewrite link_new_slots by lia. rewrite Z.sub_0_r. reflexivity.
    + rewrite Hhb, Hz by lia. reflexivity.
  - assert (b <> l) as Hne by congruence.
    assert (ends_at ht (header_of ht b) l') as Hends'
      by (inversion Hends; subst; [congruence | assumption]).
    rewrite Hhb by lia.
    destruct (Z.eqb_spec (header_of ht b) 0); [contradiction|].
    destruct (rep_headers ht owner base b Hb) as [? | (Hfwd & Hover)]; [lia|].
    apply IH; try lia; try assumption.
    pose proof (buckets_ordered b (header_of ht b) (PerBucket ht) ltac:(lia) ltac:(lia)).
    lia.
Qed.

(** The chains of the linked table: the chain that ended at [l] has the
    entries of the new bucket behind it, the others are as before. *)
Lemma link_chain_split h l' used free pairs :
  0 <= h < InitialBuckets ht -> ends_at ht h l' ->
  chain_split ht h used free pairs ->
  chain_split (linked ht l) h used
    (free ++ if decide (l' = l) then bucket_slots ht (NumBuckets ht) else []) pairs.
Proof.
  intros Hh Hends (Hchain & Hused & Hfree & Hpairs).
  destruct link_bounds as (HBS & HBS' & HPB & Hl0 & Hl1 & Hfit & Hlen & HNB & Hbytes).
  pose proof (wf_NumBuckets ht wf) as HIB.
  assert (0 <= NumBuckets ht * PerBucket ht) by (apply Z.mul_nonneg_nonneg; lia).
  assert (forall x, x ∈ used ++ free ->
                    same_entry (Buf (HFile ht)) (Buf (HFile (linked ht l))) x) as Hsame.
  { intros x Hx. rewrite <- Hchain in Hx.
    apply (chain_of_owned ht owner base) in Hx as (b & e & Hb & He & _ & ->); [|exact Hh].
    apply link_same_entry; lia. }
  split; [|split; [|split]].
  - unfold chain_of at 1. cbn [linked NumBuckets PerBucket].
    replace (Z.to_nat ((NumBuckets ht + 1) * PerBucket ht))
      with (Z.to_nat (NumBuckets ht * PerBucket ht) + Z.to_nat (PerBucket ht))%nat by lia.
    rewrite (link_slots _ h 0 l'); try assumption; try lia.
    fold (chain_of ht h). rewrite Hchain, <- app_assoc. reflexivity.
  - rewrite Forall_forall in *. intros x Hx.
    destruct (Hsame x) as (-> & _); [apply elem_of_app; auto | apply Hused, Hx].
  - apply Forall_app. split.
    + rewrite Forall_forall in *. intros x Hx.
      destruct (Hsame x) as (Hf & Hk & Hv); [apply elem_of_app; auto|].
      unfold is_sentinel. rewrite Hf, Hk, Hv. apply Hfree, Hx.
    + destruct (decide (l' = l)); [|constructor].
      rewrite Forall_forall. intros x Hx. unfold bucket_slots in Hx.
      apply list_elem_of_In, in_map_iff in Hx as (e0 & <- & He0).
      apply list_elem_of_In, elem_of_seqZ in He0. apply link_new_sentinel. lia.
  - rewrite <- Hpairs. apply map_ext_in. intros x Hx.
    destruct (Hsame x) as (_ & Hk & Hv);
      [apply elem_of_app; left; apply list_elem_of_In, Hx|].
    unfold pair_at. rewrite Hk, Hv. reflexivity.
Qed.

(** The chain that ended at [l] ends at the new bucket. *)
Lemma link_ends b l' :
  ends_at ht b l' -> l' = l -> 0 <= b < NumBuckets ht ->
  ends_at (linked ht l) b (NumBuckets ht).
Proof.
  destruct link_bounds as (HBS & HBS' & HPB & Hl0 & Hl1 & Hfit & Hlen & HNB & Hbytes).
  destruct link_headers as (Hhl & Hhn & Hhb).
  induction 1 as [b Hz | b l'' Hnz Hrest IH]; intros -> Hb.
  - apply ends_next; rewrite Hhl; [lia|]. apply ends_here, Hhn.
  - assert (b <> l) as Hne by congruence.
    destruct (rep_headers ht owner base b Hb) as [? | (Hfwd & Hover)]; [contradiction|].
    apply ends_next; rewrite Hhb by lia; [exact Hnz|]. apply IH; [reflexivity | lia].
Qed.

End Link.


(** ** [grow] *)

(** [grow] links a bucket of never-written entries behind the chain of
    [h], and leaves the pairs of every chain as they are. *)
Lemma grow_Rep ht owner c h fuel :
  Rep ht owner c -> 0 <= h < InitialBuckets ht ->
  Size (HFile ht) + BucketSize ht + 2097152 < 18446744073709551616 ->
  NumBuckets ht + BucketSize ht / 1048576 + 6 <= Z.of_nat fuel ->
  exists ht2 owner2,
    grow fuel ht h = Ok ht2 /\ Rep ht2 owner2 c /\
    BucketSize ht2 = BucketSize ht /\ HashBits ht2 = HashBits ht /\
    PerBucket ht2 = PerBucket ht /\ NumBuckets ht2 = NumBuckets ht + 1 /\
    InitialBuckets ht2 = InitialBuckets ht /\
    Size (HFile ht2) <= Size (HFile ht) + BucketSize ht + 1048576 /\
    (forall used free,
       chain_split ht h used free (c h) ->
       chain_split ht2 h used (free ++ bucket_slots ht (NumBuckets ht)) (c h)).
Proof.
  intros [base chains] Hh Hsize Hfuel. pose proof (rep_wf ht owner base) as wf.
  pose proof (wf_positive ht wf) as (HBS & _ & HNB).
  pose proof (wf_NumBuckets ht wf) as HIB.
  assert (0 <= BucketSize ht / 1048576) by (apply Z.div_pos; lia).
  destruct (grow_file ht owner fuel base Hsize ltac:(lia))
    as (ht1 & ext & E1 & base1 & Hbuf1 & HBS1 & Hhb1 & HPB1 & HNB1 & HIB1 & Hsame1
        & Hroom1 & Hsize1).
  pose proof (rep_wf ht1 owner base1) as wf1.
  assert (forall h0, 0 <= h0 < InitialBuckets ht ->
            exists l0, ends_at ht1 h0 l0 /\ 0 <= l0 < NumBuckets ht1 /\ owner l0 = h0)
    as Hends.
  { intros h0 Hh0.
    destruct (lastBucket_ends ht1 owner (Z.to_nat (NumBuckets ht1)) h0 base1)
      as (l0 & _ & He & Hr & Ho); try lia.
    exists l0. rewrite (rep_heads ht owner base h0 Hh0) in Ho.
    split; [exact He|]. split; [lia | exact Ho]. }
  destruct (lastBucket_ends ht1 owner fuel h base1) as (l & Hl & Hend & Hrange & Hol);
    try lia.
  assert (0 <= l < NumBuckets ht1) as Hrange' by lia.
  pose proof (ends_at_header _ _ _ Hend) as Hlast.
  destruct (link_bounds ht1 owner l base1 Hrange' Hroom1)
    as (HBS1p & HBS1' & HPB1' & Hl0 & Hl1 & Hfit & Hlen & HNB1' & _).
  assert (grow fuel ht h = Ok (linked ht1 l)) as Hgrow.
  { unfold grow. rewrite E1. cbn [bind]. rewrite Hl. cbn [bind].
    rewrite (wrap_small (l * BucketSize ht1)) by lia.
    rewrite (wrap_small (l * BucketSize ht1 + 10)) by lia.
    rewrite PutUvarint_through_slice by lia. cbn [bind].
    pose proof (rep_used ht1 owner base1). pose proof (rep_size ht1 owner base1).
    rewrite !wrap_small by lia. reflexivity. }
  pose proof (link_Rep_base ht1 owner l base1 Hrange' Hroom1) as base2.
  assert (forall h0 used free pairs,
            0 <= h0 < InitialBuckets ht ->
            chain_split ht h0 used free pairs -> chain_split ht1 h0 used free pairs)
    as Hsplit1.
  { intros h0 used free pairs Hh0. apply chain_split_same.
    - apply (chain_of_same ht ht1 owner owner); assumption.
    - intros x Hx. rewrite Hbuf1.
      destruct (chain_of_in_table ht owner base h0 x Hh0 Hx) as (Hx0 & Hx1 & Hx2).
      apply same_entry_app; lia. }
  eexists _, _. split; [exact Hgrow|]. split; [split; [exact base2|]|].
  - intros h0 Hh0. change (InitialBuckets (linked ht1 l)) with (InitialBuckets ht1) in Hh0.
    rewrite HIB1 in Hh0.
    destruct (chains h0 Hh0) as (used & free & Hsplit).
    destruct (Hends h0 Hh0) as (l0 & Hend0 & _).
    exists used, (free ++ if decide (l0 = l) then bucket_slots ht1 (NumBuckets ht1) else []).
    apply (link_chain_split ht1 owner l base1 Hrange' Hlast Hroom1 h0 l0 used free (c h0));
      [lia | exact Hend0 | apply Hsplit1; assumption].
  - cbn [linked BucketSize HashBits PerBucket NumBuckets InitialBuckets HFile Size].
    repeat (split; [first [assumption | lia]|]).
    intros used free Hsplit.
    pose proof (link_chain_split ht1 owner l base1 Hrange' Hlast Hroom1 h l used free (c h)
                  ltac:(lia) Hend (Hsplit1 _ _ _ _ Hh Hsplit)) as H2.
    destruct (decide (l = l)); [|contradiction].
    unfold bucket_slots in *. rewrite HBS1, HPB1, HNB1 in H2. exact H2.
Qed.

(** ** [Put] into a full chain *)

Lemma slots_from_length fuel ht b e : (length (slots_from fuel ht b e) <= fuel)%nat.
Proof.
  revert b e. induction fuel as [|fuel IH]; intros b e; cbn [slots_from length]; [lia|].
  destruct (wrap (e + 1) =? PerBucket ht).
  - destruct (nextBucket ht b) as [n| | |]; cbn [length]; try lia.
    destruct (n =? 0); cbn [length]; [lia|]. specialize (IH n 0). lia.
  - specialize (IH b (wrap (e + 1))). lia.
Qed.

(** When every entry of the chain is valid, [Put] walks to its end, grows
    the chain and starts over. *)
Lemma Put_loop_full ht fuel key val b e :
  wf_table ht -> 0 <= b < NumBuckets ht -> 0 <= e < PerBucket ht ->
  (NumBuckets ht - b) * PerBucket ht - e <= Z.of_nat fuel ->
  Forall (fun a => flag_at (Buf (HFile ht)) a = ENTRY_VALID) (slots_from fuel ht b e) ->
  Put_loop fuel ht key val b e =
  (ht' <- grow (fuel - length (slots_from fuel ht b e)) ht (hashKey ht key) ;;
   Put (fuel - length (slots_from fuel ht b e)) ht' key val).
Proof.
  intros wf. revert b e. induction fuel as [|fuel IH]; intros b e Hb He Hfuel Hvalid.
  { pose proof (buckets_ordered b (NumBuckets ht) (PerBucket ht) ltac:(lia) ltac:(lia)). lia. }
  cbn [Put_loop slots_from] in *. apply Forall_cons in Hvalid as [Ha Hrest].
  destruct (entry_in_range ht wf b e Hb He) as (Hea & Ha0 & Ha1 & Ha2).
  destruct (read_entry (Buf (HFile ht)) (entryAddrOf ht b e)) as (Hflag & _ & _);
    try (rewrite ?Hea; destruct wf; lia).
  rewrite Hflag, Ha. cbn [bind]. change (ENTRY_VALID =? ENTRY_VALID) with true. cbn [negb].
  rewrite (wrap_small (e + 1)) in * by (pose proof (wf_bounds ht wf); lia).
  cbn [length]. rewrite Nat.sub_succ.
  destruct (Z.eqb_spec (e + 1) (PerBucket ht)) as [Hlast | Hmore].
  - destruct (nextBucket_ok ht wf b) as (next & Hn & Hnext); [lia|].
    rewrite Hn in *. cbn [bind].
    destruct (Z.eqb_spec next 0) as [Hz | Hnz].
    + cbn [length]. rewrite Nat.sub_0_r. reflexivity.
    + rewrite regionMutex_ok by (try exact wf; lia). cbn [bind].
      apply IH; try lia; try assumption.
      pose proof (buckets_ordered b next (PerBucket ht) ltac:(lia) ltac:(lia)). lia.
  - apply IH; try lia; assumption.
Qed.

Lemma Rep_ext ht owner c c' :
  Rep ht owner c -> (forall h, c h = c' h) -> Rep ht owner c'.
Proof.
  intros [base chains] Heq. split; [exact base|].
  intros h Hh. rewrite <- Heq. apply chains, Hh.
Qed.

Lemma hashKey_same ht ht' key : HashBits ht' = HashBits ht -> hashKey ht' key = hashKey ht key.
Proof. intros H. unfold hashKey. rewrite H. reflexivity. Qed.

(** [Put] appends the pair to the pairs of the chain of its key. *)
Lemma Put_Rep ht owner c key val fuel :
  Rep ht owner c ->
  0 <= key < 18446744073709551616 -> 0 <= val < 18446744073709551616 ->
  Size (HFile ht) + BucketSize ht + 2097152 < 18446744073709551616 ->
  2 * ((NumBuckets ht + 1) * PerBucket ht) + NumBuckets ht + BucketSize ht / 1048576 + 6
    <= Z.of_nat fuel ->
  exists ht' owner',
    Put fuel ht key val = Ok ht' /\
    Rep ht' owner' (fun h => c h ++ if decide (h = hashKey ht key) then [(key, val)] else []) /\
    BucketSize ht' = BucketSize ht /\ HashBits ht' = HashBits ht /\
    PerBucket ht' = PerBucket ht /\ InitialBuckets ht' = InitialBuckets ht /\
    NumBuckets ht <= NumBuckets ht' <= NumBuckets ht + 1 /\
    Size (HFile ht') <= Size (HFile ht) + BucketSize ht + 1048576.
Proof.
  intros HRep Hkey Hval Hsize Hfuel. pose proof HRep as [base chains].
  pose proof (rep_wf ht owner base) as wf.
  pose proof (wf_positive ht wf) as (HBS & _ & HNB).
  pose proof (wf_NumBuckets ht wf) as HIB. pose proof (wf_PerBucket ht wf) as HPB.
  assert (0 <= BucketSize ht / 1048576) by (apply Z.div_pos; lia).
  assert (0 <= NumBuckets ht * PerBucket ht) as Hnp by (apply Z.mul_nonneg_nonneg; lia).
  assert ((NumBuckets ht + 1) * PerBucket ht = NumBuckets ht * PerBucket ht + PerBucket ht)
    as Hnp1 by lia.
  assert (0 <= hashKey ht key < InitialBuckets ht) as Hh
    by (apply hashKey_range; [exact wf | lia]).
  destruct (chains _ Hh) as (used & [|a free] & Hsplit).
  - (* the chain is full *)
    pose proof Hsplit as (Hchain & Hused & _ & _). rewrite app_nil_r in Hchain.
    pose proof (slots_from_length (Z.to_nat (NumBuckets ht * PerBucket ht)) ht
                  (hashKey ht key) 0) as Hlen. fold (chain_of ht (hashKey ht key)) in Hlen.
    set (fuel' := (fuel - length (chain_of ht (hashKey ht key)))%nat).
    assert (Put fuel ht key val =
            (ht' <- grow fuel' ht (hashKey ht key) ;; Put fuel' ht' key val)) as HPut.
    { unfold Put at 1. rewrite regionMutex_ok by (try exact wf; lia). cbn [bind].
      rewrite Put_loop_full; try exact wf; try lia;
        rewrite (slots_from_chain ht owner base) by lia; [reflexivity|].
      rewrite Hchain. exact Hused. }
    destruct (grow_Rep ht owner c (hashKey ht key) fuel' HRep Hh Hsize ltac:(lia))
      as (ht2 & owner2 & Hgrow & HRep2 & HBS2 & Hhb2 & HPB2 & HNB2 & HIB2 & Hsize2 & Hsplit2).
    specialize (Hsplit2 used [] Hsplit). cbn [app] in Hsplit2.
    unfold bucket_slots in Hsplit2. rewrite seqZ_cons in Hsplit2 by lia.
    cbn [map] in Hsplit2.
    rewrite <- (hashKey_same ht ht2 key Hhb2) in Hsplit2.
    destruct (Put_free ht2 owner2 c key val fuel' _ _ _ HRep2 Hkey Hval ltac:(lia) Hsplit2)
      as (HPut2 & HRep3).
    rewrite (hashKey_same ht ht2 key Hhb2) in HRep3.
    eexists _, owner2. rewrite HPut, Hgrow. cbn [bind].
    split; [exact HPut2|]. split; [exact HRep3|].
    cbn [with_Buf with_File set_Buf BucketSize HashBits PerBucket InitialBuckets NumBuckets
         HFile Size].
    repeat (split; [first [assumption | lia]|]). lia.
  - (* the chain has a never-written entry *)
    destruct (Put_free ht owner c key val fuel used a free HRep Hkey Hval ltac:(lia) Hsplit)
      as (HPut & HRep').
    eexists _, owner. split; [exact HPut|]. split; [exact HRep'|].
    cbn [with_Buf with_File set_Buf BucketSize HashBits PerBucket InitialBuckets NumBuckets
         HFile Size].
    repeat (split; [first [reflexivity | lia]|]). lia.
Qed.

(** ** A table on a new file *)

Lemma is_sentinel_zeros (buf : list Z) a :
  0 <= a -> a + 21 <= Z.of_nat (length buf) -> (forall i, flag_at buf i = 0) ->
  is_sentinel buf a = true.
Proof.
  intros Ha Hfit Hz. unfold is_sentinel, key_at, val_at.
  rewrite Hz, !window_head_0 by (try apply Hz; lia). reflexivity.
Qed.

(** The table that [OpenHash] makes on a new file stores nothing, and up
    to [2^19] head buckets every bucket that fits the file has its lock. *)
Lemma Rep_fresh hb pb :
  params_fit hb pb -> hb <= 19 ->
  Rep (fresh_table hb pb) (fun b => b) (fun _ => []).
Proof.
  intros Hfit Hhb. pose proof (fresh_Size_bounds hb pb Hfit) as (Hmin & Hheads & Hmax & _).
  pose proof (fresh_table_zeros hb pb Hfit) as (Hlen & Hflags & _).
  destruct Hfit as (Hhb' & Hpb & Hfit).
  assert (0 < 2 ^ hb <= 524288) as Hpow.
  { split; [apply Z.pow_pos_nonneg; lia|].
    change 524288 with (2 ^ 19). apply Z.pow_le_mono_r; lia. }
  assert (2 ^ hb * (10 + 21 * pb) <= 524288 * (10 + 21 * pb)) as Hheads'
    by (apply Z.mul_le_mono_nonneg_r; lia).
  assert (Z.of_nat (length (replicate (Z.to_nat (fresh_Size hb pb)) 0)) = fresh_Size hb pb)
    as Hlen_eq by (rewrite length_replicate, Z2Nat.id; lia).
  assert (Rep_base (fresh_table hb pb) (fun b => b)) as base.
  { constructor; [constructor|..];
      cbn [fresh_table HFile Buf BucketSize HashBits PerBucket NumBuckets InitialBuckets
           regionRWMutex UsedSize Size Growth] in *;
      unfold HASH_TABLE_REGION_SIZE; rewrite ?Hlen_eq in *; try reflexivity; try lia.
    - intros i _. apply Hflags.
    - intros b Hb. left. rewrite header_of_window.
      cbn [fresh_table HFile Buf BucketSize].
      destruct (bucket_fits b (2 ^ hb) (10 + 21 * pb) Hb ltac:(lia)).
      apply window_head_0; try lia. apply Hflags.
    - intros b Hb Hnz. exfalso. apply Hnz. rewrite header_of_window.
      cbn [fresh_table HFile Buf BucketSize].
      destruct (bucket_fits b (2 ^ hb) (10 + 21 * pb) Hb ltac:(lia)).
      apply window_head_0; try lia. apply Hflags. }
  split; [exact base|]. intros h Hh. exists [], (chain_of (fresh_table hb pb) h).
  split; [reflexivity|]. split; [constructor|]. split; [|reflexivity].
  rewrite Forall_forall. intros x Hx.
  destruct (chain_of_in_table _ _ base h x Hh Hx) as (Hx0 & Hx1 & Hx2).
  apply is_sentinel_zeros; try lia. exact Hflags.
Qed.

(** ** Sequences of [Put] *)

Lemma filter_key_hash ht key (pairs : list (Z * Z)) :
  filter (fun p => fst p = key)
    (filter (fun p => hashKey ht (fst p) = hashKey ht key) pairs) =
  filter (fun p => fst p = key) pairs.
Proof.
  induction pairs as [|p pairs IH]; [reflexivity|].
  rewrite !filter_cons.
  destruct (decide (hashKey ht (fst p) = hashKey ht key)) as [Hh | Hh];
    destruct (decide (fst p = key)) as [Hk | Hk];
    rewrite ?filter_cons; try destruct (decide (fst p = key)); try contradiction;
    rewrite ?IH; try reflexivity.
  exfalso. apply Hh. rewrite Hk. reflexivity.
Qed.

Lemma run_puts_Rep pairs : forall ht owner c fuel,
  Rep ht owner c ->
  Forall (fun p => 0 <= fst p < 18446744073709551616 /\
                   0 <= snd p < 18446744073709551616) pairs ->
  Size (HFile ht) + (Z.of_nat (length pairs) + 1) * (BucketSize ht + 1048576) + 1048576
    < 18446744073709551616 ->
  2 * ((NumBuckets ht + Z.of_nat (length pairs) + 1) * PerBucket ht) + NumBuckets ht
    + Z.of_nat (length pairs) + BucketSize ht / 1048576 + 6 <= Z.of_nat fuel ->
  exists ht' owner',
    run fuel (puts pairs) ht = Ok ht' /\
    Rep ht' owner' (fun h => c h ++ filter (fun p => hashKey ht (fst p) = h) pairs) /\
    HashBits ht' = HashBits ht /\ PerBucket ht' = PerBucket ht /\
    NumBuckets ht' <= NumBuckets ht + Z.of_nat (length pairs).
Proof.
  induction pairs as [|[key val] pairs IH]; intros ht owner c fuel HRep Hpairs Hsize Hfuel.
  { exists ht, owner. cbn [puts map run length]. split; [reflexivity|].
    split; [|lia]. apply (Rep_ext ht owner c); [exact HRep|].
    intros h. rewrite app_nil_r. reflexivity. }
  apply Forall_cons in Hpairs as [[Hkey Hval] Hpairs]. cbn [fst snd] in Hkey, Hval.
  pose proof HRep as [base _]. pose proof (rep_wf ht owner base) as wf.
  pose proof (wf_positive ht wf) as (HBS & _ & HNB). pose proof (wf_PerBucket ht wf) as HPB.
  cbn [length] in *. rewrite Nat2Z.inj_succ in *.
  set (n := Z.of_nat (length pairs)) in *. assert (0 <= n) by lia.
  assert (0 <= n * (BucketSize ht + 1048576)) by (apply Z.mul_nonneg_nonneg; lia).
  assert ((NumBuckets ht + 1) * PerBucket ht <= (NumBuckets ht + Z.succ n + 1) * PerBucket ht)
    by (apply Z.mul_le_mono_nonneg_r; lia).
  destruct (Put_Rep ht owner c key val fuel HRep Hkey Hval ltac:(lia) ltac:(lia))
    as (ht1 & owner1 & HPut & HRep1 & HBS1 & Hhb1 & HPB1 & HIB1 & HNB1 & Hsize1).
  assert ((NumBuckets ht1 + n + 1) * PerBucket ht <= (NumBuckets ht + Z.succ n + 1) * PerBucket ht)
    by (apply Z.mul_le_mono_nonneg_r; lia).
  destruct (IH ht1 owner1 _ fuel HRep1 Hpairs) as (ht' & owner' & Hrun & HRep' & Hhb' & HPB' & HNB');
    rewrite ?HBS1, ?HPB1; try lia.
  exists ht', owner'. cbn [puts map run fst snd apply_op]. rewrite HPut. cbn [bind].
  split; [exact Hrun|]. split; [|split; [congruence | split; [congruence | lia]]].
  apply (Rep_ext _ _ _ _ HRep'). intros h. rewrite <- app_assoc. f_equal.
  rewrite filter_cons. cbn [fst].
  assert (filter (fun p => hashKey ht1 (fst p) = h) pairs =
          filter (fun p => hashKey ht (fst p) = h) pairs) as ->.
  { apply list_filter_iff. intros p. rewrite (hashKey_same ht ht1 _ Hhb1). reflexivity. }
  destruct (decide (h = hashKey ht key)); destruct (decide (hashKey ht key = h));
    try congruence; reflexivity.
Qed.

(** X1.  On a table opened on a new file with at most [2^19] head
    buckets, after any sequence of [Put], [Get(key, 0, always-true)]
    returns the pairs that were put under [key], each as often as it was
    put and in the order of the calls, and no pair put under another key.
    The operations return with any fuel from some bound on; the sizes
    stay below [2^64]. *)
Theorem Get_after_puts hb pb (pairs : list (Z * Z)) :
  2 <= hb <= 19 -> 2 <= pb ->
  Forall (fun p => 0 <= fst p < 18446744073709551616 /\
                   0 <= snd p < 18446744073709551616) pairs ->
  (2 ^ hb + Z.of_nat (length pairs) + 2) * (10 + 21 * pb)
    + (Z.of_nat (length pairs) + 4) * 1048576 < 18446744073709551616 ->
  exists F, forall fuel, (F <= fuel)%nat ->
    exists ht0 ht,
      OpenHash fuel [] hb pb = Ok ht0 /\
      run fuel (puts pairs) ht0 = Ok ht /\
      forall key, 0 <= key < 18446744073709551616 ->
        Get fuel ht key 0 always_true = Ok (pairs_of_key key pairs).
Proof.
  intros Hhb Hpb Hpairs Hsize.
  set (n := Z.of_nat (length pairs)) in *. assert (0 <= n) as Hn by lia.
  assert (0 < 2 ^ hb) as Hpow by (apply Z.pow_pos_nonneg; lia).
  assert (0 <= n * (10 + 21 * pb + 1048576)) by (apply Z.mul_nonneg_nonneg; lia).
  assert (0 <= n * (10 + 21 * pb)) by (apply Z.mul_nonneg_nonneg; lia).
  assert (0 <= 2 ^ hb * (10 + 21 * pb)) by (apply Z.mul_nonneg_nonneg; lia).
  assert (params_fit hb pb) as Hfit by (unfold params_fit; lia).
  pose proof (fresh_Size_bounds hb pb Hfit) as (Hmin & Hheads & Hmax & _).
  assert (0 <= fresh_Size hb pb / 1048576) by (apply Z.div_pos; lia).
  assert (0 <= (10 + 21 * pb) / 1048576) by (apply Z.div_pos; lia).
  assert (0 <= (2 ^ hb + n + 1) * pb) by (apply Z.mul_nonneg_nonneg; lia).
  exists (Z.to_nat (fresh_Size hb pb / 1048576 + 2 * ((2 ^ hb + n + 1) * pb) + 2 ^ hb + n
                    + (10 + 21 * pb) / 1048576 + 11)).
  intros fuel Hfuel.
  pose proof (Rep_fresh hb pb Hfit ltac:(lia)) as HRep.
  destruct (run_puts_Rep pairs (fresh_table hb pb) _ _ fuel HRep Hpairs)
    as (ht & owner & Hrun & HRep' & Hhb' & HPB' & HNB');
    cbn [fresh_table HFile Size BucketSize NumBuckets PerBucket]; fold n; try lia.
  exists (fresh_table hb pb), ht.
  split; [apply OpenHash_new_file; [exact Hfit | lia]|]. split; [exact Hrun|].
  intros key Hkey.
  cbn [fresh_table NumBuckets PerBucket] in HNB', HPB'. fold n in HNB'.
  pose proof HRep' as [base' _]. pose proof (rep_wf _ _ base') as wf'.
  pose proof (wf_positive _ wf') as (_ & _ & HNBpos).
  assert (NumBuckets ht * PerBucket ht <= (2 ^ hb + n + 1) * pb)
    by (rewrite HPB'; apply Z.mul_le_mono_nonneg_r; lia).
  rewrite (Get_Rep ht owner _ key fuel HRep') by lia.
  cbn [app]. rewrite (hashKey_same (fresh_table hb pb) ht key Hhb').
  unfold pairs_of_key. rewrite filter_key_hash. reflexivity.
Qed.

Lemma Get_after_puts_witness :
  exists F, forall fuel, (F <= fuel)%nat ->
    exists ht0 ht,
      OpenHash fuel [] 4 2 = Ok ht0 /\
      run fuel (puts [(0, 100); (16, 200); (0, 300)]) ht0 = Ok ht /\
      forall key, 0 <= key < 18446744073709551616 ->
        Get fuel ht key 0 always_true = Ok (pairs_of_key key [(0, 100); (16, 200); (0, 300)]).
Proof.
  apply (Get_after_puts 4 2 [(0, 100); (16, 200); (0, 300)]).
  - lia.
  - lia.
  - repeat constructor; cbn [fst snd]; lia.
  - cbn [length]. lia.
Defined.

(** ** The used size of a file that starts with data *)

Lemma findUsedSize_data_end (buf : list Z) fuel low mid high :
  Z.of_nat (length buf) < 18446744073709551616 ->
  search_inv (Z.of_nat (length buf)) low mid high ->
  mid - low <= high - mid ->
  (exists b, buf !! Z.to_nat low = Some b /\ b <> 0) ->
  high = Z.of_nat (length buf) \/ buf !! Z.to_nat high = Some 0 ->
  high - low <= Z.of_nat fuel ->
  exists used, findUsedSize fuel buf low mid high = Ok used /\ data_end buf used.
Proof.
  intros Hlen. revert low mid high.
  induction fuel as [|fuel IH]; intros low mid high Hinv Hhalf Hlow Hhigh Hfuel;
    unfold search_inv in Hinv; [lia|].
  cbn [findUsedSize]. rewrite (wrap_small (high - mid)) by lia.
  destruct (lookup_lt_is_Some_2 buf (Z.to_nat mid)) as [bm Hbm]; [lia|].
  rewrite (index_lookup _ _ _ Hbm). cbn [bind].
  destruct Hlow as (b & Hb & Hbnz).
  destruct (Z.eqb_spec (high - mid) 1) as [Hone | Hmore].
  - destruct (Z.eqb_spec bm 0) as [-> | Hbm0].
    + assert (mid = low + 1) as -> by (destruct (Z.eq_dec mid low); [congruence | lia]).
      rewrite (wrap_small (low + 1 - 1)) by lia.
      replace (low + 1 - 1) with low by lia.
      rewrite (index_lookup _ _ _ Hb). cbn [bind].
      destruct (Z.eqb_spec b 0); [contradiction|].
      exists (low + 1). split; [reflexivity|]. unfold data_end.
      replace (low + 1 - 1) with low by lia. split; [lia|]. split; [eauto | auto].
    + exists high. split; [reflexivity|]. unfold data_end.
      replace (high - 1) with mid by lia. split; [lia|]. split; [eauto | exact Hhigh].
  - assert (mid <> low) as Hne by lia.
    rewrite (wrap_small (mid - low)) by lia.
    assert (0 <= (mid - low) / 2 < mid - low /\
            (mid - low) / 2 <= mid - low - (mid - low) / 2 /\
            ((mid - low) / 2 = 0 -> mid - low = 1))
      as (? & ? & ?) by (Z.div_mod_to_equations; lia).
    assert (1 <= (high - mid) / 2 < high - mid /\
            (high - mid) / 2 <= high - mid - (high - mid) / 2)
      as (? & ?) by (Z.div_mod_to_equations; lia).
    rewrite (wrap_small (low + (mid - low) / 2)) by lia.
    rewrite (wrap_small (mid + (high - mid) / 2)) by lia.
    destruct (Z.eqb_spec bm 0) as [-> | Hbm0].
    + apply IH; try lia; [unfold search_inv; lia | eauto | auto].
    + apply IH; try lia; [unfold search_inv; lia | eauto | auto].
Qed.

(** X2.  On a file that starts with a byte that is not zero, [Open]
    returns, and the used size it finds is the end of a run of data: the
    byte before it is not zero, and it is the size of the file or the
    place of a zero byte. *)
Theorem Open_finds_data_end (disk : list Z) (growth : Z) (fuel : nat) :
  Z.of_nat (length disk) < 18446744073709551616 ->
  (exists b, disk !! 0%nat = Some b /\ b <> 0) ->
  (length disk <= fuel)%nat ->
  exists used,
    Open fuel disk growth = Ok (mkFile used (Z.of_nat (length disk)) growth disk) /\
    data_end disk used.
Proof.
  intros Hlen Hfirst Hfuel.
  assert (1 <= Z.of_nat (length disk)) as Hsize.
  { destruct Hfirst as (b & Hb & _). apply lookup_lt_Some in Hb. lia. }
  unfold Open. cbn [Size Buf].
  destruct (Z.eqb_spec (Z.of_nat (length disk)) 0); [lia|].
  destruct (findUsedSize_data_end disk fuel 0 (Z.of_nat (length disk) / 2)
              (Z.of_nat (length disk))) as (used & -> & Hend); try lia; auto.
  - apply search_inv_init; lia.
  - Z.div_mod_to_equations. lia.
  - exists used. split; [reflexivity | exact Hend].
Qed.

Lemma Open_finds_data_end_witness :
  exists used,
    Open 5 [7; 7; 0; 0; 0] 1048576 = Ok (mkFile used (Z.of_nat (length [7; 7; 0; 0; 0]))
                                           1048576 [7; 7; 0; 0; 0]) /\
    data_end [7; 7; 0; 0; 0] used.
Proof.
  apply (Open_finds_data_end [7; 7; 0; 0; 0] 1048576 5).
  - cbn [length]. lia.
  - exists 7. split; [reflexivity | lia].
  - cbn [length]. lia.
Defined.

(** ** A new file, in general *)

(** X3.  [OpenHash] on a new file: the table has its [2^hashBits] head
    buckets and no other, the bytes in use are those of the head buckets,
    the file is grown in whole MiB to hold them and is all zeros, and the
    locks are the 65 of a file of 1 MiB, whatever the number of buckets. *)
Theorem OpenHash_on_new_file hashBits perBucket (fuel : nat) :
  params_fit hashBits perBucket ->
  (Z.to_nat (fresh_Size hashBits perBucket / 1048576) + 5 <= fuel)%nat ->
  exists ht,
    OpenHash fuel [] hashBits perBucket = Ok ht /\
    BucketSize ht = 10 + 21 * perBucket /\
    NumBuckets ht = 2 ^ hashBits /\ InitialBuckets ht = 2 ^ hashBits /\
    UsedSize (HFile ht) = 2 ^ hashBits * (10 + 21 * perBucket) /\
    Size (HFile ht) = Z.of_nat (length (Buf (HFile ht))) /\
    Size (HFile ht) mod 1048576 = 0 /\
    UsedSize (HFile ht) <= Size (HFile ht) /\
    (forall i, 0 <= i < Size (HFile ht) -> index (Buf (HFile ht)) i = Ok 0) /\
    regionRWMutex ht = 65.
Proof.
  intros Hfit Hfuel. pose proof (fresh_Size_bounds _ _ Hfit) as (Hmin & Hheads & _ & Hmod).
  exists (fresh_table hashBits perBucket).
  split; [apply OpenHash_new_file; assumption|].
  cbn [fresh_table BucketSize NumBuckets InitialBuckets UsedSize Size HFile Buf regionRWMutex].
  rewrite length_replicate, Z2Nat.id by lia.
  repeat (split; [first [reflexivity | assumption]|]).
  split; [|reflexivity]. intros i Hi. unfold index.
  rewrite lookup_replicate_2 by lia. reflexivity.
Qed.

Lemma OpenHash_on_new_file_witness :
  exists ht,
    OpenHash 6 [] 4 2 = Ok ht /\
    BucketSize ht = 10 + 21 * 2 /\
    NumBuckets ht = 2 ^ 4 /\ InitialBuckets ht = 2 ^ 4 /\
    UsedSize (HFile ht) = 2 ^ 4 * (10 + 21 * 2) /\
    Size (HFile ht) = Z.of_nat (length (Buf (HFile ht))) /\
    Size (HFile ht) mod 1048576 = 0 /\
    UsedSize (HFile ht) <= Size (HFile ht) /\
    (forall i, 0 <= i < Size (HFile ht) -> index (Buf (HFile ht)) i = Ok 0) /\
    regionRWMutex ht = 65.
Proof.
  apply (OpenHash_on_new_file 4 2 6).
  - unfold params_fit. lia.
  - change (fresh_Size 4 2 / 1048576) with 1. lia.
Defined.

(** ** Growth in whole MiB *)

(** X4.  When the growth step of the file is a whole number of MiB,
    [CheckSizeAndEnsure(more)] appends [growth] zero bytes per step and
    makes the least number [k] of steps that leaves room for [more]. *)
Theorem CheckSizeAndEnsure_whole_steps (k : nat) fuel file more :
  0 <= UsedSize file -> 0 <= more -> 0 <= Size file -> 0 < Growth file ->
  Growth file mod 1048576 = 0 -> Growth file + 1048576 < 18446744073709551616 ->
  Size file + Z.of_nat k * Growth file < 18446744073709551616 ->
  UsedSize file + more <= Size file + Z.of_nat k * Growth file ->
  (k <> O -> Size file + (Z.of_nat k - 1) * Growth file < UsedSize file + more) ->
  (k + (Z.to_nat (Growth file / 1048576) + 3) <= fuel)%nat ->
  CheckSizeAndEnsure fuel file more =
  Ok (mkFile (UsedSize file) (Size file + Z.of_nat k * Growth file) (Growth file)
        (Buf file ++ replicate (Z.to_nat (Z.of_nat k * Growth file)) 0)).
Proof.
  intros HU Hmore HS HG Hmod HG64 Hsize Hroom Hleast Hfuel.
  assert (0 <= Z.of_nat k * Growth file) by (apply Z.mul_nonneg_nonneg; lia).
  rewrite (CheckSizeAndEnsure_spec k); unfold FILE_GROWTH_INCREMENTAL; try lia.
  rewrite appended_from_whole by (unfold FILE_GROWTH_INCREMENTAL; lia). reflexivity.
Qed.

Lemma CheckSizeAndEnsure_whole_steps_witness :
  CheckSizeAndEnsure 7 (mkFile 0 0 2097152 []) 3000000 =
  Ok (mkFile (UsedSize (mkFile 0 0 2097152 []))
        (Size (mkFile 0 0 2097152 []) + Z.of_nat 2 * Growth (mkFile 0 0 2097152 []))
        (Growth (mkFile 0 0 2097152 []))
        (Buf (mkFile 0 0 2097152 []) ++
         replicate (Z.to_nat (Z.of_nat 2 * Growth (mkFile 0 0 2097152 []))) 0)).
Proof.
  apply (CheckSizeAndEnsure_whole_steps 2 7 (mkFile 0 0 2097152 []) 3000000);
    cbn [UsedSize Size Growth]; try lia; reflexivity.
Defined.

(** ** [Get] as a scan *)

(** X5.  On a well-formed table [Get(key, 0, filter)] returns, in the
    order of the chain of [key], the valid entries that hold [key] and that
    the filter accepts, up to the end of the chain or to its first entry
    that is not valid and holds key 0 and value 0. *)
Theorem Get_is_get_scan ht key filter fuel :
  wf_table ht -> 0 <= key ->
  NumBuckets ht * PerBucket ht <= Z.of_nat fuel ->
  Get fuel ht key 0 filter =
  Ok (map fst (get_scan (Buf (HFile ht)) key filter (slots_of ht key)),
      map snd (get_scan (Buf (HFile ht)) key filter (slots_of ht key))).
Proof.
  intros wf Hkey Hfuel.
  pose proof (hashKey_range ht wf key Hkey) as Hh.
  pose proof (wf_NumBuckets ht wf). pose proof (wf_PerBucket ht wf).
  pose proof (wf_bounds ht wf) as (_ & HPB & _). pose proof (wf_Buf ht wf).
  pose proof (wf_uint64 ht wf).
  assert (NumBuckets ht * PerBucket ht <= NumBuckets ht * BucketSize ht)
    by (apply Z.mul_le_mono_nonneg_l; lia).
  assert ((NumBuckets ht - hashKey ht key) * PerBucket ht <= NumBuckets ht * PerBucket ht)
    by (apply Z.mul_le_mono_nonneg_r; lia).
  rewrite Get_unlimited. unfold slots_of.
  rewrite regionMutex_ok by (try exact wf; lia). cbn [bind].
  rewrite Get_loop_scan; try exact wf; try lia.
  rewrite (slots_from_stable ht wf (Z.to_nat (NumBuckets ht * PerBucket ht)) fuel);
    try lia.
  reflexivity.
Qed.

Lemma Get_is_get_scan_witness :
  Get 8 tiny_opened 16388 0 always_true =
  Ok (map fst (get_scan (Buf (HFile tiny_opened)) 16388 always_true
                 (slots_of tiny_opened 16388)),
      map snd (get_scan (Buf (HFile tiny_opened)) 16388 always_true
                 (slots_of tiny_opened 16388))).
Proof.
  apply (Get_is_get_scan tiny_opened 16388 always_true 8).
  - apply wf_tiny_opened.
  - lia.
  - vm_compute. congruence.
Defined.

(** ** Files of zeros *)

(** Over zeros the search halves [high] down to 1 when the size in binary
    starts with 11, and then reads the byte before the first. *)
Lemma findUsedSize_zeros_panics (k : nat) : forall (n : nat) fuel high,
  3 * 2 ^ Z.of_nat k <= high < 4 * 2 ^ Z.of_nat k ->
  high <= Z.of_nat n < 18446744073709551616 ->
  (k + 2 <= fuel)%nat ->
  findUsedSize fuel (replicate n 0) 0 (high / 2) high = Panic.
Proof.
  induction k as [|k IH]; intros n fuel high Hhigh Hn Hfuel.
  - change (2 ^ Z.of_nat 0) with 1 in Hhigh. assert (high = 3) as -> by lia.
    change (3 / 2) with 1.
    destruct fuel as [|[|fuel]]; try lia. cbn [findUsedSize].
    change (wrap (3 - 1) =? 1) with false. cbv iota.
    unfold index at 1. rewrite lookup_replicate_2 by lia. cbn [bind].
    change (0 =? 0) with true. cbv iota.
    change (wrap (0 + wrap (1 - 0) / 2)) with 0.
    change (wrap (1 - 0) =? 1) with true. cbv iota.
    unfold index at 1. rewrite lookup_replicate_2 by lia. cbn [bind].
    change (0 =? 0) with true. cbv iota.
    rewrite index_out_of_range; [reflexivity|].
    rewrite length_replicate. change (wrap (0 - 1)) with 18446744073709551615. lia.
  - rewrite Nat2Z.inj_succ, Z.pow_succ_r in Hhigh by lia.
    assert (0 < 2 ^ Z.of_nat k) by (apply Z.pow_pos_nonneg; lia).
    assert (3 * 2 ^ Z.of_nat k <= high / 2 < 4 * 2 ^ Z.of_nat k /\
            2 <= high - high / 2 /\ 0 <= high / 2 / 2 < 18446744073709551616)
      as (Hhalf & Hgap & Hquarter) by (Z.div_mod_to_equations; lia).
    destruct fuel as [|fuel]; [lia|]. cbn [findUsedSize].
    rewrite (wrap_small (high - high / 2)) by lia.
    destruct (Z.eqb_spec (high - high / 2) 1); [lia|].
    unfold index at 1. rewrite lookup_replicate_2 by lia. cbn [bind].
    change (0 =? 0) with true. cbv iota.
    rewrite (wrap_small (high / 2 - 0)) by lia. rewrite Z.sub_0_r, Z.add_0_l.
    rewrite (wrap_small (high / 2 / 2)) by lia.
    apply IH; lia.
Qed.

(** X8.  [Open] panics on every file of zeros whose size in binary starts
    with 11, for instance on 3 MiB of zeros: the search for the used size
    reads [buf[mid-1]] with [mid = 0]. *)
Theorem Open_zeros_panics (k n fuel : nat) (growth : Z) :
  3 * 2 ^ Z.of_nat k <= Z.of_nat n < 4 * 2 ^ Z.of_nat k ->
  Z.of_nat n < 18446744073709551616 ->
  (k + 2 <= fuel)%nat ->
  Open fuel (replicate n 0) growth = Panic.
Proof.
  intros Hn Hn64 Hfuel. assert (0 < 2 ^ Z.of_nat k) by (apply Z.pow_pos_nonneg; lia).
  unfold Open. cbn [Size Buf]. rewrite length_replicate.
  destruct (Z.eqb_spec (Z.of_nat n) 0); [lia|].
  rewrite (findUsedSize_zeros_panics k); try lia. reflexivity.
Qed.

Lemma Open_zeros_panics_witness : Open 3 (replicate 6 0) 1048576 = Panic.
Proof.
  apply (Open_zeros_panics 1 6 3 1048576).
  - change (2 ^ Z.of_nat 1) with 2. lia.
  - lia.
  - lia.
Defined.

(** An instance: a table that is opened on a new file with
    [hashBits = 15] and [perBucket = 4] has a file of 3 MiB, all zeros as
    long as nothing is put; opening that file again panics in [Open]. *)
Theorem OpenHash_again_panics_15_4 (fuel : nat) :
  exists ht,
    OpenHash (8 + fuel) [] 15 4 = Ok ht /\
    Z.of_nat (length (Buf (HFile ht))) = 3145728 /\
    OpenHash (22 + fuel) (Buf (HFile ht)) 15 4 = Panic.
Proof.
  assert (params_fit 15 4) as Hfit by (unfold params_fit; lia).
  assert (fresh_Size 15 4 = 3145728) as Hsize by reflexivity.
  exists (fresh_table 15 4). split; [|split].
  - apply OpenHash_new_file; [exact Hfit|]. rewrite Hsize.
    change (3145728 / 1048576) with 3. lia.
  - cbn [fresh_table HFile Buf]. rewrite length_replicate, Hsize. lia.
  - cbn [fresh_table HFile Buf]. rewrite Hsize.
    unfold OpenHash, Open. change ((15 <? 2) || (4 <? 2)) with false. cbv iota.
    cbn [Size Buf]. rewrite length_replicate.
    destruct (Z.eqb_spec (Z.of_nat (Z.to_nat 3145728)) 0); [lia|].
    rewrite (findUsedSize_zeros_panics 20); [reflexivity | | lia..].
    change (2 ^ Z.of_nat 20) with 1048576. lia.
Qed.

(** X9.  When the file that [OpenHash] makes for a new table has a size
    that in binary starts with 11 (3 MiB, 6 MiB, 7 MiB, ...), opening the
    table again before anything is put panics: the file is all zeros and
    [Open] reads the byte before the first. *)
Theorem OpenHash_again_panics hashBits perBucket (k fuel : nat) :
  params_fit hashBits perBucket ->
  3 * 2 ^ Z.of_nat k <= fresh_Size hashBits perBucket < 4 * 2 ^ Z.of_nat k ->
  (Z.to_nat (fresh_Size hashBits perBucket / 1048576) + 5 <= fuel)%nat ->
  (k + 2 <= fuel)%nat ->
  exists ht,
    OpenHash fuel [] hashBits perBucket = Ok ht /\
    OpenHash fuel (Buf (HFile ht)) hashBits perBucket = Panic.
Proof.
  intros Hfit Hsize Hfuel Hk.
  pose proof (fresh_Size_bounds _ _ Hfit) as (Hmin & _ & Hmax & _).
  exists (fresh_table hashBits perBucket). split.
  - apply OpenHash_new_file; assumption.
  - destruct Hfit as (Hhb & Hpb & Hfit).
    cbn [fresh_table HFile Buf]. unfold OpenHash, Open.
    destruct (Z.ltb_spec hashBits 2); [lia|]. destruct (Z.ltb_spec perBucket 2); [lia|].
    cbn [orb Size Buf]. rewrite length_replicate.
    destruct (Z.eqb_spec (Z.of_nat (Z.to_nat (fresh_Size hashBits perBucket))) 0); [lia|].
    rewrite Z2Nat.id by lia.
    rewrite (findUsedSize_zeros_panics k); [reflexivity | lia | lia | lia].
Qed.

Lemma OpenHash_again_panics_witness :
  exists ht,
    OpenHash 30 [] 15 4 = Ok ht /\
    OpenHash 30 (Buf (HFile ht)) 15 4 = Panic.
Proof.
  apply (OpenHash_again_panics 15 4 20 30).
  - unfold params_fit. lia.
  - change (fresh_Size 15 4) with 3145728. change (2 ^ Z.of_nat 20) with 1048576. lia.
  - change (fresh_Size 15 4) with 3145728. change (3145728 / 1048576) with 3. lia.
  - lia.
Defined.

(** ** [GetAll] *)

(** Over a chain whose entries are all valid, the inner loop of [GetAll]
    collects every entry and leaves with [return]. *)
Lemma GetAll_loop_full ht fuel counter e b keys vals :
  wf_table ht -> 0 <= b < NumBuckets ht -> 0 <= e < PerBucket ht ->
  (NumBuckets ht - b) * PerBucket ht - e <= Z.of_nat fuel ->
  0 <= counter ->
  counter + ((NumBuckets ht - b) * PerBucket ht - e) < 18446744073709551616 ->
  Forall (fun a => flag_at (Buf (HFile ht)) a = ENTRY_VALID) (slots_from fuel ht b e) ->
  GetAll_loop fuel ht 0 counter e b keys vals =
  Ok (true, counter + Z.of_nat (length (slots_from fuel ht b e)),
      keys ++ map (key_at (Buf (HFile ht))) (slots_from fuel ht b e),
      vals ++ map (val_at (Buf (HFile ht))) (slots_from fuel ht b e)).
Proof.
  intros wf. revert counter e b keys vals.
  induction fuel as [|fuel IH]; intros counter e b keys vals Hb He Hfuel Hc Hcount Hvalid.
  { pose proof (buckets_ordered b (NumBuckets ht) (PerBucket ht) ltac:(lia) ltac:(lia)). lia. }
  cbn [GetAll_loop slots_from] in *. apply Forall_cons in Hvalid as [Ha Hrest].
  destruct (entry_in_range ht wf b e Hb He) as (Hea & Ha0 & Ha1 & Ha2).
  destruct (read_entry (Buf (HFile ht)) (entryAddrOf ht b e)) as (Hflag & Hk & Hv);
    try (rewrite ?Hea; destruct wf; lia).
  rewrite Hk, Hv, Hflag, Ha. cbn [bind]. change (ENTRY_VALID =? ENTRY_VALID) with true.
  cbv iota.
  fold (key_at (Buf (HFile ht)) (entryAddrOf ht b e)).
  fold (val_at (Buf (HFile ht)) (entryAddrOf ht b e)).
  pose proof (buckets_ordered b (NumBuckets ht) (PerBucket ht) ltac:(lia) ltac:(lia)).
  rewrite (wrap_small (counter + 1)) by lia.
  destruct (Z.eqb_spec (counter + 1) 0); [lia|].
  rewrite (wrap_small (e + 1)) in * by (pose proof (wf_bounds ht wf); lia).
  cbn [length map]. rewrite Nat2Z.inj_succ.
  destruct (Z.eqb_spec (e + 1) (PerBucket ht)) as [Hlast | Hmore].
  - destruct (nextBucket_ok ht wf b) as (next & Hn & Hnext); [lia|].
    rewrite Hn in *. cbn [bind].
    destruct (Z.eqb_spec next 0) as [Hz | Hnz].
    + cbn [length map]. do 4 f_equal; lia.
    + rewrite regionMutex_ok by (try exact wf; lia). cbn [bind].
      pose proof (buckets_ordered b next (PerBucket ht) ltac:(lia) ltac:(lia)).
      rewrite IH; try lia; try assumption.
      rewrite <- !app_assoc. cbn [app]. do 4 f_equal; lia.
  - rewrite IH; try lia; try assumption.
    rewrite <- !app_assoc. cbn [app]. do 4 f_equal; lia.
Qed.

(** X6.  When every entry of the chain of head bucket 0 is valid,
    [GetAll(0)] returns the pairs of that chain and nothing else: the walk
    of head 0 ends with [return] where its chain ends, so the other heads
    are not visited. *)
Theorem GetAll_returns_at_full_chain ht fuel :
  wf_table ht ->
  NumBuckets ht * PerBucket ht <= Z.of_nat fuel ->
  Forall (fun a => flag_at (Buf (HFile ht)) a = ENTRY_VALID) (chain_of ht 0) ->
  GetAll fuel ht 0 =
  Ok (map (key_at (Buf (HFile ht))) (chain_of ht 0),
      map (val_at (Buf (HFile ht))) (chain_of ht 0)).
Proof.
  intros wf Hfuel Hvalid.
  pose proof (wf_positive ht wf) as (_ & HIB & HNB).
  pose proof (wf_PerBucket ht wf) as HPB. pose proof (wf_HashBits ht wf) as Hhb.
  pose proof (wf_bounds ht wf) as (_ & HPB' & _). pose proof (wf_Buf ht wf).
  pose proof (wf_uint64 ht wf).
  assert (NumBuckets ht * PerBucket ht <= NumBuckets ht * BucketSize ht)
    by (apply Z.mul_le_mono_nonneg_l; lia).
  unfold GetAll, pow2_uint64. destruct (Z.ltb_spec (HashBits ht) 64); [|lia].
  rewrite <- (wf_InitialBuckets ht wf).
  destruct (Z.to_nat (InitialBuckets ht)) as [|n] eqn:Hn; [lia|].
  cbn [GetAll_heads]. rewrite regionMutex_ok by (try exact wf; lia). cbn [bind].
  assert (slots_from fuel ht 0 0 = chain_of ht 0) as Hchain
    by (apply slots_from_stable; try exact wf; lia).
  rewrite GetAll_loop_full; try exact wf; try lia; rewrite Hchain; [|exact Hvalid].
  reflexivity.
Qed.

Lemma wf_tiny_two_heads : wf_table tiny_two_heads.
Proof. constructor; vm_compute; repeat split; congruence. Qed.

Lemma GetAll_returns_at_full_chain_witness :
  GetAll 8 tiny_two_heads 0 =
  Ok (map (key_at (Buf (HFile tiny_two_heads))) (chain_of tiny_two_heads 0),
      map (val_at (Buf (HFile tiny_two_heads))) (chain_of tiny_two_heads 0)).
Proof.
  apply (GetAll_returns_at_full_chain tiny_two_heads 8).
  - apply wf_tiny_two_heads.
  - vm_compute. congruence.
  - vm_compute. repeat constructor.
Defined.

(** An instance: the table of four heads with two entries each,
    after [Put(16388, 0)], [Put(4, 7)] (both of head 0, which is full
    then) and [Put(1, 9)] (of head 1).  [Get(1, 0, always-true)] returns
    the pair [(1, 9)]; [GetAll(0)] returns the two pairs of head 0 and not
    the pair [(1, 9)]. *)
Theorem GetAll_misses_head_1 :
  run 8 [OpPut 4 7; OpPut 1 9] tiny_opened = Ok tiny_two_heads /\
  Get 8 tiny_two_heads 1 0 always_true = Ok ([1], [9]) /\
  GetAll 8 tiny_two_heads 0 = Ok ([16388; 4], [0; 7]).
Proof. vm_compute. repeat split. Qed.

(** * The table as a multimap *)

(** ** What one operation does to the layout *)

Lemma same_entry_refl buf x : same_entry buf buf x.
Proof. unfold same_entry. auto. Qed.

Lemma same_entry_trans buf1 buf2 buf3 x :
  same_entry buf1 buf2 x -> same_entry buf2 buf3 x -> same_entry buf1 buf3 x.
Proof. unfold same_entry. intros (? & ? & ?) (? & ? & ?). repeat split; congruence. Qed.

Lemma cell_at_same buf buf' x c :
  same_entry buf buf' x -> cell_at buf x c -> cell_at buf' x c.
Proof.
  intros (Hf & Hk & Hv). destruct c as [p|]; cbn [cell_at]; unfold is_sentinel;
    rewrite Hf, Hk, Hv; auto.
Qed.

Lemma is_sentinel_same buf buf' x :
  same_entry buf buf' x -> is_sentinel buf x = true -> is_sentinel buf' x = true.
Proof. intros (Hf & Hk & Hv). unfold is_sentinel. rewrite Hf, Hk, Hv. auto. Qed.

(** [Put] writes the pair into the first entry of the chain that is not
    valid, and nothing else changes. *)
Lemma Put_at ht owner key val fuel pre a post :
  Rep_base ht owner ->
  0 <= key < 18446744073709551616 -> 0 <= val < 18446744073709551616 ->
  NumBuckets ht * PerBucket ht <= Z.of_nat fuel ->
  chain_of ht (hashKey ht key) = pre ++ a :: post ->
  Forall (fun x => flag_at (Buf (HFile ht)) x = ENTRY_VALID) pre ->
  flag_at (Buf (HFile ht)) a <> ENTRY_VALID ->
  Put fuel ht key val = Ok (with_Buf ht (write_entry (Buf (HFile ht)) a key val)) /\
  Rep_base (with_Buf ht (write_entry (Buf (HFile ht)) a key val)) owner /\
  (forall b, 0 <= b < NumBuckets ht ->
     header_of (with_Buf ht (write_entry (Buf (HFile ht)) a key val)) b = header_of ht b) /\
  (forall h0, 0 <= h0 < InitialBuckets ht ->
     chain_of (with_Buf ht (write_entry (Buf (HFile ht)) a key val)) h0 = chain_of ht h0) /\
  (forall h0 x, 0 <= h0 < InitialBuckets ht -> x ∈ chain_of ht h0 -> x <> a ->
     same_entry (Buf (HFile ht)) (write_entry (Buf (HFile ht)) a key val) x) /\
  cell_at (write_entry (Buf (HFile ht)) a key val) a (Some (key, val)) /\
  (a ∉ pre) /\ (a ∉ post) /\
  (forall h0, 0 <= h0 < InitialBuckets ht -> h0 <> hashKey ht key -> (a ∉ chain_of ht h0)).
Proof.
  intros base Hkey Hval Hfuel Hchain Hpre Hfree_a.
  pose proof (rep_wf ht owner base) as wf.
  assert (0 <= hashKey ht key < InitialBuckets ht) as Hh
    by (apply hashKey_range; [exact wf | lia]).
  pose proof (wf_NumBuckets ht wf). pose proof (wf_PerBucket ht wf).
  pose proof (wf_uint64 ht wf) as Hlen.
  assert (a ∈ chain_of ht (hashKey ht key)) as Ha
    by (rewrite Hchain; apply elem_of_app; right; left).
  destruct (chain_of_in_table ht owner base _ a Hh Ha) as (Ha0 & Ha1 & Ha2).
  split.
  { unfold Put. rewrite regionMutex_ok by (try exact wf; lia). cbn [bind].
    apply (Put_loop_claims ht wf fuel key val _ 0 pre a post); try lia.
    - rewrite (slots_from_chain ht owner base) by lia. exact Hchain.
    - intros b Hb. rewrite Forall_forall in Hpre. apply Hpre, list_elem_of_In, Hb. }
  set (buf' := write_entry (Buf (HFile ht)) a key val).
  assert (length buf' = length (Buf (HFile ht))) as Hlen'
    by (apply length_write_entry; lia).
  destruct (Rep_base_with_Buf ht owner buf' base Hlen') as [base' Hsame].
  { intros b Hb. apply window_write_entry_out; try lia.
    - destruct (wf_positive ht wf). apply Z.mul_nonneg_nonneg; lia.
    - apply (chain_header_apart ht owner base (hashKey ht key) a b Hh Ha). lia. }
  { intros i Hi. apply flag_at_write_entry_out; lia. }
  split; [exact base'|]. split; [exact Hsame|].
  split; [intros h0 Hh0; apply (chain_of_with_Buf ht owner); assumption|].
  pose proof (chain_of_NoDup ht owner base _ Hh) as Hnodup.
  rewrite Hchain in Hnodup. apply NoDup_app in Hnodup as (_ & Hdisj & Hnodup).
  apply NoDup_cons in Hnodup as [Hnotin _].
  split; [|split; [|split; [|split; [exact Hnotin|]]]].
  - intros h0 x Hh0 Hx Hne.
    destruct (chain_of_in_table ht owner base _ x Hh0 Hx) as (Hx0 & _).
    apply write_entry_frame; try lia.
    apply (chain_frame ht owner base (hashKey ht key) a h0 x); assumption.
  - destruct (matches_true _ _ _ _
                (write_entry_read (Buf (HFile ht)) a key val Ha0 ltac:(lia) Hkey Hval))
      as (Hf & Hk & Hv). cbn [cell_at fst snd]. auto.
  - intros Hin. apply (Hdisj a Hin). left.
  - intros h0 Hh0 Hne Hin.
    apply (chain_disjoint ht owner base (hashKey ht key) a h0 a Hh Ha Hh0 Hin Hne).
    reflexivity.
Qed.

(** [Remove] clears the flag of the entry that its scan finds, and nothing
    else changes. *)
Lemma Remove_at ht owner key val fuel :
  Rep_base ht owner -> 0 <= key ->
  NumBuckets ht * PerBucket ht <= Z.of_nat fuel ->
  match remove_scan (Buf (HFile ht)) key val (chain_of ht (hashKey ht key)) with
  | None => Remove fuel ht key val = Ok ht
  | Some a =>
      Remove fuel ht key val = Ok (with_Buf ht (write_bytes (Buf (HFile ht)) a [ENTRY_INVALID])) /\
      Rep_base (with_Buf ht (write_bytes (Buf (HFile ht)) a [ENTRY_INVALID])) owner /\
      (forall b, 0 <= b < NumBuckets ht ->
         header_of (with_Buf ht (write_bytes (Buf (HFile ht)) a [ENTRY_INVALID])) b
         = header_of ht b) /\
      (forall h0, 0 <= h0 < InitialBuckets ht ->
         chain_of (with_Buf ht (write_bytes (Buf (HFile ht)) a [ENTRY_INVALID])) h0
         = chain_of ht h0) /\
      (forall h0 x, 0 <= h0 < InitialBuckets ht -> x ∈ chain_of ht h0 -> x <> a ->
         same_entry (Buf (HFile ht)) (write_bytes (Buf (HFile ht)) a [ENTRY_INVALID]) x) /\
      flag_at (write_bytes (Buf (HFile ht)) a [ENTRY_INVALID]) a = ENTRY_INVALID /\
      key_at (write_bytes (Buf (HFile ht)) a [ENTRY_INVALID]) a = key_at (Buf (HFile ht)) a /\
      val_at (write_bytes (Buf (HFile ht)) a [ENTRY_INVALID]) a = val_at (Buf (HFile ht)) a /\
      a ∈ chain_of ht (hashKey ht key)
  end.
Proof.
  intros base Hkey Hfuel. pose proof (rep_wf ht owner base) as wf.
  assert (0 <= hashKey ht key < InitialBuckets ht) as Hh
    by (apply hashKey_range; [exact wf | lia]).
  pose proof (wf_NumBuckets ht wf). pose proof (wf_PerBucket ht wf).
  pose proof (wf_uint64 ht wf) as Hlen.
  assert (0 <= NumBuckets ht * PerBucket ht) by (apply Z.mul_nonneg_nonneg; lia).
  pose proof (Remove_is_Remove_spec ht key val fuel wf Hkey ltac:(lia)) as HRemove.
  unfold Remove_spec, slots_of in HRemove. fold (chain_of ht (hashKey ht key)) in HRemove.
  destruct (remove_scan (Buf (HFile ht)) key val (chain_of ht (hashKey ht key)))
    as [a|] eqn:Hscan; [|exact HRemove].
  apply remove_scan_Some in Hscan as (pre & post & Hchain & _ & _).
  assert (a ∈ chain_of ht (hashKey ht key)) as Ha
    by (rewrite Hchain; apply elem_of_app; right; left).
  destruct (chain_of_in_table ht owner base _ a Hh Ha) as (Ha0 & Ha1 & Ha2).
  rewrite insert_write in HRemove by lia.
  set (buf' := write_bytes (Buf (HFile ht)) a [ENTRY_INVALID]) in *.
  assert (length buf' = length (Buf (HFile ht))) as Hlen'
    by (apply length_write_bytes; cbn [length]; lia).
  destruct (Rep_base_with_Buf ht owner buf' base Hlen') as [base' Hsame].
  { intros b Hb. apply window_write_out; cbn [length]; try lia.
    - destruct (wf_positive ht wf). apply Z.mul_nonneg_nonneg; lia.
    - destruct (chain_header_apart ht owner base (hashKey ht key) a b Hh Ha); lia. }
  { intros i Hi. apply flag_at_write_out; cbn [length]; lia. }
  destruct (clear_flag_frame (Buf (HFile ht)) a 0) as (Hk & Hv & _); try lia.
  split; [exact HRemove|]. split; [exact base'|]. split; [exact Hsame|].
  split; [intros h0 Hh0; apply (chain_of_with_Buf ht owner); assumption|].
  split; [|split; [apply flag_at_write_in; lia | auto]].
  intros h0 x Hh0 Hx Hne.
  destruct (chain_of_in_table ht owner base _ x Hh0 Hx) as (Hx0 & _).
  destruct (clear_flag_frame (Buf (HFile ht)) a x) as (_ & _ & Hother); try lia.
  apply Hother.
  destruct (chain_frame ht owner base (hashKey ht key) a h0 x); auto.
Qed.

Lemma ends_at_same ht ht' owner b l :
  Rep_base ht owner ->
  (forall b, 0 <= b < NumBuckets ht -> header_of ht' b = header_of ht b) ->
  ends_at ht b l -> 0 <= b < NumBuckets ht -> ends_at ht' b l.
Proof.
  intros base Hsame. induction 1 as [b Hz | b l Hnz Hrest IH]; intros Hb.
  - apply ends_here. rewrite Hsame; assumption.
  - destruct (rep_headers ht owner base b Hb) as [? | (Hfwd & Hover)]; [contradiction|].
    apply ends_next; rewrite Hsame by exact Hb; [exact Hnz|]. apply IH. lia.
Qed.

(** [grow] links a bucket of never-written entries behind the chain of
    [h]; the entries of the chains read as before. *)
Lemma grow_layout ht owner h fuel :
  Rep_base ht owner -> 0 <= h < InitialBuckets ht ->
  Size (HFile ht) + BucketSize ht + 2097152 < 18446744073709551616 ->
  NumBuckets ht + BucketSize ht / 1048576 + 6 <= Z.of_nat fuel ->
  exists ht2 owner2,
    grow fuel ht h = Ok ht2 /\ Rep_base ht2 owner2 /\
    BucketSize ht2 = BucketSize ht /\ HashBits ht2 = HashBits ht /\
    PerBucket ht2 = PerBucket ht /\ NumBuckets ht2 = NumBuckets ht + 1 /\
    InitialBuckets ht2 = InitialBuckets ht /\
    Size (HFile ht) <= Size (HFile ht2) <= Size (HFile ht) + BucketSize ht + 1048576 /\
    (forall h0, 0 <= h0 < InitialBuckets ht ->
       chain_of ht2 h0 =
       chain_of ht h0 ++ if decide (h0 = h) then bucket_slots ht (NumBuckets ht) else []) /\
    (forall h0 x, 0 <= h0 < InitialBuckets ht -> x ∈ chain_of ht h0 ->
       same_entry (Buf (HFile ht)) (Buf (HFile ht2)) x) /\
    Forall (fun x => is_sentinel (Buf (HFile ht2)) x = true)
      (bucket_slots ht (NumBuckets ht)) /\
    ends_at ht2 h (NumBuckets ht) /\
    ((NumBuckets ht + 1) * BucketSize ht <= Size (HFile ht) ->
     Size (HFile ht2) = Size (HFile ht) /\ regionRWMutex ht2 = regionRWMutex ht).
Proof.
  intros base Hh Hsize Hfuel. pose proof (rep_wf ht owner base) as wf.
  pose proof (wf_positive ht wf) as (HBS & _ & HNB).
  pose proof (wf_NumBuckets ht wf) as HIB. pose proof (wf_PerBucket ht wf) as HPB.
  assert (0 <= BucketSize ht / 1048576) by (apply Z.div_pos; lia).
  assert (0 <= NumBuckets ht * PerBucket ht) by (apply Z.mul_nonneg_nonneg; lia).
  destruct (grow_file ht owner fuel base Hsize ltac:(lia))
    as (ht1 & ext & E1 & base1 & Hbuf1 & HBS1 & Hhb1 & HPB1 & HNB1 & HIB1 & Hsame1
        & Hroom1 & Hsize1).
  pose proof (rep_wf ht1 owner base1) as wf1.
  destruct (lastBucket_ends ht1 owner fuel h base1) as (l & Hl & Hend & Hrange & Hol);
    try lia.
  rewrite (rep_heads ht owner base h Hh) in Hol.
  assert (0 <= l < NumBuckets ht1) as Hrange' by lia.
  pose proof (ends_at_header _ _ _ Hend) as Hlast.
  destruct (link_bounds ht1 owner l base1 Hrange' Hroom1)
    as (HBS1p & HBS1' & HPB1' & Hl0 & Hl1 & Hfit & Hlen & HNB1' & _).
  assert (grow fuel ht h = Ok (linked ht1 l)) as Hgrow.
  { unfold grow. rewrite E1. cbn [bind]. rewrite Hl. cbn [bind].
    rewrite (wrap_small (l * BucketSize ht1)) by lia.
    rewrite (wrap_small (l * BucketSize ht1 + 10)) by lia.
    rewrite PutUvarint_through_slice by lia. cbn [bind].
    pose proof (rep_used ht1 owner base1). pose proof (rep_size ht1 owner base1).
    rewrite !wrap_small by lia. reflexivity. }
  pose proof (link_Rep_base ht1 owner l base1 Hrange' Hroom1) as base2.
  pose proof (rep_size ht owner base) as HS. pose proof (rep_size ht1 owner base1) as HS1.
  assert (Size (HFile ht) <= Size (HFile ht1)) as Hgrown
    by (rewrite HS, HS1, Hbuf1, length_app; lia).
  eexists _, _. split; [exact Hgrow|]. split; [exact base2|].
  cbn [linked BucketSize HashBits PerBucket NumBuckets InitialBuckets HFile Size Buf].
  repeat (split; [first [assumption | lia]|]).
  split; [|split; [|split; [|split]]].
  - intros h0 Hh0.
    destruct (lastBucket_ends ht1 owner (Z.to_nat (NumBuckets ht1)) h0 base1)
      as (l0 & _ & Hend0 & Hr0 & Ho0); try lia.
    rewrite (rep_heads ht owner base h0 Hh0) in Ho0.
    unfold chain_of at 1. cbn [linked NumBuckets PerBucket].
    replace (Z.to_nat ((NumBuckets ht1 + 1) * PerBucket ht1))
      with (Z.to_nat (NumBuckets ht1 * PerBucket ht1) + Z.to_nat (PerBucket ht1))%nat
      by (rewrite HNB1, HPB1; lia).
    rewrite (link_slots ht1 owner l base1 Hrange' Hlast Hroom1 _ h0 0 l0);
      try assumption; try lia.
    fold (chain_of ht1 h0).
    rewrite (chain_of_same ht ht1 owner owner) by assumption.
    f_equal. unfold bucket_slots. rewrite HBS1, HPB1, HNB1.
    destruct (decide (l0 = l)) as [-> | Hne]; destruct (decide (h0 = h)) as [-> | Hne'];
      try reflexivity.
    + congruence.
    + exfalso. apply Hne. apply (ends_at_fun ht1 h); assumption.
  - intros h0 x Hh0 Hx.
    destruct (chain_of_in_table ht owner base h0 x Hh0 Hx) as (Hx0 & Hx1 & Hx2).
    apply (same_entry_trans _ (Buf (HFile ht1))).
    + rewrite Hbuf1. apply same_entry_app; lia.
    + apply (chain_of_owned ht owner base) in Hx as (b & e & Hb & He & _ & ->); [|exact Hh0].
      rewrite <- HBS1. apply (link_same_entry ht1 owner l base1 Hrange' Hroom1); lia.
  - rewrite Forall_forall. intros x Hx. unfold bucket_slots in Hx.
    apply list_elem_of_In, in_map_iff in Hx as (e0 & <- & He0).
    apply list_elem_of_In, elem_of_seqZ in He0.
    rewrite <- HBS1, <- HNB1.
    apply (link_new_sentinel ht1 owner l base1 Hrange' Hroom1). lia.
  - rewrite <- HNB1. apply (link_ends ht1 owner l base1 Hrange' Hlast Hroom1 h l);
      [exact Hend | reflexivity | lia].
  - intros Hroom. unfold CheckSize in E1.
    rewrite (rep_used ht owner base), wrap_small in E1 by lia.
    destruct (Z.leb_spec (NumBuckets ht * BucketSize ht + BucketSize ht) (Size (HFile ht)));
      [|lia].
    cbn [negb] in E1. injection E1 as <-. split; reflexivity.
Qed.

(** ** Chains of cells *)

Lemma fill_cases (cs : list (option (Z * Z))) p :
  (exists cpre cpost, cs = cpre ++ None :: cpost /\ Forall is_Some cpre /\
                      fill cs p = cpre ++ Some p :: cpost) \/
  (Forall is_Some cs /\ fill cs p = cs ++ [Some p]).
Proof.
  induction cs as [|[q|] cs IH]; cbn [fill].
  - right. split; [constructor | reflexivity].
  - destruct IH as [(cpre & cpost & -> & Hpre & ->) | (Hall & ->)].
    + left. exists (Some q :: cpre), cpost. repeat split. constructor; [eauto | exact Hpre].
    + right. split; [constructor; [eauto | exact Hall] | reflexivity].
  - left. exists [], cs. repeat split. constructor.
Qed.

Lemma cells_valid buf used (cs : list (option (Z * Z))) :
  Forall2 (cell_at buf) used cs -> Forall is_Some cs ->
  Forall (fun x => flag_at buf x = ENTRY_VALID) used.
Proof.
  induction 1 as [|x c used cs Hc _ IH]; intros Hall; [constructor|].
  apply Forall_cons in Hall as [[p ->] Hall]. constructor; [apply Hc | apply IH, Hall].
Qed.

Lemma cells_frame buf buf' used (cs : list (option (Z * Z))) :
  Forall2 (cell_at buf) used cs ->
  (forall x, x ∈ used -> same_entry buf buf' x) ->
  Forall2 (cell_at buf') used cs.
Proof.
  induction 1 as [|x c used cs Hc _ IH]; intros Hsame; [constructor|].
  constructor.
  - apply (cell_at_same buf); [apply Hsame; left | exact Hc].
  - apply IH. intros y Hy. apply Hsame. right. exact Hy.
Qed.

Lemma sentinels_frame buf buf' (free : list Z) :
  Forall (fun a => is_sentinel buf a = true) free ->
  (forall x, x ∈ free -> same_entry buf buf' x) ->
  Forall (fun a => is_sentinel buf' a = true) free.
Proof.
  rewrite !Forall_forall. intros Hfree Hsame x Hx.
  apply (is_sentinel_same buf); [apply Hsame, Hx | apply Hfree, Hx].
Qed.

(** A chain that no operation touched keeps its cells. *)
Lemma chain_cells_frame ht ht' h used free cs :
  chain_of ht' h = chain_of ht h -> PerBucket ht' = PerBucket ht ->
  (forall x, x ∈ chain_of ht h -> same_entry (Buf (HFile ht)) (Buf (HFile ht')) x) ->
  chain_cells ht h used free cs -> chain_cells ht' h used free cs.
Proof.
  intros Hchain HPB Hsame (Hc & Hcells & Hfree & Hle & Hlt).
  unfold chain_cells. rewrite Hchain, HPB.
  split; [exact Hc|]. split; [|split; [|auto]].
  - apply (cells_frame (Buf (HFile ht))); [exact Hcells|].
    intros x Hx. apply Hsame. rewrite Hc. apply elem_of_app. auto.
  - apply (sentinels_frame (Buf (HFile ht))); [exact Hfree|].
    intros x Hx. apply Hsame. rewrite Hc. apply elem_of_app. auto.
Qed.

(** The scan of [Remove] over cells. *)
Lemma remove_scan_cells buf key val used free (cs : list (option (Z * Z))) :
  Forall2 (cell_at buf) used cs ->
  Forall (fun a => is_sentinel buf a = true) free ->
  (remove_scan buf key val (used ++ free) = None /\ drop_pair cs (key, val) = cs) \/
  (exists pre a post cpre cpost,
     used = pre ++ a :: post /\ cs = cpre ++ Some (key, val) :: cpost /\
     Forall2 (cell_at buf) pre cpre /\ Forall2 (cell_at buf) post cpost /\
     cell_at buf a (Some (key, val)) /\
     remove_scan buf key val (used ++ free) = Some a /\
     drop_pair cs (key, val) = cpre ++ None :: cpost).
Proof.
  intros Hcells Hfree. induction Hcells as [|x c used cs Hc Hcells IH]; cbn [app].
  - left. split; [|reflexivity]. destruct Hfree as [|s free Hs _]; [reflexivity|].
    cbn [remove_scan]. rewrite Hs. unfold is_sentinel in Hs.
    destruct (flag_at buf s =? ENTRY_VALID); [discriminate | reflexivity].
  - cbn [remove_scan drop_pair]. destruct c as [[k v]|]; cbn [cell_at fst snd] in Hc.
    + destruct Hc as (Hf & Hk & Hv). rewrite Hf, Hk, Hv.
      change (ENTRY_VALID =? ENTRY_VALID) with true. cbv iota.
      destruct (decide ((k, v) = (key, val))) as [Heq | Hne].
      * injection Heq as -> ->. rewrite !Z.eqb_refl. cbn [andb].
        right. exists [], x, used, [], cs. cbn [cell_at fst snd]. repeat split; auto.
      * assert ((k =? key) && (v =? val) = false) as ->.
        { destruct (Z.eqb_spec k key); destruct (Z.eqb_spec v val); try reflexivity.
          exfalso. apply Hne. congruence. }
        destruct IH as [(Hnone & Hsame) | (pre & a & post & cpre & cpost & -> & -> & Hp & Hq
                                             & Hcell & Hsome & Hdrop)].
        -- left. split; [exact Hnone | congruence].
        -- right. exists (x :: pre), a, post, (Some (k, v) :: cpre), cpost.
           split; [reflexivity|]. split; [reflexivity|].
           split; [constructor; [cbn [cell_at fst snd]; auto | exact Hp]|].
           split; [exact Hq|]. split; [exact Hcell|]. split; [exact Hsome|].
           cbn [app]. congruence.
    + destruct Hc as (Hf & Hs). apply Z.eqb_neq in Hf. rewrite Hf, Hs.
      destruct IH as [(Hnone & Hsame) | (pre & a & post & cpre & cpost & -> & -> & Hp & Hq
                                           & Hcell & Hsome & Hdrop)].
      * left. split; [exact Hnone | congruence].
      * right. exists (x :: pre), a, post, (None :: cpre), cpost.
        split; [reflexivity|]. split; [reflexivity|].
        split; [constructor;
                [cbn [cell_at]; split; [apply Z.eqb_neq, Hf | exact Hs] | exact Hp]|].
        split; [exact Hq|]. split; [exact Hcell|]. split; [exact Hsome|].
        cbn [app]. congruence.
Qed.

(** The scan of [Get] over cells. *)
Lemma get_scan_cells buf key used free (cs : list (option (Z * Z))) :
  Forall2 (cell_at buf) used cs ->
  Forall (fun a => is_sentinel buf a = true) free ->
  get_scan buf key always_true (used ++ free) =
  filter (fun p => fst p = key) (pairs_in cs).
Proof.
  intros Hcells Hfree. induction Hcells as [|x c used cs Hc Hcells IH]; cbn [app pairs_in].
  - destruct Hfree as [|s free Hs _]; [reflexivity|]. cbn [get_scan].
    rewrite Hs. unfold is_sentinel in Hs.
    destruct (flag_at buf s =? ENTRY_VALID); [discriminate | reflexivity].
  - cbn [get_scan]. destruct c as [[k v]|]; cbn [cell_at fst snd] in Hc.
    + destruct Hc as (Hf & Hk & Hv). rewrite Hf, Hk, Hv.
      change (ENTRY_VALID =? ENTRY_VALID) with true. cbv iota.
      change (always_true k v) with true. rewrite andb_true_r, filter_cons. cbn [fst].
      destruct (Z.eqb_spec k key); destruct (decide (k = key)); try contradiction;
        rewrite IH; reflexivity.
    + destruct Hc as (Hf & Hs). apply Z.eqb_neq in Hf. rewrite Hf, Hs. exact IH.
Qed.

(** The scan of [GetAll] over cells. *)
Lemma getall_scan_cells buf used free (cs : list (option (Z * Z))) :
  Forall2 (cell_at buf) used cs ->
  Forall (fun a => is_sentinel buf a = true) free ->
  getall_scan buf (used ++ free) =
  (match free with [] => true | _ => false end, pairs_in cs).
Proof.
  intros Hcells Hfree. induction Hcells as [|x c used cs Hc Hcells IH]; cbn [app pairs_in].
  - destruct Hfree as [|s free Hs _]; [reflexivity|]. cbn [getall_scan].
    rewrite Hs. unfold is_sentinel in Hs.
    destruct (flag_at buf s =? ENTRY_VALID); [discriminate | reflexivity].
  - cbn [getall_scan]. destruct c as [[k v]|]; cbn [cell_at fst snd] in Hc.
    + destruct Hc as (Hf & Hk & Hv). rewrite Hf, Hk, Hv, IH.
      change (ENTRY_VALID =? ENTRY_VALID) with true. reflexivity.
    + destruct Hc as (Hf & Hs). apply Z.eqb_neq in Hf. rewrite Hf, Hs. exact IH.
Qed.

(** ** The length of a chain *)

(** A scan from entry [e] of a bucket visits the rest of the bucket and
    then whole buckets. *)
Lemma slots_from_length_mod ht owner fuel : forall b e,
  Rep_base ht owner -> 0 <= b < NumBuckets ht -> 0 <= e < PerBucket ht ->
  (NumBuckets ht - b) * PerBucket ht - e <= Z.of_nat fuel ->
  (Z.of_nat (length (slots_from fuel ht b e)) + e) mod PerBucket ht = 0.
Proof.
  induction fuel as [|fuel IH]; intros b e base Hb He Hfuel.
  { pose proof (buckets_ordered b (NumBuckets ht) (PerBucket ht) ltac:(lia) ltac:(lia)). lia. }
  pose proof (rep_wf ht owner base) as wf.
  cbn [slots_from length]. rewrite Nat2Z.inj_succ.
  rewrite (wrap_small (e + 1)) by (pose proof (wf_bounds ht wf); lia).
  destruct (Z.eqb_spec (e + 1) (PerBucket ht)) as [Hlast | Hmore].
  - rewrite (Rep_nextBucket ht owner base) by lia.
    destruct (rep_headers ht owner base b Hb) as [Hz | (Hfwd & Hover)].
    + rewrite Hz. change (0 =? 0) with true. cbn [length].
      replace (Z.succ (Z.of_nat 0) + e) with (PerBucket ht) by lia.
      apply Z_mod_same_full.
    + destruct (Z.eqb_spec (header_of ht b) 0); [lia|].
      pose proof (buckets_ordered b (header_of ht b) (PerBucket ht) ltac:(lia) ltac:(lia)).
      specialize (IH (header_of ht b) 0 base ltac:(lia) ltac:(lia) ltac:(lia)).
      replace (Z.succ (Z.of_nat (length (slots_from fuel ht (header_of ht b) 0))) + e)
        with (Z.of_nat (length (slots_from fuel ht (header_of ht b) 0)) + 0
              + 1 * PerBucket ht) by lia.
      rewrite Z_mod_plus_full. exact IH.
  - specialize (IH b (e + 1) base ltac:(lia) ltac:(lia) ltac:(lia)).
    replace (Z.succ (Z.of_nat (length (slots_from fuel ht b (e + 1)))) + e)
      with (Z.of_nat (length (slots_from fuel ht b (e + 1))) + (e + 1)) by lia.
    exact IH.
Qed.

Lemma chain_length_mod ht owner h :
  Rep_base ht owner -> 0 <= h < InitialBuckets ht ->
  Z.of_nat (length (chain_of ht h)) mod PerBucket ht = 0 /\ chain_of ht h <> [].
Proof.
  intros base Hh. pose proof (rep_wf ht owner base) as wf.
  pose proof (wf_NumBuckets ht wf). pose proof (wf_PerBucket ht wf).
  pose proof (buckets_ordered 0 (NumBuckets ht) (PerBucket ht) ltac:(lia) ltac:(lia)).
  split.
  - rewrite <- (Z.add_0_r (Z.of_nat _)).
    pose proof (buckets_ordered h (NumBuckets ht) (PerBucket ht) ltac:(lia) ltac:(lia)).
    apply (slots_from_length_mod ht owner); try assumption; lia.
  - unfold chain_of. destruct (Z.to_nat (NumBuckets ht * PerBucket ht)) as [|n] eqn:Hn; [lia|].
    cbn [slots_from]. discriminate.
Qed.

(** The chain of a bucket that has no next bucket ends with the bucket. *)
Lemma slots_from_last ht owner fuel : forall b e,
  Rep_base ht owner -> 0 <= b < NumBuckets ht -> 0 <= e < PerBucket ht ->
  header_of ht b = 0 ->
  Z.of_nat (length (slots_from fuel ht b e)) <= PerBucket ht - e.
Proof.
  induction fuel as [|fuel IH]; intros b e base Hb He Hz; cbn [slots_from length]; [lia|].
  pose proof (rep_wf ht owner base) as wf.
  rewrite Nat2Z.inj_succ.
  rewrite (wrap_small (e + 1)) by (pose proof (wf_bounds ht wf); lia).
  destruct (Z.eqb_spec (e + 1) (PerBucket ht)) as [Hlast | Hmore].
  - rewrite (Rep_nextBucket ht owner base), Hz by lia.
    change (0 =? 0) with true. cbn [length]. lia.
  - specialize (IH b (e + 1) base ltac:(lia) ltac:(lia) Hz). lia.
Qed.

(** Whether a chain is full shows in the number of its cells. *)
Lemma chain_full_cells ht owner h used free cs :
  Rep_base ht owner -> 0 <= h < InitialBuckets ht ->
  chain_cells ht h used free cs ->
  chain_is_full (PerBucket ht) cs = match free with [] => true | _ => false end.
Proof.
  intros base Hh (Hchain & Hcells & _ & Hle & Hlt).
  pose proof (rep_wf ht owner base) as wf. pose proof (wf_PerBucket ht wf) as HPB.
  destruct (chain_length_mod ht owner h base Hh) as (Hmod & Hne).
  rewrite Hchain, length_app, Nat2Z.inj_add in Hmod.
  pose proof (Forall2_length _ _ _ Hcells) as Hlen.
  unfold chain_is_full. rewrite <- Hlen. destruct free as [|a free].
  - rewrite app_nil_r in Hchain. cbn [length] in Hmod. rewrite Z.add_0_r in Hmod.
    rewrite Hmod. destruct used; [congruence|]. reflexivity.
  - destruct used as [|u used]; [reflexivity|].
    specialize (Hlt ltac:(discriminate)). cbn [length] in Hlt, Hmod |- *.
    rewrite !Nat2Z.inj_succ in *.
    destruct (Z.eqb_spec (Z.succ (Z.of_nat (length used)) mod PerBucket ht) 0) as [Hz |];
      [|apply andb_false_r].
    exfalso. apply Z.mod_divide in Hz; [|lia]. apply Z.mod_divide in Hmod; [|lia].
    destruct Hz as [q Hq]. destruct Hmod as [r Hr].
    assert (Z.succ (Z.of_nat (length free)) = (r - q) * PerBucket ht) as Hdiff by lia.
    assert (0 < r - q) as Hpos by (apply (Zmult_lt_0_reg_r (PerBucket ht)); lia).
    assert (1 * PerBucket ht <= (r - q) * PerBucket ht)
      by (apply Z.mul_le_mono_nonneg_r; lia).
    lia.
Qed.

(** ** The cells of the chains under [Put] and [Remove] *)

Ltac elems :=
  repeat (rewrite ?elem_of_app, ?elem_of_cons, ?elem_of_nil in * ); intuition congruence.

Lemma Rep2_ext ht owner m m' :
  Rep2 ht owner m -> (forall h, m h = m' h) -> Rep2 ht owner m'.
Proof.
  intros (base & Hends & chains) Heq. split; [exact base|]. split; [exact Hends|].
  intros h Hh. rewrite <- Heq. apply chains, Hh.
Qed.

Lemma model_op_hash (hash hash' : Z -> Z) m o :
  (forall k, hash' k = hash k) -> model_op hash' m o = model_op hash m o.
Proof. intros H. destruct o; cbn [model_op]; rewrite ?H; reflexivity. Qed.

(** An operation that writes to one entry [a] of the chain of [h] and
    leaves the headers as they are changes the cells of that chain only. *)
Lemma Rep2_update ht ht' owner m h a cs' :
  Rep2 ht owner m -> Rep_base ht' owner ->
  NumBuckets ht' = NumBuckets ht -> InitialBuckets ht' = InitialBuckets ht ->
  PerBucket ht' = PerBucket ht ->
  (forall b, 0 <= b < NumBuckets ht -> header_of ht' b = header_of ht b) ->
  (forall h0, 0 <= h0 < InitialBuckets ht -> chain_of ht' h0 = chain_of ht h0) ->
  (forall h0 x, 0 <= h0 < InitialBuckets ht -> x ∈ chain_of ht h0 -> x <> a ->
     same_entry (Buf (HFile ht)) (Buf (HFile ht')) x) ->
  0 <= h < InitialBuckets ht -> a ∈ chain_of ht h ->
  (exists used free, chain_cells ht' h used free cs') ->
  Rep2 ht' owner (fun h0 => if decide (h0 = h) then cs' else m h0).
Proof.
  intros (base & Hends & chains) base' HNB HIB HPB Hheaders Hchains Hframe Hh Ha Hcells.
  pose proof (rep_wf ht owner base) as wf. pose proof (wf_NumBuckets ht wf).
  split; [exact base'|]. split.
  - rewrite HNB, HIB. destruct Hends as [Heq | (h1 & Hh1 & Hend)]; [left; exact Heq|].
    right. exists h1. split; [exact Hh1|].
    apply (ends_at_same ht ht' owner); try assumption. lia.
  - rewrite HIB. intros h0 Hh0. destruct (decide (h0 = h)) as [-> | Hne]; [exact Hcells|].
    destruct (chains h0 Hh0) as (used & free & Hc). exists used, free.
    apply (chain_cells_frame ht); [apply Hchains, Hh0 | exact HPB | | exact Hc].
    intros x Hx. apply (Hframe h0 x Hh0 Hx).
    apply (chain_disjoint ht owner base h a h0 x); assumption.
Qed.

(** [Put] fills the first cell of the chain of its key that is not valid,
    or adds a cell behind the last. *)
Lemma Put_Rep2 ht owner m key val fuel :
  Rep2 ht owner m ->
  0 <= key < 18446744073709551616 -> 0 <= val < 18446744073709551616 ->
  Size (HFile ht) + BucketSize ht + 2097152 < 18446744073709551616 ->
  2 * ((NumBuckets ht + 1) * PerBucket ht) + NumBuckets ht + BucketSize ht / 1048576 + 6
    <= Z.of_nat fuel ->
  exists ht' owner',
    Put fuel ht key val = Ok ht' /\
    Rep2 ht' owner' (model_op (hashKey ht) m (OpPut key val)) /\
    BucketSize ht' = BucketSize ht /\ HashBits ht' = HashBits ht /\
    PerBucket ht' = PerBucket ht /\ InitialBuckets ht' = InitialBuckets ht /\
    NumBuckets ht <= NumBuckets ht' <= NumBuckets ht + 1 /\
    Size (HFile ht') <= Size (HFile ht) + BucketSize ht + 1048576 /\
    ((NumBuckets ht + 1) * BucketSize ht <= Size (HFile ht) ->
     Size (HFile ht') = Size (HFile ht) /\ regionRWMutex ht' = regionRWMutex ht).
Proof.
  intros HRep Hkey Hval Hsize Hfuel. pose proof HRep as (base & Hends & chains).
  pose proof (rep_wf ht owner base) as wf.
  pose proof (wf_positive ht wf) as (HBS & _ & HNB).
  pose proof (wf_NumBuckets ht wf) as HIB. pose proof (wf_PerBucket ht wf) as HPB.
  assert (0 <= BucketSize ht / 1048576) by (apply Z.div_pos; lia).
  assert (0 <= NumBuckets ht * PerBucket ht) as Hnp by (apply Z.mul_nonneg_nonneg; lia).
  assert ((NumBuckets ht + 1) * PerBucket ht = NumBuckets ht * PerBucket ht + PerBucket ht)
    as Hnp1 by lia.
  assert (0 <= hashKey ht key < InitialBuckets ht) as Hh
    by (apply hashKey_range; [exact wf | lia]).
  destruct (chains _ Hh) as (used & free & Hchain & Hcells & Hfree & Hle & Hlt).
  cbn [model_op].
  destruct (fill_cases (m (hashKey ht key)) (key, val))
    as [(cpre & cpost & Hm & Hpre & Hfill) | (Hall & Hfill)].
  - (* a cell of the chain is not valid *)
    rewrite Hm in Hcells.
    apply Forall2_app_inv_r in Hcells as (pre & rest & Hp & Hr & ->).
    apply Forall2_cons_inv_r in Hr as (a & post & Ha & Hq & ->).
    rewrite <- app_assoc in Hchain. cbn [app] in Hchain.
    destruct (Put_at ht owner key val fuel pre a (post ++ free) base Hkey Hval ltac:(lia)
                Hchain (cells_valid _ _ _ Hp Hpre) (proj1 Ha))
      as (HPut & base' & Hheaders & Hchains & Hframe & Hcell & Hnpre & Hnpost & _).
    eexists _, owner. split; [exact HPut|]. split.
    + apply (Rep2_ext _ _ (fun h0 => if decide (h0 = hashKey ht key)
                                     then fill (m (hashKey ht key)) (key, val) else m h0)).
      2: { intros h0. destruct (decide (h0 = hashKey ht key)) as [-> |]; reflexivity. }
      apply (Rep2_update ht _ owner m (hashKey ht key) a); try assumption; try reflexivity.
      { rewrite Hchain. apply elem_of_app. right. left. }
      exists (pre ++ a :: post), free. rewrite Hfill. unfold chain_cells.
      rewrite Hchains by exact Hh. rewrite Hchain, <- app_assoc. cbn [app].
      split; [reflexivity|].
      cbn [with_Buf with_File set_Buf HFile Buf PerBucket].
      assert (forall x, x ∈ pre ++ post ++ free ->
                same_entry (Buf (HFile ht)) (write_entry (Buf (HFile ht)) a key val) x)
        as Hsame.
      { intros x Hx. apply (Hframe (hashKey ht key) x Hh).
        - rewrite Hchain. elems.
        - intros ->. elems. }
      split; [|split; [|split; [exact Hle | exact Hlt]]].
      * apply Forall2_app; [|constructor; [exact Hcell|]].
        -- apply (cells_frame _ _ _ _ Hp). intros x Hx. apply Hsame.
           rewrite elem_of_app. auto.
        -- apply (cells_frame _ _ _ _ Hq). intros x Hx. apply Hsame.
           rewrite !elem_of_app. auto.
      * apply (sentinels_frame _ _ _ Hfree). intros x Hx. apply Hsame.
        rewrite !elem_of_app. auto.
    + cbn [with_Buf with_File set_Buf BucketSize HashBits PerBucket InitialBuckets NumBuckets
           HFile Size regionRWMutex].
      repeat (split; [first [reflexivity | lia]|]). split; reflexivity.
  - destruct free as [|a free'].
    + (* the chain is full *)
      rewrite app_nil_r in Hchain.
      pose proof (cells_valid _ _ _ Hcells Hall) as Hused.
      pose proof (slots_from_length (Z.to_nat (NumBuckets ht * PerBucket ht)) ht
                    (hashKey ht key) 0) as Hlen. fold (chain_of ht (hashKey ht key)) in Hlen.
      set (fuel' := (fuel - length (chain_of ht (hashKey ht key)))%nat).
      assert (Put fuel ht key val =
              (ht' <- grow fuel' ht (hashKey ht key) ;; Put fuel' ht' key val)) as HPut.
      { unfold Put at 1. rewrite regionMutex_ok by (try exact wf; lia). cbn [bind].
        rewrite Put_loop_full; try exact wf; try lia;
          rewrite (slots_from_chain ht owner base) by lia; [reflexivity|].
        rewrite Hchain. exact Hused. }
      destruct (grow_layout ht owner (hashKey ht key) fuel' base Hh Hsize ltac:(lia))
        as (ht2 & owner2 & Hgrow & base2 & HBS2 & Hhb2 & HPB2 & HNB2 & HIB2 & Hsize2 & Hchains2
            & Hsame2 & Hnew & Hend2 & Hroom2).
      pose proof (Hchains2 _ Hh) as Hchain2.
      destruct (decide (hashKey ht key = hashKey ht key)) as [_ |]; [|congruence].
      unfold bucket_slots in Hchain2, Hnew. rewrite seqZ_cons in Hchain2, Hnew by lia.
      cbn [map] in Hchain2, Hnew. apply Forall_cons in Hnew as [Hnew_a Hnew_rest].
      set (a := NumBuckets ht * BucketSize ht + 10 + 0 * 21) in *.
      set (rest := map (fun e => NumBuckets ht * BucketSize ht + 10 + e * 21)
                     (seqZ (Z.succ 0) (Z.pred (PerBucket ht)))) in *.
      assert (Z.of_nat (length rest) = PerBucket ht - 1) as Hrest.
      { unfold rest. rewrite length_map, length_seqZ. lia. }
      rewrite Hchain in Hchain2. rewrite <- (hashKey_same ht ht2 key Hhb2) in Hchain2.
      assert (Forall (fun x => flag_at (Buf (HFile ht2)) x = ENTRY_VALID) used) as Hused2.
      { rewrite Forall_forall in Hused |- *. intros x Hx.
        destruct (Hsame2 (hashKey ht key) x Hh) as (-> & _); [rewrite Hchain; exact Hx|].
        apply Hused, Hx. }
      destruct (Put_at ht2 owner2 key val fuel' used a rest base2 Hkey Hval ltac:(lia)
                  Hchain2 Hused2 (is_sentinel_not_valid _ _ Hnew_a))
        as (HPut2 & base3 & Hheaders3 & Hchains3 & Hframe3 & Hcell & Hnpre & Hnpost & Hother).
      rewrite (hashKey_same ht ht2 key Hhb2) in *.
      eexists _, owner2. rewrite HPut, Hgrow. cbn [bind]. split; [exact HPut2|]. split.
      * split; [exact base3|]. split.
        -- right. exists (hashKey ht key).
           cbn [with_Buf with_File set_Buf HFile Buf NumBuckets InitialBuckets].
           rewrite HNB2, HIB2. split; [exact Hh|].
           replace (NumBuckets ht + 1 - 1) with (NumBuckets ht) by lia.
           apply (ends_at_same ht2 _ owner2); try assumption. lia.
        -- cbn [with_Buf with_File set_Buf HFile Buf NumBuckets InitialBuckets].
           rewrite HIB2. intros h0 Hh0. rewrite HIB2 in Hchains3, Hframe3, Hother.
           destruct (decide (h0 = hashKey ht key)) as [-> | Hne].
           ++ exists (used ++ [a]), rest. rewrite Hfill. unfold chain_cells.
              rewrite Hchains3 by exact Hh. rewrite Hchain2, <- app_assoc. cbn [app].
              split; [reflexivity|].
              cbn [with_Buf with_File set_Buf HFile Buf PerBucket]. rewrite HPB2.
              assert (forall x, x ∈ used ++ rest ->
                        same_entry (Buf (HFile ht2))
                          (write_entry (Buf (HFile ht2)) a key val) x) as Hsame.
              { intros x Hx. apply (Hframe3 (hashKey ht key) x Hh).
                - rewrite Hchain2. elems.
                - intros ->. elems. }
              split; [|split; [|lia]].
              ** apply Forall2_app; [|constructor; [exact Hcell | constructor]].
                 apply (cells_frame (Buf (HFile ht2))).
                 { apply (cells_frame _ _ _ _ Hcells). intros x Hx.
                   apply (Hsame2 (hashKey ht key) x Hh). rewrite Hchain. exact Hx. }
                 intros x Hx. apply Hsame. rewrite elem_of_app. auto.
              ** apply (sentinels_frame _ _ _ Hnew_rest). intros x Hx. apply Hsame.
                 rewrite elem_of_app. auto.
           ++ destruct (chains h0 Hh0) as (used0 & free0 & Hc0). exists used0, free0.
              pose proof (Hchains2 h0 Hh0) as Hc2.
              destruct (decide (h0 = hashKey ht key)); [contradiction|].
              rewrite app_nil_r in Hc2.
              apply (chain_cells_frame ht); [| | | exact Hc0].
              ** rewrite Hchains3 by exact Hh0. exact Hc2.
              ** cbn [with_Buf with_File set_Buf HFile Buf PerBucket]. exact HPB2.
              ** intros x Hx. apply (same_entry_trans _ (Buf (HFile ht2))).
                 { apply (Hsame2 h0 x Hh0 Hx). }
                 apply (Hframe3 h0 x Hh0); [rewrite Hc2; exact Hx|].
                 intros ->. apply (Hother h0 Hh0 Hne). rewrite Hc2. exact Hx.
      * cbn [with_Buf with_File set_Buf BucketSize HashBits PerBucket InitialBuckets NumBuckets
             HFile Size regionRWMutex].
        repeat (split; [first [assumption | lia]|]). apply Hroom2. assumption.
    + (* the chain has a never-written entry *)
      apply Forall_cons in Hfree as [Hfree_a Hfree'].
      destruct (Put_at ht owner key val fuel used a free' base Hkey Hval ltac:(lia)
                  Hchain (cells_valid _ _ _ Hcells Hall) (is_sentinel_not_valid _ _ Hfree_a))
        as (HPut & base' & Hheaders & Hchains & Hframe & Hcell & Hnpre & Hnpost & _).
      eexists _, owner. split; [exact HPut|]. split.
      * apply (Rep2_ext _ _ (fun h0 => if decide (h0 = hashKey ht key)
                                       then fill (m (hashKey ht key)) (key, val) else m h0)).
        2: { intros h0. destruct (decide (h0 = hashKey ht key)) as [-> |]; reflexivity. }
        apply (Rep2_update ht _ owner m (hashKey ht key) a); try assumption; try reflexivity.
        { rewrite Hchain. apply elem_of_app. right. left. }
        exists (used ++ [a]), free'. rewrite Hfill. unfold chain_cells.
        rewrite Hchains by exact Hh. rewrite Hchain, <- app_assoc. cbn [app].
        split; [reflexivity|].
        cbn [with_Buf with_File set_Buf HFile Buf PerBucket].
        assert (forall x, x ∈ used ++ free' ->
                  same_entry (Buf (HFile ht)) (write_entry (Buf (HFile ht)) a key val) x)
          as Hsame.
        { intros x Hx. apply (Hframe (hashKey ht key) x Hh).
          - rewrite Hchain. elems.
          - intros ->. elems. }
        cbn [length] in Hle. rewrite Nat2Z.inj_succ in Hle.
        split; [|split; [|lia]].
        -- apply Forall2_app; [|constructor; [exact Hcell | constructor]].
           apply (cells_frame _ _ _ _ Hcells). intros x Hx. apply Hsame.
           rewrite elem_of_app. auto.
        -- apply (sentinels_frame _ _ _ Hfree'). intros x Hx. apply Hsame.
           rewrite elem_of_app. auto.
      * cbn [with_Buf with_File set_Buf BucketSize HashBits PerBucket InitialBuckets NumBuckets
             HFile Size regionRWMutex].
        repeat (split; [first [reflexivity | lia]|]). split; reflexivity.
Qed.

(** [Remove] of a pair other than [(0, 0)] makes the first cell with the
    pair not valid. *)
Lemma Remove_Rep2 ht owner m key val fuel :
  Rep2 ht owner m ->
  0 <= key -> key <> 0 \/ val <> 0 ->
  NumBuckets ht * PerBucket ht <= Z.of_nat fuel ->
  exists ht',
    Remove fuel ht key val = Ok ht' /\
    Rep2 ht' owner (model_op (hashKey ht) m (OpRemove key val)) /\
    BucketSize ht' = BucketSize ht /\ HashBits ht' = HashBits ht /\
    PerBucket ht' = PerBucket ht /\ InitialBuckets ht' = InitialBuckets ht /\
    NumBuckets ht' = NumBuckets ht /\ Size (HFile ht') = Size (HFile ht) /\
    regionRWMutex ht' = regionRWMutex ht.
Proof.
  intros HRep Hkey Hnz Hfuel. pose proof HRep as (base & Hends & chains).
  pose proof (rep_wf ht owner base) as wf.
  assert (0 <= hashKey ht key < InitialBuckets ht) as Hh
    by (apply hashKey_range; [exact wf | lia]).
  destruct (chains _ Hh) as (used & free & Hchain & Hcells & Hfree & Hle & Hlt).
  pose proof (Remove_at ht owner key val fuel base Hkey Hfuel) as HR. rewrite Hchain in HR.
  cbn [model_op].
  destruct (remove_scan_cells (Buf (HFile ht)) key val used free _ Hcells Hfree)
    as [(Hnone & Hsame) | (pre & a & post & cpre & cpost & -> & Hm & Hp & Hq & Hcell & Hsome
                           & Hdrop)].
  - rewrite Hnone in HR. exists ht. split; [exact HR|]. split; [|repeat split].
    apply (Rep2_ext _ _ m _ HRep). intros h0.
    destruct (decide (h0 = hashKey ht key)) as [-> |]; congruence.
  - rewrite Hsome in HR.
    destruct HR as (HRemove & base' & Hheaders & Hchains & Hframe & Hflag & Hk & Hv & Ha).
    eexists. split; [exact HRemove|]. split; [|repeat split].
    apply (Rep2_ext _ _ (fun h0 => if decide (h0 = hashKey ht key)
                                   then drop_pair (m (hashKey ht key)) (key, val) else m h0)).
    2: { intros h0. destruct (decide (h0 = hashKey ht key)) as [-> |]; reflexivity. }
    apply (Rep2_update ht _ owner m (hashKey ht key) a); try assumption; try reflexivity.
    { rewrite Hchain. exact Ha. }
    exists (pre ++ a :: post), free. rewrite Hdrop. unfold chain_cells.
    rewrite Hchains by exact Hh. split; [exact Hchain|].
    cbn [with_Buf with_File set_Buf HFile Buf PerBucket].
    pose proof (chain_of_NoDup ht owner base _ Hh) as Hnodup.
    rewrite Hchain, <- app_assoc in Hnodup. cbn [app] in Hnodup.
    apply NoDup_app in Hnodup as (_ & Hdisj & Hnodup).
    apply NoDup_cons in Hnodup as [Hnotin _].
    assert (forall x, x ∈ pre ++ post ++ free ->
              same_entry (Buf (HFile ht)) (write_bytes (Buf (HFile ht)) a [ENTRY_INVALID]) x)
      as Hsame.
    { intros x Hx. apply (Hframe (hashKey ht key) x Hh).
      - rewrite Hchain. elems.
      - intros ->. apply elem_of_app in Hx as [Hx | Hx]; [|contradiction].
        apply (Hdisj a Hx). left. }
    split; [|split; [|split; [exact Hle | exact Hlt]]].
    + apply Forall2_app; [|constructor].
      * apply (cells_frame _ _ _ _ Hp). intros x Hx. apply Hsame. elems.
      * cbn [cell_at fst snd] in Hcell |- *. destruct Hcell as (_ & Hk0 & Hv0).
        split; [rewrite Hflag; discriminate|].
        unfold is_sentinel. rewrite Hk, Hv, Hk0, Hv0.
        destruct (Z.eqb_spec key 0); destruct (Z.eqb_spec val 0);
          rewrite ?andb_false_r; try reflexivity. lia.
      * apply (cells_frame _ _ _ _ Hq). intros x Hx. apply Hsame. elems.
    + apply (sentinels_frame _ _ _ Hfree). intros x Hx. apply Hsame. elems.
Qed.

(** The table that [OpenHash] makes on a new file has no cell. *)
Lemma Rep2_fresh hb pb :
  params_fit hb pb -> hb <= 19 ->
  Rep2 (fresh_table hb pb) (fun b => b) (fun _ => []).
Proof.
  intros Hfit Hhb. destruct (Rep_fresh hb pb Hfit Hhb) as [base _].
  pose proof (rep_wf _ _ base) as wf.
  pose proof (fresh_Size_bounds hb pb Hfit) as (Hmin & Hheads & Hmax & _).
  pose proof (fresh_table_zeros hb pb Hfit) as (Hlen & Hflags & _).
  split; [exact base|]. split; [left; reflexivity|].
  intros h Hh. exists [], (chain_of (fresh_table hb pb) h).
  split; [reflexivity|]. split; [constructor|].
  assert (Z.of_nat (length (chain_of (fresh_table hb pb) h))
          <= PerBucket (fresh_table hb pb)) as Hchain.
  { rewrite <- (Z.sub_0_r (PerBucket _)).
    apply (slots_from_last _ (fun b => b)); try exact base.
    - pose proof (wf_NumBuckets _ wf). lia.
    - pose proof (wf_PerBucket _ wf). lia.
    - rewrite header_of_window. cbn [fresh_table HFile Buf BucketSize InitialBuckets] in *.
      destruct Hfit as (Hhb' & Hpb & Hfit).
      destruct (bucket_fits h (2 ^ hb) (10 + 21 * pb) Hh ltac:(lia)).
      apply window_head_0; try lia; [|apply Hflags].
      rewrite length_replicate, Z2Nat.id by lia. lia. }
  split; [|split; [exact Hchain | congruence]].
  rewrite Forall_forall. intros x Hx.
  destruct (chain_of_in_table _ _ base h x Hh Hx) as (Hx0 & Hx1 & Hx2).
  apply is_sentinel_zeros; try lia. exact Hflags.
Qed.

(** ** Sequences of [Put] and [Remove] *)

Lemma run_Rep2 ops : forall ht owner m fuel,
  Rep2 ht owner m -> Forall user_op ops ->
  Size (HFile ht) + (Z.of_nat (length ops) + 1) * (BucketSize ht + 1048576) + 1048576
    < 18446744073709551616 ->
  2 * ((NumBuckets ht + Z.of_nat (length ops) + 1) * PerBucket ht) + NumBuckets ht
    + Z.of_nat (length ops) + BucketSize ht / 1048576 + 6 <= Z.of_nat fuel ->
  exists ht' owner',
    run fuel ops ht = Ok ht' /\
    Rep2 ht' owner' (fold_left (model_op (hashKey ht)) ops m) /\
    HashBits ht' = HashBits ht /\ PerBucket ht' = PerBucket ht /\
    InitialBuckets ht' = InitialBuckets ht /\
    NumBuckets ht' <= NumBuckets ht + Z.of_nat (length ops) /\
    BucketSize ht' = BucketSize ht /\
    Size (HFile ht') <= Size (HFile ht) + Z.of_nat (length ops) * (BucketSize ht + 1048576) /\
    ((NumBuckets ht + Z.of_nat (length ops)) * BucketSize ht <= Size (HFile ht) ->
     Size (HFile ht') = Size (HFile ht) /\ regionRWMutex ht' = regionRWMutex ht).
Proof.
  induction ops as [|o ops IH]; intros ht owner m fuel HRep Hops Hsize Hfuel.
  { exists ht, owner. cbn [run length fold_left]. split; [reflexivity|].
    split; [exact HRep|]. repeat split; try lia. }
  apply Forall_cons in Hops as [Ho Hops].
  pose proof HRep as (base & _). pose proof (rep_wf ht owner base) as wf.
  pose proof (wf_positive ht wf) as (HBS & _ & HNB). pose proof (wf_PerBucket ht wf) as HPB.
  cbn [length] in *. rewrite Nat2Z.inj_succ in *.
  set (n := Z.of_nat (length ops)) in *. assert (0 <= n) by lia.
  assert (0 <= n * (BucketSize ht + 1048576)) by (apply Z.mul_nonneg_nonneg; lia).
  assert (0 <= BucketSize ht / 1048576) by (apply Z.div_pos; lia).
  assert ((NumBuckets ht + 1) * PerBucket ht <= (NumBuckets ht + Z.succ n + 1) * PerBucket ht)
    by (apply Z.mul_le_mono_nonneg_r; lia).
  assert (NumBuckets ht * PerBucket ht <= (NumBuckets ht + 1) * PerBucket ht)
    by (apply Z.mul_le_mono_nonneg_r; lia).
  assert (0 <= (NumBuckets ht + 1) * PerBucket ht) by (apply Z.mul_nonneg_nonneg; lia).
  assert (exists ht1 owner1,
             apply_op fuel ht o = Ok ht1 /\
             Rep2 ht1 owner1 (model_op (hashKey ht) m o) /\
             BucketSize ht1 = BucketSize ht /\ HashBits ht1 = HashBits ht /\
             PerBucket ht1 = PerBucket ht /\ InitialBuckets ht1 = InitialBuckets ht /\
             NumBuckets ht <= NumBuckets ht1 <= NumBuckets ht + 1 /\
             Size (HFile ht1) <= Size (HFile ht) + BucketSize ht + 1048576 /\
             ((NumBuckets ht + 1) * BucketSize ht <= Size (HFile ht) ->
              Size (HFile ht1) = Size (HFile ht) /\ regionRWMutex ht1 = regionRWMutex ht))
    as (ht1 & owner1 & Hop & HRep1 & HBS1 & Hhb1 & HPB1 & HIB1 & HNB1 & Hsize1 & Hroom1).
  { destruct o as [key val | key val | b]; cbn [user_op apply_op] in *.
    - destruct Ho as (Hkey & Hval).
      apply (Put_Rep2 ht owner m key val fuel HRep Hkey Hval); lia.
    - destruct Ho as (Hkey & Hval & Hnz).
      destruct (Remove_Rep2 ht owner m key val fuel HRep ltac:(lia) Hnz ltac:(lia))
        as (ht1 & HR & HRep1 & ? & ? & ? & ? & ? & ? & ?).
      exists ht1, owner. split; [exact HR|]. split; [exact HRep1|].
      repeat split; first [assumption | lia].
    - contradiction. }
  assert ((NumBuckets ht1 + n + 1) * PerBucket ht <= (NumBuckets ht + Z.succ n + 1) * PerBucket ht)
    by (apply Z.mul_le_mono_nonneg_r; lia).
  destruct (IH ht1 owner1 _ fuel HRep1 Hops)
    as (ht' & owner' & Hrun & HRep' & Hhb' & HPB' & HIB' & HNB' & HBS' & Hsize' & Hroom');
    rewrite ?HBS1, ?HPB1; try lia.
  rewrite HBS1 in Hsize', Hroom'.
  exists ht', owner'. cbn [run fold_left]. rewrite Hop. cbn [bind].
  split; [exact Hrun|].
  split; [|do 6 (split; [first [congruence | lia]|])].
  2: { intros Hroom.
       assert ((NumBuckets ht + 1) * BucketSize ht
               <= (NumBuckets ht + Z.succ n) * BucketSize ht)
         by (apply Z.mul_le_mono_nonneg_r; lia).
       assert ((NumBuckets ht1 + n) * BucketSize ht
               <= (NumBuckets ht + Z.succ n) * BucketSize ht)
         by (apply Z.mul_le_mono_nonneg_r; lia).
       destruct (Hroom1 ltac:(lia)) as [HS1 HL1].
       destruct Hroom' as [HS' HL']; [lia|]. split; congruence. }
  assert (fold_left (model_op (hashKey ht1)) ops (model_op (hashKey ht) m o) =
          fold_left (model_op (hashKey ht)) ops (model_op (hashKey ht) m o)) as <-;
    [|exact HRep'].
  generalize (model_op (hashKey ht) m o). clear -Hhb1.
  induction ops as [|o' ops IHops]; intros m0; [reflexivity|].
  cbn [fold_left]. rewrite IHops. f_equal. apply model_op_hash.
  intros k. apply hashKey_same, Hhb1.
Qed.

(** [Get] returns the pairs of the valid cells of the chain that have the
    key. *)
Lemma Get_Rep2 ht owner m key fuel :
  Rep2 ht owner m -> 0 <= key ->
  NumBuckets ht * PerBucket ht <= Z.of_nat fuel ->
  Get fuel ht key 0 always_true = Ok (pairs_of_key key (pairs_in (m (hashKey ht key)))).
Proof.
  intros (base & _ & chains) Hkey Hfuel. pose proof (rep_wf ht owner base) as wf.
  pose proof (hashKey_range ht wf key Hkey) as Hh.
  pose proof (wf_NumBuckets ht wf). pose proof (wf_PerBucket ht wf).
  pose proof (wf_bounds ht wf) as (_ & HPB & _). pose proof (wf_Buf ht wf).
  pose proof (wf_uint64 ht wf).
  assert (NumBuckets ht * PerBucket ht <= NumBuckets ht * BucketSize ht)
    by (apply Z.mul_le_mono_nonneg_l; lia).
  pose proof (buckets_ordered (hashKey ht key) (NumBuckets ht) (PerBucket ht)
                ltac:(lia) ltac:(lia)).
  destruct (chains _ Hh) as (used & free & Hchain & Hcells & Hfree & _).
  rewrite Get_unlimited, regionMutex_ok by (try exact wf; lia). cbn [bind].
  rewrite Get_loop_scan; try exact wf; try lia.
  rewrite (slots_from_chain ht owner base) by lia.
  rewrite Hchain, (get_scan_cells _ _ _ _ _ Hcells Hfree). reflexivity.
Qed.

(** ** [GetAll] over cells *)

(** The inner loop of [GetAll] is [getall_scan] over the entries that the
    scan visits. *)
Lemma GetAll_loop_scan ht fuel : forall counter e b keys vals,
  wf_table ht -> 0 <= b < NumBuckets ht -> 0 <= e < PerBucket ht ->
  (NumBuckets ht - b) * PerBucket ht - e <= Z.of_nat fuel ->
  0 <= counter ->
  counter + ((NumBuckets ht - b) * PerBucket ht - e) < 18446744073709551616 ->
  GetAll_loop fuel ht 0 counter e b keys vals =
  Ok (fst (getall_scan (Buf (HFile ht)) (slots_from fuel ht b e)),
      counter + Z.of_nat (length (snd (getall_scan (Buf (HFile ht)) (slots_from fuel ht b e)))),
      keys ++ map fst (snd (getall_scan (Buf (HFile ht)) (slots_from fuel ht b e))),
      vals ++ map snd (snd (getall_scan (Buf (HFile ht)) (slots_from fuel ht b e)))).
Proof.
  induction fuel as [|fuel IH]; intros counter e b keys vals wf Hb He Hfuel Hc Hcount.
  { pose proof (buckets_ordered b (NumBuckets ht) (PerBucket ht) ltac:(lia) ltac:(lia)). lia. }
  cbn [GetAll_loop slots_from getall_scan].
  destruct (entry_in_range ht wf b e Hb He) as (Hea & Ha0 & Ha1 & Ha2).
  destruct (read_entry (Buf (HFile ht)) (entryAddrOf ht b e)) as (Hflag & Hk & Hv);
    try (rewrite ?Hea; destruct wf; lia).
  rewrite Hk, Hv, Hflag. cbn [bind].
  fold (key_at (Buf (HFile ht)) (entryAddrOf ht b e)).
  fold (val_at (Buf (HFile ht)) (entryAddrOf ht b e)).
  pose proof (buckets_ordered b (NumBuckets ht) (PerBucket ht) ltac:(lia) ltac:(lia)).
  rewrite (wrap_small (e + 1)) by (pose proof (wf_bounds ht wf); lia).
  set (tail := if e + 1 =? PerBucket ht
               then match nextBucket ht b with
                    | Ok next => if next =? 0 then [] else slots_from fuel ht next 0
                    | _ => []
                    end
               else slots_from fuel ht b (e + 1)).
  assert (forall c ks vs,
            0 <= c ->
            c + ((NumBuckets ht - b) * PerBucket ht - e - 1) < 18446744073709551616 ->
            (if e + 1 =? PerBucket ht
             then bucket0 <- nextBucket ht b;;
                  (if bucket0 =? 0 then Ok (true, c, ks, vs)
                   else _ <- regionMutex ht bucket0;;
                        GetAll_loop fuel ht 0 c 0 bucket0 ks vs)
             else GetAll_loop fuel ht 0 c (e + 1) b ks vs) =
            Ok (fst (getall_scan (Buf (HFile ht)) tail),
                c + Z.of_nat (length (snd (getall_scan (Buf (HFile ht)) tail))),
                ks ++ map fst (snd (getall_scan (Buf (HFile ht)) tail)),
                vs ++ map snd (snd (getall_scan (Buf (HFile ht)) tail)))) as Hstep.
  { intros c ks vs Hc' Hcount'. unfold tail.
    destruct (Z.eqb_spec (e + 1) (PerBucket ht)) as [Hlast | Hmore].
    - destruct (nextBucket_ok ht wf b) as (next & -> & Hnext); [lia|]. cbn [bind].
      destruct (Z.eqb_spec next 0).
      + cbn [getall_scan fst snd map length]. rewrite !app_nil_r, Z.add_0_r. reflexivity.
      + rewrite regionMutex_ok by (try exact wf; lia). cbn [bind].
        pose proof (buckets_ordered b next (PerBucket ht) ltac:(lia) ltac:(lia)).
        apply IH; try assumption; lia.
    - apply IH; try assumption; lia. }
  fold tail.
  destruct (flag_at (Buf (HFile ht)) (entryAddrOf ht b e) =? ENTRY_VALID) eqn:Hvalid.
  - rewrite (wrap_small (counter + 1)) by lia.
    destruct (Z.eqb_spec (counter + 1) 0); [lia|].
    rewrite Hstep by lia. cbn [fst snd map length]. rewrite Nat2Z.inj_succ, <- !app_assoc.
    cbn [app]. do 4 f_equal. lia.
  - unfold is_sentinel. rewrite Hvalid. cbn [negb andb].
    destruct ((key_at _ _ =? 0) && (val_at _ _ =? 0)); [|apply Hstep; lia].
    cbn [fst snd map length]. rewrite !app_nil_r, Z.add_0_r. reflexivity.
Qed.

Lemma pairs_in_length (cs : list (option (Z * Z))) : (length (pairs_in cs) <= length cs)%nat.
Proof. induction cs as [|[p|] cs IH]; cbn [pairs_in length]; lia. Qed.

(** [GetAll] visits the heads in order and ends behind the first chain
    that is full. *)
Lemma GetAll_heads_Rep2 ht owner m fuel bound : forall n head counter keys vals,
  Rep2 ht owner m -> NumBuckets ht * PerBucket ht <= Z.of_nat fuel ->
  (forall h, 0 <= h < InitialBuckets ht -> Z.of_nat (length (pairs_in (m h))) <= bound) ->
  0 <= head -> head + Z.of_nat n = InitialBuckets ht ->
  0 <= counter ->
  counter + Z.of_nat n * bound + NumBuckets ht * PerBucket ht < 18446744073709551616 ->
  GetAll_heads fuel ht 0 n head counter keys vals =
  Ok (keys ++ map fst (collect (PerBucket ht) (map m (seqZ head (Z.of_nat n)))),
      vals ++ map snd (collect (PerBucket ht) (map m (seqZ head (Z.of_nat n))))).
Proof.
  induction n as [|n IH]; intros head counter keys vals HRep Hfuel Hbound Hhead Hn Hc Hcount.
  { cbn [GetAll_heads Z.of_nat]. rewrite seqZ_nil by lia. cbn [map collect].
    rewrite !app_nil_r. reflexivity. }
  pose proof HRep as (base & _ & chains). pose proof (rep_wf ht owner base) as wf.
  pose proof (wf_positive ht wf) as (HBS & HIB & HNB).
  pose proof (wf_NumBuckets ht wf) as HIB'. pose proof (wf_PerBucket ht wf) as HPB.
  rewrite Nat2Z.inj_succ in *.
  assert (0 <= head < InitialBuckets ht) as Hh by lia.
  pose proof (Hbound head Hh) as Hb.
  assert (0 <= bound) by lia.
  assert (0 <= Z.of_nat n * bound) by (apply Z.mul_nonneg_nonneg; lia).
  assert (0 <= NumBuckets ht * PerBucket ht) by (apply Z.mul_nonneg_nonneg; lia).
  pose proof (buckets_ordered head (NumBuckets ht) (PerBucket ht) ltac:(lia) ltac:(lia)).
  cbn [GetAll_heads]. rewrite regionMutex_ok by (try exact wf; lia). cbn [bind].
  rewrite GetAll_loop_scan; try exact wf; try lia.
  rewrite (slots_from_chain ht owner base) by lia.
  destruct (chains head Hh) as (used & free & Hcells).
  pose proof (chain_full_cells ht owner head used free _ base Hh Hcells) as Hfull.
  destruct Hcells as (Hchain & Hcells & Hfree & _).
  rewrite Hchain, (getall_scan_cells _ _ _ _ Hcells Hfree). cbn [fst snd bind].
  rewrite seqZ_cons by lia. cbn [map collect]. rewrite Hfull.
  destruct free as [|a free].
  - rewrite app_nil_r. reflexivity.
  - rewrite (wrap_small (head + 1)) by lia.
    replace (Z.pred (Z.succ (Z.of_nat n))) with (Z.of_nat n) by lia.
    rewrite IH; try assumption; try lia.
    rewrite !map_app, !app_assoc. reflexivity.
Qed.

(** ** Tables made by [Put] and [Remove] on a new file *)

Lemma hashKey_land ht key :
  wf_table ht -> hashKey ht key = key mod 2 ^ HashBits ht.
Proof.
  intros wf. destruct wf. unfold hashKey, shl.
  rewrite Z.shiftl_mul_pow2, Z.mul_1_l by lia.
  assert (0 < 2 ^ HashBits ht < 18446744073709551616).
  { split; [apply Z.pow_pos_nonneg; lia|].
    change 18446744073709551616 with (2 ^ 64). apply Z.pow_lt_mono_r; lia. }
  rewrite (wrap_small (2 ^ HashBits ht)) by lia.
  rewrite wrap_small by lia.
  replace (2 ^ HashBits ht - 1) with (Z.ones (HashBits ht)) by (rewrite Z.ones_equiv; lia).
  apply Z.land_ones. lia.
Qed.

Lemma fold_model_hash (hash hash' : Z -> Z) ops : forall m,
  (forall k, hash' k = hash k) ->
  fold_left (model_op hash') ops m = fold_left (model_op hash) ops m.
Proof.
  induction ops as [|o ops IH]; intros m H; [reflexivity|].
  cbn [fold_left]. rewrite IH by exact H. f_equal. apply model_op_hash, H.
Qed.

Lemma fill_length (cs : list (option (Z * Z))) p : (length (fill cs p) <= S (length cs))%nat.
Proof. induction cs as [|[q|] cs IH]; cbn [fill length]; lia. Qed.

Lemma drop_pair_length (cs : list (option (Z * Z))) p : length (drop_pair cs p) = length cs.
Proof.
  induction cs as [|[q|] cs IH]; cbn [drop_pair length]; try lia.
  destruct (decide (q = p)); cbn [length]; lia.
Qed.

(** An operation adds one cell to a chain at most. *)
Lemma model_length hash ops : forall m h,
  (length (fold_left (model_op hash) ops m h) <= length (m h) + length ops)%nat.
Proof.
  induction ops as [|o ops IH]; intros m h; cbn [fold_left length]; [lia|].
  specialize (IH (model_op hash m o) h).
  assert (length (model_op hash m o h) <= S (length (m h)))%nat; [|lia].
  destruct o as [key val | key val | b]; cbn [model_op]; try lia;
    destruct (decide (h = hash key)); try lia.
  - apply fill_length.
  - rewrite drop_pair_length. lia.
Qed.

(** The table after a sequence of [Put] and [Remove] on a new file. *)
Lemma ops_on_new_file hb pb ops :
  2 <= hb <= 19 -> 2 <= pb -> Forall user_op ops ->
  (2 ^ hb + Z.of_nat (length ops) + 2) * (10 + 21 * pb)
    + (Z.of_nat (length ops) + 4) * 1048576 < 18446744073709551616 ->
  exists F, forall fuel, (F <= fuel)%nat ->
    exists ht owner,
      OpenHash fuel [] hb pb = Ok (fresh_table hb pb) /\
      run fuel ops (fresh_table hb pb) = Ok ht /\
      Rep2 ht owner (model_run (fun k => k mod 2 ^ hb) ops) /\
      HashBits ht = hb /\ PerBucket ht = pb /\ InitialBuckets ht = 2 ^ hb /\
      NumBuckets ht * PerBucket ht <= Z.of_nat fuel /\
      2 ^ hb * Z.of_nat (length ops) + NumBuckets ht * PerBucket ht < 18446744073709551616 /\
      Size (HFile ht) + 2 ^ hb + Z.of_nat (length ops) + 2 <= Z.of_nat fuel /\
      ((2 ^ hb + Z.of_nat (length ops)) * (10 + 21 * pb) <= fresh_Size hb pb ->
       Size (HFile ht) = fresh_Size hb pb /\ regionRWMutex ht = 65).
Proof.
  intros Hhb Hpb Hops Hsize.
  set (n := Z.of_nat (length ops)) in *. assert (0 <= n) as Hn by lia.
  assert (0 < 2 ^ hb <= 524288) as Hpow.
  { split; [apply Z.pow_pos_nonneg; lia|].
    change 524288 with (2 ^ 19). apply Z.pow_le_mono_r; lia. }
  assert (0 <= n * (10 + 21 * pb + 1048576)) by (apply Z.mul_nonneg_nonneg; lia).
  assert (0 <= n * (10 + 21 * pb)) by (apply Z.mul_nonneg_nonneg; lia).
  assert (0 <= 2 ^ hb * (10 + 21 * pb)) by (apply Z.mul_nonneg_nonneg; lia).
  assert (params_fit hb pb) as Hfit by (unfold params_fit; lia).
  pose proof (fresh_Size_bounds hb pb Hfit) as (Hmin & Hheads & Hmax & _).
  assert (0 <= fresh_Size hb pb / 1048576) by (apply Z.div_pos; lia).
  assert (0 <= (10 + 21 * pb) / 1048576) by (apply Z.div_pos; lia).
  assert (0 <= (2 ^ hb + n + 1) * pb) by (apply Z.mul_nonneg_nonneg; lia).
  exists (Z.to_nat (fresh_Size hb pb / 1048576 + 2 * ((2 ^ hb + n + 1) * pb) + 2 ^ hb + n
                    + (10 + 21 * pb) / 1048576 + 11
                    + (fresh_Size hb pb + n * (10 + 21 * pb + 1048576) + 2 ^ hb + n + 2))).
  intros fuel Hfuel.
  pose proof (Rep2_fresh hb pb Hfit ltac:(lia)) as HRep.
  destruct (run_Rep2 ops (fresh_table hb pb) _ _ fuel HRep Hops)
    as (ht & owner & Hrun & HRep' & Hhb' & HPB' & HIB' & HNB' & _ & Hsize' & Hroom');
    cbn [fresh_table HFile Size BucketSize NumBuckets PerBucket]; fold n; try lia.
  exists ht, owner.
  split; [apply OpenHash_new_file; [exact Hfit | lia]|]. split; [exact Hrun|].
  cbn [fresh_table NumBuckets PerBucket HashBits InitialBuckets HFile Size BucketSize
       regionRWMutex] in HNB', HPB', Hhb', HIB', Hsize', Hroom'.
  fold n in HNB', Hsize', Hroom'.
  pose proof HRep' as (base' & _). pose proof (rep_wf _ _ base') as wf'.
  pose proof (wf_positive _ wf') as (_ & _ & HNBpos).
  assert (NumBuckets ht * PerBucket ht <= (2 ^ hb + n + 1) * pb)
    by (rewrite HPB'; apply Z.mul_le_mono_nonneg_r; lia).
  assert ((2 ^ hb + n + 1) * pb <= (2 ^ hb + n + 1) * (10 + 21 * pb))
    by (apply Z.mul_le_mono_nonneg_l; lia).
  assert (2 ^ hb * n <= 524288 * n) by (apply Z.mul_le_mono_nonneg_r; lia).
  split; [|repeat split; try assumption; lia].
  unfold model_run.
  rewrite <- (fold_model_hash _ (hashKey (fresh_table hb pb))); [exact HRep'|].
  intros k. rewrite hashKey_land; [reflexivity|].
  destruct HRep as (base & _). apply (rep_wf _ _ base).
Qed.

(** X10.  On a table opened on a new file with at most [2^19] head
    buckets, after any sequence of [Put] and of [Remove] of pairs other
    than [(0, 0)], [Get(key, 0, always-true)] returns the pairs of the valid
    cells of the chain of [key] that have the key, in the order of the
    chain: a [Put] takes the first entry of its chain that a [Remove] has
    freed, or the entry behind the last used one. *)
Theorem Get_after_ops hb pb ops :
  2 <= hb <= 19 -> 2 <= pb -> Forall user_op ops ->
  (2 ^ hb + Z.of_nat (length ops) + 2) * (10 + 21 * pb)
    + (Z.of_nat (length ops) + 4) * 1048576 < 18446744073709551616 ->
  exists F, forall fuel, (F <= fuel)%nat ->
    exists ht0 ht,
      OpenHash fuel [] hb pb = Ok ht0 /\
      run fuel ops ht0 = Ok ht /\
      forall key, 0 <= key < 18446744073709551616 ->
        Get fuel ht key 0 always_true =
        Ok (pairs_of_key key
              (pairs_in (model_run (fun k => k mod 2 ^ hb) ops (key mod 2 ^ hb)))).
Proof.
  intros Hhb Hpb Hops Hsize.
  destruct (ops_on_new_file hb pb ops Hhb Hpb Hops Hsize) as (F & HF).
  exists F. intros fuel Hfuel.
  destruct (HF fuel Hfuel)
    as (ht & owner & Hopen & Hrun & HRep & Hhb' & HPB & HIB & Hfuel' & _).
  exists (fresh_table hb pb), ht. split; [exact Hopen|]. split; [exact Hrun|].
  intros key Hkey. pose proof HRep as (base & _).
  rewrite (Get_Rep2 ht owner _ key fuel HRep) by lia.
  rewrite (hashKey_land ht key (rep_wf _ _ base)), Hhb'. reflexivity.
Qed.

Lemma Get_after_ops_witness :
  exists F, forall fuel, (F <= fuel)%nat ->
    exists ht0 ht,
      OpenHash fuel [] 4 2 = Ok ht0 /\
      run fuel [OpPut 0 100; OpPut 16 200; OpRemove 0 100; OpPut 32 300] ht0 = Ok ht /\
      forall key, 0 <= key < 18446744073709551616 ->
        Get fuel ht key 0 always_true =
        Ok (pairs_of_key key
              (pairs_in (model_run (fun k => k mod 2 ^ 4)
                           [OpPut 0 100; OpPut 16 200; OpRemove 0 100; OpPut 32 300]
                           (key mod 2 ^ 4)))).
Proof.
  apply (Get_after_ops 4 2 [OpPut 0 100; OpPut 16 200; OpRemove 0 100; OpPut 32 300]).
  - lia.
  - lia.
  - repeat constructor; cbn [user_op]; lia.
  - cbn [length]. lia.
Defined.

(** X11.  On a table opened on a new file with at most [2^19] head
    buckets, after any sequence of [Put] and of [Remove] of pairs other
    than [(0, 0)], [GetAll(0)] walks the chains of the heads in order,
    returns the pairs of their valid cells, and ends behind the first chain
    that has no never-written entry left: the chains of the heads behind
    it are not returned. *)
Theorem GetAll_after_ops hb pb ops :
  2 <= hb <= 19 -> 2 <= pb -> Forall user_op ops ->
  (2 ^ hb + Z.of_nat (length ops) + 2) * (10 + 21 * pb)
    + (Z.of_nat (length ops) + 4) * 1048576 < 18446744073709551616 ->
  exists F, forall fuel, (F <= fuel)%nat ->
    exists ht0 ht,
      OpenHash fuel [] hb pb = Ok ht0 /\
      run fuel ops ht0 = Ok ht /\
      GetAll fuel ht 0 =
      Ok (map fst (collect pb (map (model_run (fun k => k mod 2 ^ hb) ops) (seqZ 0 (2 ^ hb)))),
          map snd (collect pb (map (model_run (fun k => k mod 2 ^ hb) ops) (seqZ 0 (2 ^ hb))))).
Proof.
  intros Hhb Hpb Hops Hsize.
  destruct (ops_on_new_file hb pb ops Hhb Hpb Hops Hsize) as (F & HF).
  exists F. intros fuel Hfuel.
  destruct (HF fuel Hfuel)
    as (ht & owner & Hopen & Hrun & HRep & Hhb' & HPB & HIB & Hfuel' & Hcount & _).
  exists (fresh_table hb pb), ht. split; [exact Hopen|]. split; [exact Hrun|].
  assert (0 < 2 ^ hb) as Hpow by (apply Z.pow_pos_nonneg; lia).
  unfold GetAll, pow2_uint64. rewrite Hhb'. destruct (Z.ltb_spec hb 64); [|lia].
  rewrite (GetAll_heads_Rep2 ht owner (model_run (fun k => k mod 2 ^ hb) ops) fuel
             (Z.of_nat (length ops))); try assumption; try lia.
  - rewrite Z2Nat.id, HPB by lia. reflexivity.
  - intros h _. pose proof (pairs_in_length (model_run (fun k => k mod 2 ^ hb) ops h)).
    pose proof (model_length (fun k => k mod 2 ^ hb) ops (fun _ => []) h) as Hlen.
    cbn [length] in Hlen. unfold model_run in *. lia.
Qed.

Lemma GetAll_after_ops_witness :
  exists F, forall fuel, (F <= fuel)%nat ->
    exists ht0 ht,
      OpenHash fuel [] 2 2 = Ok ht0 /\
      run fuel [OpPut 1 9; OpPut 4 7; OpPut 8 5; OpRemove 4 7] ht0 = Ok ht /\
      GetAll fuel ht 0 =
      Ok (map fst (collect 2 (map (model_run (fun k => k mod 2 ^ 2)
                                     [OpPut 1 9; OpPut 4 7; OpPut 8 5; OpRemove 4 7])
                                (seqZ 0 (2 ^ 2)))),
          map snd (collect 2 (map (model_run (fun k => k mod 2 ^ 2)
                                     [OpPut 1 9; OpPut 4 7; OpPut 8 5; OpRemove 4 7])
                                (seqZ 0 (2 ^ 2))))).
Proof.
  apply (GetAll_after_ops 2 2 [OpPut 1 9; OpPut 4 7; OpPut 8 5; OpRemove 4 7]).
  - lia.
  - lia.
  - repeat constructor; cbn [user_op]; lia.
  - cbn [length]. lia.
Defined.

(** ** The pairs in the table *)

Lemma pairs_in_fill (cs : list (option (Z * Z))) p :
  pairs_in (fill cs p) ≡ₚ p :: pairs_in cs.
Proof.
  induction cs as [|[q|] cs IH]; cbn [fill pairs_in]; try reflexivity.
  rewrite IH. apply perm_swap.
Qed.

Lemma pairs_in_drop (cs : list (option (Z * Z))) p :
  pairs_in (drop_pair cs p) = remove_first p (pairs_in cs).
Proof.
  induction cs as [|[q|] cs IH]; cbn [drop_pair pairs_in remove_first];
    try assumption; try reflexivity.
  destruct (decide (q = p)); cbn [pairs_in]; [reflexivity | rewrite IH; reflexivity].
Qed.

Lemma remove_first_in p (l : list (Z * Z)) : p ∈ l -> l ≡ₚ p :: remove_first p l.
Proof.
  induction l as [|q l IH]; intros Hin; [inversion Hin|].
  cbn [remove_first]. destruct (decide (q = p)) as [-> | Hne]; [reflexivity|].
  apply elem_of_cons in Hin as [-> | Hin]; [congruence|].
  rewrite (IH Hin) at 1. apply perm_swap.
Qed.

Lemma remove_first_notin p (l : list (Z * Z)) : p ∉ l -> remove_first p l = l.
Proof.
  induction l as [|q l IH]; intros Hin; [reflexivity|].
  cbn [remove_first]. apply not_elem_of_cons in Hin as [Hne Hin].
  destruct (decide (q = p)); [congruence | rewrite IH by exact Hin; reflexivity].
Qed.

Lemma remove_first_perm p (l l' : list (Z * Z)) :
  l ≡ₚ l' -> remove_first p l ≡ₚ remove_first p l'.
Proof.
  intros Hperm. destruct (decide (p ∈ l)) as [Hin | Hin].
  - assert (p ∈ l') as Hin' by (rewrite <- Hperm; exact Hin).
    apply (Permutation_cons_inv (a := p)).
    rewrite <- (remove_first_in p l Hin), <- (remove_first_in p l' Hin'). exact Hperm.
  - assert (p ∉ l') as Hin' by (rewrite <- Hperm; exact Hin).
    rewrite !remove_first_notin by assumption. exact Hperm.
Qed.

Lemma filter_remove_first (P : Z * Z -> Prop) `{forall q, Decision (P q)} p (l : list (Z * Z)) :
  filter P (remove_first p l) = if decide (P p) then remove_first p (filter P l) else filter P l.
Proof.
  induction l as [|q l IH]; cbn [remove_first]; [destruct (decide (P p)); reflexivity|].
  rewrite (filter_cons P q l).
  destruct (decide (q = p)) as [-> | Hne].
  - destruct (decide (P p)); [|reflexivity].
    cbn [remove_first]. destruct (decide (p = p)); [reflexivity | congruence].
  - rewrite filter_cons, IH.
    destruct (decide (P q)); destruct (decide (P p)); try reflexivity.
    cbn [remove_first]. destruct (decide (q = p)); [congruence | reflexivity].
Qed.

(** The valid cells of a chain are the pairs of the table whose keys
    belong to the chain. *)
Lemma model_bag hash ops : forall m bag,
  (forall h, pairs_in (m h) ≡ₚ filter (fun q => hash (fst q) = h) bag) ->
  forall h, pairs_in (fold_left (model_op hash) ops m h) ≡ₚ
            filter (fun q => hash (fst q) = h) (fold_left bag_op ops bag).
Proof.
  induction ops as [|o ops IH]; intros m bag Hinv h; cbn [fold_left]; [apply Hinv|].
  apply IH. clear h. intros h.
  destruct o as [key val | key val | b]; cbn [model_op bag_op]; [| |apply Hinv].
  - rewrite filter_app, filter_cons, filter_nil. cbn [fst].
    destruct (decide (h = hash key)) as [-> | Hne].
    + destruct (decide (hash key = hash key)); [|congruence].
      rewrite pairs_in_fill, Hinv. apply Permutation_cons_append.
    + destruct (decide (hash key = h)); [congruence|]. rewrite app_nil_r. apply Hinv.
  - rewrite filter_remove_first. cbn [fst].
    destruct (decide (h = hash key)) as [-> | Hne].
    + destruct (decide (hash key = hash key)); [|congruence].
      rewrite pairs_in_drop. apply remove_first_perm, Hinv.
    + destruct (decide (hash key = h)); [congruence|]. apply Hinv.
Qed.

Lemma filter_key_mod (N key : Z) (pairs : list (Z * Z)) :
  filter (fun p => fst p = key) (filter (fun p => fst p mod N = key mod N) pairs) =
  filter (fun p => fst p = key) pairs.
Proof.
  induction pairs as [|p pairs IH]; [reflexivity|].
  rewrite !filter_cons.
  destruct (decide (fst p mod N = key mod N)) as [Hh | Hh];
    destruct (decide (fst p = key)) as [Hk | Hk];
    rewrite ?filter_cons; try destruct (decide (fst p = key)); try contradiction;
    rewrite ?IH; try reflexivity.
  exfalso. apply Hh. rewrite Hk. reflexivity.
Qed.

(** X12.  On a table opened on a new file with at most [2^19] head
    buckets, after any sequence of [Put] and of [Remove] of pairs other
    than [(0, 0)], [Get(key, 0, always-true)] returns, in some order, the
    pairs with the key that were put and not removed: every [Put] adds its
    pair, and every [Remove] takes one occurrence of its pair away when
    there is one. *)
Theorem Get_returns_the_bag hb pb ops :
  2 <= hb <= 19 -> 2 <= pb -> Forall user_op ops ->
  (2 ^ hb + Z.of_nat (length ops) + 2) * (10 + 21 * pb)
    + (Z.of_nat (length ops) + 4) * 1048576 < 18446744073709551616 ->
  exists F, forall fuel, (F <= fuel)%nat ->
    exists ht0 ht,
      OpenHash fuel [] hb pb = Ok ht0 /\
      run fuel ops ht0 = Ok ht /\
      forall key, 0 <= key < 18446744073709551616 ->
        exists found,
          Get fuel ht key 0 always_true = Ok (map fst found, map snd found) /\
          found ≡ₚ filter (fun p => fst p = key) (bag_run ops).
Proof.
  intros Hhb Hpb Hops Hsize.
  destruct (ops_on_new_file hb pb ops Hhb Hpb Hops Hsize) as (F & HF).
  exists F. intros fuel Hfuel.
  destruct (HF fuel Hfuel)
    as (ht & owner & Hopen & Hrun & HRep & Hhb' & HPB & HIB & Hfuel' & _).
  exists (fresh_table hb pb), ht. split; [exact Hopen|]. split; [exact Hrun|].
  intros key Hkey. pose proof HRep as (base & _).
  rewrite (Get_Rep2 ht owner _ key fuel HRep) by lia.
  rewrite (hashKey_land ht key (rep_wf _ _ base)), Hhb'.
  eexists. split; [reflexivity|].
  unfold model_run, bag_run.
  rewrite (model_bag (fun k => k mod 2 ^ hb) ops (fun _ => []) []) by reflexivity.
  rewrite filter_key_mod. reflexivity.
Qed.

Lemma Get_returns_the_bag_witness :
  exists F, forall fuel, (F <= fuel)%nat ->
    exists ht0 ht,
      OpenHash fuel [] 4 2 = Ok ht0 /\
      run fuel [OpPut 0 100; OpPut 16 200; OpRemove 0 100; OpPut 0 300] ht0 = Ok ht /\
      forall key, 0 <= key < 18446744073709551616 ->
        exists found,
          Get fuel ht key 0 always_true = Ok (map fst found, map snd found) /\
          found ≡ₚ filter (fun p => fst p = key)
                     (bag_run [OpPut 0 100; OpPut 16 200; OpRemove 0 100; OpPut 0 300]).
Proof.
  apply (Get_returns_the_bag 4 2 [OpPut 0 100; OpPut 16 200; OpRemove 0 100; OpPut 0 300]).
  - lia.
  - lia.
  - repeat constructor; cbn [user_op]; lia.
  - cbn [length]. lia.
Defined.

Lemma pairs_in_app (cs cs' : list (option (Z * Z))) :
  pairs_in (cs ++ cs') = pairs_in cs ++ pairs_in cs'.
Proof.
  induction cs as [|[q|] cs IH]; cbn [app pairs_in]; rewrite ?IH; reflexivity.
Qed.

(** [Remove] of a pair that no valid cell of the chain holds leaves the
    table as it is. *)
Lemma Remove_absent_Rep2 ht owner m key val fuel :
  Rep2 ht owner m -> 0 <= key ->
  (key, val) ∉ pairs_in (m (hashKey ht key)) ->
  NumBuckets ht * PerBucket ht <= Z.of_nat fuel ->
  Remove fuel ht key val = Ok ht.
Proof.
  intros (base & _ & chains) Hkey Habsent Hfuel. pose proof (rep_wf ht owner base) as wf.
  assert (0 <= hashKey ht key < InitialBuckets ht) as Hh
    by (apply hashKey_range; [exact wf | lia]).
  destruct (chains _ Hh) as (used & free & Hchain & Hcells & Hfree & _).
  pose proof (Remove_at ht owner key val fuel base Hkey Hfuel) as HR. rewrite Hchain in HR.
  destruct (remove_scan_cells (Buf (HFile ht)) key val used free _ Hcells Hfree)
    as [(Hnone & _) | (pre & a & post & cpre & cpost & _ & Hm & _)].
  - rewrite Hnone in HR. exact HR.
  - exfalso. apply Habsent. rewrite Hm, pairs_in_app. cbn [pairs_in]. elems.
Qed.

(** X13.  On a table opened on a new file with at most [2^19] head
    buckets, after any sequence of [Put] and of [Remove] of pairs other
    than [(0, 0)], [Remove] of a pair that is not in the table, because it
    was never put or because every occurrence was removed, returns the
    table as it is: no byte of the file changes. *)
Theorem Remove_absent_pair hb pb ops :
  2 <= hb <= 19 -> 2 <= pb -> Forall user_op ops ->
  (2 ^ hb + Z.of_nat (length ops) + 2) * (10 + 21 * pb)
    + (Z.of_nat (length ops) + 4) * 1048576 < 18446744073709551616 ->
  exists F, forall fuel, (F <= fuel)%nat ->
    exists ht0 ht,
      OpenHash fuel [] hb pb = Ok ht0 /\
      run fuel ops ht0 = Ok ht /\
      forall key val, 0 <= key < 18446744073709551616 ->
        (key, val) ∉ bag_run ops ->
        Remove fuel ht key val = Ok ht.
Proof.
  intros Hhb Hpb Hops Hsize.
  destruct (ops_on_new_file hb pb ops Hhb Hpb Hops Hsize) as (F & HF).
  exists F. intros fuel Hfuel.
  destruct (HF fuel Hfuel)
    as (ht & owner & Hopen & Hrun & HRep & Hhb' & HPB & HIB & Hfuel' & _).
  exists (fresh_table hb pb), ht. split; [exact Hopen|]. split; [exact Hrun|].
  intros key val Hkey Habsent.
  apply (Remove_absent_Rep2 ht owner _ key val fuel HRep); try lia.
  intros Hin. apply Habsent. unfold model_run, bag_run in *.
  rewrite (model_bag (fun k => k mod 2 ^ hb) ops (fun _ => []) []) in Hin by reflexivity.
  apply list_elem_of_filter in Hin as [_ Hin]. exact Hin.
Qed.

Lemma Remove_absent_pair_witness :
  exists F, forall fuel, (F <= fuel)%nat ->
    exists ht0 ht,
      OpenHash fuel [] 4 2 = Ok ht0 /\
      run fuel [OpPut 0 100; OpPut 16 200; OpRemove 0 100] ht0 = Ok ht /\
      forall key val, 0 <= key < 18446744073709551616 ->
        (key, val) ∉ bag_run [OpPut 0 100; OpPut 16 200; OpRemove 0 100] ->
        Remove fuel ht key val = Ok ht.
Proof.
  apply (Remove_absent_pair 4 2 [OpPut 0 100; OpPut 16 200; OpRemove 0 100]).
  - lia.
  - lia.
  - repeat constructor; cbn [user_op]; lia.
  - cbn [length]. lia.
Defined.

(** * Files and chains in any state *)

(** ** Sizes on which [Open] returns *)

(** When the size in binary starts with 10, halving [high] from the size
    down passes 2 and not 3, so [mid] never gets to 0. *)
Lemma findUsedSize_safe (buf : list Z) fuel : forall (k : nat) low mid high,
  Z.of_nat (length buf) < 18446744073709551616 ->
  search_inv (Z.of_nat (length buf)) low mid high ->
  1 <= low \/
  (low = 0 /\ mid = high / 2 /\ 2 * 2 ^ Z.of_nat k <= high < 3 * 2 ^ Z.of_nat k) ->
  (Z.to_nat (high - low) <= fuel)%nat ->
  exists used, findUsedSize fuel buf low mid high = Ok used /\
               0 <= used <= Z.of_nat (length buf).
Proof.
  induction fuel as [|fuel IH]; intros k low mid high Hlen Hinv Hform Hfuel.
  { unfold search_inv in Hinv. lia. }
  destruct Hinv as (Hlow & Hhigh & Hmid).
  assert (0 < 2 ^ Z.of_nat k) as Hpow by (apply Z.pow_pos_nonneg; lia).
  assert (1 <= mid) as Hmid1.
  { destruct Hform as [? | (-> & -> & Hk)]; [lia|]. Z.div_mod_to_equations. lia. }
  cbn [findUsedSize]. rewrite (wrap_small (high - mid)) by lia.
  destruct (index_in_range buf mid) as [bm Hbm]; [lia|].
  rewrite Hbm. cbn [bind].
  destruct (Z.eqb_spec (high - mid) 1) as [Hone | Hmore].
  - destruct (Z.eqb_spec bm 0) as [-> | Hbm0]; [|exists high; split; [reflexivity | lia]].
    rewrite (wrap_small (mid - 1)) by lia.
    destruct (index_in_range buf (mid - 1)) as [bm1 Hbm1]; [lia|].
    rewrite Hbm1. cbn [bind].
    destruct (bm1 =? 0); eexists; (split; [reflexivity | lia]).
  - rewrite (wrap_small (mid - low)) by lia.
    assert (0 <= (mid - low) / 2 /\ 0 <= (high - mid) / 2) as [? ?]
      by (split; apply Z.div_pos; lia).
    assert ((mid - low) / 2 < mid - low \/ mid = low) as Hhalf
      by (Z.div_mod_to_equations; lia).
    assert ((high - mid) / 2 < high - mid /\ 1 <= (high - mid) / 2) as [? ?]
      by (Z.div_mod_to_equations; lia).
    rewrite (wrap_small (low + (mid - low) / 2)) by lia.
    rewrite (wrap_small (mid + (high - mid) / 2)) by lia.
    destruct (bm =? 0).
    + destruct Hform as [Hpos | (-> & -> & Hk)].
      * apply (IH k); try lia.
        unfold search_inv. Z.div_mod_to_equations. lia.
      * destruct k as [|k].
        { change (2 ^ Z.of_nat 0) with 1 in Hk. exfalso.
          assert (high = 2) as -> by lia. change (2 / 2) with 1 in Hmore. lia. }
        rewrite Nat2Z.inj_succ, Z.pow_succ_r in Hk by lia.
        assert (0 < 2 ^ Z.of_nat k) by (apply Z.pow_pos_nonneg; lia).
        apply (IH k); try lia.
        -- unfold search_inv. Z.div_mod_to_equations. lia.
        -- right. rewrite Z.sub_0_r, Z.add_0_l. split; [reflexivity|].
           split; [reflexivity|]. Z.div_mod_to_equations. lia.
    + apply (IH k); try lia.
      unfold search_inv. Z.div_mod_to_equations. lia.
Qed.

(** X7.  [Open] returns on every file whose size in binary starts with
    10 (1 MiB, 2 MiB, 4 MiB, 5 MiB, ...), whatever the file holds: the
    search for the used size stays inside the file. *)
Theorem Open_returns (disk : list Z) (growth : Z) (k fuel : nat) :
  2 * 2 ^ Z.of_nat k <= Z.of_nat (length disk) < 3 * 2 ^ Z.of_nat k ->
  Z.of_nat (length disk) < 18446744073709551616 ->
  (length disk <= fuel)%nat ->
  exists used,
    Open fuel disk growth = Ok (mkFile used (Z.of_nat (length disk)) growth disk) /\
    0 <= used <= Z.of_nat (length disk).
Proof.
  intros Hform Hlen Hfuel.
  assert (0 < 2 ^ Z.of_nat k) as Hpow by (apply Z.pow_pos_nonneg; lia).
  unfold Open. cbn [Size Buf].
  destruct (Z.eqb_spec (Z.of_nat (length disk)) 0); [lia|].
  destruct (findUsedSize_safe disk fuel k 0 (Z.of_nat (length disk) / 2)
              (Z.of_nat (length disk))) as (used & -> & Hused); try lia.
  - apply search_inv_init; lia.
  - exists used. split; [reflexivity | exact Hused].
Qed.

Lemma Open_returns_witness :
  exists used,
    Open 5 [0; 0; 0; 9; 0] 1048576 =
    Ok (mkFile used (Z.of_nat (length [0; 0; 0; 9; 0])) 1048576 [0; 0; 0; 9; 0]) /\
    0 <= used <= Z.of_nat (length [0; 0; 0; 9; 0]).
Proof.
  apply (Open_returns [0; 0; 0; 9; 0] 1048576 1 5).
  - cbn [length]. change (2 ^ Z.of_nat 1) with 2. lia.
  - cbn [length]. lia.
  - cbn [length]. lia.
Defined.

(** ** A file that cannot grow *)

(** X14.  With growth 0, which [Open] accepts because its error for a
    growth below 1 is overwritten, a call of [CheckSizeAndEnsure] that finds
    too little room never returns: it appends nothing and calls itself with
    the same sizes. *)
Theorem CheckSizeAndEnsure_growth_0 (fuel : nat) (file : File) (more : Z) :
  Growth file = 0 -> 0 <= Size file < 18446744073709551616 ->
  Size file < wrap (UsedSize file + more) ->
  CheckSizeAndEnsure fuel file more = OutOfFuel.
Proof.
  revert file. induction fuel as [|fuel IH]; intros file Hgrowth Hsize Hroom; [reflexivity|].
  cbn [CheckSizeAndEnsure].
  destruct (Z.leb_spec (wrap (UsedSize file + more)) (Size file)); [lia|].
  cbn [writeZeros]. rewrite Hgrowth. change (0 <? 0) with false. cbn [bind].
  apply IH; cbn [Growth Size UsedSize]; rewrite ?Z.add_0_r, ?wrap_small by lia;
    first [reflexivity | lia].
Qed.

Lemma CheckSizeAndEnsure_growth_0_witness :
  Open 1 [] 0 = Ok (mkFile 0 0 0 []) /\
  CheckSizeAndEnsure 1000 (mkFile 0 0 0 []) 1 = OutOfFuel.
Proof.
  split; [reflexivity|].
  apply (CheckSizeAndEnsure_growth_0 1000 (mkFile 0 0 0 []) 1).
  - reflexivity.
  - cbn [Size]. lia.
  - cbn [Size UsedSize]. change (wrap (0 + 1)) with 1. lia.
Defined.

(** ** Chains in any state of the file *)

(** X15.  [lastBucket] returns on every well-formed table, whatever the
    headers hold: [nextBucket] only goes forward, so the walk ends within
    [NumBuckets] steps, at a bucket that has no next bucket. *)
Theorem lastBucket_returns (ht : HashTable) (fuel : nat) (b : Z) :
  wf_table ht -> 0 <= b ->
  NumBuckets ht - b + 1 <= Z.of_nat fuel -> 1 <= Z.of_nat fuel ->
  exists l,
    lastBucket fuel ht b = Ok l /\ nextBucket ht l = Ok 0 /\
    (l = b \/ (b < l < NumBuckets ht /\ InitialBuckets ht <= l)).
Proof.
  intros wf. revert b. induction fuel as [|fuel IH]; intros b Hb Hfuel Hone; [lia|].
  cbn [lastBucket].
  destruct (nextBucket_ok ht wf b Hb) as (next & Hn & Hnext). rewrite Hn. cbn [bind].
  destruct (Z.eqb_spec next 0) as [-> | Hnz].
  - exists b. split; [reflexivity|]. split; [exact Hn | left; reflexivity].
  - destruct Hnext as [? | (Hfwd & Hover)]; [contradiction|].
    destruct (IH next) as (l & Hl & Hlast & Hrange); try lia.
    exists l. split; [exact Hl|]. split; [exact Hlast|]. right. lia.
Qed.

Lemma lastBucket_returns_witness :
  exists l,
    lastBucket 8 tiny_two_heads 0 = Ok l /\ nextBucket tiny_two_heads l = Ok 0 /\
    (l = 0 \/ (0 < l < NumBuckets tiny_two_heads /\ InitialBuckets tiny_two_heads <= l)).
Proof.
  apply (lastBucket_returns tiny_two_heads 8 0).
  - apply wf_tiny_two_heads.
  - lia.
  - vm_compute. congruence.
  - lia.
Defined.

(** ** The head bucket of a key *)

(** X22.  For [hashBits] below 64, [hashKey] is the key modulo
    [2^hashBits]: the mask [1<<hashBits - 1] does not wrap around, so every
    key has a head bucket below [2^hashBits], and keys that differ by a
    multiple of [2^hashBits] share it. *)
Theorem hashKey_is_mod (ht : HashTable) (key : Z) :
  0 <= HashBits ht < 64 -> 0 <= key ->
  hashKey ht key = key mod 2 ^ HashBits ht /\ 0 <= hashKey ht key < 2 ^ HashBits ht.
Proof.
  intros Hhb Hkey.
  assert (hashKey ht key = key mod 2 ^ HashBits ht) as ->.
  { unfold hashKey, shl. rewrite Z.shiftl_mul_pow2, Z.mul_1_l by lia.
    assert (0 < 2 ^ HashBits ht < 18446744073709551616).
    { split; [apply Z.pow_pos_nonneg; lia|].
      change 18446744073709551616 with (2 ^ 64). apply Z.pow_lt_mono_r; lia. }
    rewrite (wrap_small (2 ^ HashBits ht)) by lia.
    rewrite wrap_small by lia.
    replace (2 ^ HashBits ht - 1) with (Z.ones (HashBits ht))
      by (rewrite Z.ones_equiv; lia).
    apply Z.land_ones. lia. }
  split; [reflexivity|]. apply Z.mod_pos_bound, Z.pow_pos_nonneg; lia.
Qed.

Lemma hashKey_is_mod_witness :
  hashKey tiny_two_heads 16388 = 16388 mod 2 ^ HashBits tiny_two_heads /\
  0 <= hashKey tiny_two_heads 16388 < 2 ^ HashBits tiny_two_heads.
Proof.
  apply (hashKey_is_mod tiny_two_heads 16388).
  - cbn [tiny_two_heads HashBits]. lia.
  - lia.
Defined.

(** ** [Get] with a limit *)

(** With a limit above the count, the loop of [Get] returns the first
    matches of the scan, as many as the limit leaves. *)
Lemma Get_loop_limit ht key limit filter fuel : forall count entry bucket keys vals,
  wf_table ht -> 0 <= bucket < NumBuckets ht -> 0 <= entry < PerBucket ht ->
  (NumBuckets ht - bucket) * PerBucket ht - entry <= Z.of_nat fuel ->
  0 <= count < limit -> limit < 18446744073709551616 ->
  Get_loop fuel ht key limit filter count entry bucket keys vals =
  Ok (keys ++ map fst (take (Z.to_nat (limit - count))
                         (get_scan (Buf (HFile ht)) key filter
                            (slots_from fuel ht bucket entry))),
      vals ++ map snd (take (Z.to_nat (limit - count))
                         (get_scan (Buf (HFile ht)) key filter
                            (slots_from fuel ht bucket entry)))).
Proof.
  induction fuel as [|fuel IH];
    intros count entry bucket keys vals wf Hb He Hfuel Hc Hlimit.
  { pose proof (buckets_ordered bucket (NumBuckets ht) (PerBucket ht) ltac:(lia) ltac:(lia)).
    lia. }
  cbn [Get_loop slots_from get_scan].
  destruct (entry_in_range ht wf bucket entry Hb He) as (Ha & Ha0 & Ha1 & Ha2).
  destruct (read_entry (Buf (HFile ht)) (entryAddrOf ht bucket entry))
    as (Hflag & Hkey & Hval); try (rewrite ?Ha; destruct wf; lia).
  rewrite Hkey, Hval, Hflag. cbn [bind].
  fold (key_at (Buf (HFile ht)) (entryAddrOf ht bucket entry)).
  fold (val_at (Buf (HFile ht)) (entryAddrOf ht bucket entry)).
  pose proof (buckets_ordered bucket (NumBuckets ht) (PerBucket ht) ltac:(lia) ltac:(lia)).
  rewrite (wrap_small (entry + 1)) by (pose proof (wf_bounds ht wf); lia).
  set (tail := if entry + 1 =? PerBucket ht
               then match nextBucket ht bucket with
                    | Ok next => if next =? 0 then [] else slots_from fuel ht next 0
                    | _ => []
                    end
               else slots_from fuel ht bucket (entry + 1)).
  assert (forall c ks vs,
            0 <= c < limit ->
            (if entry + 1 =? PerBucket ht
             then bucket0 <- nextBucket ht bucket;;
                  (if bucket0 =? 0 then Ok (ks, vs)
                   else _ <- regionMutex ht bucket0;;
                        Get_loop fuel ht key limit filter c 0 bucket0 ks vs)
             else Get_loop fuel ht key limit filter c (entry + 1) bucket ks vs) =
            Ok (ks ++ map fst (take (Z.to_nat (limit - c))
                                 (get_scan (Buf (HFile ht)) key filter tail)),
                vs ++ map snd (take (Z.to_nat (limit - c))
                                 (get_scan (Buf (HFile ht)) key filter tail)))) as Hstep.
  { intros c ks vs Hc'. unfold tail.
    destruct (Z.eqb_spec (entry + 1) (PerBucket ht)) as [Hlast | Hmore].
    - destruct (nextBucket_ok ht wf bucket) as (next & -> & Hnext); [lia|]. cbn [bind].
      destruct (Z.eqb_spec next 0).
      + cbn [get_scan]. rewrite take_nil. cbn [map]. rewrite !app_nil_r. reflexivity.
      + rewrite regionMutex_ok by (try exact wf; lia). cbn [bind].
        pose proof (buckets_ordered bucket next (PerBucket ht) ltac:(lia) ltac:(lia)).
        apply IH; try assumption; lia.
    - apply IH; try assumption; lia. }
  fold tail.
  destruct (flag_at (Buf (HFile ht)) (entryAddrOf ht bucket entry) =? ENTRY_VALID) eqn:Hvalid.
  - destruct ((key_at _ _ =? key) && filter _ _); [|apply Hstep; lia].
    rewrite (wrap_small (count + 1)) by lia.
    replace (Z.to_nat (limit - count)) with (S (Z.to_nat (limit - (count + 1)))) by lia.
    rewrite firstn_cons. cbn [map fst snd].
    destruct (Z.eqb_spec (count + 1) limit) as [Heq | Hne].
    + replace (Z.to_nat (limit - (count + 1))) with 0%nat by lia.
      rewrite take_0. reflexivity.
    + rewrite Hstep by lia. rewrite <- !app_assoc. reflexivity.
  - unfold is_sentinel. rewrite Hvalid. cbn [negb andb].
    destruct ((key_at _ _ =? 0) && (val_at _ _ =? 0)); [|apply Hstep; lia].
    rewrite take_nil. cbn [map]. rewrite !app_nil_r. reflexivity.
Qed.

(** X16.  On a well-formed table [Get(key, limit, filter)] with a limit
    above 0 first makes its result slices with capacity [limit]: with a
    limit above the capacity that the runtime allows, [2^45] elements, it
    panics there; with a limit up to that capacity it returns the first
    [limit] of the entries that [Get] without a limit returns, or all of
    them when there are fewer. *)
Theorem Get_with_limit ht key limit filter fuel :
  wf_table ht -> 0 <= key -> 0 < limit < 18446744073709551616 ->
  NumBuckets ht * PerBucket ht <= Z.of_nat fuel ->
  Get fuel ht key limit filter =
  if limit <=? MAX_SLICE_CAP
  then Ok (map fst (take (Z.to_nat limit)
                      (get_scan (Buf (HFile ht)) key filter (slots_of ht key))),
           map snd (take (Z.to_nat limit)
                      (get_scan (Buf (HFile ht)) key filter (slots_of ht key))))
  else Panic.
Proof.
  intros wf Hkey Hlimit Hfuel.
  pose proof (hashKey_range ht wf key Hkey) as Hh.
  pose proof (wf_NumBuckets ht wf). pose proof (wf_PerBucket ht wf).
  assert ((NumBuckets ht - hashKey ht key) * PerBucket ht <= NumBuckets ht * PerBucket ht)
    by (apply Z.mul_le_mono_nonneg_r; lia).
  unfold Get, slots_of, makeslice.
  destruct (Z.eqb_spec limit 0); [lia|].
  destruct (limit <=? MAX_SLICE_CAP); [|reflexivity]. cbn [bind].
  rewrite regionMutex_ok by (try exact wf; lia). cbn [bind].
  rewrite Get_loop_limit; try exact wf; try lia.
  rewrite (slots_from_stable ht wf (Z.to_nat (NumBuckets ht * PerBucket ht)) fuel);
    try lia.
  rewrite Z.sub_0_r. reflexivity.
Qed.

Lemma Get_with_limit_witness :
  Get 8 tiny_two_heads 4 1 always_true =
  (if 1 <=? MAX_SLICE_CAP
   then Ok (map fst (take (Z.to_nat 1)
                       (get_scan (Buf (HFile tiny_two_heads)) 4 always_true
                          (slots_of tiny_two_heads 4))),
            map snd (take (Z.to_nat 1)
                       (get_scan (Buf (HFile tiny_two_heads)) 4 always_true
                          (slots_of tiny_two_heads 4))))
   else Panic) /\
  Get 8 tiny_two_heads 4 9223372036854775808 always_true = Panic.
Proof.
  split.
  - apply (Get_with_limit tiny_two_heads 4 1 always_true 8).
    + apply wf_tiny_two_heads.
    + lia.
    + lia.
    + vm_compute. congruence.
  - reflexivity.
Defined.

(** * Opening the file of a table again *)

(** ** The walk over the chains in [OpenHash] *)

Section Wider.
Variable ht ht' : HashTable.
Variable owner : Z -> Z.
Hypothesis base : Rep_base ht owner.
Hypothesis same_Buf : Buf (HFile ht') = Buf (HFile ht).
Hypothesis same_BucketSize : BucketSize ht' = BucketSize ht.
Hypothesis same_InitialBuckets : InitialBuckets ht' = InitialBuckets ht.
Hypothesis more_buckets : NumBuckets ht <= NumBuckets ht'.
Hypothesis buckets_fit :
  NumBuckets ht' * BucketSize ht <= Z.of_nat (length (Buf (HFile ht))).

(** With more buckets assumed than the table has, [lastBucket] still
    follows the chain to its end. *)
Lemma lastBucket_wider fuel : forall b,
  0 <= b < NumBuckets ht -> NumBuckets ht - b <= Z.of_nat fuel ->
  exists l, lastBucket fuel ht' b = Ok l /\ ends_at ht b l /\ b <= l < NumBuckets ht.
Proof.
  pose proof (rep_wf ht owner base) as wf.
  pose proof (wf_positive ht wf) as (HBS & _). pose proof (wf_PerBucket ht wf) as HPB.
  pose proof (wf_BucketSize ht wf) as HBS'. pose proof (wf_uint64 ht wf) as Hlen.
  induction fuel as [|fuel IH]; intros b Hb Hfuel; [lia|].
  cbn [lastBucket].
  rewrite nextBucket_header by (rewrite ?same_Buf, ?same_BucketSize; lia).
  assert (header_of ht' b = header_of ht b) as ->
    by (unfold header_of; rewrite same_Buf, same_BucketSize; reflexivity).
  rewrite same_InitialBuckets. cbn [bind].
  destruct (rep_headers ht owner base b Hb) as [Hz | (Hfwd & Hover)].
  - rewrite Hz. change (0 =? 0) with true. cbv iota.
    exists b. split; [reflexivity|]. split; [apply ends_here, Hz | lia].
  - destruct (Z.eqb_spec (header_of ht b) 0); [lia|].
    destruct (Z.leb_spec (header_of ht b) b); [lia|].
    destruct (Z.leb_spec (NumBuckets ht') (header_of ht b)); [lia|].
    destruct (Z.ltb_spec (header_of ht b) (InitialBuckets ht)); [lia|].
    cbn [orb]. destruct (Z.eqb_spec (header_of ht b) 0); [lia|].
    destruct (IH (header_of ht b)) as (l & Hl & Hend & Hrange); try lia.
    exists l. split; [exact Hl|]. split; [|lia]. apply ends_next; assumption.
Qed.

(** The walk over the heads finds the last bucket of the longest chain. *)
Lemma longestChain_wider fuel : forall (n : nat) i longest,
  0 <= i -> i + Z.of_nat n = InitialBuckets ht ->
  InitialBuckets ht <= longest <= NumBuckets ht ->
  NumBuckets ht <= Z.of_nat fuel ->
  exists L, longestChain fuel ht' n i longest = Ok L /\
            longest <= L <= NumBuckets ht /\
            forall h l, i <= h < InitialBuckets ht -> ends_at ht h l -> l + 1 <= L.
Proof.
  pose proof (rep_wf ht owner base) as wf.
  pose proof (wf_NumBuckets ht wf) as HIB. pose proof (wf_uint64 ht wf) as Hlen.
  pose proof (wf_bounds ht wf) as (_ & _ & HNB & _).
  induction n as [|n IH]; intros i longest Hi Hn Hlongest Hfuel.
  { exists longest. cbn [longestChain]. split; [reflexivity|]. split; [lia|].
    intros h l Hh. lia. }
  rewrite Nat2Z.inj_succ in Hn. cbn [longestChain].
  destruct (lastBucket_wider fuel i) as (l & -> & Hend & Hrange); try lia.
  cbn [bind]. rewrite (wrap_small (l + 1)), (wrap_small (i + 1)) by lia.
  destruct (Z.leb_spec (l + 1) (NumBuckets ht')); [|lia]. rewrite andb_true_r.
  destruct (IH (i + 1) (if longest <? l + 1 then l + 1 else longest))
    as (L & HL & HLrange & Hall); try lia.
  { destruct (Z.ltb_spec longest (l + 1)); lia. }
  exists L. split; [exact HL|]. split.
  - destruct (Z.ltb_spec longest (l + 1)); lia.
  - intros h l' Hh Hend'. destruct (Z.eq_dec h i) as [-> | Hne].
    + rewrite (ends_at_fun ht i l' l Hend' Hend).
      destruct (Z.ltb_spec longest (l + 1)); lia.
    + apply (Hall h l'); [lia | exact Hend'].
Qed.
End Wider.

(** ** The table that [OpenHash] finds *)

(** When [Open] returns on the file of a table, [OpenHash] finds the
    buckets that the table had. *)
Lemma OpenHash_reopen ht owner m fuel used :
  Rep2 ht owner m -> 2 <= HashBits ht -> 2 <= PerBucket ht ->
  Open fuel (Buf (HFile ht)) HASH_TABLE_GROWTH =
    Ok (mkFile used (Size (HFile ht)) HASH_TABLE_GROWTH (Buf (HFile ht))) ->
  NumBuckets ht <= Z.of_nat fuel ->
  OpenHash fuel (Buf (HFile ht)) (HashBits ht) (PerBucket ht) = Ok (relocked ht).
Proof.
  intros (base & Hends & _) Hhb Hpb Hopen Hfuel.
  pose proof (rep_wf ht owner base) as wf.
  pose proof (wf_positive ht wf) as (HBS & HIBpos & HNBpos).
  pose proof (wf_NumBuckets ht wf) as HIB. pose proof (wf_uint64 ht wf) as Hlen.
  pose proof (wf_BucketSize ht wf) as HBS'. pose proof (wf_HashBits ht wf) as Hhb'.
  pose proof (wf_InitialBuckets ht wf) as HIB'. pose proof (wf_Buf ht wf) as HBuf.
  pose proof (rep_size ht owner base) as HSize. pose proof (rep_used ht owner base) as HUsed.
  pose proof (rep_growth ht owner base) as HGrowth.
  unfold OpenHash.
  destruct (Z.ltb_spec (HashBits ht) 2); [lia|]. destruct (Z.ltb_spec (PerBucket ht) 2); [lia|].
  cbn [orb]. rewrite Hopen. cbn [bind]. unfold set_UsedSize. cbn [Size UsedSize Growth Buf].
  unfold BUCKET_HEADER_SIZE, ENTRY_SIZE. change (1 + 10 + 10) with 21.
  rewrite <- HBS', (wrap_small (BucketSize ht)) by lia.
  destruct (Z.eqb_spec (BucketSize ht) 0); [lia|].
  unfold pow2_uint64. destruct (Z.ltb_spec (HashBits ht) 64); [|lia]. rewrite <- HIB'.
  assert (0 <= Size (HFile ht) / BucketSize ht) by (apply Z.div_pos; lia).
  assert (Size (HFile ht) / BucketSize ht * BucketSize ht <= Size (HFile ht))
    by (rewrite Z.mul_comm; apply Z.mul_div_le; lia).
  assert (NumBuckets ht <= Size (HFile ht) / BucketSize ht)
    by (apply Z.div_le_lower_bound; lia).
  destruct (longestChain_wider ht
              (mkHashTable (mkFile (Size (HFile ht)) (Size (HFile ht)) HASH_TABLE_GROWTH
                              (Buf (HFile ht)))
                 (BucketSize ht) (HashBits ht) (PerBucket ht)
                 (Size (HFile ht) / BucketSize ht) (InitialBuckets ht)
                 (Size (HFile ht) / HASH_TABLE_REGION_SIZE + 1))
              owner base eq_refl eq_refl eq_refl) with (fuel := fuel)
              (n := Z.to_nat (InitialBuckets ht)) (i := 0) (longest := InitialBuckets ht)
    as (L & HL & HLrange & Hall); cbn [NumBuckets HFile Buf]; try lia.
  rewrite HL. cbn [bind].
  assert (L = NumBuckets ht) as ->.
  { destruct Hends as [Heq | (h & Hh & Hend)]; [lia|].
    specialize (Hall h _ ltac:(lia) Hend). lia. }
  rewrite (wrap_small (NumBuckets ht * BucketSize ht)) by lia.
  destruct (Z.ltb_spec (Size (HFile ht)) (NumBuckets ht * BucketSize ht)); [lia|].
  cbn [bind UsedSize Size Growth Buf]. unfold relocked. do 2 f_equal.
  destruct ht as [[u s g b] ? ? ? ? ? ?]. cbn in *. congruence.
Qed.

(** The table that [OpenHash] finds has the layout and the cells of the
    table that was written. *)
Lemma slots_from_relocked ht fuel : forall b e,
  slots_from fuel (relocked ht) b e = slots_from fuel ht b e.
Proof.
  induction fuel as [|fuel IH]; intros b e; [reflexivity|].
  cbn [slots_from]. change (nextBucket (relocked ht) b) with (nextBucket ht b).
  change (PerBucket (relocked ht)) with (PerBucket ht).
  change (entryAddrOf (relocked ht) b e) with (entryAddrOf ht b e).
  f_equal. destruct (wrap (e + 1) =? PerBucket ht); [|apply IH].
  destruct (nextBucket ht b) as [next| | |]; try reflexivity.
  destruct (next =? 0); [reflexivity | apply IH].
Qed.

Lemma ends_at_relocked ht b l : ends_at ht b l -> ends_at (relocked ht) b l.
Proof.
  induction 1 as [b Hz | b l Hnz _ IH]; [apply ends_here, Hz|].
  apply ends_next; [exact Hnz | exact IH].
Qed.

Lemma Rep2_relocked ht owner m : Rep2 ht owner m -> Rep2 (relocked ht) owner m.
Proof.
  intros (base & Hends & chains). pose proof (rep_wf ht owner base) as wf.
  pose proof (wf_positive ht wf) as (HBS & HIBpos & HNBpos).
  pose proof (wf_BucketSize ht wf) as HBS'. pose proof (wf_PerBucket ht wf) as HPB.
  pose proof (wf_Buf ht wf) as HBuf. pose proof (rep_size ht owner base) as HSize.
  assert (NumBuckets ht <= NumBuckets ht * BucketSize ht) as Hnb.
  { rewrite <- (Z.mul_1_r (NumBuckets ht)) at 1. apply Z.mul_le_mono_nonneg_l; lia. }
  assert (Size (HFile ht)
          < HASH_TABLE_REGION_SIZE * (Size (HFile ht) / HASH_TABLE_REGION_SIZE + 1)) as Hcover.
  { unfold HASH_TABLE_REGION_SIZE. Z.div_mod_to_equations. lia. }
  assert (0 <= Size (HFile ht) / HASH_TABLE_REGION_SIZE)
    by (apply Z.div_pos; unfold HASH_TABLE_REGION_SIZE; lia).
  split; [|split].
  - destruct base as [[] ? ? ? ? ? ? ? ?].
    constructor; [constructor|..]; cbn [relocked HFile BucketSize HashBits PerBucket
      NumBuckets InitialBuckets regionRWMutex]; try assumption; try lia.
    rewrite <- Z.mul_assoc.
    rewrite <- (Z.mul_1_l (Size (HFile ht))) at 1.
    apply Z.mul_le_mono_nonneg; lia.
  - destruct Hends as [Heq | (h & Hh & Hend)]; [left; exact Heq|].
    right. exists h. split; [exact Hh | apply ends_at_relocked, Hend].
  - intros h Hh. destruct (chains h Hh) as (used & free & Hc). exists used, free.
    unfold chain_cells, chain_of in *. rewrite slots_from_relocked. exact Hc.
Qed.

(** [Open] returns on the file of the table when its size in binary
    starts with 10 or its first byte is not zero, and [OpenHash] then finds
    the table. *)
Lemma reopen_Rep2 ht owner m fuel :
  Rep2 ht owner m -> 2 <= HashBits ht -> 2 <= PerBucket ht ->
  Size (HFile ht) <= Z.of_nat fuel ->
  (exists k : nat, 2 * 2 ^ Z.of_nat k <= Size (HFile ht) < 3 * 2 ^ Z.of_nat k) \/
  (exists b, Buf (HFile ht) !! 0%nat = Some b /\ b <> 0) ->
  OpenHash fuel (Buf (HFile ht)) (HashBits ht) (PerBucket ht) = Ok (relocked ht).
Proof.
  intros HRep Hhb Hpb Hfuel Hform.
  pose proof HRep as (base & _). pose proof (rep_wf _ _ base) as wf.
  pose proof (wf_positive ht wf) as (HBS & HIBpos & HNBpos).
  pose proof (wf_uint64 ht wf) as Hlen. pose proof (rep_size ht owner base) as HSize.
  pose proof (wf_Buf ht wf) as HBuf.
  assert (NumBuckets ht <= NumBuckets ht * BucketSize ht) as Hnb.
  { rewrite <- (Z.mul_1_r (NumBuckets ht)) at 1. apply Z.mul_le_mono_nonneg_l; lia. }
  assert (exists used,
            findUsedSize fuel (Buf (HFile ht)) 0 (Z.of_nat (length (Buf (HFile ht))) / 2)
              (Z.of_nat (length (Buf (HFile ht)))) = Ok used) as (used & Hused).
  { destruct Hform as [(k & Hk) | (b & Hb & Hbnz)].
    - assert (0 < 2 ^ Z.of_nat k) by (apply Z.pow_pos_nonneg; lia).
      destruct (findUsedSize_safe (Buf (HFile ht)) fuel k 0
                  (Z.of_nat (length (Buf (HFile ht))) / 2)
                  (Z.of_nat (length (Buf (HFile ht))))) as (used & Hused & _); try lia.
      + apply search_inv_init; lia.
      + exists used. exact Hused.
    - destruct (findUsedSize_first_byte_set (Buf (HFile ht)) Hlen fuel)
        as (used & Hused & _); try lia.
      + congruence.
      + exists used. exact Hused. }
  apply (OpenHash_reopen ht owner _ fuel used HRep); try lia.
  unfold Open. cbn [Size Buf].
  destruct (Z.eqb_spec (Z.of_nat (length (Buf (HFile ht)))) 0); [lia|].
  rewrite Hused. cbn [bind]. unfold set_UsedSize. cbn [Size Growth Buf].
  rewrite HSize. reflexivity.
Qed.

(** X17.  A table made by [Put] and [Remove] on a new file survives
    closing and opening: when the size of its file in binary starts with
    10, or the first byte of the file is not zero (bucket 0 has a next
    bucket), [OpenHash] on the file returns the table that was written, with
    the region locks counted anew from the size of the file, and [Get]
    returns from it what it returned before. *)
Theorem OpenHash_recovers_table hb pb ops :
  2 <= hb <= 19 -> 2 <= pb -> Forall user_op ops ->
  (2 ^ hb + Z.of_nat (length ops) + 2) * (10 + 21 * pb)
    + (Z.of_nat (length ops) + 4) * 1048576 < 18446744073709551616 ->
  exists F, forall fuel, (F <= fuel)%nat ->
    exists ht0 ht,
      OpenHash fuel [] hb pb = Ok ht0 /\
      run fuel ops ht0 = Ok ht /\
      ((exists k : nat, 2 * 2 ^ Z.of_nat k <= Size (HFile ht) < 3 * 2 ^ Z.of_nat k) \/
       (exists b, Buf (HFile ht) !! 0%nat = Some b /\ b <> 0) ->
       OpenHash fuel (Buf (HFile ht)) hb pb = Ok (relocked ht) /\
       forall key, 0 <= key < 18446744073709551616 ->
         Get fuel (relocked ht) key 0 always_true = Get fuel ht key 0 always_true).
Proof.
  intros Hhb Hpb Hops Hsize.
  destruct (ops_on_new_file hb pb ops Hhb Hpb Hops Hsize) as (F & HF).
  exists F. intros fuel Hfuel.
  destruct (HF fuel Hfuel)
    as (ht & owner & Hopen & Hrun & HRep & Hhb' & HPB & HIB & Hfuel' & _ & Hfuel'' & _).
  exists (fresh_table hb pb), ht. split; [exact Hopen|]. split; [exact Hrun|].
  intros Hform.
  assert (0 < 2 ^ hb) as Hpow by (apply Z.pow_pos_nonneg; lia).
  split.
  - rewrite <- Hhb', <- HPB. apply (reopen_Rep2 ht owner _ fuel HRep); try lia. exact Hform.
  - intros key Hkey.
    rewrite (Get_Rep2 ht owner _ key fuel HRep) by lia.
    rewrite (Get_Rep2 (relocked ht) owner _ key fuel (Rep2_relocked _ _ _ HRep)); [|lia|].
    + reflexivity.
    + exact Hfuel'.
Qed.

Lemma OpenHash_recovers_table_witness :
  exists F, forall fuel, (F <= fuel)%nat ->
    exists ht0 ht,
      OpenHash fuel [] 4 2 = Ok ht0 /\
      run fuel [OpPut 0 100; OpRemove 0 100; OpPut 16 7] ht0 = Ok ht /\
      ((exists k : nat, 2 * 2 ^ Z.of_nat k <= Size (HFile ht) < 3 * 2 ^ Z.of_nat k) \/
       (exists b, Buf (HFile ht) !! 0%nat = Some b /\ b <> 0) ->
       OpenHash fuel (Buf (HFile ht)) 4 2 = Ok (relocked ht) /\
       forall key, 0 <= key < 18446744073709551616 ->
         Get fuel (relocked ht) key 0 always_true = Get fuel ht key 0 always_true).
Proof.
  apply (OpenHash_recovers_table 4 2 [OpPut 0 100; OpRemove 0 100; OpPut 16 7]).
  - lia.
  - lia.
  - repeat constructor; cbn [user_op]; lia.
  - cbn [length]. lia.
Defined.

(** X18.  A table whose buckets, the head buckets and one more for every
    call, fit the first MiB of the file is recovered exactly: after any
    sequence of [Put] and [Remove] the file still has 1 MiB, and [OpenHash]
    on it returns the very table that was written. *)
Theorem small_table_reopens hb pb ops :
  2 <= hb -> 2 <= pb -> Forall user_op ops ->
  (2 ^ hb + Z.of_nat (length ops)) * (10 + 21 * pb) <= 1048576 ->
  exists F, forall fuel, (F <= fuel)%nat ->
    exists ht0 ht,
      OpenHash fuel [] hb pb = Ok ht0 /\
      run fuel ops ht0 = Ok ht /\
      Size (HFile ht) = 1048576 /\
      OpenHash fuel (Buf (HFile ht)) hb pb = Ok ht.
Proof.
  intros Hhb Hpb Hops Hsmall.
  set (n := Z.of_nat (length ops)) in *. assert (0 <= n) as Hn by lia.
  assert (0 < 2 ^ hb) as Hpow by (apply Z.pow_pos_nonneg; lia).
  assert (2 ^ hb * 1 <= 2 ^ hb * (10 + 21 * pb)) by (apply Z.mul_le_mono_nonneg_l; lia).
  assert (n * 1 <= n * (10 + 21 * pb)) by (apply Z.mul_le_mono_nonneg_l; lia).
  assert (0 <= n * (10 + 21 * pb)) by (apply Z.mul_nonneg_nonneg; lia).
  assert (hb <= 19) as Hhb19.
  { destruct (Z.le_gt_cases hb 19) as [|Hbig]; [assumption|].
    assert (2 ^ 20 <= 2 ^ hb) by (apply Z.pow_le_mono_r; lia).
    change (2 ^ 20) with 1048576 in *. lia. }
  assert (n * 1048576 <= 1048576 * 1048576) by (apply Z.mul_le_mono_nonneg_r; lia).
  assert (1 * (10 + 21 * pb) <= 2 ^ hb * (10 + 21 * pb))
    by (apply Z.mul_le_mono_nonneg_r; lia).
  assert (fresh_Size hb pb = 1048576) as Hfresh.
  { unfold fresh_Size. cbv zeta.
    destruct (Z.leb_spec (2 ^ hb * (10 + 21 * pb)) 1048576); [reflexivity | lia]. }
  destruct (ops_on_new_file hb pb ops ltac:(lia) Hpb Hops) as (F & HF); [fold n; lia|].
  exists F. intros fuel Hfuel.
  destruct (HF fuel Hfuel)
    as (ht & owner & Hopen & Hrun & HRep & Hhb' & HPB & HIB & _ & _ & Hfuel' & Hroom).
  fold n in Hroom, Hfuel'. rewrite Hfresh in Hroom. destruct (Hroom Hsmall) as [HS HL].
  exists (fresh_table hb pb), ht. split; [exact Hopen|]. split; [exact Hrun|].
  split; [exact HS|].
  rewrite <- Hhb', <- HPB.
  rewrite (reopen_Rep2 ht owner _ fuel HRep); try lia.
  - unfold relocked. rewrite HS. change (1048576 / HASH_TABLE_REGION_SIZE + 1) with 65.
    rewrite <- HL. destruct ht. reflexivity.
  - left. exists 19%nat. rewrite HS. change (2 ^ Z.of_nat 19) with 524288. lia.
Qed.

Lemma small_table_reopens_witness :
  exists F, forall fuel, (F <= fuel)%nat ->
    exists ht0 ht,
      OpenHash fuel [] 4 2 = Ok ht0 /\
      run fuel [OpPut 0 100; OpPut 16 200; OpRemove 0 100; OpPut 32 300] ht0 = Ok ht /\
      Size (HFile ht) = 1048576 /\
      OpenHash fuel (Buf (HFile ht)) 4 2 = Ok ht.
Proof.
  apply (small_table_reopens 4 2 [OpPut 0 100; OpPut 16 200; OpRemove 0 100; OpPut 32 300]).
  - lia.
  - lia.
  - repeat constructor; cbn [user_op]; lia.
  - cbn [length]. lia.
Defined.

(** ** When [GetAll] returns every pair *)

Lemma puts_into_nonneg hash h ops : 0 <= puts_into hash h ops.
Proof.
  induction ops as [|[key val | key val | b] ops IH]; cbn [puts_into]; try lia.
  destruct (decide (hash key = h)); lia.
Qed.

(** A chain has at most as many cells as [Put] was called for its head. *)
Lemma model_length_head hash ops : forall m h,
  Z.of_nat (length (fold_left (model_op hash) ops m h))
  <= Z.of_nat (length (m h)) + puts_into hash h ops.
Proof.
  induction ops as [|o ops IH]; intros m h; cbn [fold_left puts_into]; [lia|].
  specialize (IH (model_op hash m o) h).
  destruct o as [key val | key val | b]; cbn [model_op] in *; try lia.
  - destruct (decide (h = hash key)) as [-> | Hne].
    + destruct (decide (hash key = hash key)); [|congruence].
      pose proof (fill_length (m (hash key)) (key, val)). lia.
    + destruct (decide (hash key = h)); [congruence | lia].
  - destruct (decide (h = hash key)); [rewrite drop_pair_length in IH|]; lia.
Qed.

(** Without a full chain, [GetAll] collects the valid cells of every
    chain. *)
Lemma collect_all perBucket (chains : list (list (option (Z * Z)))) :
  Forall (fun cs => chain_is_full perBucket cs = false) chains ->
  collect perBucket chains = concat (map pairs_in chains).
Proof.
  induction 1 as [|cs chains Hcs _ IH]; [reflexivity|].
  cbn [collect map concat]. rewrite Hcs, IH. reflexivity.
Qed.

(** The pairs of a bag, head by head. *)
Lemma filter_heads_cons (hash : Z -> Z) q (bag : list (Z * Z)) (heads : list Z) :
  NoDup heads ->
  concat (map (fun h => filter (fun p => hash (fst p) = h) (q :: bag)) heads) ≡ₚ
  (if decide (hash (fst q) ∈ heads) then [q] else []) ++
  concat (map (fun h => filter (fun p => hash (fst p) = h) bag) heads).
Proof.
  induction 1 as [|h heads Hnotin _ IH].
  { cbn [map concat]. destruct (decide (hash (fst q) ∈ [])) as [Hin |]; [|reflexivity].
    inversion Hin. }
  cbn [map concat]. rewrite filter_cons, IH.
  destruct (decide (hash (fst q) = h)) as [Heq | Hne].
  - destruct (decide (hash (fst q) ∈ heads)) as [Hin | _]; [rewrite Heq in Hin; contradiction|].
    destruct (decide (hash (fst q) ∈ h :: heads)) as [_ | Hout];
      [reflexivity | exfalso; apply Hout; rewrite Heq; left].
  - destruct (decide (hash (fst q) ∈ heads)) as [Hin | Hout];
      destruct (decide (hash (fst q) ∈ h :: heads)) as [Hin' | Hout'].
    + cbn [app]. symmetry. apply Permutation_middle.
    + exfalso. apply Hout'. right. exact Hin.
    + exfalso. apply Hout. apply elem_of_cons in Hin' as [? | ?]; [contradiction | assumption].
    + reflexivity.
Qed.

Lemma filter_heads (hash : Z -> Z) (bag : list (Z * Z)) (heads : list Z) :
  NoDup heads -> (forall q : Z * Z, hash (fst q) ∈ heads) ->
  concat (map (fun h => filter (fun p => hash (fst p) = h) bag) heads) ≡ₚ bag.
Proof.
  intros Hnodup Hin. induction bag as [|q bag IH].
  - clear. induction heads as [|h heads IH]; [reflexivity | exact IH].
  - rewrite filter_heads_cons by exact Hnodup.
    destruct (decide (hash (fst q) ∈ heads)) as [_ | Hout]; [|exfalso; apply Hout, Hin].
    cbn [app]. rewrite IH. reflexivity.
Qed.

Lemma concat_perm (ls ls' : list (list (Z * Z))) :
  Forall2 (≡ₚ) ls ls' -> concat ls ≡ₚ concat ls'.
Proof.
  induction 1 as [|l l' ls ls' Hl _ IH]; [reflexivity|].
  cbn [concat]. rewrite Hl, IH. reflexivity.
Qed.

(** X19.  On a table opened on a new file with at most [2^19] head
    buckets, after any sequence of [Put] and of [Remove] of pairs other
    than [(0, 0)] in which, for every head bucket, fewer than [perBucket]
    of the [Put] calls had a key of that head, [GetAll(0)] returns, in some
    order, exactly the pairs that were put and not removed. *)
Theorem GetAll_returns_all hb pb ops :
  2 <= hb <= 19 -> 2 <= pb -> Forall user_op ops ->
  (2 ^ hb + Z.of_nat (length ops) + 2) * (10 + 21 * pb)
    + (Z.of_nat (length ops) + 4) * 1048576 < 18446744073709551616 ->
  (forall h, 0 <= h < 2 ^ hb -> puts_into (fun k => k mod 2 ^ hb) h ops < pb) ->
  exists F, forall fuel, (F <= fuel)%nat ->
    exists ht0 ht,
      OpenHash fuel [] hb pb = Ok ht0 /\
      run fuel ops ht0 = Ok ht /\
      exists found,
        GetAll fuel ht 0 = Ok (map fst found, map snd found) /\
        found ≡ₚ bag_run ops.
Proof.
  intros Hhb Hpb Hops Hsize Hfew.
  destruct (ops_on_new_file hb pb ops Hhb Hpb Hops Hsize) as (F & HF).
  exists F. intros fuel Hfuel.
  destruct (HF fuel Hfuel)
    as (ht & owner & Hopen & Hrun & HRep & Hhb' & HPB & HIB & Hfuel' & Hcount & _).
  exists (fresh_table hb pb), ht. split; [exact Hopen|]. split; [exact Hrun|].
  assert (0 < 2 ^ hb) as Hpow by (apply Z.pow_pos_nonneg; lia).
  eexists. split.
  - unfold GetAll, pow2_uint64. rewrite Hhb'. destruct (Z.ltb_spec hb 64); [|lia].
    rewrite (GetAll_heads_Rep2 ht owner (model_run (fun k => k mod 2 ^ hb) ops) fuel
               (Z.of_nat (length ops))); try assumption; try lia.
    + rewrite Z2Nat.id, HPB by lia. cbn [app]. reflexivity.
    + intros h _. pose proof (pairs_in_length (model_run (fun k => k mod 2 ^ hb) ops h)).
      pose proof (model_length (fun k => k mod 2 ^ hb) ops (fun _ => []) h) as Hlen.
      cbn [length] in Hlen. unfold model_run in *. lia.
  - rewrite collect_all.
    + rewrite <- (filter_heads (fun k => k mod 2 ^ hb) (bag_run ops) (seqZ 0 (2 ^ hb))).
      * apply concat_perm. rewrite map_map.
        apply Forall2_fmap, Forall2_same_length_lookup. split; [reflexivity|].
        intros i h h' Hi Hi'. assert (h' = h) as -> by congruence.
        unfold model_run, bag_run.
        apply (model_bag (fun k => k mod 2 ^ hb) ops (fun _ => []) []). reflexivity.
      * apply NoDup_seqZ.
      * intros q. apply elem_of_seqZ. pose proof (Z.mod_pos_bound (fst q) (2 ^ hb)). lia.
    + apply Forall_fmap, Forall_forall. intros h Hh. apply elem_of_seqZ in Hh.
      cbn [compose]. unfold chain_is_full.
      pose proof (model_length_head (fun k => k mod 2 ^ hb) ops (fun _ => []) h) as Hlen.
      cbn [length] in Hlen. specialize (Hfew h ltac:(lia)).
      fold (model_run (fun k => k mod 2 ^ hb) ops) in Hlen.
      destruct (Z.ltb_spec 0 (Z.of_nat (length (model_run (fun k => k mod 2 ^ hb) ops h))));
        [|reflexivity].
      rewrite Z.mod_small by lia.
      destruct (Z.eqb_spec (Z.of_nat (length (model_run (fun k => k mod 2 ^ hb) ops h))) 0);
        [lia | reflexivity].
Qed.

Lemma GetAll_returns_all_witness :
  exists F, forall fuel, (F <= fuel)%nat ->
    exists ht0 ht,
      OpenHash fuel [] 2 2 = Ok ht0 /\
      run fuel [OpPut 1 9; OpPut 4 7; OpRemove 4 7; OpPut 6 5] ht0 = Ok ht /\
      exists found,
        GetAll fuel ht 0 = Ok (map fst found, map snd found) /\
        found ≡ₚ bag_run [OpPut 1 9; OpPut 4 7; OpRemove 4 7; OpPut 6 5].
Proof.
  apply (GetAll_returns_all 2 2 [OpPut 1 9; OpPut 4 7; OpRemove 4 7; OpPut 6 5]).
  - lia.
  - lia.
  - repeat constructor; cbn [user_op]; lia.
  - cbn [length]. lia.
  - intros h Hh. change (2 ^ 2) with 4 in *.
    assert (h = 0 \/ h = 1 \/ h = 2 \/ h = 3) as [-> | [-> | [-> | ->]]] by lia;
      vm_compute; reflexivity.
Defined.

(** ** [GetAll] on any well-formed table *)

Lemma getall_scan_length buf slots :
  (length (snd (getall_scan buf slots)) <= length slots)%nat.
Proof.
  induction slots as [|a slots IH]; cbn [getall_scan]; [cbn; lia|].
  destruct (flag_at buf a =? ENTRY_VALID); [cbn [snd length]; lia|].
  destruct (is_sentinel buf a); cbn [snd length]; lia.
Qed.

(** With a limit above the count, the inner loop of [GetAll] ends with
    [return] as soon as the limit is reached. *)
Lemma GetAll_loop_limit ht limit fuel : forall counter e b keys vals,
  wf_table ht -> 0 <= b < NumBuckets ht -> 0 <= e < PerBucket ht ->
  (NumBuckets ht - b) * PerBucket ht - e <= Z.of_nat fuel ->
  0 <= counter < limit -> limit < 18446744073709551616 ->
  GetAll_loop fuel ht limit counter e b keys vals =
  if (Z.to_nat (limit - counter)
      <=? length (snd (getall_scan (Buf (HFile ht)) (slots_from fuel ht b e))))%nat
  then Ok (true, limit,
           keys ++ map fst (take (Z.to_nat (limit - counter))
                              (snd (getall_scan (Buf (HFile ht)) (slots_from fuel ht b e)))),
           vals ++ map snd (take (Z.to_nat (limit - counter))
                              (snd (getall_scan (Buf (HFile ht)) (slots_from fuel ht b e)))))
  else Ok (fst (getall_scan (Buf (HFile ht)) (slots_from fuel ht b e)),
           counter
           + Z.of_nat (length (snd (getall_scan (Buf (HFile ht)) (slots_from fuel ht b e)))),
           keys ++ map fst (snd (getall_scan (Buf (HFile ht)) (slots_from fuel ht b e))),
           vals ++ map snd (snd (getall_scan (Buf (HFile ht)) (slots_from fuel ht b e)))).
Proof.
  induction fuel as [|fuel IH]; intros counter e b keys vals wf Hb He Hfuel Hc Hlimit.
  { pose proof (buckets_ordered b (NumBuckets ht) (PerBucket ht) ltac:(lia) ltac:(lia)). lia. }
  cbn [GetAll_loop slots_from getall_scan].
  destruct (entry_in_range ht wf b e Hb He) as (Hea & Ha0 & Ha1 & Ha2).
  destruct (read_entry (Buf (HFile ht)) (entryAddrOf ht b e)) as (Hflag & Hk & Hv);
    try (rewrite ?Hea; destruct wf; lia).
  rewrite Hk, Hv, Hflag. cbn [bind].
  fold (key_at (Buf (HFile ht)) (entryAddrOf ht b e)).
  fold (val_at (Buf (HFile ht)) (entryAddrOf ht b e)).
  pose proof (buckets_ordered b (NumBuckets ht) (PerBucket ht) ltac:(lia) ltac:(lia)).
  rewrite (wrap_small (e + 1)) by (pose proof (wf_bounds ht wf); lia).
  set (tail := if e + 1 =? PerBucket ht
               then match nextBucket ht b with
                    | Ok next => if next =? 0 then [] else slots_from fuel ht next 0
                    | _ => []
                    end
               else slots_from fuel ht b (e + 1)).
  assert (forall c ks vs,
            0 <= c < limit ->
            (if e + 1 =? PerBucket ht
             then bucket0 <- nextBucket ht b;;
                  (if bucket0 =? 0 then Ok (true, c, ks, vs)
                   else _ <- regionMutex ht bucket0;;
                        GetAll_loop fuel ht limit c 0 bucket0 ks vs)
             else GetAll_loop fuel ht limit c (e + 1) b ks vs) =
            if (Z.to_nat (limit - c)
                <=? length (snd (getall_scan (Buf (HFile ht)) tail)))%nat
            then Ok (true, limit,
                     ks ++ map fst (take (Z.to_nat (limit - c))
                                      (snd (getall_scan (Buf (HFile ht)) tail))),
                     vs ++ map snd (take (Z.to_nat (limit - c))
                                      (snd (getall_scan (Buf (HFile ht)) tail))))
            else Ok (fst (getall_scan (Buf (HFile ht)) tail),
                     c + Z.of_nat (length (snd (getall_scan (Buf (HFile ht)) tail))),
                     ks ++ map fst (snd (getall_scan (Buf (HFile ht)) tail)),
                     vs ++ map snd (snd (getall_scan (Buf (HFile ht)) tail)))) as Hstep.
  { intros c ks vs Hc'. unfold tail.
    destruct (Z.eqb_spec (e + 1) (PerBucket ht)) as [Hlast | Hmore].
    - destruct (nextBucket_ok ht wf b) as (next & -> & Hnext); [lia|]. cbn [bind].
      destruct (Z.eqb_spec next 0).
      + cbn [getall_scan fst snd map length].
        destruct (Nat.leb_spec (Z.to_nat (limit - c)) 0); [lia|].
        rewrite !app_nil_r, Z.add_0_r. reflexivity.
      + rewrite regionMutex_ok by (try exact wf; lia). cbn [bind].
        pose proof (buckets_ordered b next (PerBucket ht) ltac:(lia) ltac:(lia)).
        apply IH; try assumption; lia.
    - apply IH; try assumption; lia. }
  fold tail.
  destruct (flag_at (Buf (HFile ht)) (entryAddrOf ht b e) =? ENTRY_VALID) eqn:Hvalid.
  - rewrite (wrap_small (counter + 1)) by lia. cbn [fst snd length].
    destruct (Z.eqb_spec (counter + 1) limit) as [Heq | Hne].
    + destruct (Nat.leb_spec (Z.to_nat (limit - counter))
                  (S (length (snd (getall_scan (Buf (HFile ht)) tail))))); [|lia].
      replace (Z.to_nat (limit - counter)) with 1%nat by lia.
      cbn [take map fst snd]. rewrite take_0. cbn [map]. rewrite Heq. reflexivity.
    + rewrite Hstep by lia.
      replace (Z.to_nat (limit - counter)) with (S (Z.to_nat (limit - (counter + 1)))) by lia.
      change (S ?x <=? S ?y)%nat with (x <=? y)%nat.
      destruct (Z.to_nat (limit - (counter + 1))
                <=? length (snd (getall_scan (Buf (HFile ht)) tail)))%nat.
      * rewrite firstn_cons. cbn [map fst snd]. rewrite <- !app_assoc. reflexivity.
      * cbn [map fst snd]. rewrite <- !app_assoc, Nat2Z.inj_succ. cbn [app].
        do 4 f_equal. lia.
  - unfold is_sentinel. rewrite Hvalid. cbn [negb andb].
    destruct ((key_at _ _ =? 0) && (val_at _ _ =? 0)); [|apply Hstep; lia].
    cbn [fst snd map length].
    destruct (Nat.leb_spec (Z.to_nat (limit - counter)) 0); [lia|].
    rewrite !app_nil_r, Z.add_0_r. reflexivity.
Qed.

Lemma GetAll_heads_limit ht limit fuel : forall (n : nat) head counter keys vals,
  wf_table ht -> NumBuckets ht * PerBucket ht <= Z.of_nat fuel ->
  0 <= head -> head + Z.of_nat n = InitialBuckets ht ->
  0 <= counter < limit -> limit < 18446744073709551616 ->
  GetAll_heads fuel ht limit n head counter keys vals =
  Ok (keys ++ map fst (take (Z.to_nat (limit - counter))
                         (getall_heads (Buf (HFile ht))
                            (map (chain_of ht) (seqZ head (Z.of_nat n))))),
      vals ++ map snd (take (Z.to_nat (limit - counter))
                         (getall_heads (Buf (HFile ht))
                            (map (chain_of ht) (seqZ head (Z.of_nat n)))))).
Proof.
  induction n as [|n IH]; intros head counter keys vals wf Hfuel Hhead Hn Hc Hlimit.
  { cbn [GetAll_heads Z.of_nat]. rewrite seqZ_nil by lia. cbn [map getall_heads].
    rewrite take_nil. cbn [map]. rewrite !app_nil_r. reflexivity. }
  pose proof (wf_positive ht wf) as (HBS & HIB & HNB).
  pose proof (wf_NumBuckets ht wf) as HIB'. pose proof (wf_PerBucket ht wf) as HPB.
  pose proof (wf_uint64 ht wf) as Hlen. pose proof (wf_bounds ht wf) as (_ & _ & HNB' & _).
  rewrite Nat2Z.inj_succ in *.
  assert (0 <= head < InitialBuckets ht) as Hh by lia.
  pose proof (buckets_ordered head (NumBuckets ht) (PerBucket ht) ltac:(lia) ltac:(lia)).
  assert (0 <= NumBuckets ht * PerBucket ht) by (apply Z.mul_nonneg_nonneg; lia).
  cbn [GetAll_heads]. rewrite regionMutex_ok by (try exact wf; lia). cbn [bind].
  rewrite GetAll_loop_limit; try exact wf; try lia.
  assert (slots_from fuel ht head 0 = chain_of ht head) as ->
    by (apply slots_from_stable; try exact wf; lia).
  rewrite seqZ_cons by lia. cbn [map getall_heads].
  set (r := getall_scan (Buf (HFile ht)) (chain_of ht head)).
  destruct (Nat.leb_spec (Z.to_nat (limit - counter)) (length (snd r))) as [Hfull | Hroom].
  - cbn [bind]. rewrite take_app_le by lia. reflexivity.
  - cbn [bind]. destruct (fst r).
    + rewrite app_nil_r, take_ge by lia. reflexivity.
    + rewrite (wrap_small (head + 1)) by lia.
      replace (Z.pred (Z.succ (Z.of_nat n))) with (Z.of_nat n) by lia.
      rewrite IH; try assumption; try lia.
      rewrite take_app_ge by lia.
      replace (Z.to_nat (limit - (counter + Z.of_nat (length (snd r)))))
        with (Z.to_nat (limit - counter) - length (snd r))%nat by lia.
      rewrite !map_app, !app_assoc. reflexivity.
Qed.

(** X20.  On every well-formed table [GetAll(limit)] with a limit above
    0 returns the first [limit] pairs of this sequence, or all of it when
    it is shorter: the valid entries of the chains of the heads 0, 1, 2,
    ... in order, each chain up to its first never-written entry, and
    nothing behind the first chain that has no such entry. *)
Theorem GetAll_with_limit ht limit fuel :
  wf_table ht -> 0 < limit < 18446744073709551616 ->
  NumBuckets ht * PerBucket ht <= Z.of_nat fuel ->
  GetAll fuel ht limit =
  Ok (map fst (take (Z.to_nat limit)
                 (getall_heads (Buf (HFile ht))
                    (map (chain_of ht) (seqZ 0 (InitialBuckets ht))))),
      map snd (take (Z.to_nat limit)
                 (getall_heads (Buf (HFile ht))
                    (map (chain_of ht) (seqZ 0 (InitialBuckets ht)))))).
Proof.
  intros wf Hlimit Hfuel.
  pose proof (wf_positive ht wf) as (_ & HIB & _). pose proof (wf_HashBits ht wf) as Hhb.
  unfold GetAll, pow2_uint64. destruct (Z.ltb_spec (HashBits ht) 64); [|lia].
  rewrite <- (wf_InitialBuckets ht wf).
  rewrite GetAll_heads_limit; try exact wf; try lia.
  rewrite Z2Nat.id, Z.sub_0_r by lia. reflexivity.
Qed.

Lemma GetAll_with_limit_witness :
  GetAll 8 tiny_two_heads 1 =
  Ok (map fst (take (Z.to_nat 1)
                 (getall_heads (Buf (HFile tiny_two_heads))
                    (map (chain_of tiny_two_heads)
                       (seqZ 0 (InitialBuckets tiny_two_heads))))),
      map snd (take (Z.to_nat 1)
                 (getall_heads (Buf (HFile tiny_two_heads))
                    (map (chain_of tiny_two_heads)
                       (seqZ 0 (InitialBuckets tiny_two_heads)))))).
Proof.
  apply (GetAll_with_limit tiny_two_heads 1 8).
  - apply wf_tiny_two_heads.
  - lia.
  - vm_compute. congruence.
Defined.

Lemma GetAll_heads_scan ht fuel : forall (n : nat) head counter keys vals,
  wf_table ht -> NumBuckets ht * PerBucket ht <= Z.of_nat fuel ->
  0 <= head -> head + Z.of_nat n = InitialBuckets ht ->
  0 <= counter ->
  counter + (Z.of_nat n + 1) * (NumBuckets ht * PerBucket ht) < 18446744073709551616 ->
  GetAll_heads fuel ht 0 n head counter keys vals =
  Ok (keys ++ map fst (getall_heads (Buf (HFile ht))
                         (map (chain_of ht) (seqZ head (Z.of_nat n)))),
      vals ++ map snd (getall_heads (Buf (HFile ht))
                         (map (chain_of ht) (seqZ head (Z.of_nat n))))).
Proof.
  induction n as [|n IH]; intros head counter keys vals wf Hfuel Hhead Hn Hc Hcount.
  { cbn [GetAll_heads Z.of_nat]. rewrite seqZ_nil by lia. cbn [map getall_heads].
    rewrite !app_nil_r. reflexivity. }
  pose proof (wf_positive ht wf) as (HBS & HIB & HNB).
  pose proof (wf_NumBuckets ht wf) as HIB'. pose proof (wf_PerBucket ht wf) as HPB.
  pose proof (wf_uint64 ht wf) as Hlen. pose proof (wf_bounds ht wf) as (_ & _ & HNB' & _).
  rewrite Nat2Z.inj_succ in *.
  assert (0 <= head < InitialBuckets ht) as Hh by lia.
  pose proof (buckets_ordered head (NumBuckets ht) (PerBucket ht) ltac:(lia) ltac:(lia)).
  assert (0 <= NumBuckets ht * PerBucket ht) as Hnp by (apply Z.mul_nonneg_nonneg; lia).
  assert (0 <= Z.of_nat n * (NumBuckets ht * PerBucket ht))
    by (apply Z.mul_nonneg_nonneg; lia).
  cbn [GetAll_heads]. rewrite regionMutex_ok by (try exact wf; lia). cbn [bind].
  rewrite GetAll_loop_scan; try exact wf; try lia.
  assert (slots_from fuel ht head 0 = chain_of ht head) as ->
    by (apply slots_from_stable; try exact wf; lia).
  rewrite seqZ_cons by lia. cbn [map getall_heads bind].
  pose proof (getall_scan_length (Buf (HFile ht)) (chain_of ht head)) as Hscan.
  pose proof (slots_from_length (Z.to_nat (NumBuckets ht * PerBucket ht)) ht head 0) as Hchain.
  fold (chain_of ht head) in Hchain.
  destruct (fst (getall_scan (Buf (HFile ht)) (chain_of ht head))).
  - rewrite app_nil_r. reflexivity.
  - rewrite (wrap_small (head + 1)) by lia.
    replace (Z.pred (Z.succ (Z.of_nat n))) with (Z.of_nat n) by lia.
    rewrite IH; try assumption; try lia.
    rewrite !map_app, !app_assoc. reflexivity.
Qed.

(** X21.  On every well-formed table in which the number of heads plus
    one, times the number of entries, is below [2^64] (the counter of
    [GetAll] cannot wrap around), [GetAll(0)] returns the valid entries of
    the chains of the heads 0, 1, 2, ... in order, each chain up to its
    first never-written entry, and nothing behind the first chain that has
    no such entry. *)
Theorem GetAll_is_scan ht fuel :
  wf_table ht ->
  NumBuckets ht * PerBucket ht <= Z.of_nat fuel ->
  (InitialBuckets ht + 1) * (NumBuckets ht * PerBucket ht) < 18446744073709551616 ->
  GetAll fuel ht 0 =
  Ok (map fst (getall_heads (Buf (HFile ht))
                 (map (chain_of ht) (seqZ 0 (InitialBuckets ht)))),
      map snd (getall_heads (Buf (HFile ht))
                 (map (chain_of ht) (seqZ 0 (InitialBuckets ht))))).
Proof.
  intros wf Hfuel Hcount.
  pose proof (wf_positive ht wf) as (_ & HIB & _). pose proof (wf_HashBits ht wf) as Hhb.
  unfold GetAll, pow2_uint64. destruct (Z.ltb_spec (HashBits ht) 64); [|lia].
  rewrite <- (wf_InitialBuckets ht wf).
  rewrite GetAll_heads_scan; try exact wf; try lia.
  rewrite Z2Nat.id by lia. reflexivity.
Qed.

Lemma GetAll_is_scan_witness :
  GetAll 8 tiny_opened 0 =
  Ok (map fst (getall_heads (Buf (HFile tiny_opened))
                 (map (chain_of tiny_opened) (seqZ 0 (InitialBuckets tiny_opened)))),
      map snd (getall_heads (Buf (HFile tiny_opened))
                 (map (chain_of tiny_opened) (seqZ 0 (InitialBuckets tiny_opened))))).
Proof.
  apply (GetAll_is_scan tiny_opened 8).
  - apply wf_tiny_opened.
  - vm_compute. congruence.
  - vm_compute. reflexivity.
Defined.

(** * The used size and the number of buckets *)

(** ** Any run of [Put], [Remove] and [grow] keeps the layout *)

Lemma first_not_valid (buf : list Z) (l : list Z) :
  Forall (fun x => flag_at buf x = ENTRY_VALID) l \/
  exists pre a post,
    l = pre ++ a :: post /\ Forall (fun x => flag_at buf x = ENTRY_VALID) pre /\
    flag_at buf a <> ENTRY_VALID.
Proof.
  induction l as [|x l IH]; [left; constructor|].
  destruct (Z.eq_dec (flag_at buf x) ENTRY_VALID) as [Hx | Hx].
  - destruct IH as [Hall | (pre & a & post & -> & Hpre & Ha)].
    + left. constructor; assumption.
    + right. exists (x :: pre), a, post. split; [reflexivity|].
      split; [constructor; assumption | exact Ha].
  - right. exists [], x, l. split; [reflexivity|]. split; [constructor | exact Hx].
Qed.

(** [Put] returns on a table with the layout, whatever its entries hold,
    and changes the number of buckets and the used size through [grow]
    alone. *)
Lemma Put_Rep_base ht owner key val fuel :
  Rep_base ht owner ->
  0 <= key < 18446744073709551616 -> 0 <= val < 18446744073709551616 ->
  Size (HFile ht) + BucketSize ht + 2097152 < 18446744073709551616 ->
  2 * ((NumBuckets ht + 1) * PerBucket ht) + NumBuckets ht + BucketSize ht / 1048576 + 6
    <= Z.of_nat fuel ->
  exists ht' owner',
    Put fuel ht key val = Ok ht' /\ Rep_base ht' owner' /\
    BucketSize ht' = BucketSize ht /\ HashBits ht' = HashBits ht /\
    PerBucket ht' = PerBucket ht /\ InitialBuckets ht' = InitialBuckets ht /\
    ((NumBuckets ht' = NumBuckets ht /\ UsedSize (HFile ht') = UsedSize (HFile ht)) \/
     (NumBuckets ht' = NumBuckets ht + 1 /\
      UsedSize (HFile ht') = UsedSize (HFile ht) + BucketSize ht)) /\
    Size (HFile ht') <= Size (HFile ht) + BucketSize ht + 1048576.
Proof.
  intros base Hkey Hval Hsize Hfuel. pose proof (rep_wf ht owner base) as wf.
  pose proof (wf_positive ht wf) as (HBS & _ & HNB).
  pose proof (wf_NumBuckets ht wf) as HIB. pose proof (wf_PerBucket ht wf) as HPB.
  assert (0 <= BucketSize ht / 1048576) by (apply Z.div_pos; lia).
  assert (0 <= NumBuckets ht * PerBucket ht) as Hnp by (apply Z.mul_nonneg_nonneg; lia).
  assert ((NumBuckets ht + 1) * PerBucket ht = NumBuckets ht * PerBucket ht + PerBucket ht)
    as Hnp1 by lia.
  assert (0 <= hashKey ht key < InitialBuckets ht) as Hh
    by (apply hashKey_range; [exact wf | lia]).
  destruct (first_not_valid (Buf (HFile ht)) (chain_of ht (hashKey ht key)))
    as [Hused | (pre & a & post & Hchain & Hpre & Ha)].
  - (* every entry of the chain is valid *)
    pose proof (slots_from_length (Z.to_nat (NumBuckets ht * PerBucket ht)) ht
                  (hashKey ht key) 0) as Hlen. fold (chain_of ht (hashKey ht key)) in Hlen.
    set (fuel' := (fuel - length (chain_of ht (hashKey ht key)))%nat).
    assert (Put fuel ht key val =
            (ht' <- grow fuel' ht (hashKey ht key) ;; Put fuel' ht' key val)) as HPut.
    { unfold Put at 1. rewrite regionMutex_ok by (try exact wf; lia). cbn [bind].
      rewrite Put_loop_full; try exact wf; try lia;
        rewrite (slots_from_chain ht owner base) by lia; [reflexivity|].
      exact Hused. }
    destruct (grow_layout ht owner (hashKey ht key) fuel' base Hh Hsize ltac:(lia))
      as (ht2 & owner2 & Hgrow & base2 & HBS2 & Hhb2 & HPB2 & HNB2 & HIB2 & Hsize2 & Hchains2
          & Hsame2 & Hnew & _).
    pose proof (Hchains2 _ Hh) as Hchain2.
    destruct (decide (hashKey ht key = hashKey ht key)) as [_ |]; [|congruence].
    unfold bucket_slots in Hchain2, Hnew. rewrite seqZ_cons in Hchain2, Hnew by lia.
    cbn [map] in Hchain2, Hnew. apply Forall_cons in Hnew as [Hnew_a _].
    assert (Forall (fun x => flag_at (Buf (HFile ht2)) x = ENTRY_VALID)
              (chain_of ht (hashKey ht key))) as Hused2.
    { rewrite Forall_forall in Hused |- *. intros x Hx.
      destruct (Hsame2 (hashKey ht key) x Hh Hx) as (-> & _). apply Hused, Hx. }
    set (pre := chain_of ht (hashKey ht key)) in *.
    rewrite <- (hashKey_same ht ht2 key Hhb2) in Hchain2.
    destruct (Put_at ht2 owner2 key val fuel' _ _ _ base2 Hkey Hval ltac:(lia)
                Hchain2 Hused2 (is_sentinel_not_valid _ _ Hnew_a))
      as (HPut2 & base3 & _).
    pose proof (rep_used ht owner base) as HU. pose proof (rep_used ht2 owner2 base2) as HU2.
    eexists _, owner2. rewrite HPut, Hgrow. cbn [bind]. split; [exact HPut2|].
    split; [exact base3|].
    cbn [with_Buf with_File set_Buf BucketSize HashBits PerBucket InitialBuckets NumBuckets
         HFile Size UsedSize].
    do 4 (split; [assumption|]). split; [|lia].
    right. split; [exact HNB2|]. rewrite HU, HU2, HNB2, HBS2. lia.
  - (* the chain has an entry that is not valid *)
    destruct (Put_at ht owner key val fuel pre a post base Hkey Hval ltac:(lia)
                Hchain Hpre Ha) as (HPut & base' & _).
    eexists _, owner. split; [exact HPut|]. split; [exact base'|].
    cbn [with_Buf with_File set_Buf BucketSize HashBits PerBucket InitialBuckets NumBuckets
         HFile Size UsedSize].
    do 4 (split; [reflexivity|]). split; [left; split; reflexivity | lia].
Qed.

(** [Remove] returns on a table with the layout and changes the buffer
    alone. *)
Lemma Remove_Rep_base ht owner key val fuel :
  Rep_base ht owner -> 0 <= key ->
  NumBuckets ht * PerBucket ht <= Z.of_nat fuel ->
  exists ht',
    Remove fuel ht key val = Ok ht' /\ Rep_base ht' owner /\
    BucketSize ht' = BucketSize ht /\ HashBits ht' = HashBits ht /\
    PerBucket ht' = PerBucket ht /\ InitialBuckets ht' = InitialBuckets ht /\
    NumBuckets ht' = NumBuckets ht /\ UsedSize (HFile ht') = UsedSize (HFile ht) /\
    Size (HFile ht') = Size (HFile ht).
Proof.
  intros base Hkey Hfuel.
  pose proof (Remove_at ht owner key val fuel base Hkey Hfuel) as HR.
  destruct (remove_scan (Buf (HFile ht)) key val (chain_of ht (hashKey ht key))) as [a|].
  - destruct HR as (HRemove & base' & _).
    eexists. split; [exact HRemove|]. split; [exact base'|]. repeat split.
  - exists ht. split; [exact HR|]. split; [exact base|]. repeat split.
Qed.

(** [grow] of a head bucket returns on a table with the layout and moves
    the number of buckets and the used size together, by one bucket. *)
Lemma grow_Rep_base ht owner h fuel :
  Rep_base ht owner -> 0 <= h < InitialBuckets ht ->
  Size (HFile ht) + BucketSize ht + 2097152 < 18446744073709551616 ->
  NumBuckets ht + BucketSize ht / 1048576 + 6 <= Z.of_nat fuel ->
  exists ht' owner',
    grow fuel ht h = Ok ht' /\ Rep_base ht' owner' /\
    BucketSize ht' = BucketSize ht /\ HashBits ht' = HashBits ht /\
    PerBucket ht' = PerBucket ht /\ InitialBuckets ht' = InitialBuckets ht /\
    NumBuckets ht' = NumBuckets ht + 1 /\
    UsedSize (HFile ht') = UsedSize (HFile ht) + BucketSize ht /\
    Size (HFile ht') <= Size (HFile ht) + BucketSize ht + 1048576.
Proof.
  intros base Hh Hsize Hfuel.
  destruct (grow_layout ht owner h fuel base Hh Hsize Hfuel)
    as (ht2 & owner2 & Hgrow & base2 & HBS2 & Hhb2 & HPB2 & HNB2 & HIB2 & Hsize2 & _).
  pose proof (rep_used ht owner base) as HU. pose proof (rep_used ht2 owner2 base2) as HU2.
  exists ht2, owner2. split; [exact Hgrow|]. split; [exact base2|].
  do 5 (split; [assumption|]). split; [|lia].
  rewrite HU, HU2, HNB2, HBS2. lia.
Qed.

Lemma run_Rep_base ops : forall ht owner fuel,
  Rep_base ht owner -> Forall (table_op (HashBits ht)) ops ->
  Size (HFile ht) + (Z.of_nat (length ops) + 1) * (BucketSize ht + 1048576) + 1048576
    < 18446744073709551616 ->
  2 * ((NumBuckets ht + Z.of_nat (length ops) + 1) * PerBucket ht) + NumBuckets ht
    + Z.of_nat (length ops) + BucketSize ht / 1048576 + 6 <= Z.of_nat fuel ->
  exists ht' owner',
    run fuel ops ht = Ok ht' /\ Rep_base ht' owner' /\
    BucketSize ht' = BucketSize ht /\ HashBits ht' = HashBits ht /\
    PerBucket ht' = PerBucket ht /\ InitialBuckets ht' = InitialBuckets ht /\
    NumBuckets ht <= NumBuckets ht' <= NumBuckets ht + Z.of_nat (length ops) /\
    Size (HFile ht') <= Size (HFile ht) + Z.of_nat (length ops) * (BucketSize ht + 1048576).
Proof.
  induction ops as [|o ops IH]; intros ht owner fuel base Hops Hsize Hfuel.
  { exists ht, owner. cbn [run length]. split; [reflexivity|]. split; [exact base|].
    repeat split; lia. }
  apply Forall_cons in Hops as [Ho Hops].
  pose proof (rep_wf ht owner base) as wf.
  pose proof (wf_positive ht wf) as (HBS & _ & HNB). pose proof (wf_PerBucket ht wf) as HPB.
  pose proof (wf_InitialBuckets ht wf) as HIB. pose proof (wf_NumBuckets ht wf) as HIBle.
  cbn [length] in *. rewrite Nat2Z.inj_succ in *.
  set (n := Z.of_nat (length ops)) in *. assert (0 <= n) by lia.
  assert (0 <= n * (BucketSize ht + 1048576)) by (apply Z.mul_nonneg_nonneg; lia).
  assert (0 <= BucketSize ht / 1048576) by (apply Z.div_pos; lia).
  assert ((NumBuckets ht + 1) * PerBucket ht <= (NumBuckets ht + Z.succ n + 1) * PerBucket ht)
    by (apply Z.mul_le_mono_nonneg_r; lia).
  assert (NumBuckets ht * PerBucket ht <= (NumBuckets ht + 1) * PerBucket ht)
    by (apply Z.mul_le_mono_nonneg_r; lia).
  assert (0 <= (NumBuckets ht + 1) * PerBucket ht) by (apply Z.mul_nonneg_nonneg; lia).
  assert (exists ht1 owner1,
             apply_op fuel ht o = Ok ht1 /\ Rep_base ht1 owner1 /\
             BucketSize ht1 = BucketSize ht /\ HashBits ht1 = HashBits ht /\
             PerBucket ht1 = PerBucket ht /\ InitialBuckets ht1 = InitialBuckets ht /\
             NumBuckets ht <= NumBuckets ht1 <= NumBuckets ht + 1 /\
             Size (HFile ht1) <= Size (HFile ht) + BucketSize ht + 1048576)
    as (ht1 & owner1 & Hop & base1 & HBS1 & Hhb1 & HPB1 & HIB1 & HNB1 & Hsize1).
  { destruct o as [key val | key val | b]; cbn [table_op apply_op] in *.
    - destruct Ho as (Hkey & Hval).
      destruct (Put_Rep_base ht owner key val fuel base Hkey Hval ltac:(lia) ltac:(lia))
        as (ht1 & owner1 & HP & base1 & ? & ? & ? & ? & Hmove & ?).
      exists ht1, owner1. split; [exact HP|]. split; [exact base1|].
      repeat split; first [assumption | lia].
    - destruct Ho as (Hkey & Hval).
      destruct (Remove_Rep_base ht owner key val fuel base ltac:(lia) ltac:(lia))
        as (ht1 & HR & base1 & ? & ? & ? & ? & ? & ? & ?).
      exists ht1, owner. split; [exact HR|]. split; [exact base1|].
      repeat split; first [assumption | lia].
    - destruct (grow_Rep_base ht owner b fuel base ltac:(lia) ltac:(lia) ltac:(lia))
        as (ht1 & owner1 & HG & base1 & ? & ? & ? & ? & ? & ? & ?).
      exists ht1, owner1. split; [exact HG|]. split; [exact base1|].
      repeat split; first [assumption | lia]. }
  assert ((NumBuckets ht1 + n + 1) * PerBucket ht <= (NumBuckets ht + Z.succ n + 1) * PerBucket ht)
    by (apply Z.mul_le_mono_nonneg_r; lia).
  destruct (IH ht1 owner1 fuel base1)
    as (ht' & owner' & Hrun & base' & HBS' & Hhb' & HPB' & HIB' & HNB' & Hsize');
    rewrite ?HBS1, ?HPB1, ?Hhb1; try assumption; try lia.
  rewrite HBS1 in Hsize'.
  exists ht', owner'. cbn [run]. rewrite Hop. cbn [bind].
  split; [exact Hrun|]. split; [exact base'|].
  repeat split; first [congruence | lia].
Qed.

(** ** The invariant of the specification *)

(** C5, as amended.  The Go expression [numBuckets*bucketSize == usedSize]
    holds, in uint64, of every table that [OpenHash] returns and of the
    table after every run of [Put], [Remove] and [grow] that returns; it is
    an equality of numbers where the product is below [2^64].  On a new
    file, with at most [2^19] head buckets and sizes that stay below
    [2^64], [OpenHash] and every such run return, and the equality of
    numbers holds after them.  On the table [ht] after the run, [grow] of
    every head bucket returns with [numBuckets] one larger and [usedSize]
    larger by [bucketSize]; [Remove] of every pair returns and changes
    neither field; [Put] of every pair returns, with both fields as they
    were or both advanced as by one [grow].  [Get] and [GetAll] return
    lists and write no field of the table. *)
Theorem used_size_invariant hb pb ops :
  2 <= hb <= 19 -> 2 <= pb -> Forall (table_op hb) ops ->
  (2 ^ hb + Z.of_nat (length ops) + 2) * (10 + 21 * pb)
    + (Z.of_nat (length ops) + 4) * 1048576 < 18446744073709551616 ->
  (forall fuel disk hashBits perBucket ops' t0 t,
     OpenHash fuel disk hashBits perBucket = Ok t0 -> run fuel ops' t0 = Ok t ->
     buckets_fill_used_uint64 t0 /\ buckets_fill_used_uint64 t /\
     (0 <= NumBuckets t * BucketSize t < 18446744073709551616 -> buckets_fill_used t)) /\
  exists F, forall fuel, (F <= fuel)%nat ->
    exists ht0 ht,
      OpenHash fuel [] hb pb = Ok ht0 /\
      run fuel ops ht0 = Ok ht /\
      buckets_fill_used ht0 /\ buckets_fill_used ht /\
      BucketSize ht = BucketSize ht0 /\
      NumBuckets ht0 <= NumBuckets ht <= NumBuckets ht0 + Z.of_nat (length ops) /\
      (forall bucket, 0 <= bucket < 2 ^ hb ->
         exists ht',
           grow fuel ht bucket = Ok ht' /\
           NumBuckets ht' = NumBuckets ht + 1 /\
           UsedSize (HFile ht') = UsedSize (HFile ht) + BucketSize ht /\
           BucketSize ht' = BucketSize ht /\ buckets_fill_used ht') /\
      (forall key val,
         0 <= key < 18446744073709551616 -> 0 <= val < 18446744073709551616 ->
         exists ht',
           Remove fuel ht key val = Ok ht' /\
           NumBuckets ht' = NumBuckets ht /\
           UsedSize (HFile ht') = UsedSize (HFile ht) /\
           BucketSize ht' = BucketSize ht) /\
      (forall key val,
         0 <= key < 18446744073709551616 -> 0 <= val < 18446744073709551616 ->
         exists ht',
           Put fuel ht key val = Ok ht' /\
           BucketSize ht' = BucketSize ht /\ buckets_fill_used ht' /\
           ((NumBuckets ht' = NumBuckets ht /\
             UsedSize (HFile ht') = UsedSize (HFile ht)) \/
            (NumBuckets ht' = NumBuckets ht + 1 /\
             UsedSize (HFile ht') = UsedSize (HFile ht) + BucketSize ht))).
Proof.
  intros Hhb Hpb Hops Hsize. split.
  { intros fuel disk hashBits perBucket ops' t0 t HO Hrun.
    pose proof (OpenHash_invariant _ _ _ _ _ HO) as H0.
    pose proof (run_keeps_invariant _ _ _ _ Hrun H0) as Ht.
    split; [exact H0|]. split; [exact Ht|].
    intros Hsmall. unfold buckets_fill_used, buckets_fill_used_uint64 in *.
    rewrite <- Ht. symmetry. apply wrap_small. lia. }
  set (n := Z.of_nat (length ops)) in *. assert (0 <= n) as Hn by lia.
  assert (0 < 2 ^ hb <= 524288) as Hpow.
  { split; [apply Z.pow_pos_nonneg; lia|].
    change 524288 with (2 ^ 19). apply Z.pow_le_mono_r; lia. }
  assert (0 <= n * (10 + 21 * pb + 1048576)) by (apply Z.mul_nonneg_nonneg; lia).
  assert (0 <= 2 ^ hb * (10 + 21 * pb)) by (apply Z.mul_nonneg_nonneg; lia).
  assert (params_fit hb pb) as Hfit by (unfold params_fit; lia).
  pose proof (fresh_Size_bounds hb pb Hfit) as (Hmin & Hheads & Hmax & _).
  assert (0 <= fresh_Size hb pb / 1048576) by (apply Z.div_pos; lia).
  assert (0 <= (10 + 21 * pb) / 1048576) by (apply Z.div_pos; lia).
  assert (0 <= (2 ^ hb + n + 1) * pb) by (apply Z.mul_nonneg_nonneg; lia).
  exists (Z.to_nat (fresh_Size hb pb / 1048576 + 2 * ((2 ^ hb + n + 1) * pb) + 2 ^ hb + n
                    + (10 + 21 * pb) / 1048576 + 11)).
  intros fuel Hfuel.
  destruct (Rep_fresh hb pb Hfit ltac:(lia)) as [base0 _].
  assert (HashBits (fresh_table hb pb) = hb) as Hhb0 by reflexivity.
  destruct (run_Rep_base ops (fresh_table hb pb) _ fuel base0)
    as (ht & owner & Hrun & base & HBS & Hhb' & HPB & HIB & HNB & Hsize');
    cbn [fresh_table HFile Size BucketSize NumBuckets PerBucket HashBits]; fold n;
    try assumption; try lia.
  cbn [fresh_table HFile Size BucketSize NumBuckets PerBucket HashBits InitialBuckets]
    in HBS, Hhb', HPB, HIB, HNB, Hsize'. fold n in HNB, Hsize'.
  pose proof (rep_wf _ _ base) as wf.
  pose proof (wf_positive _ wf) as (_ & _ & HNBpos).
  assert ((NumBuckets ht + 1) * PerBucket ht <= (2 ^ hb + n + 1) * pb)
    by (rewrite HPB; apply Z.mul_le_mono_nonneg_r; lia).
  assert (NumBuckets ht * PerBucket ht <= (NumBuckets ht + 1) * PerBucket ht)
    by (rewrite HPB; apply Z.mul_le_mono_nonneg_r; lia).
  assert (0 <= NumBuckets ht * PerBucket ht)
    by (rewrite HPB; apply Z.mul_nonneg_nonneg; lia).
  exists (fresh_table hb pb), ht.
  split; [apply OpenHash_new_file; [exact Hfit | lia]|]. split; [exact Hrun|].
  split; [symmetry; apply (rep_used _ _ base0)|].
  split; [symmetry; apply (rep_used _ _ base)|].
  split; [exact HBS|]. split; [exact HNB|].
  split; [|split].
  - intros bucket Hb.
    destruct (grow_Rep_base ht owner bucket fuel base ltac:(rewrite HIB; lia)
                ltac:(rewrite HBS; lia) ltac:(rewrite HBS; lia))
      as (ht' & owner' & HG & base' & HBS' & _ & _ & _ & HNB' & HU' & _).
    exists ht'. split; [exact HG|]. split; [exact HNB'|]. split; [exact HU'|].
    split; [exact HBS'|]. symmetry. apply (rep_used _ _ base').
  - intros key val Hkey Hval.
    destruct (Remove_Rep_base ht owner key val fuel base)
      as (ht' & HR & _ & HBS' & _ & _ & _ & HNB' & HU' & _); try lia.
    exists ht'. split; [exact HR|]. split; [exact HNB'|]. split; [exact HU'|]. exact HBS'.
  - intros key val Hkey Hval.
    destruct (Put_Rep_base ht owner key val fuel base Hkey Hval
                ltac:(rewrite HBS; lia) ltac:(rewrite HBS; lia))
      as (ht' & owner' & HP & base' & HBS' & _ & _ & _ & Hmove & _).
    exists ht'. split; [exact HP|]. split; [exact HBS'|].
    split; [symmetry; apply (rep_used _ _ base')|]. exact Hmove.
Qed.

Lemma used_size_invariant_witness :
  (forall fuel disk hashBits perBucket ops' t0 t,
     OpenHash fuel disk hashBits perBucket = Ok t0 -> run fuel ops' t0 = Ok t ->
     buckets_fill_used_uint64 t0 /\ buckets_fill_used_uint64 t /\
     (0 <= NumBuckets t * BucketSize t < 18446744073709551616 -> buckets_fill_used t)) /\
  exists F, forall fuel, (F <= fuel)%nat ->
    exists ht0 ht,
      OpenHash fuel [] 2 2 = Ok ht0 /\
      run fuel [OpPut 1 9; OpPut 5 7; OpPut 9 5; OpRemove 5 7; OpGrow 0; OpPut 0 0] ht0
        = Ok ht /\
      buckets_fill_used ht0 /\ buckets_fill_used ht /\
      BucketSize ht = BucketSize ht0 /\
      NumBuckets ht0 <= NumBuckets ht <= NumBuckets ht0 + 6 /\
      (forall bucket, 0 <= bucket < 2 ^ 2 ->
         exists ht',
           grow fuel ht bucket = Ok ht' /\
           NumBuckets ht' = NumBuckets ht + 1 /\
           UsedSize (HFile ht') = UsedSize (HFile ht) + BucketSize ht /\
           BucketSize ht' = BucketSize ht /\ buckets_fill_used ht') /\
      (forall key val,
         0 <= key < 18446744073709551616 -> 0 <= val < 18446744073709551616 ->
         exists ht',
           Remove fuel ht key val = Ok ht' /\
           NumBuckets ht' = NumBuckets ht /\
           UsedSize (HFile ht') = UsedSize (HFile ht) /\
           BucketSize ht' = BucketSize ht) /\
      (forall key val,
         0 <= key < 18446744073709551616 -> 0 <= val < 18446744073709551616 ->
         exists ht',
           Put fuel ht key val = Ok ht' /\
           BucketSize ht' = BucketSize ht /\ buckets_fill_used ht' /\
           ((NumBuckets ht' = NumBuckets ht /\
             UsedSize (HFile ht') = UsedSize (HFile ht)) \/
            (NumBuckets ht' = NumBuckets ht + 1 /\
             UsedSize (HFile ht') = UsedSize (HFile ht) + BucketSize ht))).
Proof.
  apply (used_size_invariant 2 2
           [OpPut 1 9; OpPut 5 7; OpPut 9 5; OpRemove 5 7; OpGrow 0; OpPut 0 0]).
  - lia.
  - lia.
  - repeat constructor; cbn [table_op]; lia.
  - cbn [length]. lia.
Defined.

(** [OpenHash(name, 2, 219604096115589900)] on a new file returns a table
    of four buckets of [2^62 + 6] bytes each whose used size is 24: the
    product of the two is [2^64 + 24]. *)
Lemma OpenHash_wraps_used_size :
  exists ht,
    OpenHash 6 [] 2 219604096115589900 = Ok ht /\
    NumBuckets ht = 4 /\ BucketSize ht = 4611686018427387910 /\
    UsedSize (HFile ht) = 24 /\
    NumBuckets ht * BucketSize ht = 18446744073709551640 /\
    ~ buckets_fill_used ht.
Proof.
  unfold OpenHash. change ((2 <? 2) || (219604096115589900 <? 2)) with false. cbv iota.
  unfold HASH_TABLE_GROWTH.
  rewrite Open_new_file; [|lia|unfold FILE_GROWTH_INCREMENTAL; lia|
    unfold FILE_GROWTH_INCREMENTAL; change (1048576 / 1048576) with 1; lia].
  cbn [bind]. rewrite (appended_from_whole 1048576) by (try lia; reflexivity).
  unfold set_UsedSize. cbn [Size UsedSize Growth Buf].
  unfold BUCKET_HEADER_SIZE, ENTRY_SIZE, HASH_TABLE_REGION_SIZE.
  change (wrap (10 + (1 + 10 + 10) * 219604096115589900)) with 4611686018427387910.
  change (4611686018427387910 =? 0) with false. cbv iota.
  change (1048576 / 4611686018427387910) with 0.
  change (pow2_uint64 2) with 4. change (1048576 / (1024 * 16) + 1) with 65.
  change (Z.to_nat 4) with 4%nat.
  rewrite longestChain_zeros; cbn [BucketSize NumBuckets HFile Size Buf]; try lia;
    [|reflexivity].
  cbn [bind]. change (wrap (4 * 4611686018427387910)) with 24.
  change (1048576 <? 24) with false. cbv iota. cbn [bind].
  eexists. split; [reflexivity|].
  unfold buckets_fill_used. cbn [NumBuckets BucketSize HFile UsedSize].
  repeat split; lia.
Qed.
